(** * Especia: profile functions, random numbers, eigenproblem driver and model

    A shallow embedding of the parts of Especia that its specification makes
    statements about, together with the proofs of those statements.

    Conventions of the embedding.
    - [double] ([R_type], [Real_t]) is modelled by the real numbers [R]:
      arithmetic is exact, there is no rounding, no overflow and no NaN.
    - [unsigned long] and [word64] are modelled by [Z] reduced modulo [2^64]
      after every operation that can leave the range.
    - [std::valarray] and [std::vector] are lists; reading or writing outside
      of a list is undefined in C++ and yields [None] here.
    - [std::map<std::string, size_t>] is a list of pairs kept strictly sorted
      by key, because the code iterates over its maps in key order. *)

From Stdlib Require Import ZArith Reals Lra Lia List String Ascii Bool.
From stdpp Require Import list.
Import ListNotations.

(** ** Arrays *)

(** [a[i]] for an array that is read, [None] outside of the array. *)
Definition at_ {A : Type} (a : list A) (i : nat) : option A := a !! i.

(** [a[i] = v] for an array that is written, [None] outside of the array. *)
Definition put_ {A : Type} (a : list A) (i : nat) (v : A) : option (list A) :=
  if Nat.ltb i (length a) then Some (<[i:=v]> a) else None.

(** * Profile functions (profiles.h, profiles.cxx) *)

Module Profiles.

Local Open Scope R_scope.

(** Modelled from the spec: the constant [especia::micro] that profiles.cxx
    imports from a version of base.h that is not part of the sources; the
    specification and the documentation of [q[7]] give its value, 1E-6. *)
Definition micro : R := 1e-6.

(** [especia::sqr] of base.h. *)
Definition sqr (x : R) : R :=
  if Req_dec_T x 0 then 0 else x * x.

(** [truncate] of profiles.h: the value of [f] at [x] if the absolute value
    of [x] is less than [c] widths [b], zero otherwise. *)
Definition truncate (f : R -> R -> R) (x b c : R) : R :=
  if Rlt_dec (Rabs x) (c * b) then f x b else 0.

Section Constants.

(** The physical constants of base.h in the version that profiles.cxx
    includes. Their declarations are not part of the sources. *)
Variables sqrt_of_pi speed_of_light elementary_charge electric_constant electron_mass : R.

(** The Gaussian [f_g] of profiles.cxx. *)
Definition f_g (x gamma : R) : R :=
  (1 / (sqrt_of_pi * gamma)) * exp (- sqr (x / gamma)).

Definition C0 : R := 1e-3 * speed_of_light.

Definition C1 : R :=
  1e-6 * sqr elementary_charge /
  (4 * electric_constant * electron_mass * sqr speed_of_light).

(** The data members of [G_Doppler]. *)
Record G_Doppler : Type := mkG {
  g_c : R;   (* the central wavelength *)
  g_b : R;   (* the Doppler width *)
  g_a : R    (* the amplitude *)
}.

(** [G_Doppler::G_Doppler(const double q[])]. *)
Definition G_Doppler_new (q : list R) : option G_Doppler :=
  match q with
  | q0 :: q1 :: q2 :: q3 :: q4 :: q5 :: _ =>
      let c := q0 * (1 + q2) * (1 + q3 / C0) in
      let b := q4 * c / C0 in
      let a := C1 * q1 * Rpower 10 q5 * (q0 * c) in
      Some (mkG c b a)
  | _ => None
  end.

(** [G_Doppler::operator()]. *)
Definition G_Doppler_call (p : G_Doppler) (x : R) : R :=
  g_a p * truncate f_g (x - g_c p) (g_b p) 4.

(** The data members of [A_Doppler] (the many-multiplet profile). *)
Record A_Doppler : Type := mkA {
  a_u : R;   (* the modified rest wavelength *)
  a_c : R;   (* the central wavelength *)
  a_b : R;   (* the Doppler width *)
  a_a : R    (* the amplitude *)
}.

(** [A_Doppler::A_Doppler(const double q[])]. *)
Definition A_Doppler_new (q : list R) : option A_Doppler :=
  match q with
  | q0 :: q1 :: q2 :: q3 :: q4 :: q5 :: q6 :: q7 :: _ =>
      let u := 1e8 / (1e8 / q0 + q6 * (q7 * micro) * (q7 * micro + 2)) in
      let c := u * (1 + q2) * (1 + q3 / C0) in
      let b := q4 * c / C0 in
      let a := C1 * q1 * Rpower 10 q5 * (u * c) in
      Some (mkA u c b a)
  | _ => None
  end.

(** [A_Doppler::operator()]. *)
Definition A_Doppler_call (p : A_Doppler) (x : R) : R :=
  a_a p * truncate f_g (x - a_c p) (a_b p) 4.

(** [Superposition<P>::operator()]: the sum of the profiles at [x]. *)
Definition Superposition_call {P : Type} (call : P -> R -> R)
    (profiles : list P) (x : R) : R :=
  fold_left (fun d p => d + call p x) profiles 0.

End Constants.

(** The adjusted rest wavelength as the specification words it, with
    [mu = q[7] * 1e-6] and the factor [k] on the relativistic correction. *)
Definition adjusted_rest_wavelength (k q0 q6 q7 : R) : R :=
  let mu := q7 * 1e-6 in
  1 / (1 / q0 + q6 * (mu * mu + 2 * mu) * k).

End Profiles.

(** ** Counted loops and machine words *)

(** [for (k = k0; ...; ++k)] run [count] times on a state; the body may
    leave the arrays it works on, which ends the run with [None]. *)
Fixpoint for_up {T : Type} (count k0 : nat) (body : nat -> T -> option T)
    (st : T) : option T :=
  match count with
  | O => Some st
  | S count' =>
      match body k0 st with
      | Some st' => for_up count' (S k0) body st'
      | None => None
      end
  end.

(** [for (k = lo; k < hi; ++k) body]. *)
Definition for_ {T : Type} (lo hi : nat) (body : nat -> T -> option T)
    (st : T) : option T :=
  for_up (hi - lo) lo body st.

(** The 64-bit unsigned words of [unsigned long] and [word64]. *)
Module Word.

Local Open Scope Z_scope.

(** [numeric_limits<word>::digits] *)
Definition digits : Z := 64.

(** [numeric_limits<word>::max()] *)
Definition max : Z := 2 ^ 64 - 1.

(** Reduction of the result of [+], [-], [*] and [<<] to 64 bits. *)
Definition wrap (x : Z) : Z := x mod 2 ^ 64.

Definition add (x y : Z) : Z := wrap (x + y).
Definition sub (x y : Z) : Z := wrap (x - y).
Definition mul (x y : Z) : Z := wrap (x * y).
Definition shl (x k : Z) : Z := wrap (Z.shiftl x k).
Definition shr (x k : Z) : Z := Z.shiftr x k.

End Word.

(** * The Mersenne twister of mtwister.h *)

Module Mtwister.

Local Open Scope Z_scope.

(** The template parameters of [especia::mersenne_twister], in the notation
    of Matsumoto and Nishimura (1998, Table 2). *)
Record parameters : Type := {
  w : Z; n : nat; m : nat; r : Z;
  a : Z;
  u : Z;
  s : Z; b : Z;
  t : Z; c : Z;
  l : Z
}.

(** The predefined algorithm [especia::mt19937]. *)
Definition mt19937 : parameters :=
  {| w := 32; n := 624; m := 397; r := 31;
     a := 0x9908b0df;
     u := 11;
     s := 7; b := 0x9d2c5680;
     t := 15; c := 0xefc60000;
     l := 18 |}.

(** The data members of the functor. *)
Record mersenne_twister : Type := {
  words : list Z;
  i : nat
}.

Section Algorithm.

Variable P : parameters.

(** [numeric_limits<word>::max() >> (numeric_limits<word>::digits - w)] *)
Definition word_mask : Z := Word.shr Word.max (Word.digits - w P).

(** [void reset(unsigned long seed, unsigned long multiplier)] *)
Definition reset (seed multiplier : Z) (g : mersenne_twister) : option mersenne_twister :=
  x ← put_ (words g) 0 (Z.land seed word_mask);
  x ← for_ 1 (n P) (fun k x =>
         p ← at_ x (k - 1);
         put_ x k (Z.land
                     (Word.add (Word.mul multiplier (Z.lxor p (Word.shr p (r P - 1))))
                               (Z.of_nat k))
                     word_mask)) x;
  Some {| words := x; i := n P |}.

(** [mersenne_twister(unsigned long seed = 5489, unsigned long multiplier = 1812433253)] *)
Definition new (seed multiplier : Z) : option mersenne_twister :=
  reset seed multiplier {| words := replicate (n P) 0; i := 0%nat |}.

(** [void twist(unsigned i, unsigned j, unsigned k)] *)
Definition twist (i j k : nat) (x : list Z) : option (list Z) :=
  xi ← at_ x i;
  xj ← at_ x j;
  xk ← at_ x k;
  x ← put_ x j
        (Z.lxor xi
           (Word.shr
              (Z.lor
                 (Z.land xj
                    (Word.shr (Word.shl Word.max (Word.digits - w P + r P))
                              (Word.digits - w P)))
                 (Z.land xk (Word.shr Word.max (Word.digits - r P))))
              1));
  xk ← at_ x k;
  if Z.land xk 1 =? 1
  then xj ← at_ x j; put_ x j (Z.lxor xj (a P))
  else Some x.

(** [unsigned long rand()] *)
Definition rand (g : mersenne_twister) : option (Z * mersenne_twister) :=
  g ← (if Nat.eqb (i g) (n P)
       then
         x ← for_ 0 (n P - m P) (fun k => twist (k + m P) k (k + 1)) (words g);
         x ← for_ (n P - m P) (n P - 1) (fun k => twist (k + m P - n P) k (k + 1)) x;
         x ← twist (m P - 1) (n P - 1) 0 x;
         Some {| words := x; i := 0%nat |}
       else Some g);
  y ← at_ (words g) (i g);
  let g := {| words := words g; i := S (i g) |} in
  let y := if 0 <? u P then Z.lxor y (Word.shr y (u P)) else y in
  let y := Z.lxor y (Z.land (Word.shl y (s P)) (b P)) in
  let y := Z.lxor y (Z.land (Word.shl y (t P)) (c P)) in
  let y := Z.lxor y (Word.shr y (l P)) in
  Some (y, g).

(** [double operator()()]: division by [2^w - 1]. *)
Definition call (g : mersenne_twister) : option (R * mersenne_twister) :=
  '(y, g) ← rand g;
  Some ((IZR y * (1 / IZR word_mask))%R, g).

(** The first [k] words that [rand] returns. *)
Fixpoint draw (k : nat) (g : mersenne_twister) : option (list Z) :=
  match k with
  | O => Some []
  | S k' =>
      '(y, g) ← rand g;
      ys ← draw k' g;
      Some (y :: ys)
  end.

(** The state after [k] calls of [rand]. *)
Fixpoint skip (k : nat) (g : mersenne_twister) : option mersenne_twister :=
  match k with
  | O => Some g
  | S k' => '(_, g) ← rand g; skip k' g
  end.

(** [if (++i >= n) { words[0] = words[n - 1]; i = 1; }] *)
Definition advance (x : list Z) (i : nat) : option (list Z * nat) :=
  let i := S i in
  if Nat.leb (n P) i
  then
    z ← at_ x (n P - 1);
    x ← put_ x 0 z;
    Some (x, 1%nat)
  else Some (x, i).

(** [void reset(unsigned seed_count, const unsigned long seeds[])] *)
Definition reset_seeds (seed_count : nat) (seeds : list Z) (g : mersenne_twister)
    : option mersenne_twister :=
  g ← reset 19650218 1812433253 g;
  '(x, i, _) ← for_up (Nat.max (n P) seed_count) 0 (fun _ '(x, i, j) =>
       xi ← at_ x i;
       p ← at_ x (i - 1);
       sj ← at_ seeds j;
       x ← put_ x i (Z.land
                       (Word.add
                          (Word.add
                             (Z.lxor xi (Word.mul (Z.lxor p (Word.shr p (r P - 1))) 1664525))
                             sj)
                          (Z.of_nat j))
                       word_mask);
       '(x, i) ← advance x i;
       let j := S j in
       let j := if Nat.leb seed_count j then 0%nat else j in
       Some (x, i, j)) (words g, 1%nat, 0%nat);
  '(x, i) ← for_up (n P - 1) 0 (fun _ '(x, i) =>
       xi ← at_ x i;
       p ← at_ x (i - 1);
       x ← put_ x i (Z.land
                       (Word.sub
                          (Z.lxor xi (Word.mul (Z.lxor p (Word.shr p (r P - 1))) 1566083941))
                          (Z.of_nat i))
                       word_mask);
       advance x i) (x, i);
  x ← put_ x 0 (Word.shl 1 (w P - 1));
  Some {| words := x; i := n P |}.

(** [mersenne_twister(unsigned seed_count, const unsigned long seeds[])] *)
Definition new_seeds (seed_count : nat) (seeds : list Z) : option mersenne_twister :=
  reset_seeds seed_count seeds {| words := replicate (n P) 0; i := 0%nat |}.

(** The first [k] numbers that [operator()()] returns. *)
Fixpoint numbers (k : nat) (g : mersenne_twister) : option (list R) :=
  match k with
  | O => Some []
  | S k' =>
      '(x, g) ← call g;
      xs ← numbers k' g;
      Some (x :: xs)
  end.

End Algorithm.

End Mtwister.

(** * The Mersenne twister of random.h *)

Module Random.

Local Open Scope Z_scope.

(** The template parameters of [especia::Mersenne_Twister]. *)
Record parameters : Type := {
  w : Z; n : nat; m : nat; r : Z;
  a : Z;
  u : Z; d : Z;
  s : Z; b : Z;
  t : Z; c : Z;
  l : Z;
  mult1 : Z;
  mult2 : Z;
  mult3 : Z
}.

(** The MT-1121A-32. *)
Definition Mt11213a_32 : parameters :=
  {| w := 32; n := 351; m := 175; r := 19; a := 0xE4BD75F5;
     u := 11; d := 0xFFFFFFFF; s := 7; b := 0x655E5280;
     t := 15; c := 0xFFD58000; l := 17;
     mult1 := 1812433253; mult2 := 1664525; mult3 := 1566083941 |}.

(** The MT-1121B-32. *)
Definition Mt11213b_32 : parameters :=
  {| w := 32; n := 351; m := 175; r := 19; a := 0xCCAB8EE7;
     u := 11; d := 0xFFFFFFFF; s := 7; b := 0x31B6AB00;
     t := 15; c := 0xFFE50000; l := 17;
     mult1 := 1812433253; mult2 := 1664525; mult3 := 1566083941 |}.

(** The MT-19937-32. *)
Definition Mt19937_32 : parameters :=
  {| w := 32; n := 624; m := 397; r := 31; a := 0x9908B0DF;
     u := 11; d := 0xFFFFFFFF; s := 7; b := 0x9D2C5680;
     t := 15; c := 0xEFC60000; l := 18;
     mult1 := 1812433253; mult2 := 1664525; mult3 := 1566083941 |}.

(** The MT-19937-64. *)
Definition Mt19937_64 : parameters :=
  {| w := 64; n := 312; m := 156; r := 31; a := 0xB5026F5AA96619E9;
     u := 29; d := 0x5555555555555555; s := 17; b := 0x71D67FFFEDA60000;
     t := 37; c := 0xFFF7EEE000000000; l := 43;
     mult1 := 6364136223846793005; mult2 := 3935559000370003845;
     mult3 := 2862933555777941757 |}.

(** The (mutable) data members of the functor. *)
Record Mersenne_Twister : Type := {
  state : list Z;
  index : nat
}.

(** [numeric_limits<real>::digits] for [double]. *)
Definition real_digits : Z := 53.

Section Algorithm.

Variable P : parameters.

(** [numeric_limits<word64>::max() >> (numeric_limits<word64>::digits - w)] *)
Definition word_mask : Z := Word.shr Word.max (Word.digits - w P).

(** [void reset(const word64 seed)] *)
Definition reset (seed : Z) (g : Mersenne_Twister) : option Mersenne_Twister :=
  x ← put_ (state g) 0 (Z.land seed word_mask);
  x ← for_ 1 (n P) (fun k x =>
         p ← at_ x (k - 1);
         put_ x k (Z.land
                     (Word.add (Word.mul (Z.lxor p (Word.shr p (w P - 2))) (mult1 P))
                               (Z.of_nat k))
                     word_mask)) x;
  Some {| state := x; index := n P |}.

(** [if (++i >= n) { state[0] = state[n - 1]; i = 1; }] *)
Definition advance (x : list Z) (i : nat) : option (list Z * nat) :=
  let i := S i in
  if Nat.leb (n P) i
  then
    z ← at_ x (n P - 1);
    x ← put_ x 0 z;
    Some (x, 1%nat)
  else Some (x, i).

(** [void reset(const natural seed_count, const word64 seeds[])] *)
Definition reset_seeds (seed_count : nat) (seeds : list Z) (g : Mersenne_Twister)
    : option Mersenne_Twister :=
  g ← reset 19650218 g;
  '(x, i, _) ← for_up (Nat.max (n P) seed_count) 0 (fun _ '(x, i, j) =>
       xi ← at_ x i;
       p ← at_ x (i - 1);
       sj ← at_ seeds j;
       x ← put_ x i (Z.land
                       (Word.add
                          (Word.add
                             (Z.lxor xi (Word.mul (Z.lxor p (Word.shr p (w P - 2))) (mult2 P)))
                             sj)
                          (Z.of_nat j))
                       word_mask);
       '(x, i) ← advance x i;
       let j := S j in
       let j := if Nat.leb seed_count j then 0%nat else j in
       Some (x, i, j)) (state g, 1%nat, 0%nat);
  '(x, i) ← for_up (n P - 1) 0 (fun _ '(x, i) =>
       xi ← at_ x i;
       p ← at_ x (i - 1);
       x ← put_ x i (Z.land
                       (Word.sub
                          (Z.lxor xi (Word.mul (Z.lxor p (Word.shr p (w P - 2))) (mult3 P)))
                          (Z.of_nat i))
                       word_mask);
       advance x i) (x, i);
  x ← put_ x 0 (Word.shl 1 (w P - 1));
  Some {| state := x; index := n P |}.

(** [explicit Mersenne_Twister(const word64 seed = 9600629759793949339ull)] *)
Definition new (seed : Z) : option Mersenne_Twister :=
  let seeds := [Z.land seed 0x00000000FFFFFFFF; Z.land seed 0xFFFFFFFF00000000] in
  reset_seeds 2 seeds {| state := replicate (n P) 0; index := 0%nat |}.

(** [Mersenne_Twister(const natural seed_count, const word64 seeds[])] *)
Definition new_seeds (seed_count : nat) (seeds : list Z) : option Mersenne_Twister :=
  reset_seeds seed_count seeds {| state := replicate (n P) 0; index := 0%nat |}.

(** [void twist(const natural i, const natural j, const natural k) const] *)
Definition twist (i j k : nat) (x : list Z) : option (list Z) :=
  xi ← at_ x i;
  xj ← at_ x j;
  xk ← at_ x k;
  x ← put_ x j
        (Z.lxor xi
           (Word.shr
              (Z.lor
                 (Z.land xj
                    (Word.shr (Word.shl Word.max (Word.digits - w P + r P))
                              (Word.digits - w P)))
                 (Z.land xk (Word.shr Word.max (Word.digits - r P))))
              1));
  xk ← at_ x k;
  if Z.land xk 1 =? 1
  then xj ← at_ x j; put_ x j (Z.lxor xj (a P))
  else Some x.

(** The three loops of [rand] that renew the state. *)
Definition renew (x : list Z) : option (list Z) :=
  x ← for_ 0 (n P - m P) (fun k => twist (k + m P) k (k + 1)) x;
  x ← for_ (n P - m P) (n P - 1) (fun k => twist (k + m P - n P) k (k + 1)) x;
  twist (m P - 1) (n P - 1) 0 x.

(** The tempering at the end of [rand]. *)
Definition temper (next : Z) : Z :=
  let next := Z.lxor next (Z.land (Word.shr next (u P)) (d P)) in
  let next := Z.lxor next (Z.land (Word.shl next (s P)) (b P)) in
  let next := Z.lxor next (Z.land (Word.shl next (t P)) (c P)) in
  Z.lxor next (Word.shr next (l P)).

(** [word64 rand() const] *)
Definition rand (g : Mersenne_Twister) : option (Z * Mersenne_Twister) :=
  g ← (if Nat.eqb (index g) (n P)
       then x ← renew (state g); Some {| state := x; index := 0%nat |}
       else Some g);
  next ← at_ (state g) (index g);
  Some (temper next, {| state := state g; index := S (index g) |}).

(** The maximum mantissa value for a real number. *)
Definition max_mantissa : Z :=
  Word.shr Word.max
    (Word.digits - (if w P <? real_digits then w P else real_digits)).

(** [real operator()() const] *)
Definition call (g : Mersenne_Twister) : option (R * Mersenne_Twister) :=
  '(y, g) ← rand g;
  let y := if w P <? real_digits then y else Word.shr y (w P - real_digits) in
  Some ((IZR y * (1 / IZR max_mantissa))%R, g).

(** The first [k] words that [rand] returns. *)
Fixpoint draw (k : nat) (g : Mersenne_Twister) : option (list Z) :=
  match k with
  | O => Some []
  | S k' =>
      '(y, g) ← rand g;
      ys ← draw k' g;
      Some (y :: ys)
  end.

(** ** Generator objects and their clients *)

(** The two public member functions that draw a number. *)
Inductive member : Type :=
  | Rand      (* rand() *)
  | Call.     (* operator()() *)

(** What a call returns. *)
Inductive number : Type :=
  | Word64 (y : Z)
  | Real (x : R).

(** One call of a member function on an object. *)
Definition invoke (f : member) (g : Mersenne_Twister) : option (number * Mersenne_Twister) :=
  match f with
  | Rand => '(y, g) ← rand g; Some (Word64 y, g)
  | Call => '(x, g) ← call g; Some (Real x, g)
  end.

(** A sequence of calls on one object, with the numbers returned. *)
Fixpoint run (fs : list member) (g : Mersenne_Twister) : option (list number * Mersenne_Twister) :=
  match fs with
  | [] => Some ([], g)
  | f :: fs =>
      '(y, g) ← invoke f g;
      '(ys, g) ← run fs g;
      Some (y :: ys, g)
  end.

(** The first [k] numbers that [operator()()] returns. *)
Fixpoint numbers (k : nat) (g : Mersenne_Twister) : option (list R) :=
  match k with
  | O => Some []
  | S k' =>
      '(x, g) ← call g;
      xs ← numbers k' g;
      Some (x :: xs)
  end.

End Algorithm.

(** The template parameters that the algorithm is defined for. *)
Definition well_formed (P : parameters) : Prop :=
  (1 <= m P /\ m P < n P)%nat.

End Random.

(** ** Published reference output *)

(** The first numbers of the reference output of mt19937ar.c for
    [init_genrand(5489)], the default seed of the reference implementation. *)
Definition mt19937_reference_5489 : list Z :=
  [3499211612; 581869302; 3890346734; 3586334585; 545404204;
   4161255391; 3922919429; 949333985; 2715962298; 1323567403]%Z.

(** The 10000th number of that sequence. *)
Definition mt19937_reference_5489_10000th : Z := 4123659995%Z.

(** The first numbers of mt19937ar.out, the reference output for
    [init_by_array] with the key [{0x123, 0x234, 0x345, 0x456}]. *)
Definition mt19937_reference_array : list Z :=
  [1067595299; 955945823; 477289528; 4107218783; 4228976476;
   3344332714; 3355579695; 227628506; 810200273; 2591290167]%Z.

(** * The symmetric eigenproblem solver (decompose.h, decompose.cxx) *)

Module Decompose.

(** The exceptions that the solvers throw. *)
Inductive exception : Type :=
  | invalid_argument (what : string)
  | runtime_error (what : string).

(** How a call ends: it returns, it throws, or it leaves its arrays, which is
    undefined in C++. *)
Inductive completion (A : Type) : Type :=
  | Returns (a : A)
  | Throws (e : exception)
  | Undefined.

Arguments Returns {A} a.
Arguments Throws {A} e.
Arguments Undefined {A}.

Definition message_int_err : string :=
  "especia::R_Decompose() Error: internal error in LAPACK".

Definition message_ill_arg : string :=
  "especia::R_Decompose() Error: illegal argument(s) in call to LAPACK".

(** The data members of [R_Decompose] that its calls depend on. *)
Record R_Decompose : Type := {
  n : nat;
  lwork : Z;
  liwork : Z
}.

Section Entries.

(** [R_type], the type of the entries of a matrix. The solvers copy and
    swap entries and hand them to LAPACK, they do not compute with them, so
    the type is a parameter: it is the real numbers where this development
    computes with the entries, and [double] below where a statement is about
    entries that are not finite. *)
Variable R_type : Type.

(** What LAPACK's DSYEVR leaves in its output arguments: [INFO], the number
    [M] of eigenvalues found, the eigenvalues [W], the eigenvectors [Z]
    (column-major) and the optimal sizes [WORK(1)] and [IWORK(1)]. *)
Record syevr_out : Type := {
  info : Z;
  found : Z;
  eigenvalues : list R_type;
  eigenvectors : list R_type;
  work_1 : Z;
  iwork_1 : Z
}.

(** [swap(A[i], A[j])] *)
Definition swap (A : list R_type) (i j : nat) : option (list R_type) :=
  x ← at_ A i;
  y ← at_ A j;
  A ← put_ A i y;
  put_ A j x.

(** [R_Decompose::transpose]: the strictly lower triangle, row by row, is
    swapped with the strictly upper triangle. *)
Definition transpose (n : nat) (A : list R_type) : option (list R_type) :=
  for_ 0 n (fun i A =>
    for_ 0 i (fun j A => swap A (i * n + j) (i + j * n)) A) A.

Section Lapack.

(** The LAPACK routine DSYEVR is linked to the program and is not part of
    the sources. The driver always asks for all eigenvalues and
    eigenvectors of the upper triangle (job 'V', range 'A', uplo 'U',
    abstol the safe minimum); what varies is the order [n] of the matrix,
    the matrix, its leading dimension [lda], the leading dimension [ldz] of
    the eigenvectors and the sizes [lwork] and [liwork] of the workspace.
    The routine is taken to return to its caller also when it has found an
    argument illegal, as the driver expects that tests for [info < 0]; the
    error handler XERBLA of an installation may stop the program
    instead. *)
Variable syevr : forall (n : Z) (A : list R_type) (lda ldz lwork liwork : Z), syevr_out.

(** [R_Decompose::allocate_workspace], called by the constructor: a
    workspace query with [lwork = liwork = -1]. The dimension is passed as
    the order and as both leading dimensions. *)
Definition R_Decompose_new (n_in : nat) : completion R_Decompose :=
  let out := syevr (Z.of_nat n_in) [] (Z.of_nat n_in) (Z.of_nat n_in) (-1) (-1) in
  if (info out =? 0)%Z then
    Returns {| n := n_in; lwork := work_1 out; liwork := iwork_1 out |}
  else if (0 <? info out)%Z then Throws (runtime_error message_int_err)
  else Throws (invalid_argument message_ill_arg).

(** [R_Decompose::operator()]: the matrix [A] is copied to the workspace,
    DSYEVR is called with the dimension as the order and as both leading
    dimensions, and by [info] the call returns the eigenvectors, converted
    from column-major into row-major layout, with the eigenvalues, or
    throws. *)
Definition R_Decompose_call (D : R_Decompose) (A : list R_type)
    : completion (list R_type * list R_type) :=
  if Nat.leb (n D * n D) (length A) then
    let awork := take (n D * n D) A in
    let out := syevr (Z.of_nat (n D)) awork (Z.of_nat (n D)) (Z.of_nat (n D))
                 (lwork D) (liwork D) in
    if (info out =? 0)%Z then
      match transpose (n D) (eigenvectors out) with
      | Some Z' => Returns (Z', eigenvalues out)
      | None => Undefined
      end
    else if (0 <? info out)%Z then Throws (runtime_error message_int_err)
    else Throws (invalid_argument message_ill_arg)
  else Undefined.

End Lapack.

(** The exit of a LAPACK routine that has found its [i]-th argument
    illegal: [INFO = -i], and nothing is computed. *)
Definition illegal (i : Z) : syevr_out :=
  {| info := - i; found := 0; eigenvalues := []; eigenvectors := [];
     work_1 := 0; iwork_1 := 0 |}.

(** DSYEVR, called for job 'V', range 'A' and uplo 'U', for the orders 0
    and 1, where the result does not depend on an iteration. The routine
    tests its arguments in this order: the order [N] is not negative (4th
    argument), [LDA >= max(1, N)] (6th), [LDZ >= 1] and [LDZ >= N] (15th),
    and, unless the call is a workspace query, [LWORK >= max(1, 26 N)]
    (18th) and [LIWORK >= max(1, 10 N)] (20th). A workspace query returns
    the sizes of the workspace; the optimal size of [WORK] depends on the
    block size of the installation, and the minimal sizes stand for it
    here. Then the order 0 is a quick return, and a matrix of order 1 has its
    only entry as eigenvalue, untested and unchanged, and the eigenvector
    [one]. For larger orders the eigenvalues come from an iteration, which
    this stand-in does not have: it reports an internal error. *)
Definition syevr_small (one : R_type) (n : Z) (A : list R_type)
    (lda ldz lwork liwork : Z) : syevr_out :=
  let query := ((lwork =? -1) || (liwork =? -1))%Z in
  if (n <? 0)%Z then illegal 4
  else if (lda <? Z.max 1 n)%Z then illegal 6
  else if ((ldz <? 1) || (ldz <? n))%Z then illegal 15
  else if ((lwork <? Z.max 1 (26 * n))%Z && negb query) then illegal 18
  else if ((liwork <? Z.max 1 (10 * n))%Z && negb query) then illegal 20
  else if query then
    {| info := 0; found := 0; eigenvalues := []; eigenvectors := [];
       work_1 := Z.max 1 (26 * n); iwork_1 := Z.max 1 (10 * n) |}
  else if (n =? 0)%Z then
    {| info := 0; found := 0; eigenvalues := []; eigenvectors := [];
       work_1 := 1; iwork_1 := 1 |}
  else if (n =? 1)%Z then
    {| info := 0; found := 1; eigenvalues := take 1 A; eigenvectors := [one];
       work_1 := 7; iwork_1 := 10 |}
  else
    {| info := 1; found := 0; eigenvalues := []; eigenvectors := [];
       work_1 := Z.max 1 (26 * n); iwork_1 := Z.max 1 (10 * n) |}.

End Entries.

Arguments info {R_type} _.
Arguments found {R_type} _.
Arguments eigenvalues {R_type} _.
Arguments eigenvectors {R_type} _.
Arguments work_1 {R_type} _.
Arguments iwork_1 {R_type} _.
Arguments swap {R_type} A i j.
Arguments transpose {R_type} n A.
Arguments R_Decompose_new {R_type} syevr n_in.
Arguments R_Decompose_call {R_type} syevr D A.
Arguments illegal {R_type} i.
Arguments syevr_small {R_type} one n A lda ldz lwork liwork.

(** The values of a [double]: the real numbers that it represents, the two
    infinities and what is not a number. *)
Inductive double : Type :=
  | finite (x : R)
  | infinity (negative : bool)
  | not_a_number.

Definition is_finite (x : double) : bool :=
  match x with
  | finite _ => true
  | _ => false
  end.

End Decompose.

(** * The bounded constraint (optimizer.h, model.h) *)

Module Constraint.

Local Open Scope R_scope.

(** The data members of [Bounded_Constraint<double>]. *)
Record Bounded_Constraint : Type := {
  a : list R;
  b : list R
}.

(** [Bounded_Constraint(const T lower_bounds[], const T upper_bounds[], size_t n)] *)
Definition new (lower_bounds upper_bounds : list R) (n : nat) : option Bounded_Constraint :=
  if Nat.leb n (length lower_bounds) && Nat.leb n (length upper_bounds)
  then Some {| a := take n lower_bounds; b := take n upper_bounds |}
  else None.

(** The loop of [is_violated], [count] parameters from [i] on. *)
Fixpoint is_violated_from (C : Bounded_Constraint) (x : list R) (count i : nat)
    : option bool :=
  match count with
  | O => Some false
  | S count' =>
      xi ← at_ x i;
      ai ← at_ (a C) i;
      if Rlt_dec xi ai then Some true
      else
        bi ← at_ (b C) i;
        if Rgt_dec xi bi then Some true
        else is_violated_from C x count' (S i)
  end.

(** [bool is_violated(const T x[], size_t n) const] *)
Definition is_violated (C : Bounded_Constraint) (x : list R) (n : nat) : option bool :=
  is_violated_from C x n 0.

(** [T cost(const T x[], size_t n) const] *)
Definition cost (C : Bounded_Constraint) (x : list R) (n : nat) : R := 0.

End Constraint.

(** * Maps from identifiers to indices *)

(** [std::map<std::string, size_t>]: the entries are kept in the order of
    their keys, which is the order the iterators of the map visit them in. *)
Module Smap.

Definition t : Type := list (string * nat).

Definition empty : t := [].

(** [mp.find(key)], with [None] for [mp.end()]. *)
Fixpoint find (key : string) (mp : t) : option nat :=
  match mp with
  | [] => None
  | (k, v) :: mp' => if String.eqb key k then Some v else find key mp'
  end.

(** [mp[key] = v] *)
Fixpoint insert (key : string) (v : nat) (mp : t) : t :=
  match mp with
  | [] => [(key, v)]
  | (k, v') :: mp' =>
      match String.compare key k with
      | Lt => (key, v) :: mp
      | Eq => (key, v) :: mp'
      | Gt => (k, v') :: insert key v mp'
      end
  end.

End Smap.

(** * The model (model.h) *)

Module Model.

Local Open Scope R_scope.

(** ** Outcomes *)

(** The messages [get] writes to standard error before it gives up. *)
Inductive failure : Type :=
  | duplicate_line_identifier (pid : string)
  | duplicate_section_identifier (sid : string)
  | file_not_found (fn : string)
  | input_failed
  | self_reference
  | syntax_error
  | reference_not_found.

(** How a piece of code ends: it is done, it has given up with a message,
    it has left an array (undefined in C++), or it is still running when the
    fuel is used up. *)
Inductive run (A : Type) : Type :=
  | Done (a : A)
  | Failed (e : failure)
  | Undefined
  | Exhausted.

Arguments Done {A} a.
Arguments Failed {A} e.
Arguments Undefined {A}.
Arguments Exhausted {A}.

#[export] Instance run_ret : MRet run := fun A a => Done a.

#[export] Instance run_bind : MBind run := fun A B f x =>
  match x with
  | Done a => f a
  | Failed e => Failed e
  | Undefined => Undefined
  | Exhausted => Exhausted
  end.

(** An array access inside of [run]. *)
Definition defined {A : Type} (x : option A) : run A :=
  match x with
  | Some a => Done a
  | None => Undefined
  end.

(** [for] loops inside of [run]. *)
Fixpoint loop_up {T : Type} (count k0 : nat) (body : nat -> T -> run T)
    (st : T) : run T :=
  match count with
  | O => Done st
  | S count' => st' ← body k0 st; loop_up count' (S k0) body st'
  end.

(** A loop over the elements of a container, in order. *)
Fixpoint loop_over {E T : Type} (xs : list E) (body : E -> T -> run T)
    (st : T) : run T :=
  match xs with
  | [] => Done st
  | x :: xs' => st' ← body x st; loop_over xs' body st'
  end.

(** ** Streams *)

(** The state flags of a stream. *)
Record iostate : Type := {
  badbit : bool;
  eofbit : bool;
  failbit : bool
}.

(** [is.setstate(ios_base::badbit | ios_base::failbit)] *)
Definition setstate_bad_fail (is_ : iostate) : iostate :=
  {| badbit := true; eofbit := eofbit is_; failbit := true |}.

(** [is.setstate(ios_base::failbit)] *)
Definition setstate_fail (is_ : iostate) : iostate :=
  {| badbit := badbit is_; eofbit := eofbit is_; failbit := true |}.

(** [is.clear(is.rdstate() & ~ios_base::failbit)] *)
Definition clear_fail (is_ : iostate) : iostate :=
  {| badbit := badbit is_; eofbit := eofbit is_; failbit := false |}.

(** The flags that [get] sets with a message. *)
Definition setstate_for (e : failure) (is_ : iostate) : iostate :=
  match e with
  | self_reference | reference_not_found => setstate_fail is_
  | _ => setstate_bad_fail is_
  end.

(** ** The text of a model definition *)

(** The extraction operators of the stream library and the function
    [readline] are not part of the sources. The text of a model definition
    is given here by what the extractions of [get] deliver on it. *)

(** One parameter specification, a line [val lo up msk ref] of the text;
    [s_ref] is empty if the line ends after the mask. *)
Record spec : Type := {
  s_val : R;
  s_lo : R;
  s_up : R;
  s_msk : bool;
  s_ref : string
}.

(** The head of a section: what
    [ist >> sid >> fn >> a >> b >> p and getline(ist, s2)] extracts, with the
    pairs that [is2 >> a >> b] extracts from [s2]. *)
Record head : Type := {
  h_sid : string;
  h_fn : string;
  h_a : R;
  h_b : R;
  h_p : nat;
  h_s2 : list (R * R)
}.

(** The text between [begin_of_section] and [end_of_section]: the head if
    its extraction succeeds, the tuples that the loop of [read] extracts for
    the resolution, and for every line identifier that [ist >> pid] extracts
    the tuples that the loop of [read] extracts after it. *)
Record section_text : Type := {
  t_head : option head;
  t_resolution : list spec;
  t_lines : list (string * list spec)
}.

(** The text up to an [end_of_section]: [None] if there is no
    [begin_of_section] in it. *)
Definition chunk : Type := option section_text.

(** The parameter specifications of a model definition, in the order of the
    text: for every section its resolution and then its lines. *)
Definition specs_of (t : section_text) : list spec :=
  t_resolution t ++ concat (map snd (t_lines t)).

Definition parameters (text : list chunk) : list spec :=
  concat (map (fun c : chunk => match c with Some t => specs_of t | None => [] end) text).

(** The independent parameters of a model definition: those that are free
    and do not refer to another parameter. *)
Definition independent (s : spec) : bool := s_msk s && String.eqb (s_ref s) "".

Definition independent_parameters (text : list chunk) : list spec :=
  List.filter independent (parameters text).

Section Model.

(** The class [especia::Section] (section.h) and the profile type, a
    template parameter of the model, are not part of what is embedded. *)
Variable Section_ : Type.
Variable File : Type.

(** [std::ifstream ifs(fn.c_str())], [None] if the file cannot be opened. *)
Variable open_file : string -> option File.
(** [s.get(ifs, a, b)] on a new section, [None] if it fails. *)
Variable Section_get : File -> R -> R -> option Section_.
(** [s.mask(a, b)] *)
Variable Section_mask : Section_ -> R -> R -> Section_.
(** [s.cost(superposition, resolution, nle)], a [const] member function. *)
Variable Section_cost : Section_ -> (R -> R) -> R -> nat -> R.
(** [s.apply(superposition, resolution, nle)] *)
Variable Section_apply : Section_ -> (R -> R) -> R -> nat -> Section_.

(** The profile type with [Profile::parameter_count], its constructor from
    a parameter slice and its call operator. *)
Variable Profile : Type.
Variable parameter_count : nat.
Variable Profile_new : list R -> option Profile.
Variable Profile_call : Profile -> R -> R.

(** The data members of [Model<Profile>]. *)
Record Model : Type := {
  sec : list Section_;
  isc : list nat;
  nle : list nat;
  nli : list nat;
  val : list R;
  err : list R;
  lo : list R;
  up : list R;
  msk : list bool;
  ind : list nat;
  sim : Smap.t;
  pim : Smap.t
}.

(** ** [Model::get] *)

(** The local variables of [get]. *)
Record locals : Type := {
  sec_ : list Section_;
  isc_ : list nat;
  nle_ : list nat;
  nli_ : list nat;
  val_ : list R;
  lo_ : list R;
  up_ : list R;
  msk_ : list bool;
  ind_ : list nat;
  pim_ : Smap.t;
  sim_ : Smap.t;
  ref_ : list string
}.

Definition no_locals : locals :=
  {| sec_ := []; isc_ := []; nle_ := []; nli_ := [];
     val_ := []; lo_ := []; up_ := []; msk_ := []; ind_ := [];
     pim_ := Smap.empty; sim_ := Smap.empty; ref_ := [] |}.

(** [read(is, a, b, c, d, s, n, eol, true)] of readline.h on the vectors
    [val], [lo], [up], [msk] and [ref]. Its loop extracts the tuples [ta];
    the stream is good after the loop if and only if each of the [n]
    extractions has succeeded, and only then the tuples are appended. *)
Definition read (ta : list spec) (n : nat) (L : locals) : option locals :=
  if Nat.eqb (length ta) n then
    Some {| sec_ := sec_ L; isc_ := isc_ L; nle_ := nle_ L; nli_ := nli_ L;
            val_ := val_ L ++ map s_val ta;
            lo_ := lo_ L ++ map s_lo ta;
            up_ := up_ L ++ map s_up ta;
            msk_ := msk_ L ++ map s_msk ta;
            ind_ := ind_ L;
            pim_ := pim_ L; sim_ := sim_ L;
            ref_ := ref_ L ++ map s_ref ta |}
  else None.

(** The loop [while (ist >> pid)] that reads the profile function parameter
    specifications of a section; [i] counts the parameters, [k] the lines
    of the section. *)
Fixpoint parse_lines (ls : list (string * list spec)) (L : locals) (i k : nat)
    : run (locals * nat * nat) :=
  match ls with
  | [] => Done (L, i, k)
  | (pid, ta) :: ls' =>
      match Smap.find pid (pim_ L) with
      | None =>
          let L :=
            {| sec_ := sec_ L; isc_ := isc_ L; nle_ := nle_ L; nli_ := nli_ L;
               val_ := val_ L; lo_ := lo_ L; up_ := up_ L; msk_ := msk_ L;
               ind_ := ind_ L;
               pim_ := Smap.insert pid i (pim_ L); sim_ := sim_ L;
               ref_ := ref_ L |} in
          match read ta parameter_count L with
          | Some L => parse_lines ls' L (i + parameter_count) (k + 1)
          | None => Failed input_failed
          end
      | Some _ => Failed (duplicate_line_identifier pid)
      end
  end.

(** The body of the loop [while (getline(st, line, end_of_section))] for a
    chunk of text that an [end_of_section] ends. *)
Definition parse_section (c : chunk) (st : locals * nat) : run (locals * nat) :=
  let '(L, i) := st in
  match c with
  | None => Failed syntax_error
  | Some t =>
      match t_head t with
      | None => Failed input_failed
      | Some h =>
          match Smap.find (h_sid h) (sim_ L) with
          | Some _ => Failed (duplicate_section_identifier (h_sid h))
          | None =>
              let sim := Smap.insert (h_sid h) (length (sec_ L)) (sim_ L) in
              match open_file (h_fn h) with
              | None => Failed (file_not_found (h_fn h))
              | Some ifs =>
                  match Section_get ifs (h_a h) (h_b h) with
                  | None => Failed input_failed
                  | Some s =>
                      let s := fold_left (fun s ab => Section_mask s (fst ab) (snd ab))
                                 (h_s2 h) s in
                      let L :=
                        {| sec_ := sec_ L ++ [s]; isc_ := isc_ L ++ [i];
                           nle_ := nle_ L ++ [h_p h]; nli_ := nli_ L;
                           val_ := val_ L; lo_ := lo_ L; up_ := up_ L;
                           msk_ := msk_ L; ind_ := ind_ L;
                           pim_ := pim_ L; sim_ := sim; ref_ := ref_ L |} in
                      match read (t_resolution t) 1 L with
                      | None => Failed input_failed
                      | Some L =>
                          '(L, i, k) ← parse_lines (t_lines t) L (S i) 0;
                          Done
                            ({| sec_ := sec_ L; isc_ := isc_ L; nle_ := nle_ L;
                                nli_ := nli_ L ++ [k];
                                val_ := val_ L; lo_ := lo_ L; up_ := up_ L;
                                msk_ := msk_ L; ind_ := ind_ L;
                                pim_ := pim_ L; sim_ := sim_ L; ref_ := ref_ L |}, i)
                      end
                  end
              end
          end
      end
  end.

(** [ref[i].empty()] *)
Definition empty (r : string) : bool := String.eqb r "".

(** The body of the loop that indexes the independent parameters; [k] is
    the next index. *)
Definition index_parameter (i : nat) (st : locals * nat) : option (locals * nat) :=
  let '(L, k) := st in
  mi ← at_ (msk_ L) i;
  ri ← at_ (ref_ L) i;
  if mi && empty ri then
    loi ← at_ (lo_ L) i;
    upi ← at_ (up_ L) i;
    '(lo, up) ← (if Rgt_dec loi upi
                 then lo ← put_ (lo_ L) i upi; up ← put_ (up_ L) i loi; Some (lo, up)
                 else Some (lo_ L, up_ L));
    Some ({| sec_ := sec_ L; isc_ := isc_ L; nle_ := nle_ L; nli_ := nli_ L;
             val_ := val_ L; lo_ := lo; up_ := up; msk_ := msk_ L;
             ind_ := ind_ L ++ [k];
             pim_ := pim_ L; sim_ := sim_ L; ref_ := ref_ L |}, S k)
  else
    lo ← put_ (lo_ L) i 0;
    up ← put_ (up_ L) i 0;
    Some ({| sec_ := sec_ L; isc_ := isc_ L; nle_ := nle_ L; nli_ := nli_ L;
             val_ := val_ L; lo_ := lo; up_ := up; msk_ := msk_ L;
             ind_ := ind_ L ++ [0%nat];
             pim_ := pim_ L; sim_ := sim_ L; ref_ := ref_ L |}, k).

(** The loop that indexes the independent parameters. *)
Definition index_parameters (L : locals) : option locals :=
  '(L, _) ← for_ 0 (length (msk_ L)) index_parameter (L, 0%nat);
  Some L.

(** The assignments [val[j] = val[k]; lo[j] = lo[k]; up[j] = up[k];
    msk[j] = msk[k]; ind[j] = ind[k]]. *)
Definition copy_parameter (j k : nat) (L : locals) : option locals :=
  v ← at_ (val_ L) k; val ← put_ (val_ L) j v;
  v ← at_ (lo_ L) k; lo ← put_ (lo_ L) j v;
  v ← at_ (up_ L) k; up ← put_ (up_ L) j v;
  v ← at_ (msk_ L) k; msk ← put_ (msk_ L) j v;
  v ← at_ (ind_ L) k; ind ← put_ (ind_ L) j v;
  Some {| sec_ := sec_ L; isc_ := isc_ L; nle_ := nle_ L; nli_ := nli_ L;
          val_ := val; lo_ := lo; up_ := up; msk_ := msk; ind_ := ind;
          pim_ := pim_ L; sim_ := sim_ L; ref_ := ref_ L |}.

(** The assignment [ref[j] = ref[k]]. *)
Definition copy_reference (j k : nat) (L : locals) : option locals :=
  v ← at_ (ref_ L) k; ref ← put_ (ref_ L) j v;
  Some {| sec_ := sec_ L; isc_ := isc_ L; nle_ := nle_ L; nli_ := nli_ L;
          val_ := val_ L; lo_ := lo_ L; up_ := up_ L; msk_ := msk_ L;
          ind_ := ind_ L;
          pim_ := pim_ L; sim_ := sim_ L; ref_ := ref |}.

(** What the loops [while (!ref[j].empty())] do once the parameter [k] that
    [ref[j]] refers to is known. *)
Definition follow_reference (j k : nat) (L : locals) : run locals :=
  if Nat.eqb j k then Failed self_reference
  else
    rk ← defined (at_ (ref_ L) k);
    L ← (if empty rk then defined (copy_parameter j k L) else Done L);
    defined (copy_reference j k L).

(** The loop [while (!ref[j].empty())] for the resolution parameter [j]. *)
Fixpoint dereference_resolution (fuel : nat) (j : nat) (L : locals) : run locals :=
  match fuel with
  | O => Exhausted
  | S fuel' =>
      rj ← defined (at_ (ref_ L) j);
      if empty rj then Done L
      else
        match Smap.find rj (sim_ L) with
        | Some s =>
            k ← defined (at_ (isc_ L) s);
            L ← follow_reference j k L;
            dereference_resolution fuel' j L
        | None => Failed reference_not_found
        end
  end.

(** The loop [while (!ref[k].empty())] for the parameter [k], the [j]-th
    parameter of a line. *)
Fixpoint dereference_line (fuel : nat) (j k : nat) (L : locals) : run locals :=
  match fuel with
  | O => Exhausted
  | S fuel' =>
      rk ← defined (at_ (ref_ L) k);
      if empty rk then Done L
      else
        match Smap.find rk (pim_ L) with
        | Some base =>
            L ← follow_reference k (base + j) L;
            dereference_line fuel' j k L
        | None => Failed reference_not_found
        end
  end.

(** The loop over [sim] that dereferences the resolution parameters. *)
Definition dereference_resolutions (fuel : nat) (L : locals) : run locals :=
  loop_over (sim_ L) (fun e L =>
    j ← defined (at_ (isc_ L) (snd e));
    dereference_resolution fuel j L) L.

(** The loop over [pim] that dereferences the line parameters. *)
Definition dereference_lines (fuel : nat) (L : locals) : run locals :=
  loop_over (pim_ L) (fun e L =>
    loop_up parameter_count 0 (fun j L =>
      dereference_line fuel j (snd e + j) L) L) L.

(** [get] up to the point where it stores its results. The stream [st] that
    the chunks are taken from is a string stream that [getline] has read to
    its end, so the test [!st.bad() and st.eof()] holds. *)
Definition get_locals (fuel : nat) (text : list chunk) : run locals :=
  '(L, _) ← loop_over text parse_section (no_locals, 0%nat);
  L ← defined (index_parameters L);
  L ← dereference_resolutions fuel L;
  dereference_lines fuel L.

(** [this->a.resize(n); copy(a.begin(), a.end(), &(this->a[0]))] *)
Definition resize_copy {A : Type} (n : nat) (zero : A) (a : list A) : option (list A) :=
  if Nat.leb (length a) n then Some (a ++ replicate (n - length a) zero) else None.

(** The assignments to the data members at the end of [get]. *)
Definition store (L : locals) : option Model :=
  let m := length (sec_ L) in
  let n := length (msk_ L) in
  isc ← resize_copy m 0%nat (isc_ L);
  nle ← resize_copy m 0%nat (nle_ L);
  nli ← resize_copy m 0%nat (nli_ L);
  val ← resize_copy n 0 (val_ L);
  lo ← resize_copy n 0 (lo_ L);
  up ← resize_copy n 0 (up_ L);
  msk ← resize_copy n false (msk_ L);
  ind ← resize_copy n 0%nat (ind_ L);
  Some {| sec := sec_ L; isc := isc; nle := nle; nli := nli;
          val := val; err := replicate n 0; lo := lo; up := up;
          msk := msk; ind := ind;
          sim := sim_ L; pim := pim_ L |}.

(** [std::istream &get(std::istream &is, std::ostream &os, ...)]: the state
    of [is] and the model after the call. The loops that dereference the
    references run for at most [fuel] iterations each. *)
Definition get (fuel : nat) (text : list chunk) (is_ : iostate) (M : Model)
    : run (iostate * Model) :=
  match get_locals fuel text with
  | Done L => M' ← defined (store L); Done (clear_fail is_, M')
  | Failed e => Done (setstate_for e is_, M)
  | Undefined => Undefined
  | Exhausted => Exhausted
  end.

(** ** The other member functions *)

(** [ind.max()], undefined for an empty array. *)
Definition max_ (a : list nat) : option nat :=
  match a with
  | [] => None
  | x :: a' => Some (fold_left Nat.max a' x)
  end.

(** [Nint_t get_parameter_count() const] *)
Definition get_parameter_count (M : Model) : option nat :=
  mx ← max_ (ind M);
  Some (mx + 1)%nat.

(** The loop of [get_initial_parameter_values], [get_initial_local_step_sizes]
    and [get_constraint]: [x[j++] = f(lo[i], up[i])] for every [i] with
    [msk[i] and ind[i] == j]. *)
Definition collect (f : R -> R -> R) (M : Model) (x : list R) : option (list R) :=
  '(x, _) ← for_ 0 (length (msk M)) (fun i '(x, j) =>
      mi ← at_ (msk M) i;
      if (mi : bool) then
        ii ← at_ (ind M) i;
        if Nat.eqb ii j then
          loi ← at_ (lo M) i;
          upi ← at_ (up M) i;
          x ← put_ x j (f loi upi);
          Some (x, S j)
        else Some (x, j)
      else Some (x, j)) (x, 0%nat);
  Some x.

(** [std::valarray<Real_t> get_initial_parameter_values() const] *)
Definition get_initial_parameter_values (M : Model) : option (list R) :=
  n ← get_parameter_count M;
  collect (fun lo up => 0.5 * (lo + up)) M (replicate n 0).

(** [std::valarray<Real_t> get_initial_local_step_sizes() const] *)
Definition get_initial_local_step_sizes (M : Model) : option (list R) :=
  n ← get_parameter_count M;
  collect (fun lo up => 0.5 * (up - lo)) M (replicate n 0).

(** [Bounded_Constraint<Real_t> get_constraint() const] *)
Definition get_constraint (M : Model) : option Constraint.Bounded_Constraint :=
  n ← get_parameter_count M;
  a ← collect (fun lo up => lo) M (replicate n 0);
  b ← collect (fun lo up => up) M (replicate n 0);
  Constraint.new a b n.

(** [Superposition<Profile>(n, q)] *)
Fixpoint Superposition_new (n : nat) (q : list R) : option (list Profile) :=
  match n with
  | O => Some []
  | S n' =>
      p ← Profile_new q;
      ps ← Superposition_new n' (drop parameter_count q);
      Some (p :: ps)
  end.

(** The variables that a call of [cost] works on: the object, which the
    member function has [const] access to, and the local variables. *)
Record cost_frame : Type := {
  this : Model;
  y : list R;
  d : R
}.

(** [Real_t cost(const Real_t x[], Nint_t n) const]: the value returned and
    the object after the call. *)
Definition cost (x : list R) (n : nat) (M : Model) : option (R * Model) :=
  let F := {| this := M; y := val M; d := 0 |} in
  F ← for_ 0 (length (y F)) (fun i F =>
         mi ← at_ (msk (this F)) i;
         if (mi : bool) then
           ii ← at_ (ind (this F)) i;
           xi ← at_ x ii;
           y' ← put_ (y F) i xi;
           Some {| this := this F; y := y'; d := d F |}
         else Some F) F;
  F ← for_ 0 (length (sec (this F))) (fun i F =>
         s ← at_ (sec (this F)) i;
         k ← at_ (nli (this F)) i;
         j ← at_ (isc (this F)) i;
         p ← at_ (nle (this F)) i;
         r ← at_ (y F) j;
         ps ← Superposition_new k (drop (j + 1) (y F));
         Some {| this := this F; y := y F;
                 d := d F + Section_cost s (Profiles.Superposition_call Profile_call ps) r p |}) F;
  Some (d F, this F).

(** [Real_t operator()(const Real_t x[], Nint_t n) const] *)
Definition call (x : list R) (n : nat) (M : Model) : option (R * Model) :=
  cost x n M.

(** [void set(const Real_t x[], const Real_t z[])]: the object after the
    call. *)
Definition set (x z : list R) (M : Model) : option Model :=
  M ← for_ 0 (length (val M)) (fun i M =>
         mi ← at_ (msk M) i;
         if (mi : bool) then
           ii ← at_ (ind M) i;
           xi ← at_ x ii;
           val' ← put_ (val M) i xi;
           zi ← at_ z ii;
           err' ← put_ (err M) i zi;
           Some {| sec := sec M; isc := isc M; nle := nle M; nli := nli M;
                   val := val'; err := err'; lo := lo M; up := up M;
                   msk := msk M; ind := ind M; sim := sim M; pim := pim M |}
         else
           err' ← put_ (err M) i 0;
           Some {| sec := sec M; isc := isc M; nle := nle M; nli := nli M;
                   val := val M; err := err'; lo := lo M; up := up M;
                   msk := msk M; ind := ind M; sim := sim M; pim := pim M |}) M;
  for_ 0 (length (sec M)) (fun i M =>
         s ← at_ (sec M) i;
         k ← at_ (nli M) i;
         j ← at_ (isc M) i;
         p ← at_ (nle M) i;
         r ← at_ (val M) j;
         ps ← Superposition_new k (drop (j + 1) (val M));
         sec' ← put_ (sec M) i
                  (Section_apply s (Profiles.Superposition_call Profile_call ps) r p);
         Some {| sec := sec'; isc := isc M; nle := nle M; nli := nli M;
                 val := val M; err := err M; lo := lo M; up := up M;
                 msk := msk M; ind := ind M; sim := sim M; pim := pim M |}) M.

End Model.

Arguments sec {Section_} _.
Arguments isc {Section_} _.
Arguments nle {Section_} _.
Arguments nli {Section_} _.
Arguments val {Section_} _.
Arguments err {Section_} _.
Arguments lo {Section_} _.
Arguments up {Section_} _.
Arguments msk {Section_} _.
Arguments ind {Section_} _.
Arguments sim {Section_} _.
Arguments pim {Section_} _.
Arguments sec_ {Section_} _.
Arguments isc_ {Section_} _.
Arguments nle_ {Section_} _.
Arguments nli_ {Section_} _.
Arguments val_ {Section_} _.
Arguments lo_ {Section_} _.
Arguments up_ {Section_} _.
Arguments msk_ {Section_} _.
Arguments ind_ {Section_} _.
Arguments pim_ {Section_} _.
Arguments sim_ {Section_} _.
Arguments ref_ {Section_} _.
Arguments this {Section_} _.
Arguments y {Section_} _.
Arguments d {Section_} _.
Arguments store {Section_} L.
Arguments get_parameter_count {Section_} M.
Arguments collect {Section_} f M x.
Arguments get_initial_parameter_values {Section_} M.
Arguments get_initial_local_step_sizes {Section_} M.
Arguments get_constraint {Section_} M.

(** ** Where a reference leads *)

Section References.

(** [Profile::parameter_count], the maps [sim] and [pim], the indexes [isc]
    of the resolution parameters and the references of the parameters, as
    the text gives them. *)
Variable parameter_count : nat.
Variables sim pim : Smap.t.
Variable isc : list nat.
Variable refs : list string.

(** One step along a reference, as the loops that dereference the
    references take it. The reference of the resolution parameter of a
    section names a section and leads to the resolution parameter of that
    section, [isc[sim[ref[j]]]]; the reference of the [off]-th parameter of a
    line names a line and leads to the [off]-th parameter of that line,
    [pim[ref[k]] + off]. *)
Inductive refers : nat -> nat -> Prop :=
  | refers_section (sid : string) (s j : nat) (r : string) (s' k : nat) :
      In (sid, s) sim -> isc !! s = Some j ->
      refs !! j = Some r -> r <> ""%string ->
      Smap.find r sim = Some s' -> isc !! s' = Some k ->
      refers j k
  | refers_line (pid : string) (base off : nat) (r : string) (base' : nat) :
      In (pid, base) pim -> (off < parameter_count)%nat ->
      refs !! (base + off)%nat = Some r -> r <> ""%string ->
      Smap.find r pim = Some base' ->
      refers (base + off)%nat (base' + off)%nat.

(** The parameter that the references of the parameter [i] lead to: the
    parameter without reference at the end of the steps from [i]. *)
Inductive resolves_to : nat -> nat -> Prop :=
  | resolves_here (i : nat) :
      refs !! i = Some ""%string -> resolves_to i i
  | resolves_step (i j k : nat) :
      refers i j -> resolves_to j k -> resolves_to i k.

(** Some steps along references. *)
Inductive reaches : nat -> nat -> Prop :=
  | reaches_here (i : nat) : reaches i i
  | reaches_step (i j k : nat) : reaches i j -> refers j k -> reaches i k.

End References.

End Model.

(** * Examples *)

(** Values and inputs that the properties below are instantiated with. *)
Module Example.

Local Open Scope R_scope.

(** The physical constants in SI units (CODATA 2018). *)
Definition speed_of_light : R := 299792458.
Definition elementary_charge : R := 1.602176634e-19.
Definition electric_constant : R := 8.8541878128e-12.
Definition electron_mass : R := 9.1093837015e-31.
Definition sqrt_of_pi : R := sqrt PI.

(** The Lyman alpha line of hydrogen at redshift 1 with a broadening
    velocity of 5 km/s and a column density of 1E13 per square centimetre. *)
Definition lyman_alpha : list R := [1215.67; 0.4164; 1; 0; 5; 13].

(** A line with rest wavelength 1 Angstrom, relativistic correction
    coefficient 1 and a variation of the fine-structure constant of 1E6
    parts per million. *)
Definition varied_line : list R := [1; 0; 0; 0; 0; 0; 1; 1e6].

End Example.

(** A model of sections without data, with Doppler profiles. *)
Module Example_model.

Local Open Scope R_scope.

Definition Section_ : Type := unit.
Definition File : Type := unit.

(** Every file but missing.dat can be opened and read. *)
Definition open_file (fn : string) : option File :=
  if String.eqb fn "missing.dat" then None else Some tt.
Definition Section_get (ifs : File) (a b : R) : option Section_ := Some tt.
Definition Section_mask (s : Section_) (a b : R) : Section_ := s.
Definition Section_cost (s : Section_) (tau : R -> R) (r : R) (p : nat) : R := tau r.
Definition Section_apply (s : Section_) (tau : R -> R) (r : R) (p : nat) : Section_ := s.

Definition Profile : Type := Profiles.G_Doppler.
Definition parameter_count : nat := 6.
Definition Profile_new : list R -> option Profile :=
  Profiles.G_Doppler_new Example.speed_of_light Example.elementary_charge
    Example.electric_constant Example.electron_mass.
Definition Profile_call : Profile -> R -> R :=
  Profiles.G_Doppler_call Example.sqrt_of_pi.

(** A model of one section with one line; the redshift, the broadening
    velocity and the column density of the line are free. *)
Definition one_line : Model.Model Section_ :=
  {| Model.sec := [tt];
     Model.isc := [0%nat]; Model.nle := [2%nat]; Model.nli := [1%nat];
     Model.val := [50; 1215.67; 0.4164; 1; 0; 5; 13];
     Model.err := [0; 0; 0; 0; 0; 0; 0];
     Model.lo := [0; 0; 0; 0.9; 0; 1; 12];
     Model.up := [0; 0; 0; 1.1; 0; 10; 14];
     Model.msk := [false; false; false; true; false; true; true];
     Model.ind := [0; 0; 0; 0; 0; 1; 2]%nat;
     Model.sim := [("A"%string, 0%nat)];
     Model.pim := [("a1"%string, 1%nat)] |}.

End Example_model.

(** Model definitions for the example model. *)
Module Example_text.

Import Model.

Local Open Scope R_scope.

(** A parameter that is pinned to a value: the line [v 0 0 0]. *)
Definition pinned (v : R) : spec :=
  {| s_val := v; s_lo := 0; s_up := 0; s_msk := false; s_ref := "" |}.

(** A free parameter with bounds: the line [v lo up 1]. *)
Definition free (v lo up : R) : spec :=
  {| s_val := v; s_lo := lo; s_up := up; s_msk := true; s_ref := "" |}.

(** A free parameter that refers to another one: the line [v lo up 1 ref]. *)
Definition linked (v lo up : R) (ref : string) : spec :=
  {| s_val := v; s_lo := lo; s_up := up; s_msk := true; s_ref := ref |}.

(** The six parameters of a Lyman alpha line with free redshift,
    broadening velocity and column density. *)
Definition lyman_alpha_line : list spec :=
  [pinned 1215.67; pinned 0.4164; free 1 0.9 1.1; pinned 0;
   free 5 1 10; free 13 12 14].

(** The same line with all parameters pinned. *)
Definition lyman_alpha_pinned : list spec :=
  [pinned 1215.67; pinned 0.4164; pinned 1; pinned 0; pinned 5; pinned 13].

(** The same line with its redshift taken from the line [a1]. *)
Definition lyman_alpha_linked : list spec :=
  [pinned 1215.67; pinned 0.4164; linked 0 0 0 "a1"; pinned 0;
   free 5 1 10; free 13 12 14].

(** The head of a section on the data file spectrum.dat. *)
Definition head_of (sid : string) : option head :=
  Some {| h_sid := sid; h_fn := "spectrum.dat"; h_a := 2420; h_b := 2440;
          h_p := 2; h_s2 := [] |}.

(** Three sections whose resolutions refer to each other: the resolution of
    [A] to that of [B], that of [B] to that of [C], and that of [C] back to
    that of [B]. *)
Definition cyclic_text : list chunk :=
  [Some {| t_head := head_of "A";
           t_resolution := [linked 50 40 60 "B"];
           t_lines := [("a1"%string, lyman_alpha_pinned)] |};
   Some {| t_head := head_of "B";
           t_resolution := [linked 50 40 60 "C"];
           t_lines := [("b1"%string, lyman_alpha_pinned)] |};
   Some {| t_head := head_of "C";
           t_resolution := [linked 50 40 60 "B"];
           t_lines := [("c1"%string, lyman_alpha_pinned)] |}].

(** One section, all of whose parameters are pinned. *)
Definition pinned_text : list chunk :=
  [Some {| t_head := head_of "A";
           t_resolution := [pinned 50];
           t_lines := [("a1"%string, lyman_alpha_pinned)] |}].

(** One section with a resolution whose bounds are given in reversed order
    and with two lines, the second of which takes its redshift from the
    first. *)
Definition linked_text : list chunk :=
  [Some {| t_head := head_of "A";
           t_resolution := [free 50 60 40];
           t_lines := [("a1"%string, lyman_alpha_line);
                       ("a2"%string, lyman_alpha_linked)] |}].

(** Malformed model definitions: a section identifier that is used twice, a
    line identifier that is used twice, a reference to a section that does
    not exist, a resolution that refers to itself, and a data file that
    does not exist. *)
Definition duplicate_section_text : list chunk :=
  pinned_text ++ pinned_text.

Definition duplicate_line_text : list chunk :=
  [Some {| t_head := head_of "A";
           t_resolution := [pinned 50];
           t_lines := [("a1"%string, lyman_alpha_pinned);
                       ("a1"%string, lyman_alpha_pinned)] |}].

Definition unknown_reference_text : list chunk :=
  [Some {| t_head := head_of "A";
           t_resolution := [linked 50 40 60 "Z"];
           t_lines := [("a1"%string, lyman_alpha_pinned)] |}].

Definition self_reference_text : list chunk :=
  [Some {| t_head := head_of "A";
           t_resolution := [linked 50 40 60 "A"];
           t_lines := [("a1"%string, lyman_alpha_pinned)] |}].

Definition missing_file_text : list chunk :=
  [Some {| t_head :=
             Some {| h_sid := "A"; h_fn := "missing.dat"; h_a := 2420; h_b := 2440;
                     h_p := 2; h_s2 := [] |};
           t_resolution := [pinned 50];
           t_lines := [("a1"%string, lyman_alpha_pinned)] |}].

(** A section whose head cannot be extracted. *)
Definition syntax_error_text : list chunk :=
  pinned_text ++ [None].

(** A model that nothing has been stored in. *)
Definition no_model : Model Example_model.Section_ :=
  {| sec := []; isc := []; nle := []; nli := [];
     val := []; err := []; lo := []; up := []; msk := []; ind := [];
     sim := Smap.empty; pim := Smap.empty |}.

(** The state of the input stream when all lines have been read from it. *)
Definition at_end : iostate :=
  {| badbit := false; eofbit := true; failbit := true |}.

(** [get] for the example model. *)
Definition get (fuel : nat) (text : list chunk) (is_ : iostate)
    (M : Model Example_model.Section_) :=
  Model.get Example_model.Section_ Example_model.File Example_model.open_file
    Example_model.Section_get Example_model.Section_mask
    Example_model.parameter_count fuel text is_ M.

End Example_text.

(** * Invariants *)

(** The predicates that the proofs of the properties use for the loops of
    the code. *)

Module Invariant.

(** The pairs of a lower and an upper entry that [transpose] has swapped
    when it is about to swap the entry [j] of the row [i]. *)
Definition swapped (i j r c : nat) : Prop :=
  (c < r /\ (r < i \/ (r = i /\ c < j))) \/ (r < c /\ (c < i \/ (c = i /\ r < j))).

Definition transposed_upto {R_type : Type} (n : nat) (A0 : list R_type) (i j : nat)
    (A : list R_type) : Prop :=
  length A = length A0 /\
  forall r c, r < n -> c < n ->
    (swapped i j r c -> A !! (r * n + c) = A0 !! (c * n + r)) /\
    (~ swapped i j r c -> A !! (r * n + c) = A0 !! (r * n + c)).

(** What the first loop of [set] keeps and what it writes. *)
Definition set_written {Section_ : Type} (x z : list R) (M : Model.Model Section_)
    (k : nat) (M' : Model.Model Section_) : Prop :=
  Model.sec M' = Model.sec M /\ Model.isc M' = Model.isc M /\
  Model.nle M' = Model.nle M /\ Model.nli M' = Model.nli M /\
  Model.lo M' = Model.lo M /\ Model.up M' = Model.up M /\
  Model.msk M' = Model.msk M /\ Model.ind M' = Model.ind M /\
  Model.sim M' = Model.sim M /\ Model.pim M' = Model.pim M /\
  length (Model.val M') = length (Model.val M) /\
  length (Model.err M') = length (Model.err M) /\
  (forall i, i < k -> Model.msk M !! i = Some true ->
     exists j xj zj,
       Model.ind M !! i = Some j /\ x !! j = Some xj /\ z !! j = Some zj /\
       Model.val M' !! i = Some xj /\ Model.err M' !! i = Some zj) /\
  (forall i, i < k -> Model.msk M !! i = Some false ->
     Model.val M' !! i = Model.val M !! i /\ Model.err M' !! i = Some 0%R) /\
  (forall i, k <= i ->
     Model.val M' !! i = Model.val M !! i /\ Model.err M' !! i = Model.err M !! i).

(** The state of a generator object of random.h between two calls. *)
Definition valid (P : Random.parameters) (g : Random.Mersenne_Twister) : Prop :=
  length (Random.state g) = Random.n P /\ Random.index g <= Random.n P.

(** The local tables of [get] hold the specifications [ps]. *)
Definition tables_of {Section_ : Type} (L : Model.locals Section_)
    (ps : list Model.spec) : Prop :=
  Model.val_ L = map Model.s_val ps /\
  Model.lo_ L = map Model.s_lo ps /\
  Model.up_ L = map Model.s_up ps /\
  Model.msk_ L = map Model.s_msk ps /\
  Model.ref_ L = map Model.s_ref ps.

(** Every parameter below [n] is the resolution of a section in [sim] or a
    parameter of a line in [pim]. *)
Definition covered {Section_ : Type} (parameter_count : nat)
    (L : Model.locals Section_) (n : nat) : Prop :=
  forall x, x < n ->
    (exists sid s, In (sid, s) (Model.sim_ L) /\ Model.isc_ L !! s = Some x) \/
    (exists pid base j,
       In (pid, base) (Model.pim_ L) /\ j < parameter_count /\ x = base + j).

(** What the loop over the sections has established when it has read the
    specifications [ps]. *)
Definition parsed {Section_ : Type} (parameter_count : nat)
    (L : Model.locals Section_) (i : nat) (ps : list Model.spec) : Prop :=
  tables_of L ps /\ Model.ind_ L = [] /\ i = length ps /\
  length (Model.isc_ L) = length (Model.sec_ L) /\
  length (Model.nle_ L) = length (Model.sec_ L) /\
  covered parameter_count L i.

(** How the loop over the sections lays out the parameters below [i]: a
    resolution parameter is no parameter of a line, and a parameter of a
    line belongs to one line, at one position. *)
Definition laid_out {Section_ : Type} (parameter_count : nat)
    (L : Model.locals Section_) (i : nat) : Prop :=
  (forall s x, Model.isc_ L !! s = Some x -> x < i) /\
  (forall pid base, In (pid, base) (Model.pim_ L) -> base + parameter_count <= i) /\
  (forall s x pid base off,
     Model.isc_ L !! s = Some x -> In (pid, base) (Model.pim_ L) ->
     off < parameter_count -> x <> base + off) /\
  (forall pid base off pid' base' off',
     In (pid, base) (Model.pim_ L) -> In (pid', base') (Model.pim_ L) ->
     off < parameter_count -> off' < parameter_count ->
     base + off = base' + off' -> off = off').

(** The number of independent parameters before the parameter [i]. *)
Definition rank (ps : list Model.spec) (i : nat) : nat :=
  length (List.filter Model.independent (take i ps)).

(** The bounds and the index that the indexing loop gives a parameter. *)
Definition indexed_lo (s : Model.spec) : R :=
  if Model.independent s then Rmin (Model.s_lo s) (Model.s_up s) else 0%R.

Definition indexed_up (s : Model.spec) : R :=
  if Model.independent s then Rmax (Model.s_lo s) (Model.s_up s) else 0%R.

Definition indexed_ind (ps : list Model.spec) (i : nat) (s : Model.spec) : nat :=
  if Model.independent s then rank ps i else 0.

(** The local tables of [get] after the indexing loop. *)
Definition indexed {Section_ : Type} (L : Model.locals Section_)
    (ps : list Model.spec) : Prop :=
  Model.val_ L = map Model.s_val ps /\
  Model.lo_ L = map indexed_lo ps /\
  Model.up_ L = map indexed_up ps /\
  Model.msk_ L = map Model.s_msk ps /\
  Model.ind_ L = imap (indexed_ind ps) ps /\
  Model.ref_ L = map Model.s_ref ps.

(** The local tables of [get] when the indexing loop has indexed the
    parameters below [k]. *)
Definition indexing {Section_ : Type} (L0 : Model.locals Section_)
    (ps : list Model.spec) (k : nat) (st : Model.locals Section_ * nat) : Prop :=
  let L := fst st in
  Model.sec_ L = Model.sec_ L0 /\ Model.isc_ L = Model.isc_ L0 /\
  Model.nle_ L = Model.nle_ L0 /\ Model.nli_ L = Model.nli_ L0 /\
  Model.sim_ L = Model.sim_ L0 /\ Model.pim_ L = Model.pim_ L0 /\
  Model.val_ L = map Model.s_val ps /\
  Model.msk_ L = map Model.s_msk ps /\
  Model.ref_ L = map Model.s_ref ps /\
  Model.lo_ L = map indexed_lo (take k ps) ++ map Model.s_lo (drop k ps) /\
  Model.up_ L = map indexed_up (take k ps) ++ map Model.s_up (drop k ps) /\
  Model.ind_ L = imap (indexed_ind ps) (take k ps) /\
  snd st = rank ps k.

(** The entries of the tables for the parameter [i]. *)
Definition entry {Section_ : Type} (L : Model.locals Section_) (i : nat)
    : option R * option R * option R * option bool * option nat :=
  (Model.val_ L !! i, Model.lo_ L !! i, Model.up_ L !! i,
   Model.msk_ L !! i, Model.ind_ L !! i).

(** The reference of the parameter [i] is empty. *)
Definition resolved {Section_ : Type} (L : Model.locals Section_) (i : nat) : Prop :=
  Model.ref_ L !! i = Some ""%string.

(** The references of [L0], the local variables after the indexing loop,
    and where they lead. *)
Definition leads_to {Section_ : Type} (parameter_count : nat)
    (L0 : Model.locals Section_) : nat -> nat -> Prop :=
  Model.resolves_to parameter_count (Model.sim_ L0) (Model.pim_ L0) (Model.isc_ L0)
    (Model.ref_ L0).

Definition leads_on {Section_ : Type} (parameter_count : nat)
    (L0 : Model.locals Section_) : nat -> nat -> Prop :=
  Model.reaches parameter_count (Model.sim_ L0) (Model.pim_ L0) (Model.isc_ L0)
    (Model.ref_ L0).

(** What the loops that dereference the references have done to the
    parameter [i]: nothing yet, or its reference is emptied and it has the
    entries of the parameter that its references lead to. *)
Definition followed {Section_ : Type} (parameter_count : nat)
    (L0 L : Model.locals Section_) (i : nat) : Prop :=
  (Model.ref_ L !! i = Model.ref_ L0 !! i /\ entry L i = entry L0 i) \/
  (resolved L i /\
   exists q, leads_to parameter_count L0 i q /\ entry L i = entry L0 q).

(** The resolution parameters, and the parameters of the lines at the
    position [off]. *)
Definition of_section {Section_ : Type} (L0 : Model.locals Section_) (j : nat) : Prop :=
  exists sid s, In (sid, s) (Model.sim_ L0) /\ Model.isc_ L0 !! s = Some j.

Definition of_line {Section_ : Type} (L0 : Model.locals Section_) (off k : nat) : Prop :=
  exists pid base, In (pid, base) (Model.pim_ L0) /\ k = base + off.

(** The state of the loop [while (!ref[j].empty())] for the parameter [j]:
    the parameter is as [followed] says, or its reference is the reference
    of a parameter [p] that its references lead on to. [kind] tells the
    resolution parameters, or the parameters of the lines at one
    position. *)
Definition following {Section_ : Type} (parameter_count : nat)
    (kind : nat -> Prop) (L0 L : Model.locals Section_) (j : nat) : Prop :=
  followed parameter_count L0 L j \/
  exists p r,
    leads_on parameter_count L0 j p /\ kind p /\
    Model.ref_ L !! j = Some r /\ r <> ""%string /\ Model.ref_ L0 !! p = Some r.

(** What the loops that dereference the references keep, with [L0] for the
    local variables after the indexing loop: the sizes, the maps, the
    entries of the parameters without reference, that a parameter whose
    reference has been emptied has the entries of a parameter without
    reference, and that the bounds are in order. *)
Definition dereferencing {Section_ : Type} (L0 L : Model.locals Section_) : Prop :=
  (Model.sec_ L = Model.sec_ L0 /\ Model.isc_ L = Model.isc_ L0 /\
   Model.nle_ L = Model.nle_ L0 /\ Model.nli_ L = Model.nli_ L0 /\
   Model.sim_ L = Model.sim_ L0 /\ Model.pim_ L = Model.pim_ L0) /\
  (length (Model.val_ L) = length (Model.ref_ L0) /\
   length (Model.lo_ L) = length (Model.ref_ L0) /\
   length (Model.up_ L) = length (Model.ref_ L0) /\
   length (Model.msk_ L) = length (Model.ref_ L0) /\
   length (Model.ind_ L) = length (Model.ref_ L0) /\
   length (Model.ref_ L) = length (Model.ref_ L0)) /\
  (forall i, resolved L0 i -> resolved L i /\ entry L i = entry L0 i) /\
  (forall i, resolved L i -> exists k, resolved L0 k /\ entry L i = entry L0 k) /\
  (forall i l u, Model.lo_ L !! i = Some l -> Model.up_ L !! i = Some u -> (l <= u)%R).

End Invariant.

(** * Ranges of random numbers *)

(** The predicates that the statements about the range of the random
    numbers use. *)
Module Range.

Local Open Scope Z_scope.

(** A word of [w] bits. *)
Definition bounded (w x : Z) : Prop := 0 <= x < 2 ^ w.

(** Template parameters of [Mersenne_Twister] whose words fit: a word of
    [w] bits fits a [word64], and the masks and the twist matrix fit a word
    of [w] bits. This bounds the values of the words; it does not say that
    the shifts of the code are defined. *)
Definition fitting (P : Random.parameters) : Prop :=
  Random.well_formed P /\
  1 <= Random.w P <= 64 /\
  0 <= Random.u P /\ 0 <= Random.l P /\
  bounded (Random.w P) (Random.a P) /\
  bounded (Random.w P) (Random.b P) /\
  bounded (Random.w P) (Random.c P).

(** The counts of the shifts in the code of [Mersenne_Twister], as the
    template parameters give them. The counts are of the type [natural],
    which is unsigned: a count that is negative here is a large count in
    the code. *)
Definition shift_counts (P : Random.parameters) : list Z :=
  [ (* [reset], [twist]: [max() >> (digits - w)] *)
    Word.digits - Random.w P;
    (* [reset]: [state[k - 1] >> (w - 2)] *)
    Random.w P - 2;
    (* [reset]: [1ull << (w - 1)] *)
    Random.w P - 1;
    (* [twist]: [max() << (digits - w + r)] *)
    Word.digits - Random.w P + Random.r P;
    (* [twist]: [max() >> (digits - r)] *)
    Word.digits - Random.r P;
    (* [rand]: [next >> u], [next << s], [next << t], [next >> l] *)
    Random.u P; Random.s P; Random.t P; Random.l P;
    (* [operator()]: [max() >> (digits - (w < real_digits ? w : real_digits))] *)
    Word.digits - (if Random.w P <? Random.real_digits then Random.w P
                   else Random.real_digits);
    (* [operator()]: [rand() >> (w - real_digits)], if [w] is not less *)
    (if Random.w P <? Random.real_digits then 0 else Random.w P - Random.real_digits) ].

(** Template parameters that [Mersenne_Twister] is defined for: the words
    fit, and every shift is by a count from 0 to 63, which is what C++
    requires of a shift of a [word64]. On these parameters the shifts of
    [Word], which are defined for every count, are the shifts of the
    code. *)
Definition proper (P : Random.parameters) : Prop :=
  fitting P /\ Forall (fun k => 0 <= k < Word.digits) (shift_counts P).

(** A generator object whose state consists of words of [w] bits. *)
Definition ranged (P : Random.parameters) (g : Random.Mersenne_Twister) : Prop :=
  Invariant.valid P g /\ Forall (bounded (Random.w P)) (Random.state g).

(** A random word of [w] bits, or a real number in the unit interval. *)
Definition in_range (P : Random.parameters) (y : Random.number) : Prop :=
  match y with
  | Random.Word64 y => bounded (Random.w P) y
  | Random.Real x => (0 <= x <= 1)%R
  end.

End Range.

(** * The two implementations of the Mersenne twister *)

(** The correspondence between the generators of mtwister.h and of
    random.h. *)
Module Agreement.

Local Open Scope Z_scope.

(** An object of mtwister.h, seen as an object of random.h. *)
Definition of_mtwister (g : Mtwister.mersenne_twister) : Random.Mersenne_Twister :=
  {| Random.state := Mtwister.words g; Random.index := Mtwister.i g |}.

(** Template parameters of the two class templates that describe the same
    generator of words of less than 53 bits: the parameters of the
    recurrence and of the tempering are the same, the tempering mask [d] of
    random.h, which mtwister.h does not have, lets all bits of a word
    pass, the multipliers of random.h are the constants of mtwister.h, and
    the shift [r - 1] that mtwister.h uses when it resets the state is the
    shift [w - 2] that random.h uses. *)
Definition akin (P1 : Mtwister.parameters) (P2 : Random.parameters) : Prop :=
  Mtwister.w P1 = Random.w P2 /\
  Mtwister.n P1 = Random.n P2 /\
  Mtwister.m P1 = Random.m P2 /\
  Mtwister.r P1 = Random.r P2 /\
  Mtwister.a P1 = Random.a P2 /\
  Mtwister.u P1 = Random.u P2 /\
  Mtwister.s P1 = Random.s P2 /\
  Mtwister.b P1 = Random.b P2 /\
  Mtwister.t P1 = Random.t P2 /\
  Mtwister.c P1 = Random.c P2 /\
  Mtwister.l P1 = Random.l P2 /\
  Random.d P2 = 2 ^ Random.w P2 - 1 /\
  Random.mult1 P2 = 1812433253 /\
  Random.mult2 P2 = 1664525 /\
  Random.mult3 P2 = 1566083941 /\
  Mtwister.r P1 - 1 = Random.w P2 - 2 /\
  0 < Random.u P2 /\
  Random.w P2 < Random.real_digits.

End Agreement.

(** * The MELG generator of random.h *)

Module Melg.

Local Open Scope Z_scope.

(** The template parameters of [especia::Melg]. *)
Record parameters : Type := {
  w : Z; n : nat; m : nat; l : nat;
  mult1 : Z;
  mult2 : Z;
  mult3 : Z
}.

(** The MELG19937-64. *)
Definition Melg19937_64 : parameters :=
  {| w := 64; n := 311; m := 81; l := 19;
     mult1 := 6364136223846793005; mult2 := 3935559000370003845;
     mult3 := 2862933555777941757 |}.

(** The (mutable) data members of the functor; [state] has [n + 1] words. *)
Record Melg : Type := {
  state : list Z;
  index : nat;
  cycle : nat
}.

(** The difference of two indexes, which are unsigned numbers: a negative
    difference wraps around to an index outside of every array. *)
Definition minus_ (i k : nat) : option nat :=
  if Nat.leb k i then Some (i - k)%nat else None.

Section Algorithm.

Variable P : parameters.

(** [void reset(const word64 seed)] *)
Definition reset (seed : Z) (g : Melg) : option Melg :=
  x ← put_ (state g) 0 seed;
  x ← for_ 1 (n P + 1) (fun index x =>
         p ← at_ x (index - 1);
         put_ x index
           (Word.add (Word.mul (Z.lxor p (Word.shr p (w P - 2))) (mult1 P))
                     (Z.of_nat index))) x;
  Some {| state := x; index := 0%nat; cycle := 1%nat |}.

(** [if (i >= n) { state[0] = state[n - 1]; i = 1; }] *)
Definition wrap_index (x : list Z) (i : nat) : option (list Z * nat) :=
  if Nat.leb (n P) i
  then
    z ← at_ x (n P - 1);
    x ← put_ x 0 z;
    Some (x, 1%nat)
  else Some (x, i).

(** [void reset(const natural seed_count, const word64 seeds[])] *)
Definition reset_seeds (seed_count : nat) (seeds : list Z) (g : Melg) : option Melg :=
  g ← reset 19650218 g;
  '(x, i, _) ← for_up (Nat.max (n P) seed_count) 0 (fun _ '(x, i, j) =>
       xi ← at_ x i;
       p ← at_ x (i - 1);
       sj ← at_ seeds j;
       x ← put_ x i (Word.add
                       (Word.add
                          (Z.lxor xi (Word.mul (Z.lxor p (Word.shr p (w P - 2))) (mult2 P)))
                          sj)
                       (Z.of_nat j));
       let i := S i in
       let j := S j in
       '(x, i) ← wrap_index x i;
       let j := if Nat.leb seed_count j then 0%nat else j in
       Some (x, i, j)) (state g, 1%nat, 0%nat);
  '(x, i) ← for_up (n P - 1) 0 (fun _ '(x, i) =>
       xi ← at_ x i;
       p ← at_ x (i - 1);
       x ← put_ x i (Word.sub
                       (Z.lxor xi (Word.mul (Z.lxor p (Word.shr p (w P - 2))) (mult3 P)))
                       (Z.of_nat i));
       wrap_index x (S i)) (x, i);
  xn ← at_ x (n P);
  p ← at_ x (n P - 1);
  x ← put_ x (n P)
        (Word.sub (Z.lxor xn (Word.mul (Z.lxor p (Word.shr p (w P - 2))) (mult3 P)))
                  (Z.of_nat (n P)));
  x0 ← at_ x 0;
  x ← put_ x 0 (Z.lor x0 (Word.shl 1 (w P - 1)));
  Some {| state := x; index := 0%nat; cycle := 1%nat |}.

(** [explicit Melg(const word64 seed)] *)
Definition new (seed : Z) : option Melg :=
  let seeds := [Z.land seed 0x00000000FFFFFFFF; Z.land seed 0xFFFFFFFF00000000] in
  reset_seeds 2 seeds {| state := replicate (n P + 1) 0; index := 0%nat; cycle := 0%nat |}.

(** [Melg(const natural seed_count, const word64 seeds[])] *)
Definition new_seeds (seed_count : nat) (seeds : list Z) : option Melg :=
  reset_seeds seed_count seeds
    {| state := replicate (n P + 1) 0; index := 0%nat; cycle := 0%nat |}.

(** [word64 rock(const natural i, const natural k) const] *)
Definition rock (i k : nat) (x : list Z) : option Z :=
  xi ← at_ x i;
  xk ← at_ x k;
  Some (Z.lor (Z.land xi 0xFFFFFFFF80000000) (Z.land xk 0x7FFFFFFF)).

(** [void roll(const word64 word, const natural i) const] *)
Definition roll (word : Z) (i : nat) (x : list Z) : option (list Z) :=
  xi ← at_ x i;
  xn ← at_ x (n P);
  put_ x (n P)
    (Z.lxor
       (Z.lxor
          (Z.lxor (Word.shr word 1)
                  (if negb (Z.land word 1 =? 0) then 0x5C32E06DF730FC42 else 0))
          xi)
       (Z.lxor xn (Word.shl xn 23))).

(** [word64 twist(const word64 word, const natural i, const natural k) const] *)
Definition twist (word : Z) (i k : nat) (x : list Z) : option (Z * list Z) :=
  xn ← at_ x (n P);
  x ← put_ x i (Z.lxor word (Z.lxor xn (Word.shr xn 33)));
  xi ← at_ x i;
  xk ← at_ x k;
  Some (Z.lxor (Z.lxor xi (Word.shl xi 16)) (Z.land xk 0x6AEDE6FD97B338EC), x).

(** [word64 rand() const] *)
Definition rand (g : Melg) : option (Z * Melg) :=
  let x := state g in
  let index := index g in
  match cycle g with
  | 1%nat =>
      next ← rock index (index + 1) x;
      x ← roll next (index + m P) x;
      '(next, x) ← twist next index (index + l P) x;
      let index := S index in
      Some (next, {| state := x; index := index;
                     cycle := if Nat.eqb index (n P - m P) then 2%nat else 1%nat |})
  | 2%nat =>
      next ← rock index (index + 1) x;
      i ← minus_ (index + m P) (n P);
      x ← roll next i x;
      '(next, x) ← twist next index (index + l P) x;
      let index := S index in
      Some (next, {| state := x; index := index;
                     cycle := if Nat.eqb index (n P - l P) then 3%nat else 2%nat |})
  | 3%nat =>
      next ← rock index (index + 1) x;
      i ← minus_ (index + m P) (n P);
      x ← roll next i x;
      k ← minus_ index (n P - l P);
      '(next, x) ← twist next index k x;
      let index := S index in
      Some (next, {| state := x; index := index;
                     cycle := if Nat.eqb index (n P - 1) then 4%nat else 3%nat |})
  | 4%nat =>
      next ← rock (n P - 1) 0 x;
      x ← roll next (m P - 1) x;
      k ← minus_ index (n P - l P);
      '(next, x) ← twist next (n P - 1) k x;
      Some (next, {| state := x; index := 0%nat; cycle := 1%nat |})
  | _ => Some (0, g)
  end.

(** The maximum mantissa value for a real number. *)
Definition max_mantissa : Z :=
  Word.shr Word.max
    (Word.digits - (if w P <? Random.real_digits then w P else Random.real_digits)).

(** [real operator()() const] *)
Definition call (g : Melg) : option (R * Melg) :=
  '(y, g) ← rand g;
  let y := if w P <? Random.real_digits then y else Word.shr y (w P - Random.real_digits) in
  Some ((IZR y * (1 / IZR max_mantissa))%R, g).

(** One call of a member function on an object. *)
Definition invoke (f : Random.member) (g : Melg) : option (Random.number * Melg) :=
  match f with
  | Random.Rand => '(y, g) ← rand g; Some (Random.Word64 y, g)
  | Random.Call => '(x, g) ← call g; Some (Random.Real x, g)
  end.

(** A sequence of calls on one object, with the numbers returned. *)
Fixpoint run (fs : list Random.member) (g : Melg) : option (list Random.number * Melg) :=
  match fs with
  | [] => Some ([], g)
  | f :: fs =>
      '(y, g) ← invoke f g;
      '(ys, g) ← run fs g;
      Some (y :: ys, g)
  end.

End Algorithm.

(** The template parameters that the algorithm is defined for: words of 64
    bits, and [2 <= l < m < n], so that the four cycles of [rand] follow
    each other. *)
Definition proper (P : parameters) : Prop :=
  w P = 64 /\ (2 <= l P /\ l P < m P /\ m P < n P)%nat.

(** The state of a generator object between two calls: [n + 1] words of 64
    bits, and an index that belongs to the cycle. *)
Definition valid (P : parameters) (g : Melg) : Prop :=
  length (state g) = (n P + 1)%nat /\
  Forall (Range.bounded 64) (state g) /\
  (cycle g = 1%nat /\ index g < n P - m P \/
   cycle g = 2%nat /\ n P - m P <= index g < n P - l P \/
   cycle g = 3%nat /\ n P - l P <= index g < n P - 1 \/
   cycle g = 4%nat /\ index g = n P - 1)%nat.

(** A random word of 64 bits, or a real number in the unit interval. *)
Definition in_range (y : Random.number) : Prop :=
  match y with
  | Random.Word64 y => Range.bounded 64 y
  | Random.Real x => (0 <= x <= 1)%R
  end.

End Melg.

(** * The PCG generator of random.h *)

Module Pcg.

Local Open Scope Z_scope.

(** The data members of the functor: the increment and the state. *)
Record Pcg : Type := {
  inc : Z;
  state : Z
}.

(** Conversion to [word32], an unsigned integer type of 32 bits. *)
Definition word32 (x : Z) : Z := x mod 2 ^ 32.

Section Algorithm.

(** The template parameter, the multiplier. *)
Variable mult : Z.

(** [word32 rand() const] *)
Definition rand (g : Pcg) : Z * Pcg :=
  let saved := state g in
  let g := {| inc := inc g; state := Word.add (Word.mul saved mult) (inc g) |} in
  let s := word32 (Word.shr (Z.lxor (Word.shr saved 18) saved) 27) in
  let r := word32 (Word.shr saved 59) in
  (Z.lor (Word.shr s r) (word32 (Z.shiftl s (Z.land (word32 (- r)) 31))), g).

(** [explicit Pcg(const word64 seed, const word64 selector)] *)
Definition new (seed selector : Z) : Pcg :=
  let g := {| inc := Z.lor (Word.shl selector 1) 1; state := 0 |} in
  let '(_, g) := rand g in
  let g := {| inc := inc g; state := Word.add (state g) seed |} in
  let '(_, g) := rand g in
  g.

(** [real operator()() const] *)
Definition call (g : Pcg) : R * Pcg :=
  let '(y, g) := rand g in
  ((IZR y / IZR 0xFFFFFFFF)%R, g).

(** The first [k] words that [rand] returns. *)
Fixpoint draw (k : nat) (g : Pcg) : list Z :=
  match k with
  | O => []
  | S k' => let '(y, g) := rand g in y :: draw k' g
  end.

(** The state after [k] calls of [rand]. *)
Fixpoint skip (k : nat) (g : Pcg) : Pcg :=
  match k with
  | O => g
  | S k' => let '(_, g) := rand g in skip k' g
  end.

End Algorithm.

(** The PCG-XSH-RR with 64-bit state and 32-bit output. *)
Definition Pcg_32 : Z := 6364136223846793005.

(** The first numbers that the demonstration program of the reference
    implementation prints, for the seed 42 and the sequence selector 54. *)
Definition reference_42_54 : list Z :=
  [0xa15c02b7; 0x7b47f409; 0xba1d3330; 0x83d2f293; 0xbfa4784b; 0xcbed606e].

End Pcg.

(** * The Voigt profiles (profiles.h, profiles.cxx) *)

Module Voigt.

Import Profiles.

Local Open Scope R_scope.

(** An univariate polynomial of degree 6, [poly] of profiles.cxx. *)
Definition poly (x h0 h1 h2 h3 h4 h5 h6 : R) : R :=
  h0 + x * (h1 + x * (h2 + x * (h3 + x * (h4 + x * (h5 + x * h6))))).

Definition poly_w_g (r : R) : R :=
  1 - r * poly r 0.66000 0.15021 (-1.24984) 4.74052 (-9.48291) 8.48252 (-2.95553).

Definition poly_w_l (r : R) : R :=
  1 - (1 - r) * poly r (-0.42179) (-1.25693) 10.30003 (-23.45651) 29.14158 (-16.50453) 3.19974.

Definition poly_w_i (r : R) : R :=
  poly r 1.19913 1.43021 (-15.36331) 47.06071 (-73.61822) 57.92559 (-17.80614).

Definition poly_w_p (r : R) : R :=
  poly r 1.10186 (-0.47745) (-0.68688) 2.76622 (-4.55466) 4.05475 (-1.26571).

Definition poly_eta_l (r : R) : R :=
  r * (1 + (1 - r) * poly r (-0.30165) (-1.38927) 9.31550 (-24.10743) 34.96491 (-21.18862) 3.70290).

Definition poly_eta_i (r : R) : R :=
  (r * (1 - r)) * poly r 0.25437 (-0.14107) 3.23653 (-11.09215) 22.10544 (-24.12407) 9.76947.

Definition poly_eta_p (r : R) : R :=
  (r * (1 - r)) * poly r 1.01579 1.50429 (-9.21815) 23.59717 (-39.71134) 32.83023 (-10.02142).

(** [std::pow] for a positive base. *)
Definition pow_ (x y : R) : R := Rpower x y.

(** The static data members of the two approximations. *)
Definition c_g : R := 2 * sqrt (ln 2).
Definition c_l : R := 2.
Definition c_i : R := 2 * sqrt (pow_ 2 (2 / 3) - 1).
Definition c_p : R := 2 * ln (sqrt 2 + 1).

Section Constants.

(** The constants of base.h in the version that profiles.cxx includes. *)
Variables pi sqrt_of_pi speed_of_light elementary_charge electric_constant electron_mass : R.

(** The Lorentzian [f_l] of profiles.cxx. *)
Definition f_l (x gamma : R) : R :=
  1 / ((pi * gamma) * (1 + sqr (x / gamma))).

(** The irrational function [f_i] of profiles.cxx. *)
Definition f_i (x gamma : R) : R :=
  1 / ((2 * gamma) * pow_ (1 + sqr (x / gamma)) 1.5).

(** The squared hyperbolic secant function [f_p] of profiles.cxx. *)
Definition f_p (x gamma : R) : R :=
  1 / (2 * gamma * sqr (cosh (x / gamma))).

(** The data members of [Pseudo_Voigt]. *)
Record Pseudo_Voigt : Type := {
  pv_u : R;
  pv_r : R;
  pv_gamma_g : R;
  pv_gamma_l : R;
  pv_eta : R
}.

(** [Pseudo_Voigt::Pseudo_Voigt(const double &b, const double &d)] *)
Definition Pseudo_Voigt_new (b d : R) : Pseudo_Voigt :=
  let u := (c_g * b) / (c_l * d) in
  let r := 1 / pow_ (1 + u * (0.07842 + u * (4.47163 + u * (2.42843 + u * (u + 2.69269))))) 0.2 in
  let gamma_g := (c_l * d) / (c_g * r) in
  let gamma_l := (c_l * d) / (c_l * r) in
  let eta := r * (1.36603 - r * (0.47719 - r * 0.11116)) in
  {| pv_u := u; pv_r := r; pv_gamma_g := gamma_g; pv_gamma_l := gamma_l; pv_eta := eta |}.

(** [Pseudo_Voigt::operator()] *)
Definition Pseudo_Voigt_call (p : Pseudo_Voigt) (x : R) : R :=
  (1 - pv_eta p) * f_g sqrt_of_pi x (pv_gamma_g p) + pv_eta p * f_l x (pv_gamma_l p).

(** The data members of [Extended_Pseudo_Voigt]. *)
Record Extended_Pseudo_Voigt : Type := {
  ev_u : R;
  ev_r : R;
  ev_gamma_g : R;
  ev_gamma_l : R;
  ev_gamma_i : R;
  ev_gamma_p : R;
  ev_eta_l : R;
  ev_eta_i : R;
  ev_eta_p : R
}.

(** [Extended_Pseudo_Voigt::Extended_Pseudo_Voigt(const double &b, const double &d)] *)
Definition Extended_Pseudo_Voigt_new (b d : R) : Extended_Pseudo_Voigt :=
  let u := c_g * b + c_l * d in
  let r := c_l * d / u in
  {| ev_u := u; ev_r := r;
     ev_gamma_g := u * poly_w_g r / c_g;
     ev_gamma_l := u * poly_w_l r / c_l;
     ev_gamma_i := u * poly_w_i r / c_i;
     ev_gamma_p := u * poly_w_p r / c_p;
     ev_eta_l := poly_eta_l r;
     ev_eta_i := poly_eta_i r;
     ev_eta_p := poly_eta_p r |}.

(** [Extended_Pseudo_Voigt::operator()] *)
Definition Extended_Pseudo_Voigt_call (p : Extended_Pseudo_Voigt) (x : R) : R :=
  (1 - ev_eta_l p - ev_eta_i p - ev_eta_p p) * f_g sqrt_of_pi x (ev_gamma_g p) +
  ev_eta_l p * f_l x (ev_gamma_l p) +
  ev_eta_i p * f_i x (ev_gamma_i p) +
  ev_eta_p p * f_p x (ev_gamma_p p).

(** The class template [Intergalactic_Voigt<A>] for an approximation [A]
    with its constructor and its call operator. *)
Section Intergalactic.

Variable A : Type.
Variable A_new : R -> R -> A.
Variable A_call : A -> R -> R.

Definition c0 : R := 1e-3 * speed_of_light.

Definition c1 : R :=
  1e-6 * sqr elementary_charge /
  (4 * electric_constant * electron_mass * sqr speed_of_light).

Definition c2 : R := 1e-10 / (4 * pi * speed_of_light).

(** The data members of [Intergalactic_Voigt<A>]. *)
Record Intergalactic_Voigt : Type := {
  iv_c : R;
  iv_a : R;
  iv_approximation : A
}.

(** [Intergalactic_Voigt()] *)
Definition Intergalactic_Voigt_default : Intergalactic_Voigt :=
  {| iv_c := 0; iv_a := 0; iv_approximation := A_new 1 1 |}.

(** [Intergalactic_Voigt(const R_type q[])] *)
Definition Intergalactic_Voigt_new (q : list R) : option Intergalactic_Voigt :=
  match q with
  | q0 :: q1 :: q2 :: q3 :: q4 :: q5 :: q6 :: _ =>
      let c := q0 * (1 + q2) * (1 + q3 / c0) in
      let a := c1 * q1 * pow_ 10 q5 * (q0 * c) in
      Some {| iv_c := c; iv_a := a;
              iv_approximation := A_new (q4 * c / c0) (c2 * q6 * (q0 * c)) |}
  | _ => None
  end.

(** [Intergalactic_Voigt::operator()] *)
Definition Intergalactic_Voigt_call (p : Intergalactic_Voigt) (x : R) : R :=
  iv_a p * A_call (iv_approximation p) (x - iv_c p).

End Intergalactic.

End Constants.

End Voigt.

(** * The other eigenproblem solvers (decompose.cxx) *)

(** The drivers for the LAPACK routines DSYEVD (divide and conquer) and
    DSYEVX (inverse iteration). *)
Module Drivers.

Import Decompose.

(** What DSYEVD leaves in its arguments: [INFO], the eigenvalues [W], the
    matrix [A], which holds the eigenvectors (column-major) on exit, and the
    optimal sizes [WORK(1)] and [IWORK(1)]. *)
Record syevd_out : Type := {
  d_info : Z;
  d_eigenvalues : list R;
  d_matrix : list R;
  d_work_1 : Z;
  d_iwork_1 : Z
}.

(** What DSYEVX leaves in its arguments: [INFO], the number [M] of
    eigenvalues found, the eigenvalues [W], the eigenvectors [Z]
    (column-major) and the optimal size [WORK(1)]. *)
Record syevx_out : Type := {
  x_info : Z;
  x_found : Z;
  x_eigenvalues : list R;
  x_eigenvectors : list R;
  x_work_1 : Z
}.

Definition D_message_int_err : string :=
  "especia::D_Decompose() Error: internal error in LAPACK".

Definition D_message_ill_arg : string :=
  "especia::D_Decompose() Error: illegal argument(s) in call to LAPACK".

Definition X_message_int_err : string :=
  "especia::X_Decompose() Error: internal error in LAPACK".

Definition X_message_ill_arg : string :=
  "especia::X_Decompose() Error: illegal argument(s) in call to LAPACK".

(** The data members of [D_Decompose] that its calls depend on. *)
Record D_Decompose : Type := {
  d_n : nat;
  d_lwork : Z;
  d_liwork : Z
}.

(** The data members of [X_Decompose] that its calls depend on. *)
Record X_Decompose : Type := {
  x_n : nat;
  x_lwork : Z
}.

Section Lapack.

(** The LAPACK routines, for job 'V', uplo 'U' (and range 'A'), as
    functions of the order of the matrix, of the matrix, of its leading
    dimension [lda] (and of the leading dimension [ldz] of the
    eigenvectors) and of the sizes of the workspace. *)
Variable syevd : forall (n : Z) (A : list R) (lda lwork liwork : Z), syevd_out.
Variable syevx : forall (n : Z) (A : list R) (lda ldz lwork : Z), syevx_out.

(** [D_Decompose::allocate_workspace], called by the constructor. *)
Definition D_Decompose_new (n_in : nat) : completion D_Decompose :=
  let out := syevd (Z.of_nat n_in) [] (Z.of_nat n_in) (-1) (-1) in
  if (d_info out =? 0)%Z then
    Returns {| d_n := n_in; d_lwork := d_work_1 out; d_liwork := d_iwork_1 out |}
  else if (0 <? d_info out)%Z then Throws (runtime_error D_message_int_err)
  else Throws (invalid_argument D_message_ill_arg).

(** [D_Decompose::operator()]: the matrix [A] is copied to [Z], on which
    DSYEVD works in place; the dimension is passed as the order and as the
    leading dimension. *)
Definition D_Decompose_call (D : D_Decompose) (A : list R)
    : completion (list R * list R) :=
  if Nat.leb (d_n D * d_n D) (length A) then
    let Z0 := take (d_n D * d_n D) A in
    let out := syevd (Z.of_nat (d_n D)) Z0 (Z.of_nat (d_n D)) (d_lwork D) (d_liwork D) in
    if (d_info out =? 0)%Z then
      match transpose (d_n D) (d_matrix out) with
      | Some Z' => Returns (Z', d_eigenvalues out)
      | None => Undefined
      end
    else if (0 <? d_info out)%Z then Throws (runtime_error D_message_int_err)
    else Throws (invalid_argument D_message_ill_arg)
  else Undefined.

(** [X_Decompose::allocate_workspace], called by the constructor. *)
Definition X_Decompose_new (n_in : nat) : completion X_Decompose :=
  let out := syevx (Z.of_nat n_in) [] (Z.of_nat n_in) (Z.of_nat n_in) (-1) in
  if (x_info out =? 0)%Z then
    Returns {| x_n := n_in; x_lwork := x_work_1 out |}
  else if (0 <? x_info out)%Z then Throws (runtime_error X_message_int_err)
  else Throws (invalid_argument X_message_ill_arg).

(** [X_Decompose::operator()]: the matrix [A] is copied to the workspace;
    the dimension is passed as the order and as both leading dimensions. *)
Definition X_Decompose_call (D : X_Decompose) (A : list R)
    : completion (list R * list R) :=
  if Nat.leb (x_n D * x_n D) (length A) then
    let awork := take (x_n D * x_n D) A in
    let out := syevx (Z.of_nat (x_n D)) awork (Z.of_nat (x_n D)) (Z.of_nat (x_n D))
                 (x_lwork D) in
    if (x_info out =? 0)%Z then
      match transpose (x_n D) (x_eigenvectors out) with
      | Some Z' => Returns (Z', x_eigenvalues out)
      | None => Undefined
      end
    else if (0 <? x_info out)%Z then Throws (runtime_error X_message_int_err)
    else Throws (invalid_argument X_message_ill_arg)
  else Undefined.

End Lapack.

(** The exits of the routines that have found their [i]-th argument
    illegal. *)
Definition d_illegal (i : Z) : syevd_out :=
  {| d_info := - i; d_eigenvalues := []; d_matrix := []; d_work_1 := 0; d_iwork_1 := 0 |}.

Definition x_illegal (i : Z) : syevx_out :=
  {| x_info := - i; x_found := 0; x_eigenvalues := []; x_eigenvectors := [];
     x_work_1 := 0 |}.

(** DSYEVD, called for job 'V' and uplo 'U', for the orders 0 and 1, as
    [syevr_small] is for DSYEVR. The routine tests that the order is not
    negative (3rd argument), that [LDA >= max(1, N)] (5th) and, unless the
    call is a workspace query, the sizes of the workspace (8th and 10th),
    which are 1 for these orders. *)
Definition syevd_small (n : Z) (A : list R) (lda lwork liwork : Z) : syevd_out :=
  let query := ((lwork =? -1) || (liwork =? -1))%Z in
  if (n <? 0)%Z then d_illegal 3
  else if (lda <? Z.max 1 n)%Z then d_illegal 5
  else if (n <=? 1)%Z then
    if ((lwork <? 1)%Z && negb query) then d_illegal 8
    else if ((liwork <? 1)%Z && negb query) then d_illegal 10
    else if query then
      {| d_info := 0; d_eigenvalues := []; d_matrix := A; d_work_1 := 1; d_iwork_1 := 1 |}
    else if (n =? 0)%Z then
      {| d_info := 0; d_eigenvalues := []; d_matrix := A; d_work_1 := 1; d_iwork_1 := 1 |}
    else
      {| d_info := 0; d_eigenvalues := take 1 A; d_matrix := [1%R];
         d_work_1 := 1; d_iwork_1 := 1 |}
  else
    {| d_info := 1; d_eigenvalues := []; d_matrix := A;
       d_work_1 := 1 + 6 * n + 2 * n * n; d_iwork_1 := 3 + 5 * n |}.

(** DSYEVX, called for job 'V', range 'A' and uplo 'U', for the orders 0
    and 1. The routine tests that the order is not negative (4th argument),
    that [LDA >= max(1, N)] (6th), that [LDZ >= 1] and [LDZ >= N] (15th)
    and, unless the call is a workspace query, the size of the workspace
    (17th), which is 1 for these orders. *)
Definition syevx_small (n : Z) (A : list R) (lda ldz lwork : Z) : syevx_out :=
  let query := (lwork =? -1)%Z in
  if (n <? 0)%Z then x_illegal 4
  else if (lda <? Z.max 1 n)%Z then x_illegal 6
  else if ((ldz <? 1) || (ldz <? n))%Z then x_illegal 15
  else if (n <=? 1)%Z then
    if ((lwork <? 1)%Z && negb query) then x_illegal 17
    else if query then
      {| x_info := 0; x_found := 0; x_eigenvalues := []; x_eigenvectors := [];
         x_work_1 := 1 |}
    else if (n =? 0)%Z then
      {| x_info := 0; x_found := 0; x_eigenvalues := []; x_eigenvectors := [];
         x_work_1 := 1 |}
    else
      {| x_info := 0; x_found := 1; x_eigenvalues := take 1 A; x_eigenvectors := [1%R];
         x_work_1 := 1 |}
  else
    {| x_info := 1; x_found := 0; x_eigenvalues := []; x_eigenvectors := [];
       x_work_1 := 8 * n |}.

End Drivers.

(** * Reading vectors from a stream (readline.h) *)

Module Readline.

(** A body that is run [n] times: the loops of [read] do not use their
    index. *)
Fixpoint times {T : Type} (n : nat) (body : T -> T) (st : T) : T :=
  match n with
  | O => st
  | S n' => times n' body (body st)
  end.

Section Stream.

(** The input stream with its conversion to [bool], which is true unless
    the stream has failed. *)
Variable stream : Type.
Variable ok : stream -> bool.

Section One.

Variable A : Type.

(** [is >> aa], which gives the stream after the extraction and the value
    that [aa] holds then. *)
Variable get_A : stream -> A * stream.

(** The body of the loop of [read] for one vector. *)
Definition step (st : stream * list A) : stream * list A :=
  let '(is_, ta) := st in
  let '(aa, is_) := get_A is_ in
  if ok is_ then (is_, ta ++ [aa]) else (is_, ta).

(** [read(is, a, n, append)] for one vector: the stream and the vector [a]
    after the call. *)
Definition read (is_ : stream) (a : list A) (n : nat) (append : bool)
    : stream * list A :=
  let '(is_, ta) := times n step (is_, []) in
  if ok is_ then
    if append then (is_, a ++ ta) else (is_, ta)
  else (is_, a).

(** [n] extractions in a row. *)
Fixpoint extractions (n : nat) (is_ : stream) : list A * stream :=
  match n with
  | O => ([], is_)
  | S n' =>
      let '(aa, is_) := get_A is_ in
      let '(l, is_) := extractions n' is_ in
      (aa :: l, is_)
  end.

End One.

Section Two.

Variables A B : Type.
Variable get_A : stream -> A * stream.
Variable get_B : stream -> B * stream.

(** [is >> aa >> bb] *)
Definition get_A_B (is_ : stream) : (A * B) * stream :=
  let '(aa, is_) := get_A is_ in
  let '(bb, is_) := get_B is_ in
  ((aa, bb), is_).

(** The body of the loop of [read] for two vectors. *)
Definition step_2 (st : stream * list A * list B) : stream * list A * list B :=
  let '(is_, ta, tb) := st in
  let '((aa, bb), is_) := get_A_B is_ in
  if ok is_ then (is_, ta ++ [aa], tb ++ [bb]) else (is_, ta, tb).

(** [read(is, a, b, n, append)] for two vectors. *)
Definition read_2 (is_ : stream) (a : list A) (b : list B) (n : nat) (append : bool)
    : stream * list A * list B :=
  let '(is_, ta, tb) := times n step_2 (is_, [], []) in
  if ok is_ then
    if append then (is_, a ++ ta, b ++ tb) else (is_, ta, tb)
  else (is_, a, b).

End Two.

End Stream.

(** A stream of numbers that are already told apart: the text that is left,
    where [None] stands for text that is not a number, and the fail bit. *)
Record numbers : Type := {
  left_ : list (option nat);
  failed : bool
}.

Definition numbers_ok (s : numbers) : bool := negb (failed s).

(** The extraction of a number: nothing is extracted from a stream that has
    failed, and the stream fails at its end and at text that is not a
    number. *)
Definition get_number (s : numbers) : nat * numbers :=
  if failed s then (0, s)
  else
    match left_ s with
    | Some k :: l => (k, {| left_ := l; failed := false |})
    | _ => (0, {| left_ := left_ s; failed := true |})
    end.

End Readline.

(** * Wavelengths in air and in vacuum (equations.h, vactoair.cxx, airtovac.cxx) *)

(** [class Equations]: the wavenumber in air as a function of the
    wavenumber [x] in vacuum (1/nm). *)
Module Equations.

Local Open Scope R_scope.

Definition birch94 (x : R) : R :=
  (1.0 + 8.34254E-05 + 2.406147E-08 / (130.0E-06 - x * x)
   + 1.5998E-10 / (38.9E-06 - x * x)) * x.

Definition edlen53 (x : R) : R :=
  (1.0 + 6.43280E-05 + 2.5540E-10 / (0.0000410 - x * x)
   + 2.949810E-08 / (0.000146 - x * x)) * x.

Definition edlen66 (x : R) : R :=
  (1.0 + 8.34213E-05 + 1.5997E-10 / (0.0000389 - x * x)
   + 2.406030E-08 / (0.000130 - x * x)) * x.

End Equations.

(** The utility [vactoair]. *)
Module Vactoair.

Local Open Scope R_scope.

(** [double vactoair(double x)] *)
Definition vactoair (x : R) : R :=
  let a := 1.0000834213 + 1.5997e-10 / (0.0000389 - x * x)
           + 2.406030e-08 / (0.000130 - x * x) in
  a * x.

(** What [main] does to a wavelength (Angstrom):
    [x[i] = 10.0 / vactoair(10.0 / x[i])]. *)
Definition convert (x : R) : R := 10.0 / vactoair (10.0 / x).

End Vactoair.

(** The utility [airtovac]. *)
Module Airtovac.

Import Decompose.

Local Open Scope R_scope.

Definition message_accuracy : string :=
  "Error: the required accuracy goal was not reached".

(** The loop of [solve], with [count] iterations to go. The function [f]
    gives the value and the derivative at once. *)
Fixpoint solve_from (count : nat) (f : R -> R * R) (c x accuracy_goal : R)
    : completion R :=
  match count with
  | O => Throws (runtime_error message_accuracy)
  | S count' =>
      let '(y, z) := f x in
      let d := (y - c) / z in
      let x := x - d in
      if Rlt_dec (Rabs d) (accuracy_goal * x) then Returns x
      else solve_from count' f c x accuracy_goal
  end.

(** [R_elem solve(f, c, x, accuracy_goal)]: Newton's method for
    [f(x) = c]. *)
Definition solve (f : R -> R * R) (c x accuracy_goal : R) : completion R :=
  solve_from 100 f c x accuracy_goal.

(** The default of the accuracy goal. *)
Definition accuracy_goal_default : R := 1.0E-8.

End Airtovac.

(** * The objective functions of the optimizer test (optimizer_test.cxx) *)

Module Optimizer_test.

Local Open Scope R_scope.

Section Functions.

(** [especia::sq], the square of a number. The test includes a version of
    base.h that is not part of the sources. *)
Variable sq : R -> R.

(** [static R_type sphere(const R_type x[], N_type n)] *)
Definition sphere (x : list R) (n : nat) : option R :=
  for_ 0%nat n (fun i y => xi ← at_ x i; Some (y + sq xi)) 0.

(** [static R_type cigar(const R_type x[], N_type n)] *)
Definition cigar (x : list R) (n : nat) : option R :=
  y ← for_ 1%nat n (fun i y => xi ← at_ x i; Some (y + sq xi)) 0;
  x0 ← at_ x 0%nat;
  Some (1.0E+06 * y + sq x0).

(** [static R_type rosenbrock(const R_type x[], N_type n)]. The bound
    [n - 1] of the loop is computed with the unsigned integers of
    [N_type], words of 64 bits. *)
Definition rosenbrock (x : list R) (n : nat) : option R :=
  for_ 0%nat (Z.to_nat (Word.sub (Z.of_nat n) 1)) (fun i y =>
    x1 ← at_ x (i + 1)%nat;
    xi ← at_ x i;
    Some (y + (100.0 * sq (x1 - sq xi) + sq (1.0 - xi)))) 0.

End Functions.

End Optimizer_test.

(** * Properties *)

(** ** Profile functions *)

Section Profile_properties.

Local Open Scope R_scope.

Variables sqrt_of_pi speed_of_light elementary_charge electric_constant electron_mass : R.

Lemma truncate_outside (f : R -> R -> R) (x b c : R) :
  Rabs x >= c * b -> Profiles.truncate f x b c = 0.
Proof.
  intros Hx. unfold Profiles.truncate.
  destruct (Rlt_dec (Rabs x) (c * b)) as [Hlt | _]; [lra | reflexivity].
Qed.

Lemma truncate_inside (f : R -> R -> R) (x b c : R) :
  Rabs x < c * b -> Profiles.truncate f x b c = f x b.
Proof.
  intros Hx. unfold Profiles.truncate.
  destruct (Rlt_dec (Rabs x) (c * b)) as [_ | Hge]; [reflexivity | lra].
Qed.

(** C1. A Doppler profile [G_Doppler] constructed from a parameter slice [q]
    is exactly zero at every wavelength [x] that is four Doppler widths or
    more away from the central wavelength: [|x - c| >= 4 b] implies
    [profile(x) = 0], where [c] and [b] are the central wavelength and the
    Doppler width that the constructor derives from [q]. *)
Theorem G_Doppler_truncated (q : list R) (p : Profiles.G_Doppler) (x : R) :
  Profiles.G_Doppler_new speed_of_light elementary_charge electric_constant electron_mass q = Some p ->
  Rabs (x - Profiles.g_c p) >= 4 * Profiles.g_b p ->
  Profiles.G_Doppler_call sqrt_of_pi p x = 0.
Proof.
  intros _ Hx. unfold Profiles.G_Doppler_call.
  rewrite truncate_outside by exact Hx. ring.
Qed.

(** The same holds for the many-multiplet Doppler profile [A_Doppler]. *)
Lemma A_Doppler_truncated (q : list R) (p : Profiles.A_Doppler) (x : R) :
  Profiles.A_Doppler_new speed_of_light elementary_charge electric_constant electron_mass q = Some p ->
  Rabs (x - Profiles.a_c p) >= 4 * Profiles.a_b p ->
  Profiles.A_Doppler_call sqrt_of_pi p x = 0.
Proof.
  intros _ Hx. unfold Profiles.A_Doppler_call.
  rewrite truncate_outside by exact Hx. ring.
Qed.

(** Inside of four Doppler widths the profile is the scaled Gaussian. *)
Lemma G_Doppler_inside (p : Profiles.G_Doppler) (x : R) :
  Rabs (x - Profiles.g_c p) < 4 * Profiles.g_b p ->
  Profiles.G_Doppler_call sqrt_of_pi p x =
  Profiles.g_a p * Profiles.f_g sqrt_of_pi (x - Profiles.g_c p) (Profiles.g_b p).
Proof.
  intros Hx. unfold Profiles.G_Doppler_call.
  now rewrite truncate_inside by exact Hx.
Qed.

(** The central wavelength and the Doppler width that the constructor of
    [G_Doppler] derives from [q]. *)
Lemma G_Doppler_new_derived (q0 q1 q2 q3 q4 q5 : R) (rest : list R) :
  exists p,
    Profiles.G_Doppler_new speed_of_light elementary_charge electric_constant electron_mass
      (q0 :: q1 :: q2 :: q3 :: q4 :: q5 :: rest) = Some p /\
    Profiles.g_c p = q0 * (1 + q2) * (1 + q3 / Profiles.C0 speed_of_light) /\
    Profiles.g_b p = q4 * Profiles.g_c p / Profiles.C0 speed_of_light.
Proof.
  eexists. split; [reflexivity |]. split; reflexivity.
Qed.

(** Scaling numerator and denominator by 1e8. *)
Lemma scaled_inverse (a b : R) :
  1e8 / (1e8 / a + b) = 1 / (1 / a + b * 1e-8).
Proof.
  replace (1e8 / a + b) with (1e8 * (1 / a + b * 1e-8)) by lra.
  generalize (1 / a + b * 1e-8). intros y.
  destruct (Req_dec y 0) as [-> | Hy].
  - rewrite Rmult_0_r. unfold Rdiv. rewrite Rinv_0. lra.
  - field. exact Hy.
Qed.

(** C2, as amended. The adjusted rest wavelength that the constructor of the
    many-multiplet profile computes is [1 / (1/q[0] + q[6] (mu^2 + 2 mu) 1e-8)]
    with [mu = q[7] 1e-6]: the relativistic correction is scaled by 1e-8, the
    factor between wavenumbers per centimetre and reciprocal Angstrom. *)
Theorem A_Doppler_adjusted_rest_wavelength (q0 q1 q2 q3 q4 q5 q6 q7 : R) (rest : list R) :
  option_map Profiles.a_u
    (Profiles.A_Doppler_new speed_of_light elementary_charge electric_constant electron_mass
       (q0 :: q1 :: q2 :: q3 :: q4 :: q5 :: q6 :: q7 :: rest)) =
  Some (Profiles.adjusted_rest_wavelength 1e-8 q0 q6 q7).
Proof.
  cbn [Profiles.A_Doppler_new option_map Profiles.a_u]. f_equal.
  unfold Profiles.adjusted_rest_wavelength, Profiles.micro.
  set (mu := q7 * 1e-6).
  replace (q6 * mu * (mu + 2)) with (q6 * (mu * mu + 2 * mu)) by ring.
  apply scaled_inverse.
Qed.

End Profile_properties.

(** A wavelength far from the Lyman alpha line. *)
Lemma G_Doppler_truncated_witness :
  exists p,
    Profiles.G_Doppler_new Example.speed_of_light Example.elementary_charge
      Example.electric_constant Example.electron_mass Example.lyman_alpha = Some p /\
    (Rabs (5000 - Profiles.g_c p) >= 4 * Profiles.g_b p)%R /\
    Profiles.G_Doppler_call Example.sqrt_of_pi p 5000 = 0%R.
Proof.
  eexists. split; [reflexivity |].
  assert (H : (Rabs (5000 - 1215.67 * (1 + 1) * (1 + 0 / Profiles.C0 Example.speed_of_light)) >=
               4 * (5 * (1215.67 * (1 + 1) * (1 + 0 / Profiles.C0 Example.speed_of_light)) /
                    Profiles.C0 Example.speed_of_light))%R).
  { unfold Profiles.C0, Example.speed_of_light.
    rewrite Rabs_pos_eq by lra. lra. }
  split; [exact H |].
  exact (G_Doppler_truncated Example.sqrt_of_pi Example.speed_of_light
           Example.elementary_charge Example.electric_constant Example.electron_mass
           Example.lyman_alpha _ 5000%R eq_refl H).
Defined.

(** C2 as stated, with the factor 1e-6 on the relativistic correction, fails:
    for [q[0] = 1], [q[6] = 1] and [q[7] = 1e6] the constructor computes
    [1e8 / (1e8 + 3)], the formula of the claim gives [1 / (1 + 3e-6)]. *)
Lemma A_Doppler_adjusted_rest_wavelength_counterexample :
  option_map Profiles.a_u
    (Profiles.A_Doppler_new Example.speed_of_light Example.elementary_charge
       Example.electric_constant Example.electron_mass Example.varied_line) =
  Some (1e8 / (1e8 + 3))%R /\
  (1e8 / (1e8 + 3))%R <> Profiles.adjusted_rest_wavelength 1e-6 1 1 1e6.
Proof.
  split.
  - cbn [Example.varied_line Profiles.A_Doppler_new option_map Profiles.a_u].
    f_equal. unfold Profiles.micro. f_equal. lra.
  - unfold Profiles.adjusted_rest_wavelength. lra.
Qed.

(** ** Random numbers *)

(** C3, as amended. The Mersenne twister [mt19937] of mtwister.h, constructed
    from the single seed 5489 with the multiplier 1812433253 (its defaults),
    produces the published reference sequence of MT19937: its first ten
    numbers and its 10000th number are the published ones. The
    [Mersenne_Twister] of random.h seeds its state, for a single seed, from
    the array of the lower and the upper half of the seed; constructed from
    the reference key 0x123, 0x234, 0x345, 0x456 the [Mt19937_32] produces
    the published reference sequence for that key. *)
Theorem mt19937_reference_sequences :
  (g ← Mtwister.new Mtwister.mt19937 5489 1812433253;
   Mtwister.draw Mtwister.mt19937 10 g) = Some mt19937_reference_5489 /\
  (g ← Mtwister.new Mtwister.mt19937 5489 1812433253;
   g ← Mtwister.skip Mtwister.mt19937 (100 * 100 - 1) g;
   Mtwister.draw Mtwister.mt19937 1 g) = Some [mt19937_reference_5489_10000th] /\
  (forall (P : Random.parameters) (seed : Z),
     Random.new P seed =
     Random.new_seeds P 2
       [Z.land seed 0x00000000FFFFFFFF; Z.land seed 0xFFFFFFFF00000000]%Z) /\
  (g ← Random.new_seeds Random.Mt19937_32 4 [0x123; 0x234; 0x345; 0x456]%Z;
   Random.draw Random.Mt19937_32 10 g) = Some mt19937_reference_array.
Proof.
  split; [vm_compute; reflexivity |].
  split; [vm_compute; reflexivity |].
  split; [intros P seed; reflexivity |].
  vm_compute; reflexivity.
Qed.

(** C3 as stated fails for the generator of random.h: constructed from the
    single seed 5489, the [Mt19937_32] starts with 3866587091 and not with
    3499211612, the first number of the reference sequence. *)
Lemma Mt19937_32_single_seed_counterexample :
  (g ← Random.new Random.Mt19937_32 5489;
   Random.draw Random.Mt19937_32 1 g) = Some [3866587091%Z] /\
  take 1 mt19937_reference_5489 = [3499211612%Z] /\
  3866587091%Z <> 3499211612%Z.
Proof.
  split; [vm_compute; reflexivity |].
  split; [reflexivity | discriminate].
Qed.

(** ** The bounded constraint *)

Section Constraint_properties.

Local Open Scope R_scope.

Lemma is_violated_from_spec (C : Constraint.Bounded_Constraint) (x : list R) (count i : nat) :
  (i + count <= length x)%nat ->
  (i + count <= length (Constraint.a C))%nat ->
  (i + count <= length (Constraint.b C))%nat ->
  exists v : bool,
    Constraint.is_violated_from C x count i = Some v /\
    (v = true <->
     exists k xk ak bk,
       (i <= k < i + count)%nat /\
       x !! k = Some xk /\ Constraint.a C !! k = Some ak /\ Constraint.b C !! k = Some bk /\
       (xk < ak \/ xk > bk)).
Proof.
  revert i. induction count as [| count IH]; intros i Hx Ha Hb.
  - exists false. split; [reflexivity |]. split; [discriminate |].
    intros (k & _ & _ & _ & Hk & _). lia.
  - destruct (lookup_lt_is_Some_2 x i) as [xi Hxi]; [lia |].
    destruct (lookup_lt_is_Some_2 (Constraint.a C) i) as [ai Hai]; [lia |].
    destruct (lookup_lt_is_Some_2 (Constraint.b C) i) as [bi Hbi]; [lia |].
    cbn [Constraint.is_violated_from]. unfold at_.
    rewrite Hxi, Hai. cbn [mbind option_bind].
    destruct (Rlt_dec xi ai) as [Hlt | Hnlt].
    { exists true. split; [reflexivity |]. split; [| reflexivity].
      intros _. exists i, xi, ai, bi. repeat split; auto; lia. }
    rewrite Hbi. cbn [mbind option_bind].
    destruct (Rgt_dec xi bi) as [Hgt | Hngt].
    { exists true. split; [reflexivity |]. split; [| reflexivity].
      intros _. exists i, xi, ai, bi. repeat split; auto; lia. }
    destruct (IH (S i)) as (v & Hv & Hiff); [lia | lia | lia |].
    exists v. split; [exact Hv |]. rewrite Hiff. split.
    + intros (k & xk & ak & bk & Hk & H). exists k, xk, ak, bk. split; [lia | exact H].
    + intros (k & xk & ak & bk & Hk & Hxk & Hak & Hbk & Hviol).
      destruct (Nat.eq_dec k i) as [-> | Hne].
      * rewrite Hxi in Hxk. rewrite Hai in Hak. rewrite Hbi in Hbk.
        injection Hxk as <-. injection Hak as <-. injection Hbk as <-.
        exfalso. destruct Hviol; [apply Hnlt | apply Hngt]; assumption.
      * exists k, xk, ak, bk. split; [lia |]. auto.
Qed.

(** C5. For bound vectors of length [n] and a parameter vector [x],
    [is_violated(x, k)] returns true if and only if there is an index
    [i < k] with [x[i] < a[i]] or [x[i] > b[i]] (for every [k] up to [n], in
    particular for [k = n]), and [cost] returns zero for every vector and
    every count. *)
Theorem Bounded_Constraint_spec (lower upper x : list R) (n k : nat)
    (C : Constraint.Bounded_Constraint) :
  Constraint.new lower upper n = Some C ->
  (k <= n)%nat ->
  (k <= length x)%nat ->
  (exists v : bool,
     Constraint.is_violated C x k = Some v /\
     (v = true <->
      exists i xi ai bi,
        (i < k)%nat /\
        x !! i = Some xi /\ lower !! i = Some ai /\ upper !! i = Some bi /\
        (xi < ai \/ xi > bi))) /\
  (forall (x' : list R) (n' : nat), Constraint.cost C x' n' = 0).
Proof.
  intros Hnew Hk Hx. split; [| reflexivity].
  unfold Constraint.new in Hnew.
  destruct (Nat.leb n (length lower)) eqn:Hl; [| discriminate].
  destruct (Nat.leb n (length upper)) eqn:Hu; [| discriminate].
  apply Nat.leb_le in Hl, Hu. injection Hnew as <-.
  destruct (is_violated_from_spec
              {| Constraint.a := take n lower; Constraint.b := take n upper |} x k 0)
    as (v & Hv & Hiff); cbn [Constraint.a Constraint.b];
    rewrite ?length_take; try lia.
  exists v. split; [exact Hv |]. rewrite Hiff.
  cbn [Constraint.a Constraint.b]. split.
  - intros (i & xi & ai & bi & Hi & Hxi & Hai & Hbi & Hviol).
    exists i, xi, ai, bi. rewrite lookup_take_lt in Hai, Hbi by lia.
    repeat split; auto; lia.
  - intros (i & xi & ai & bi & Hi & Hxi & Hai & Hbi & Hviol).
    exists i, xi, ai, bi. rewrite !lookup_take_lt by lia.
    repeat split; auto; lia.
Qed.

End Constraint_properties.

(** ** Counted loops *)

Section Loop_properties.

Context {T : Type}.

(** A loop whose body is defined wherever the invariant holds runs to its
    end and establishes the invariant for the final counter. *)
Lemma for_up_total (Inv : nat -> T -> Prop) (body : nat -> T -> option T)
    (count k0 : nat) (st : T) :
  Inv k0 st ->
  (forall k s, k0 <= k < k0 + count -> Inv k s ->
     exists s', body k s = Some s' /\ Inv (S k) s') ->
  exists st', for_up count k0 body st = Some st' /\ Inv (k0 + count) st'.
Proof.
  revert k0 st. induction count as [| count IH]; intros k0 st H0 Hstep.
  - exists st. rewrite Nat.add_0_r. split; [reflexivity | exact H0].
  - destruct (Hstep k0 st) as (s' & Hs' & HInv); [lia | exact H0 |].
    destruct (IH (S k0) s') as (st' & Hst' & HInv'); [exact HInv | |].
    { intros k s Hk. apply Hstep. lia. }
    exists st'. cbn [for_up]. rewrite Hs'. split; [exact Hst' |].
    replace (k0 + S count) with (S k0 + count) by lia. exact HInv'.
Qed.

(** A loop that has run to its end has kept every invariant of its body. *)
Lemma for_up_keeps (Inv : nat -> T -> Prop) (body : nat -> T -> option T)
    (count k0 : nat) (st st' : T) :
  for_up count k0 body st = Some st' ->
  Inv k0 st ->
  (forall k s s', k0 <= k < k0 + count -> body k s = Some s' -> Inv k s -> Inv (S k) s') ->
  Inv (k0 + count) st'.
Proof.
  revert k0 st. induction count as [| count IH]; intros k0 st Hrun H0 Hstep.
  - cbn in Hrun. injection Hrun as <-. now rewrite Nat.add_0_r.
  - cbn [for_up] in Hrun. destruct (body k0 st) as [s |] eqn:Hs; [| discriminate].
    replace (k0 + S count) with (S k0 + count) by lia.
    apply (IH (S k0) s Hrun).
    + apply (Hstep k0 st s); [lia | exact Hs | exact H0].
    + intros k s1 s2 Hk. apply Hstep. lia.
Qed.

Lemma for_total (Inv : nat -> T -> Prop) (body : nat -> T -> option T)
    (lo hi : nat) (st : T) :
  lo <= hi ->
  Inv lo st ->
  (forall k s, lo <= k < hi -> Inv k s ->
     exists s', body k s = Some s' /\ Inv (S k) s') ->
  exists st', for_ lo hi body st = Some st' /\ Inv hi st'.
Proof.
  intros Hle H0 Hstep. unfold for_.
  destruct (for_up_total Inv body (hi - lo) lo st H0) as (st' & Hst' & HInv).
  { intros k s Hk. apply Hstep. lia. }
  exists st'. split; [exact Hst' |].
  replace hi with (lo + (hi - lo)) by lia. exact HInv.
Qed.

Lemma for_keeps (Inv : nat -> T -> Prop) (body : nat -> T -> option T)
    (lo hi : nat) (st st' : T) :
  lo <= hi ->
  for_ lo hi body st = Some st' ->
  Inv lo st ->
  (forall k s s', lo <= k < hi -> body k s = Some s' -> Inv k s -> Inv (S k) s') ->
  Inv hi st'.
Proof.
  intros Hle Hrun H0 Hstep. unfold for_ in Hrun.
  replace hi with (lo + (hi - lo)) by lia.
  apply (for_up_keeps Inv body (hi - lo) lo st st' Hrun H0).
  intros k s s' Hk. apply Hstep. lia.
Qed.

End Loop_properties.

(** Reading and writing inside of an array. *)
Lemma at_Some {A : Type} (a : list A) (i : nat) :
  i < length a -> exists x, at_ a i = Some x.
Proof. intros H. unfold at_. destruct (lookup_lt_is_Some_2 a i H) as [x Hx]. eauto. Qed.

Lemma put_Some {A : Type} (a : list A) (i : nat) (v : A) :
  i < length a -> put_ a i v = Some (<[i:=v]> a).
Proof.
  intros H. unfold put_. destruct (Nat.ltb_spec i (length a)); [reflexivity | lia].
Qed.

Lemma put_inv {A : Type} (a a' : list A) (i : nat) (v : A) :
  put_ a i v = Some a' -> i < length a /\ a' = <[i:=v]> a.
Proof.
  unfold put_. destruct (Nat.ltb_spec i (length a)); [| discriminate].
  intros H'. injection H' as <-. auto.
Qed.

(** ** The symmetric eigenproblem solver *)

Section Decompose_properties.

Import Decompose Invariant.

Context {R_type : Type}.

Lemma swap_lookup (A A' : list R_type) (i j : nat) :
  swap A i j = Some A' ->
  length A' = length A /\
  A' !! i = A !! j /\ A' !! j = A !! i /\
  forall k, k <> i -> k <> j -> A' !! k = A !! k.
Proof.
  unfold swap, at_. intros H.
  destruct (A !! i) as [x |] eqn:Hx; [| discriminate].
  destruct (A !! j) as [y |] eqn:Hy; [| discriminate].
  cbn [mbind option_bind] in H.
  destruct (put_ A i y) as [A1 |] eqn:H1; [| discriminate].
  cbn [mbind option_bind] in H.
  apply put_inv in H1 as [Hi ->]. apply put_inv in H as [Hj ->].
  rewrite length_insert in Hj.
  rewrite !length_insert. split; [reflexivity |].
  destruct (Nat.eq_dec i j) as [-> | Hne].
  - rewrite list_lookup_insert_eq by (rewrite length_insert; lia).
    rewrite Hx in Hy. injection Hy as ->.
    repeat split; try congruence.
    intros k Hk _. rewrite !list_lookup_insert_ne by congruence. reflexivity.
  - repeat split.
    + rewrite list_lookup_insert_ne by congruence.
      rewrite list_lookup_insert_eq by lia. congruence.
    + rewrite list_lookup_insert_eq by (rewrite length_insert; lia). congruence.
    + intros k Hki Hkj. rewrite !list_lookup_insert_ne by congruence. reflexivity.
Qed.

Lemma swap_total (A : list R_type) (i j : nat) :
  i < length A -> j < length A -> exists A', swap A i j = Some A'.
Proof.
  intros Hi Hj. unfold swap.
  destruct (at_Some A i Hi) as [x ->]. destruct (at_Some A j Hj) as [y ->].
  cbn [mbind option_bind]. rewrite (put_Some A i y Hi). cbn [mbind option_bind].
  rewrite put_Some by (rewrite length_insert; exact Hj). eauto.
Qed.

Lemma position_lt (n r c : nat) : r < n -> c < n -> r * n + c < n * n.
Proof. intros Hr Hc. nia. Qed.

Lemma position_inj (n r c r' c' : nat) :
  c < n -> c' < n -> r * n + c = r' * n + c' -> r = r' /\ c = c'.
Proof.
  intros Hc Hc' H.
  destruct (Nat.lt_trichotomy r r') as [Hlt | [-> | Hgt]].
  - assert (S r * n <= r' * n) by (apply Nat.mul_le_mono_r; lia). lia.
  - split; [reflexivity | lia].
  - assert (S r' * n <= r * n) by (apply Nat.mul_le_mono_r; lia). lia.
Qed.

Lemma transpose_row (n : nat) (A0 : list R_type) (i : nat) (A : list R_type) :
  length A0 = n * n -> i < n ->
  transposed_upto n A0 i 0 A ->
  exists A',
    for_ 0 i (fun j A => swap A (i * n + j) (i + j * n)) A = Some A' /\
    transposed_upto n A0 (S i) 0 A'.
Proof.
  intros Hlen Hi H0.
  destruct (for_total (fun j A => transposed_upto n A0 i j A)
              (fun j A => swap A (i * n + j) (i + j * n)) 0 i A)
    as (A' & Hrun & [Hlen' HA']); [lia | exact H0 | |].
  - intros j B Hj [HlenB HB].
    destruct (swap_total B (i * n + j) (i + j * n)) as [B' HB'].
    { rewrite HlenB, Hlen. apply position_lt; lia. }
    { rewrite HlenB, Hlen. replace (i + j * n) with (j * n + i) by lia.
      apply position_lt; lia. }
    exists B'. split; [exact HB' |].
    apply swap_lookup in HB' as (HlenB' & Hij & Hji & Hother).
    replace (i + j * n) with (j * n + i) in * by lia.
    split; [congruence |].
    intros r c Hr Hc.
    destruct (Nat.eq_dec (r * n + c) (i * n + j)) as [E | NE].
    { apply position_inj in E as [-> ->]; [| lia | lia].
      rewrite Hij. destruct (HB j i) as [_ HB2]; [lia | lia |].
      split; [intros _; apply HB2 | intros Hns; exfalso; apply Hns];
        unfold swapped; lia. }
    destruct (Nat.eq_dec (r * n + c) (j * n + i)) as [E | NE'].
    { apply position_inj in E as [-> ->]; [| lia | lia].
      rewrite Hji. destruct (HB i j) as [_ HB2]; [lia | lia |].
      split; [intros _; apply HB2 | intros Hns; exfalso; apply Hns];
        unfold swapped; lia. }
    rewrite Hother by assumption.
    assert (Hrc : ~ (r = i /\ c = j)) by (intros [-> ->]; apply NE; reflexivity).
    assert (Hcr : ~ (r = j /\ c = i)) by (intros [-> ->]; apply NE'; reflexivity).
    destruct (HB r c Hr Hc) as [HB1 HB2].
    split; intros Hs; [apply HB1 | apply HB2]; unfold swapped in *; lia.
  - exists A'. split; [exact Hrun |]. split; [exact Hlen' |].
    intros r c Hr Hc. destruct (HA' r c Hr Hc) as [HA1 HA2].
    split; intros Hs; [apply HA1 | apply HA2]; unfold swapped in *; lia.
Qed.

(** [transpose] is defined on every array of [n * n] entries and exchanges
    rows and columns. *)
Lemma transpose_spec (n : nat) (A0 : list R_type) :
  length A0 = n * n ->
  exists A',
    transpose n A0 = Some A' /\
    length A' = n * n /\
    forall r c, r < n -> c < n -> A' !! (r * n + c) = A0 !! (c * n + r).
Proof.
  intros Hlen. unfold transpose.
  destruct (for_total (fun i A => transposed_upto n A0 i 0 A)
              (fun i A => for_ 0 i (fun j A => swap A (i * n + j) (i + j * n)) A) 0 n A0)
    as (A' & Hrun & [Hlen' HA']); [lia | | |].
  - split; [reflexivity |]. intros r c Hr Hc.
    split; [unfold swapped; lia | reflexivity].
  - intros i B Hi HB. apply transpose_row; [exact Hlen | lia | exact HB].
  - exists A'. split; [exact Hrun |]. split; [congruence |].
    intros r c Hr Hc. destruct (HA' r c Hr Hc) as [HA1 HA2].
    destruct (Nat.eq_dec r c) as [-> | Hne].
    + apply HA2. unfold swapped. lia.
    + apply HA1. unfold swapped. lia.
Qed.

Variable syevr : forall (n : Z) (A : list R_type) (lda ldz lwork liwork : Z),
  syevr_out R_type.

(** C6, as amended. The driver fails with the internal-error runtime error
    exactly when DSYEVR reports [info > 0], it fails with the invalid-argument
    error exactly when DSYEVR reports [info < 0], and it returns exactly when
    DSYEVR reports [info = 0], with all eigenvalues and with the eigenvectors
    in row-major layout. The driver passes the problem dimension as the
    order of the matrix and as both leading dimensions; DSYEVR requires a
    leading dimension of at least [max(1, N)], so for the problem dimension
    0 the construction and the call fail with the invalid-argument error.
    The driver does not look at the entries of the matrix. *)
Theorem R_Decompose_call_spec (D : R_Decompose) (A : list R_type) :
  (n D * n D <= length A ->
   let out := syevr (Z.of_nat (n D)) (take (n D * n D) A) (Z.of_nat (n D)) (Z.of_nat (n D))
                (lwork D) (liwork D) in
   length (eigenvectors out) = n D * n D ->
   (R_Decompose_call syevr D A = Throws (runtime_error message_int_err)
      <-> (0 < info out)%Z) /\
   (R_Decompose_call syevr D A = Throws (invalid_argument message_ill_arg)
      <-> (info out < 0)%Z) /\
   ((exists r, R_Decompose_call syevr D A = Returns r) <-> info out = 0%Z) /\
   (info out = 0%Z ->
    exists Z',
      R_Decompose_call syevr D A = Returns (Z', eigenvalues out) /\
      length Z' = n D * n D /\
      forall r c, r < n D -> c < n D ->
        Z' !! (r * n D + c) = eigenvectors out !! (c * n D + r))) /\
  ((forall order A0 lda ldz lwork0 liwork0,
      (lda < Z.max 1 order)%Z -> (info (syevr order A0 lda ldz lwork0 liwork0) < 0)%Z) ->
   n D = 0 ->
   R_Decompose_new syevr 0 = Throws (invalid_argument message_ill_arg) /\
   R_Decompose_call syevr D A = Throws (invalid_argument message_ill_arg)).
Proof.
  split.
  - intros HA out HZ.
    destruct (transpose_spec (n D) (eigenvectors out) HZ) as (Z' & HT & HlenZ & Hrc).
    unfold R_Decompose_call.
    destruct (Nat.leb_spec (n D * n D) (length A)) as [_ | Hlt]; [| lia].
    fold out. rewrite HT.
    destruct (Z.eqb_spec (info out) 0) as [E0 | N0].
    + repeat split; try discriminate; try lia; eauto.
    + destruct (Z.ltb_spec 0 (info out)) as [Hpos | Hneg].
      * repeat split; try discriminate; try lia; try reflexivity.
        intros [r Hr]. discriminate.
      * repeat split; try discriminate; try lia; try reflexivity.
        intros [r Hr]. discriminate.
  - intros Hlda Hn.
    assert (Hthrows : forall out : syevr_out R_type, (info out < 0)%Z ->
              (info out =? 0)%Z = false /\ (0 <? info out)%Z = false).
    { intros out Hout. split; [apply Z.eqb_neq | apply Z.ltb_ge]; lia. }
    split.
    + unfold R_Decompose_new. cbv zeta.
      destruct (Hthrows (syevr (Z.of_nat 0) [] (Z.of_nat 0) (Z.of_nat 0) (-1) (-1))%Z)
        as [-> ->]; [apply Hlda; cbn; lia | reflexivity].
    + unfold R_Decompose_call. rewrite Hn. cbn [Nat.mul Nat.leb]. cbv zeta.
      destruct (Hthrows (syevr (Z.of_nat 0) (take 0 A) (Z.of_nat 0) (Z.of_nat 0)
                           (lwork D) (liwork D)))
        as [-> ->]; [apply Hlda; cbn; lia | reflexivity].
Qed.

End Decompose_properties.

(** A matrix of order one, and the dimension zero. *)
Lemma R_Decompose_call_spec_witness :
  (exists Z',
     Decompose.R_Decompose_call (Decompose.syevr_small 1%R)
       {| Decompose.n := 1; Decompose.lwork := 26; Decompose.liwork := 10 |} [2%R] =
     Decompose.Returns (Z', [2%R])) /\
  Decompose.R_Decompose_new (Decompose.syevr_small 1%R) 0 =
    Decompose.Throws (Decompose.invalid_argument Decompose.message_ill_arg).
Proof.
  split.
  - destruct (R_Decompose_call_spec (Decompose.syevr_small 1%R)
                {| Decompose.n := 1; Decompose.lwork := 26; Decompose.liwork := 10 |} [2%R])
      as [H _].
    destruct H as (_ & _ & _ & H); [cbn; lia | reflexivity |].
    destruct (H eq_refl) as (Z' & HZ' & _). exists Z'. exact HZ'.
  - destruct (R_Decompose_call_spec (Decompose.syevr_small 1%R)
                {| Decompose.n := 0; Decompose.lwork := 1; Decompose.liwork := 1 |} [])
      as [_ H].
    apply H; [| reflexivity].
    intros order A0 lda ldz lwork0 liwork0 Hlda. unfold Decompose.syevr_small.
    destruct (Z.ltb_spec order 0); [cbn; lia |].
    destruct (Z.ltb_spec lda (Z.max 1 order)); [cbn; lia | lia].
Defined.

(** C6 as stated fails for a matrix with an entry that is not finite: the
    driver hands the matrix to DSYEVR as it is, and DSYEVR, which tests the
    order, the leading dimensions and the sizes of the workspace but not
    the entries, returns the only entry of a matrix of order 1 as its
    eigenvalue. So the construction and the call return, with an eigenvalue
    that is not a number, where the claim expects an invalid-argument
    error. *)
Lemma R_Decompose_non_finite_counterexample :
  Decompose.is_finite Decompose.not_a_number = false /\
  Decompose.R_Decompose_new (Decompose.syevr_small (Decompose.finite 1)) 1 =
    Decompose.Returns {| Decompose.n := 1; Decompose.lwork := 26; Decompose.liwork := 10 |} /\
  Decompose.R_Decompose_call (Decompose.syevr_small (Decompose.finite 1))
    {| Decompose.n := 1; Decompose.lwork := 26; Decompose.liwork := 10 |}
    [Decompose.not_a_number] =
    Decompose.Returns ([Decompose.finite 1], [Decompose.not_a_number]) /\
  Decompose.R_Decompose_call (Decompose.syevr_small (Decompose.finite 1))
    {| Decompose.n := 1; Decompose.lwork := 26; Decompose.liwork := 10 |}
    [Decompose.not_a_number] <>
    Decompose.Throws (Decompose.invalid_argument Decompose.message_ill_arg).
Proof.
  split; [reflexivity |]. split; [reflexivity |]. split; [reflexivity | discriminate].
Qed.

(** ** The model: evaluation *)

Section Model_evaluation.

Variable Section_ : Type.
Variable Section_cost : Section_ -> (R -> R) -> R -> nat -> R.
Variable Section_apply : Section_ -> (R -> R) -> R -> nat -> Section_.
Variable Profile : Type.
Variable parameter_count : nat.
Variable Profile_new : list R -> option Profile.
Variable Profile_call : Profile -> R -> R.

Local Abbreviation Model := (Model.Model Section_).
Local Abbreviation cost :=
  (Model.cost Section_ Section_cost Profile parameter_count Profile_new Profile_call).
Local Abbreviation call :=
  (Model.call Section_ Section_cost Profile parameter_count Profile_new Profile_call).
Local Abbreviation set :=
  (Model.set Section_ Section_apply Profile parameter_count Profile_new Profile_call).

(** The object that [cost] works on is the same after the call. *)
Lemma cost_frame (x : list R) (n : nat) (M M' : Model) (r : R) :
  cost x n M = Some (r, M') -> M' = M.
Proof.
  unfold Model.cost. intros H.
  match type of H with
  | (mbind _ (for_ 0 ?hi ?body ?F0)) = _ =>
      destruct (for_ 0 hi body F0) as [F1 |] eqn:H1; [| discriminate];
      assert (I1 : Model.this F1 = M)
  end.
  { apply (for_keeps (fun _ F => Model.this F = M) _ _ _ _ _ (Nat.le_0_l _) H1);
      [reflexivity |].
    intros k F F' _ Hbody HF. unfold at_ in Hbody.
    destruct (Model.msk (Model.this F) !! k) as [[|] |]; cbn in Hbody;
      try discriminate; [| congruence].
    destruct (Model.ind (Model.this F) !! k) as [ii |]; cbn in Hbody; [| discriminate].
    destruct (x !! ii) as [xi |]; cbn in Hbody; [| discriminate].
    destruct (put_ (Model.y F) k xi) as [y' |]; cbn in Hbody; [| discriminate].
    injection Hbody as <-. exact HF. }
  cbn [mbind option_bind] in H.
  match type of H with
  | (mbind _ (for_ 0 ?hi ?body ?F0)) = _ =>
      destruct (for_ 0 hi body F0) as [F2 |] eqn:H2; [| discriminate];
      assert (I2 : Model.this F2 = M)
  end.
  { apply (for_keeps (fun _ F => Model.this F = M) _ _ _ _ _ (Nat.le_0_l _) H2);
      [exact I1 |].
    intros k F F' _ Hbody HF. unfold at_ in Hbody.
    destruct (Model.sec (Model.this F) !! k) as [s |]; cbn in Hbody; [| discriminate].
    destruct (Model.nli (Model.this F) !! k) as [kk |]; cbn in Hbody; [| discriminate].
    destruct (Model.isc (Model.this F) !! k) as [j |]; cbn in Hbody; [| discriminate].
    destruct (Model.nle (Model.this F) !! k) as [p |]; cbn in Hbody; [| discriminate].
    destruct (Model.y F !! j) as [rr |]; cbn in Hbody; [| discriminate].
    destruct (Model.Superposition_new Profile parameter_count Profile_new kk _)
      as [ps |]; cbn in Hbody; [| discriminate].
    injection Hbody as <-. exact HF. }
  cbn [mbind option_bind] in H. injection H as _ <-. exact I2.
Qed.

Lemma set_writes (x z : list R) (M M' : Model) :
  set x z M = Some M' ->
  Model.isc M' = Model.isc M /\ Model.nle M' = Model.nle M /\
  Model.nli M' = Model.nli M /\
  Model.lo M' = Model.lo M /\ Model.up M' = Model.up M /\
  Model.msk M' = Model.msk M /\ Model.ind M' = Model.ind M /\
  Model.sim M' = Model.sim M /\ Model.pim M' = Model.pim M /\
  (forall i, i < length (Model.val M) -> Model.msk M !! i = Some true ->
     exists j xj zj,
       Model.ind M !! i = Some j /\ x !! j = Some xj /\ z !! j = Some zj /\
       Model.val M' !! i = Some xj /\ Model.err M' !! i = Some zj) /\
  (forall i, i < length (Model.val M) -> Model.msk M !! i = Some false ->
     Model.val M' !! i = Model.val M !! i /\ Model.err M' !! i = Some 0%R).
Proof.
  unfold Model.set. intros H.
  match type of H with
  | (mbind _ (for_ 0 ?hi ?body ?F0)) = _ =>
      destruct (for_ 0 hi body F0) as [M1 |] eqn:H1; [| discriminate];
      assert (I1 : Invariant.set_written x z M (length (Model.val M)) M1)
  end.
  { apply (for_keeps (Invariant.set_written x z M) _ _ _ _ _ (Nat.le_0_l _) H1).
    { unfold Invariant.set_written. repeat split; try reflexivity; intros; lia. }
    intros k N N' Hk Hbody
      (Esec & Eisc & Enle & Enli & Elo & Eup & Emsk & Eind & Esim & Epim & Lval & Lerr
       & Hwr & Hpin & Hrest).
    unfold at_ in Hbody. rewrite Emsk, Eind in Hbody.
    destruct (Model.msk M !! k) as [mk |] eqn:Hmk; cbn in Hbody; [| discriminate].
    destruct mk.
    - destruct (Model.ind M !! k) as [ii |] eqn:Hii; cbn in Hbody; [| discriminate].
      destruct (x !! ii) as [xi |] eqn:Hxi; cbn in Hbody; [| discriminate].
      destruct (put_ (Model.val N) k xi) as [val' |] eqn:Hval; cbn in Hbody; [| discriminate].
      destruct (z !! ii) as [zi |] eqn:Hzi; cbn in Hbody; [| discriminate].
      destruct (put_ (Model.err N) k zi) as [err' |] eqn:Herr; cbn in Hbody; [| discriminate].
      apply put_inv in Hval as [Hkv ->]. apply put_inv in Herr as [Hke ->].
      injection Hbody as <-. unfold Invariant.set_written. cbn.
      rewrite !length_insert.
      repeat split; try assumption.
      + intros i Hi Hmi. destruct (Nat.eq_dec i k) as [-> | Hne].
        * exists ii, xi, zi. rewrite !list_lookup_insert_eq by lia. auto.
        * rewrite !list_lookup_insert_ne by congruence. apply Hwr; [lia | exact Hmi].
      + destruct (Nat.eq_dec i k) as [-> | Hne]; [congruence |].
        rewrite list_lookup_insert_ne by congruence. apply Hpin; [lia | assumption].
      + destruct (Nat.eq_dec i k) as [-> | Hne]; [congruence |].
        rewrite list_lookup_insert_ne by congruence. apply Hpin; [lia | assumption].
      + rewrite list_lookup_insert_ne by lia. apply Hrest. lia.
      + rewrite list_lookup_insert_ne by lia. apply Hrest. lia.
    - destruct (put_ (Model.err N) k 0%R) as [err' |] eqn:Herr; cbn in Hbody; [| discriminate].
      apply put_inv in Herr as [Hke ->].
      injection Hbody as <-. unfold Invariant.set_written. cbn.
      rewrite !length_insert.
      repeat split; try assumption.
      + intros i Hi Hmi. destruct (Nat.eq_dec i k) as [-> | Hne]; [congruence |].
        rewrite !list_lookup_insert_ne by congruence. apply Hwr; [lia | exact Hmi].
      + destruct (Nat.eq_dec i k) as [-> | Hne].
        * apply Hrest. lia.
        * apply Hpin; [lia | assumption].
      + destruct (Nat.eq_dec i k) as [-> | Hne].
        * rewrite list_lookup_insert_eq by lia. reflexivity.
        * rewrite list_lookup_insert_ne by congruence. apply Hpin; [lia | assumption].
      + apply Hrest. lia.
      + rewrite list_lookup_insert_ne by lia. apply Hrest. lia. }
  cbn [mbind option_bind] in H.
  assert (I2 : Model.isc M' = Model.isc M1 /\ Model.nle M' = Model.nle M1 /\
               Model.nli M' = Model.nli M1 /\
               Model.val M' = Model.val M1 /\ Model.err M' = Model.err M1 /\
               Model.lo M' = Model.lo M1 /\ Model.up M' = Model.up M1 /\
               Model.msk M' = Model.msk M1 /\ Model.ind M' = Model.ind M1 /\
               Model.sim M' = Model.sim M1 /\ Model.pim M' = Model.pim M1).
  { apply (for_keeps (fun _ N =>
             Model.isc N = Model.isc M1 /\ Model.nle N = Model.nle M1 /\
             Model.nli N = Model.nli M1 /\
             Model.val N = Model.val M1 /\ Model.err N = Model.err M1 /\
             Model.lo N = Model.lo M1 /\ Model.up N = Model.up M1 /\
             Model.msk N = Model.msk M1 /\ Model.ind N = Model.ind M1 /\
             Model.sim N = Model.sim M1 /\ Model.pim N = Model.pim M1)
             _ _ _ _ _ (Nat.le_0_l _) H).
    { repeat split. }
    intros k N N' _ Hbody HN. unfold at_ in Hbody.
    destruct (Model.sec N !! k) as [s |]; cbn in Hbody; [| discriminate].
    destruct (Model.nli N !! k) as [kk |]; cbn in Hbody; [| discriminate].
    destruct (Model.isc N !! k) as [j |]; cbn in Hbody; [| discriminate].
    destruct (Model.nle N !! k) as [p |]; cbn in Hbody; [| discriminate].
    destruct (Model.val N !! j) as [rr |]; cbn in Hbody; [| discriminate].
    destruct (Model.Superposition_new Profile parameter_count Profile_new kk _)
      as [ps |]; cbn in Hbody; [| discriminate].
    destruct (put_ (Model.sec N) k _) as [sec' |]; cbn in Hbody; [| discriminate].
    injection Hbody as <-. exact HN. }
  destruct I1 as (Esec & Eisc & Enle & Enli & Elo & Eup & Emsk & Eind & Esim & Epim
                  & Lval & Lerr & Hwr & Hpin & Hrest).
  destruct I2 as (Eisc' & Enle' & Enli' & Eval' & Eerr' & Elo' & Eup' & Emsk' & Eind'
                  & Esim' & Epim').
  rewrite Eval', Eerr'.
  repeat split; try congruence.
  - apply Hwr; assumption.
  - apply Hpin; assumption.
  - apply Hpin; assumption.
Qed.

(** C9. Evaluating the objective, [cost(x, n)] or [operator()(x, n)], leaves
    the model as it is: the parameter values [x] are spliced into a local
    copy of the value table. It is [set(x, z)] that writes [x] (and the
    uncertainties [z]) into the free slots of the stored table, where it
    leaves the bounds, the masks and the index maps as they are. *)
Theorem cost_leaves_model_unchanged (x z : list R) (n : nat) (M : Model) :
  (forall r M1, cost x n M = Some (r, M1) -> M1 = M /\ call x n M = Some (r, M)) /\
  (forall M2, set x z M = Some M2 ->
     (Model.lo M2 = Model.lo M /\ Model.up M2 = Model.up M /\
      Model.msk M2 = Model.msk M /\ Model.ind M2 = Model.ind M /\
      Model.sim M2 = Model.sim M /\ Model.pim M2 = Model.pim M) /\
     (forall i, i < length (Model.val M) -> Model.msk M !! i = Some true ->
        exists j xj zj,
          Model.ind M !! i = Some j /\ x !! j = Some xj /\ z !! j = Some zj /\
          Model.val M2 !! i = Some xj /\ Model.err M2 !! i = Some zj)).
Proof.
  split.
  - intros r M1 Hcost.
    pose proof (cost_frame x n M M1 r Hcost) as ->. split; [reflexivity | exact Hcost].
  - intros M2 Hset.
    apply set_writes in Hset
      as (_ & _ & _ & Elo & Eup & Emsk & Eind & Esim & Epim & Hwr & _).
    repeat split; assumption.
Qed.

End Model_evaluation.

(** An evaluation of the model of one line, and the write-back of a result. *)
Lemma cost_leaves_model_unchanged_witness :
  (exists r,
     Model.call Example_model.Section_ Example_model.Section_cost
       Example_model.Profile Example_model.parameter_count
       Example_model.Profile_new Example_model.Profile_call
       [1.1; 6; 13.5]%R 3 Example_model.one_line = Some (r, Example_model.one_line)) /\
  (exists M2,
     Model.set Example_model.Section_ Example_model.Section_apply
       Example_model.Profile Example_model.parameter_count
       Example_model.Profile_new Example_model.Profile_call
       [1.1; 6; 13.5]%R [0.01; 0.5; 0.1]%R Example_model.one_line = Some M2 /\
     Model.lo M2 = Model.lo Example_model.one_line /\
     Model.up M2 = Model.up Example_model.one_line).
Proof.
  pose proof
    (cost_leaves_model_unchanged Example_model.Section_ Example_model.Section_cost
       Example_model.Section_apply
       Example_model.Profile Example_model.parameter_count
       Example_model.Profile_new Example_model.Profile_call
       [1.1; 6; 13.5]%R [0.01; 0.5; 0.1]%R 3 Example_model.one_line) as [Hcost Hset].
  split.
  - eexists. refine (proj2 (Hcost _ _ _)). lazy. reflexivity.
  - eexists. split; [lazy; reflexivity |].
    match goal with
    | |- Model.lo ?M2 = _ /\ _ =>
        destruct (Hset M2) as [(Elo & Eup & _) _]; [lazy; reflexivity |]
    end.
    split; assumption.
Defined.

(** The second component exceeds its upper bound. *)
Lemma Bounded_Constraint_spec_witness :
  exists v : bool,
    Constraint.is_violated
      {| Constraint.a := [0; 0]%R; Constraint.b := [1; 1]%R |} [0.5; 2]%R 2 = Some v /\
    (v = true <->
     exists i xi ai bi,
       i < 2 /\
       [0.5; 2]%R !! i = Some xi /\ [0; 0]%R !! i = Some ai /\ [1; 1]%R !! i = Some bi /\
       (xi < ai \/ xi > bi)%R).
Proof.
  refine (proj1 (Bounded_Constraint_spec [0; 0]%R [1; 1]%R [0.5; 2]%R 2 2
                   {| Constraint.a := [0; 0]%R; Constraint.b := [1; 1]%R |} _ _ _)).
  - reflexivity.
  - lia.
  - cbn. lia.
Defined.

(** ** The Mersenne twister of random.h: the member functions are defined *)

Section Random_properties.

Import Random.

Variable P : parameters.
Hypothesis HP : well_formed P.

Local Abbreviation valid := (Invariant.valid P).

Lemma twist_total (i j k : nat) (x : list Z) :
  i < length x -> j < length x -> k < length x ->
  exists x', twist P i j k x = Some x' /\ length x' = length x.
Proof.
  intros Hi Hj Hk. unfold twist.
  destruct (at_Some x i Hi) as [xi ->]. destruct (at_Some x j Hj) as [xj ->].
  destruct (at_Some x k Hk) as [xk ->]. cbn [mbind option_bind].
  rewrite put_Some by exact Hj. cbn [mbind option_bind].
  match goal with |- context [<[j:=?v]> x] => set (x1 := <[j:=v]> x) end.
  assert (L1 : length x1 = length x) by apply length_insert.
  destruct (at_Some x1 k) as [xk' ->]; [lia |]. cbn [mbind option_bind].
  destruct (Z.land xk' 1 =? 1)%Z.
  - destruct (at_Some x1 j) as [xj' ->]; [lia |]. cbn [mbind option_bind].
    rewrite put_Some by lia. eexists. split; [reflexivity |].
    rewrite length_insert. exact L1.
  - eexists. split; [reflexivity | exact L1].
Qed.

Lemma renew_total (x : list Z) :
  length x = n P -> exists x', renew P x = Some x' /\ length x' = n P.
Proof.
  destruct HP as [Hm Hmn]. intros Hx. unfold renew.
  destruct (for_total (fun _ x => length x = n P)
              (fun k => twist P (k + m P) k (k + 1)) 0 (n P - m P) x)
    as (x1 & -> & L1); [lia | exact Hx | |].
  { intros k s Hk Hs.
    destruct (twist_total (k + m P) k (k + 1) s) as (s' & Hs' & L); try lia.
    exists s'. split; [exact Hs' | lia]. }
  cbn [mbind option_bind].
  destruct (for_total (fun _ x => length x = n P)
              (fun k => twist P (k + m P - n P) k (k + 1)) (n P - m P) (n P - 1) x1)
    as (x2 & -> & L2); [lia | exact L1 | |].
  { intros k s Hk Hs.
    destruct (twist_total (k + m P - n P) k (k + 1) s) as (s' & Hs' & L); try lia.
    exists s'. split; [exact Hs' | lia]. }
  cbn [mbind option_bind].
  destruct (twist_total (m P - 1) (n P - 1) 0 x2) as (x3 & Hx3 & L3); try lia.
  exists x3. split; [exact Hx3 | lia].
Qed.

Lemma rand_total (g : Mersenne_Twister) :
  valid g -> exists y g', rand P g = Some (y, g') /\ valid g'.
Proof.
  destruct HP as [Hm Hmn]. intros [Hlen Hidx]. unfold rand.
  destruct (Nat.eqb_spec (index g) (n P)) as [E | NE].
  - destruct (renew_total (state g) Hlen) as (x & -> & Lx).
    cbn [mbind option_bind state index].
    destruct (at_Some x 0) as [y ->]; [lia |]. cbn [mbind option_bind].
    do 2 eexists. split; [reflexivity |]. split; cbn; lia.
  - cbn [mbind option_bind].
    destruct (at_Some (state g) (index g)) as [y ->]; [lia |].
    cbn [mbind option_bind].
    do 2 eexists. split; [reflexivity |]. split; cbn; lia.
Qed.

Lemma call_total (g : Mersenne_Twister) :
  valid g -> exists x g', call P g = Some (x, g') /\ valid g'.
Proof.
  intros Hg. destruct (rand_total g Hg) as (y & g' & Hr & Hg').
  unfold call. rewrite Hr. cbn [mbind option_bind].
  do 2 eexists. split; [reflexivity | exact Hg'].
Qed.

Lemma invoke_total (f : member) (g : Mersenne_Twister) :
  valid g -> exists y g', invoke P f g = Some (y, g') /\ valid g'.
Proof.
  intros Hg. destruct f; cbn [invoke].
  - destruct (rand_total g Hg) as (y & g' & -> & Hg'). cbn. eauto.
  - destruct (call_total g Hg) as (y & g' & -> & Hg'). cbn. eauto.
Qed.

Lemma reset_total (seed : Z) (g : Mersenne_Twister) :
  length (state g) = n P ->
  exists g', reset P seed g = Some g' /\ length (state g') = n P /\ index g' = n P.
Proof.
  destruct HP as [Hm Hmn]. intros Hlen. unfold reset.
  rewrite put_Some by lia. cbn [mbind option_bind].
  match goal with |- context [for_ 1 (n P) ?body ?x0] =>
    destruct (for_total (fun _ x => length x = n P) body 1 (n P) x0)
      as (x1 & -> & L1); [lia | rewrite length_insert; exact Hlen | |]
  end.
  { intros k s Hk Hs. destruct (at_Some s (k - 1)) as [p ->]; [lia |].
    cbn [mbind option_bind]. rewrite put_Some by lia.
    eexists. split; [reflexivity |]. rewrite length_insert. exact Hs. }
  cbn [mbind option_bind]. eexists. split; [reflexivity |]. split; [exact L1 | reflexivity].
Qed.

Lemma advance_total (x : list Z) (i : nat) :
  length x = n P -> 1 <= i < n P ->
  exists x' i', advance P x i = Some (x', i') /\ length x' = n P /\ 1 <= i' < n P.
Proof.
  destruct HP as [Hm Hmn]. intros Hlen Hi. unfold advance.
  destruct (Nat.leb_spec (n P) (S i)) as [Hle | Hlt].
  - destruct (at_Some x (n P - 1)) as [z ->]; [lia |]. cbn [mbind option_bind].
    rewrite put_Some by lia. cbn [mbind option_bind].
    do 2 eexists. split; [reflexivity |]. rewrite length_insert. lia.
  - do 2 eexists. split; [reflexivity |]. lia.
Qed.

Lemma reset_seeds_total (seed_count : nat) (seeds : list Z) (g : Mersenne_Twister) :
  1 <= seed_count <= length seeds ->
  length (state g) = n P ->
  exists g', reset_seeds P seed_count seeds g = Some g' /\ valid g'.
Proof.
  destruct HP as [Hm Hmn]. intros Hseeds Hlen. unfold reset_seeds.
  destruct (reset_total 19650218 g Hlen) as (g1 & -> & L1 & _).
  cbn [mbind option_bind].
  match goal with |- context [for_up ?c 0 ?body (state g1, 1, 0)] =>
    destruct (for_up_total
                (fun _ (st : list Z * nat * nat) =>
                   length st.1.1 = n P /\ 1 <= st.1.2 < n P /\ st.2 < seed_count)
                body c 0 (state g1, 1, 0))
      as ([[x2 i2] j2] & -> & L2 & Hi2 & _); [cbn; lia | |]
  end.
  { intros _ [[x i] j] _ (Lx & Hi & Hj). cbn in Lx, Hi, Hj.
    destruct (at_Some x i) as [xi ->]; [lia |].
    destruct (at_Some x (i - 1)) as [p ->]; [lia |].
    destruct (at_Some seeds j) as [sj ->]; [lia |].
    cbn [mbind option_bind]. rewrite put_Some by lia. cbn [mbind option_bind].
    match goal with |- context [advance P ?x' i] =>
      destruct (advance_total x' i) as (x3 & i3 & -> & L3 & Hi3);
        [rewrite length_insert; exact Lx | exact Hi |]
    end.
    cbn [mbind option_bind].
    eexists. split; [reflexivity |]. cbn.
    destruct (Nat.leb_spec seed_count (S j)); lia. }
  cbn [mbind option_bind]. cbn in L2, Hi2.
  match goal with |- context [for_up ?c 0 ?body (x2, i2)] =>
    destruct (for_up_total
                (fun _ (st : list Z * nat) => length st.1 = n P /\ 1 <= st.2 < n P)
                body c 0 (x2, i2))
      as ([x4 i4] & -> & L4 & _); [cbn; lia | |]
  end.
  { intros _ [x i] _ (Lx & Hi). cbn in Lx, Hi.
    destruct (at_Some x i) as [xi ->]; [lia |].
    destruct (at_Some x (i - 1)) as [p ->]; [lia |].
    cbn [mbind option_bind]. rewrite put_Some by lia. cbn [mbind option_bind].
    match goal with |- context [advance P ?x' i] =>
      destruct (advance_total x' i) as (x3 & i3 & -> & L3 & Hi3);
        [rewrite length_insert; exact Lx | exact Hi |]
    end.
    eexists. split; [reflexivity |]. cbn. lia. }
  cbn [mbind option_bind]. cbn in L4. rewrite put_Some by lia. cbn [mbind option_bind].
  eexists. split; [reflexivity |]. split; cbn; [rewrite length_insert |]; lia.
Qed.

Lemma new_total (seed : Z) : exists g, new P seed = Some g /\ valid g.
Proof.
  unfold new. apply reset_seeds_total; cbn; [lia | apply length_replicate].
Qed.

Lemma new_seeds_total (seed_count : nat) (seeds : list Z) :
  1 <= seed_count <= length seeds ->
  exists g, new_seeds P seed_count seeds = Some g /\ valid g.
Proof.
  intros H. unfold new_seeds. apply reset_seeds_total; [exact H | apply length_replicate].
Qed.

End Random_properties.

(** ** The model: reading a model definition *)

(** Evaluation of the code on a given text; the comparisons of real numbers
    that the evaluation meets are decided by linear arithmetic. *)
Ltac evaluate :=
  lazy -[IZR Rdiv Rgt_dec];
  repeat (match goal with
          | |- context [Rgt_dec ?a ?b] =>
              destruct (Rgt_dec a b); [try (exfalso; lra) | try (exfalso; lra)]
          end;
          lazy -[IZR Rdiv Rgt_dec]).

Section Get_failure.

Variables Section_ File : Type.
Variable open_file : string -> option File.
Variable Section_get : File -> R -> R -> option Section_.
Variable Section_mask : Section_ -> R -> R -> Section_.
Variable parameter_count : nat.

Local Abbreviation get :=
  (Model.get Section_ File open_file Section_get Section_mask parameter_count).
Local Abbreviation get_locals :=
  (Model.get_locals Section_ File open_file Section_get Section_mask parameter_count).

(** A call of [get] that ends with the fail state of the stream set has
    left the model as it was. *)
Lemma get_failure_keeps_model (fuel : nat) (text : list Model.chunk)
    (is_ is' : Model.iostate) (M M' : Model.Model Section_) :
  get fuel text is_ M = Model.Done (is', M') ->
  Model.failbit is' = true ->
  M' = M.
Proof.
  unfold Model.get. destruct (get_locals fuel text) as [L | e | |]; try discriminate.
  - destruct (Model.store L) as [M1 |]; cbn; [| discriminate].
    intros HD. injection HD as <- <-. cbn. discriminate.
  - intros HD. injection HD as _ <-. reflexivity.
Qed.

(** Whatever [get] gives up with, it sets the fail state and leaves the
    model as it was. *)
Lemma get_gives_up (fuel : nat) (text : list Model.chunk) (e : Model.failure)
    (is_ : Model.iostate) (M : Model.Model Section_) :
  get_locals fuel text = Model.Failed e ->
  exists is', get fuel text is_ M = Model.Done (is', M) /\ Model.failbit is' = true.
Proof.
  intros H. unfold Model.get. rewrite H. eexists. split; [reflexivity |].
  destruct e; reflexivity.
Qed.

(** A text without [begin_of_section] before an [end_of_section] is a
    syntax error, a section identifier that is in use is a duplicate. *)
Lemma get_syntax_error (fuel : nat) (text : list Model.chunk) :
  get_locals fuel (None :: text) = Model.Failed Model.syntax_error.
Proof. reflexivity. Qed.

End Get_failure.

(** The state of [get] for the cyclic text when it starts to dereference
    the resolution of the section [A], and after one more iteration. *)
Lemma cyclic_text_diverges (fuel : nat) (r : string) :
  r = "B"%string \/ r = "C"%string ->
  Model.dereference_resolution Example_model.Section_ fuel 0
    {| Model.sec_ := [tt; tt; tt];
       Model.isc_ := [0; 7; 14]; Model.nle_ := [2; 2; 2]; Model.nli_ := [1; 1; 1];
       Model.val_ := map Model.s_val (Model.parameters Example_text.cyclic_text);
       Model.lo_ := replicate 21 0%R; Model.up_ := replicate 21 0%R;
       Model.msk_ := map Model.s_msk (Model.parameters Example_text.cyclic_text);
       Model.ind_ := replicate 21 0;
       Model.pim_ := [("a1"%string, 1); ("b1"%string, 8); ("c1"%string, 15)];
       Model.sim_ := [("A"%string, 0); ("B"%string, 1); ("C"%string, 2)];
       Model.ref_ := r :: replicate 6 ""%string ++ ("C"%string :: replicate 6 ""%string)
                       ++ ("B"%string :: replicate 6 ""%string) |} =
  Model.Exhausted.
Proof.
  revert r. induction fuel as [| fuel IH]; intros r Hr; [reflexivity |].
  destruct Hr as [-> | ->].
  - specialize (IH "C"%string (or_intror eq_refl)).
    lazy -[IZR Rdiv Rgt_dec Model.dereference_resolution] in IH.
    lazy -[IZR Rdiv Rgt_dec]. exact IH.
  - specialize (IH "B"%string (or_introl eq_refl)).
    lazy -[IZR Rdiv Rgt_dec Model.dereference_resolution] in IH.
    lazy -[IZR Rdiv Rgt_dec]. exact IH.
Qed.

(** C7, evaluated where it fails. For the three sections [A], [B] and [C]
    whose resolutions refer to [B], to [C] and back to [B], the loop that
    dereferences the resolution of [A] never ends: whatever the number of
    iterations granted, [get] has not returned, so that it neither sets the
    fail state nor reports the cyclic reference. *)
Theorem get_cyclic_reference_never_returns (fuel : nat) (is_ : Model.iostate)
    (M : Model.Model Example_model.Section_) :
  Example_text.get fuel Example_text.cyclic_text is_ M = Model.Exhausted.
Proof.
  unfold Example_text.get, Model.get, Model.get_locals.
  pose proof (cyclic_text_diverges fuel "B"%string (or_introl eq_refl)) as H.
  lazy -[IZR Rdiv Rgt_dec Model.dereference_resolution] in H.
  lazy -[IZR Rdiv Rgt_dec Model.dereference_resolution].
  rewrite H. reflexivity.
Qed.

(** Each kind of malformed text is reported: [get] returns with the fail
    state set and with the model as it was. *)
Lemma get_reports_malformed_texts (fuel : nat) (M : Model.Model Example_model.Section_) :
  Example_text.get (S fuel) Example_text.duplicate_section_text Example_text.at_end M =
    Model.Done (Model.setstate_bad_fail Example_text.at_end, M) /\
  Example_text.get (S fuel) Example_text.duplicate_line_text Example_text.at_end M =
    Model.Done (Model.setstate_bad_fail Example_text.at_end, M) /\
  Example_text.get (S fuel) Example_text.unknown_reference_text Example_text.at_end M =
    Model.Done (Model.setstate_fail Example_text.at_end, M) /\
  Example_text.get (S fuel) Example_text.self_reference_text Example_text.at_end M =
    Model.Done (Model.setstate_fail Example_text.at_end, M) /\
  Example_text.get (S fuel) Example_text.missing_file_text Example_text.at_end M =
    Model.Done (Model.setstate_bad_fail Example_text.at_end, M) /\
  Example_text.get (S fuel) Example_text.syntax_error_text Example_text.at_end M =
    Model.Done (Model.setstate_bad_fail Example_text.at_end, M).
Proof. repeat split; evaluate; reflexivity. Qed.

(** C8, evaluated where it fails. A model definition all of whose parameters
    are pinned is read without error; it has no independent parameter, but
    the parameter count is 1 and the initial parameter values and the
    initial local step sizes are vectors of length 1. *)
Theorem pinned_model_initial_vectors (fuel : nat) :
  exists M',
    Example_text.get (S fuel) Example_text.pinned_text Example_text.at_end
      Example_text.no_model = Model.Done (Model.clear_fail Example_text.at_end, M') /\
    length (Model.independent_parameters Example_text.pinned_text) = 0 /\
    Model.get_parameter_count M' = Some 1 /\
    Model.get_initial_parameter_values M' = Some [0%R] /\
    Model.get_initial_local_step_sizes M' = Some [0%R].
Proof.
  eexists. split; [evaluate; reflexivity |].
  repeat split; evaluate; reflexivity.
Qed.

(** C10 as stated fails for a parameter that refers to a free parameter:
    the redshift of the line [a2] refers to the redshift of the line [a1],
    which is free with the bounds 0.9 and 1.1; after [get] has returned
    successfully, the lower and the upper bound of the redshift of [a2] are
    0.9 and 1.1, not 0. *)
Lemma linked_parameter_bounds_counterexample :
  exists M',
    Example_text.get 2 Example_text.linked_text Example_text.at_end
      Example_text.no_model = Model.Done (Model.clear_fail Example_text.at_end, M') /\
    Model.failbit (Model.clear_fail Example_text.at_end) = false /\
    Model.parameters Example_text.linked_text !! 9 =
      Some (Example_text.linked 0 0 0 "a1") /\
    Model.lo M' !! 9 = Some 0.9%R /\
    Model.up M' !! 9 = Some 1.1%R /\
    (0.9 <> 0)%R /\ (1.1 <> 0)%R.
Proof.
  eexists. split; [evaluate; reflexivity |].
  split; [reflexivity |]. split; [reflexivity |].
  split; [reflexivity |]. split; [reflexivity |]. split; lra.
Qed.

(** ** Maps from identifiers to indices *)

Lemma string_compare_refl (s : string) : String.compare s s = Eq.
Proof.
  pose proof (String.compare_antisym s s) as H.
  destruct (String.compare s s); [reflexivity | discriminate | discriminate].
Qed.

Lemma Smap_find_None (key : string) (mp : Smap.t) (k : string) (v : nat) :
  Smap.find key mp = None -> In (k, v) mp -> k <> key.
Proof.
  induction mp as [| [k' v'] mp IH]; cbn; [tauto |].
  destruct (String.eqb_spec key k') as [-> | Hne]; [discriminate |].
  intros Hf [H | H]; [injection H as -> ->; congruence | auto].
Qed.

Lemma Smap_insert_new (key : string) (v : nat) (mp : Smap.t) :
  In (key, v) (Smap.insert key v mp).
Proof.
  induction mp as [| [k' v'] mp IH]; cbn; [auto |].
  destruct (String.compare key k'); cbn; auto.
Qed.

Lemma Smap_insert_old (key : string) (v : nat) (mp : Smap.t) (k : string) (v' : nat) :
  In (k, v') mp -> k <> key -> In (k, v') (Smap.insert key v mp).
Proof.
  induction mp as [| [k0 v0] mp IH]; cbn; [tauto |].
  intros Hin Hne. destruct (String.compare key k0) eqn:Hc; cbn.
  - apply String.compare_eq_iff in Hc. subst k0.
    destruct Hin as [H | H]; [injection H as -> ->; congruence | auto].
  - auto.
  - destruct Hin as [H | H]; auto.
Qed.

(** ** The model: the loop over the sections *)

Section Get_parse.

Import Model Invariant.

Variables Section_ File : Type.
Variable open_file : string -> option File.
Variable Section_get : File -> R -> R -> option Section_.
Variable Section_mask : Section_ -> R -> R -> Section_.
Variable parameter_count : nat.

Local Abbreviation locals := (Model.locals Section_).
Local Abbreviation read := (Model.read Section_).
Local Abbreviation parse_lines := (Model.parse_lines Section_ parameter_count).
Local Abbreviation parse_section :=
  (Model.parse_section Section_ File open_file Section_get Section_mask parameter_count).

Lemma read_tables (ta : list spec) (n : nat) (L L' : locals) (ps : list spec) :
  read ta n L = Some L' ->
  tables_of L ps ->
  length ta = n /\ tables_of L' (ps ++ ta) /\
  sec_ L' = sec_ L /\ isc_ L' = isc_ L /\ nle_ L' = nle_ L /\ nli_ L' = nli_ L /\
  ind_ L' = ind_ L /\ pim_ L' = pim_ L /\ sim_ L' = sim_ L.
Proof.
  unfold Model.read. destruct (Nat.eqb_spec (length ta) n) as [E | _]; [| discriminate].
  intros H (Hv & Hl & Hu & Hm & Hr). injection H as <-.
  split; [exact E |]. split; [| cbn; repeat split].
  unfold tables_of. cbn. rewrite Hv, Hl, Hu, Hm, Hr, !map_app. repeat split.
Qed.

Lemma parse_lines_parsed (ls : list (string * list spec)) (L L' : locals)
    (i i' k k' : nat) (ps : list spec) :
  parse_lines ls L i k = Done (L', i', k') ->
  parsed parameter_count L i ps ->
  parsed parameter_count L' i' (ps ++ concat (map snd ls)) /\
  sec_ L' = sec_ L /\ isc_ L' = isc_ L /\ nle_ L' = nle_ L /\ nli_ L' = nli_ L /\
  sim_ L' = sim_ L.
Proof.
  revert L i k ps. induction ls as [| [pid ta] ls IH]; intros L i k ps Hrun HP.
  - cbn in Hrun. injection Hrun as <- <- <-. cbn. rewrite app_nil_r.
    split; [exact HP | repeat split].
  - cbn [Model.parse_lines] in Hrun.
    destruct (Smap.find pid (pim_ L)) as [b |] eqn:Hfind; [discriminate |].
    match type of Hrun with
    | match read ta parameter_count ?L1 with _ => _ end = _ =>
        destruct (read ta parameter_count L1) as [L2 |] eqn:Hread; [| discriminate];
        set (L1' := L1) in *
    end.
    destruct HP as (HT & Hind & Hi & Hisc & Hnle & Hcov).
    destruct (read_tables ta parameter_count L1' L2 ps Hread)
      as (Hlen & HT2 & Esec & Eisc & Enle & Enli & Eind & Epim & Esim).
    { exact HT. }
    cbn in Esec, Eisc, Enle, Enli, Eind, Epim, Esim.
    destruct (IH L2 (i + parameter_count) (k + 1) (ps ++ ta) Hrun)
      as (HP' & Esec' & Eisc' & Enle' & Enli' & Esim').
    { split; [exact HT2 |]. split; [congruence |].
      split; [rewrite length_app; lia |].
      split; [congruence |]. split; [congruence |].
      intros x Hx.
      destruct (Nat.lt_ge_cases x i) as [Hlt | Hge].
      - destruct (Hcov x Hlt) as [(sid & s & Hin & Hs) | (pid' & base & j & Hin & Hj & ->)].
        + left. exists sid, s. rewrite Esim, Eisc. auto.
        + right. exists pid', base, j. rewrite Epim.
          split; [| auto]. apply Smap_insert_old; [exact Hin |].
          apply (Smap_find_None pid (pim_ L) pid' base Hfind Hin).
      - right. exists pid, i, (x - i). rewrite Epim.
        split; [apply Smap_insert_new |]. lia. }
    cbn [map snd concat]. rewrite app_assoc.
    split; [exact HP' |]. repeat split; congruence.
Qed.

Lemma parse_section_parsed (c : chunk) (L L' : locals) (i i' : nat) (ps : list spec) :
  parse_section c (L, i) = Done (L', i') ->
  parsed parameter_count L i ps ->
  parsed parameter_count L' i'
    (ps ++ match c with Some t => specs_of t | None => [] end).
Proof.
  unfold Model.parse_section. destruct c as [t |]; [| discriminate].
  destruct (t_head t) as [h |]; [| discriminate].
  destruct (Smap.find (h_sid h) (sim_ L)) as [s0 |] eqn:Hfind; [discriminate |].
  destruct (open_file (h_fn h)) as [ifs |]; [| discriminate].
  destruct (Section_get ifs (h_a h) (h_b h)) as [s |]; [| discriminate].
  match goal with
  | |- match read _ 1 ?L1 with _ => _ end = _ -> _ =>
      destruct (read (t_resolution t) 1 L1) as [L2 |] eqn:Hread; [| discriminate];
      set (L1' := L1) in *
  end.
  intros Hrun (HT & Hind & Hi & Hisc & Hnle & Hcov).
  destruct (read_tables (t_resolution t) 1 L1' L2 ps Hread)
    as (Hlen & HT2 & Esec & Eisc & Enle & Enli & Eind & Epim & Esim).
  { exact HT. }
  cbn in Esec, Eisc, Enle, Enli, Eind, Epim, Esim.
  destruct (parse_lines (t_lines t) L2 (S i) 0) as [[[L3 i3] k3] | | |] eqn:Hlines;
    try discriminate.
  cbn [mbind run_bind] in Hrun. injection Hrun as <- <-.
  destruct (parse_lines_parsed (t_lines t) L2 L3 (S i) i3 0 k3
              (ps ++ t_resolution t) Hlines)
    as ((HT3 & Hind3 & Hi3 & Hisc3 & Hnle3 & Hcov3) & Esec3 & Eisc3 & Enle3 & Enli3 & Esim3).
  { split; [exact HT2 |]. split; [congruence |].
    split; [rewrite length_app; lia |].
    split; [rewrite Eisc, Esec, !length_app; cbn; lia |].
    split; [rewrite Enle, Esec, !length_app; cbn; lia |].
    intros x Hx.
    destruct (Nat.lt_ge_cases x i) as [Hlt | Hge].
    - destruct (Hcov x Hlt) as [(sid & s' & Hin & Hs) | (pid' & base & j & Hin & Hj & ->)].
      + left. exists sid, s'. rewrite Esim, Eisc.
        split.
        * apply Smap_insert_old; [exact Hin |].
          apply (Smap_find_None (h_sid h) (sim_ L) sid s' Hfind Hin).
        * apply lookup_app_l_Some. exact Hs.
      + right. exists pid', base, j. rewrite Epim. auto.
    - left. exists (h_sid h), (length (sec_ L)). rewrite Esim, Eisc.
      split; [apply Smap_insert_new |].
      rewrite <- Hisc. rewrite lookup_app_r by lia.
      rewrite Nat.sub_diag. cbn. f_equal. lia. }
  unfold specs_of. rewrite app_assoc.
  split; [exact HT3 |]. cbn. split; [exact Hind3 |]. split; [exact Hi3 |].
  split; [exact Hisc3 |]. split; [exact Hnle3 |].
  intros x Hx. destruct (Hcov3 x Hx) as [H | H]; [left | right]; exact H.
Qed.

Lemma parse_text_parsed (text : list chunk) (L L' : locals) (i i' : nat)
    (ps : list spec) :
  loop_over text parse_section (L, i) = Done (L', i') ->
  parsed parameter_count L i ps ->
  parsed parameter_count L' i' (ps ++ parameters text).
Proof.
  revert L i ps. induction text as [| c text IH]; intros L i ps Hrun HP.
  - cbn in Hrun. injection Hrun as <- <-. unfold parameters. cbn.
    rewrite app_nil_r. exact HP.
  - cbn [loop_over] in Hrun.
    destruct (parse_section c (L, i)) as [[L1 i1] | | |] eqn:Hsec; try discriminate.
    cbn [mbind run_bind] in Hrun.
    pose proof (parse_section_parsed c L L1 i i1 ps Hsec HP) as HP1.
    pose proof (IH L1 i1 _ Hrun HP1) as HP2.
    unfold parameters in *. cbn [map concat]. rewrite app_assoc. exact HP2.
Qed.

Lemma no_locals_parsed : parsed parameter_count (no_locals Section_) 0 [].
Proof.
  repeat split. intros x Hx. lia.
Qed.

End Get_parse.

(** ** The model: the loop that indexes the independent parameters *)

Section Get_index.

Import Model Invariant.

Variable Section_ : Type.

Local Abbreviation locals := (Model.locals Section_).

Lemma rank_S (ps : list spec) (i : nat) (s : spec) :
  ps !! i = Some s ->
  rank ps (S i) = rank ps i + (if independent s then 1 else 0).
Proof.
  intros Hs. unfold rank. rewrite (take_S_r ps i s Hs), List.filter_app, length_app.
  cbn. destruct (independent s); reflexivity.
Qed.

Lemma insert_middle {A : Type} (xs ys : list A) (y v : A) (i : nat) :
  length xs = i ->
  <[i:=v]> (xs ++ y :: ys) = (xs ++ [v]) ++ ys.
Proof.
  intros <-. rewrite insert_app_r_alt by lia. rewrite Nat.sub_diag. cbn.
  now rewrite <- app_assoc.
Qed.

Lemma index_parameter_step (L0 : locals) (ps : list spec) (k : nat)
    (st st' : locals * nat) :
  k < length ps ->
  index_parameter Section_ k st = Some st' ->
  indexing L0 ps k st ->
  indexing L0 ps (S k) st'.
Proof.
  intros Hk Hstep. destruct st as [L kk].
  intros (Esec & Eisc & Enle & Enli & Esim & Epim & Eval & Emsk & Eref & Elo & Eup
          & Eind & Ekk).
  cbn [fst snd] in *.
  destruct (lookup_lt_is_Some_2 ps k Hk) as [s Hs].
  assert (Hdrop : drop k ps = s :: drop (S k) ps) by (apply drop_S; exact Hs).
  assert (Htake : take (S k) ps = take k ps ++ [s]) by (apply take_S_r; exact Hs).
  assert (Hlen : length (take k ps) = k) by (rewrite length_take; lia).
  unfold index_parameter, at_ in Hstep.
  rewrite Emsk, Eref, !list_lookup_fmap, Hs in Hstep. cbn [fmap option_fmap option_map mbind option_bind] in Hstep.
  change (s_msk s && empty (s_ref s)) with (independent s) in Hstep.
  assert (Hlo : lo_ L !! k = Some (s_lo s)).
  { rewrite Elo, Hdrop. rewrite lookup_app_r by (rewrite length_map; lia).
    rewrite length_map, Hlen, Nat.sub_diag. reflexivity. }
  assert (Hup : up_ L !! k = Some (s_up s)).
  { rewrite Eup, Hdrop. rewrite lookup_app_r by (rewrite length_map; lia).
    rewrite length_map, Hlen, Nat.sub_diag. reflexivity. }
  assert (Llo : k < length (lo_ L)) by (apply lookup_lt_Some in Hlo; exact Hlo).
  assert (Lup : k < length (up_ L)) by (apply lookup_lt_Some in Hup; exact Hup).
  assert (Hins_lo : forall v, <[k:=v]> (lo_ L) =
            (map indexed_lo (take k ps) ++ [v]) ++ map s_lo (drop (S k) ps)).
  { intros v. rewrite Elo, Hdrop. cbn [map]. apply insert_middle.
    rewrite length_map. exact Hlen. }
  assert (Hins_up : forall v, <[k:=v]> (up_ L) =
            (map indexed_up (take k ps) ++ [v]) ++ map s_up (drop (S k) ps)).
  { intros v. rewrite Eup, Hdrop. cbn [map]. apply insert_middle.
    rewrite length_map. exact Hlen. }
  assert (Hind : forall v, v = indexed_ind ps k s ->
            ind_ L ++ [v] = imap (indexed_ind ps) (take (S k) ps)).
  { intros v ->. rewrite Htake, imap_app, Eind. cbn. rewrite Hlen, Nat.add_0_r.
    reflexivity. }
  assert (Hmid : forall (f g : spec -> R) (v : R), v = f s ->
            (map f (take k ps) ++ [v]) ++ map g (drop (S k) ps) =
            map f (take (S k) ps) ++ map g (drop (S k) ps)).
  { intros f g v ->. rewrite Htake, map_app. reflexivity. }
  assert (Hkeep : forall (f g : spec -> R), g s = f s ->
            map f (take k ps) ++ map g (drop k ps) =
            map f (take (S k) ps) ++ map g (drop (S k) ps)).
  { intros f g E. rewrite Htake, Hdrop, map_app. cbn [map]. rewrite E, <- app_assoc.
    reflexivity. }
  destruct (independent s) eqn:Hindep.
  - rewrite Hlo, Hup in Hstep. cbn [mbind option_bind] in Hstep.
    destruct (Rgt_dec (s_lo s) (s_up s)) as [Hgt | Hle].
    + rewrite (put_Some _ _ _ Llo), (put_Some _ _ _ Lup) in Hstep.
      cbn [mbind option_bind] in Hstep. injection Hstep as <-.
      unfold indexing. cbn [fst snd sec_ isc_ nle_ nli_ sim_ pim_ val_ msk_ ref_ lo_ up_ ind_].
      rewrite Hins_lo, Hins_up.
      rewrite (Hmid indexed_lo s_lo)
        by (unfold indexed_lo; rewrite Hindep, Rmin_right by lra; reflexivity).
      rewrite (Hmid indexed_up s_up)
        by (unfold indexed_up; rewrite Hindep, Rmax_left by lra; reflexivity).
      rewrite (Hind kk) by (unfold indexed_ind; rewrite Hindep; exact Ekk).
      rewrite (rank_S ps k s Hs), Hindep.
      repeat split; try assumption. lia.
    + cbn [mbind option_bind] in Hstep. injection Hstep as <-.
      unfold indexing. cbn [fst snd sec_ isc_ nle_ nli_ sim_ pim_ val_ msk_ ref_ lo_ up_ ind_].
      rewrite Elo, Eup.
      rewrite (Hkeep indexed_lo s_lo)
        by (unfold indexed_lo; rewrite Hindep, Rmin_left by lra; reflexivity).
      rewrite (Hkeep indexed_up s_up)
        by (unfold indexed_up; rewrite Hindep, Rmax_right by lra; reflexivity).
      rewrite (Hind kk) by (unfold indexed_ind; rewrite Hindep; exact Ekk).
      rewrite (rank_S ps k s Hs), Hindep.
      repeat split; try assumption. lia.
  - rewrite (put_Some _ _ _ Llo), (put_Some _ _ _ Lup) in Hstep.
    cbn [mbind option_bind] in Hstep. injection Hstep as <-.
    unfold indexing. cbn [fst snd sec_ isc_ nle_ nli_ sim_ pim_ val_ msk_ ref_ lo_ up_ ind_].
    rewrite Hins_lo, Hins_up.
    rewrite (Hmid indexed_lo s_lo) by (unfold indexed_lo; rewrite Hindep; reflexivity).
    rewrite (Hmid indexed_up s_up) by (unfold indexed_up; rewrite Hindep; reflexivity).
    rewrite (Hind 0) by (unfold indexed_ind; rewrite Hindep; reflexivity).
    rewrite (rank_S ps k s Hs), Hindep.
    repeat split; try assumption. lia.
Qed.

Lemma index_parameters_indexed (L L' : locals) (ps : list spec) :
  index_parameters Section_ L = Some L' ->
  tables_of L ps -> ind_ L = [] ->
  indexed L' ps /\
  sec_ L' = sec_ L /\ isc_ L' = isc_ L /\ nle_ L' = nle_ L /\ nli_ L' = nli_ L /\
  sim_ L' = sim_ L /\ pim_ L' = pim_ L.
Proof.
  unfold index_parameters. intros Hrun (Hv & Hl & Hu & Hm & Hr) Hind.
  destruct (for_ 0 (length (msk_ L)) (index_parameter Section_) (L, 0))
    as [[L1 k1] |] eqn:Hloop; [| discriminate].
  cbn [mbind option_bind] in Hrun. injection Hrun as <-.
  assert (Hn : length (msk_ L) = length ps) by (rewrite Hm; apply length_map).
  pose proof (for_keeps (indexing L ps) (index_parameter Section_) 0
                (length (msk_ L)) (L, 0) (L1, k1) (Nat.le_0_l _) Hloop) as HI.
  destruct HI as (Esec & Eisc & Enle & Enli & Esim & Epim & Eval & Emsk & Eref & Elo
                  & Eup & Eind & _).
  { unfold indexing. cbn [fst snd]. rewrite take_0, drop_0. cbn.
    repeat split; assumption. }
  { intros k st st' Hk. apply index_parameter_step. lia. }
  cbn [fst] in *. rewrite Hn in *.
  rewrite firstn_all, drop_all in *. cbn [map] in *. rewrite app_nil_r in *.
  repeat split; assumption.
Qed.

End Get_index.

(** ** The model: the loops that dereference the references *)

Section Get_dereference.

Import Model Invariant.

Variable Section_ : Type.
Variable parameter_count : nat.

Local Abbreviation locals := (Model.locals Section_).

Lemma at_put_inv {A : Type} (a a' : list A) (j k : nat) :
  (v ← at_ a k; put_ a j v) = Some a' ->
  exists v, a !! k = Some v /\ j < length a /\ a' = <[j:=v]> a.
Proof.
  unfold at_. destruct (a !! k) as [v |]; cbn; [| discriminate].
  intros H. apply put_inv in H as [Hj ->]. eauto.
Qed.

Lemma copy_parameter_spec (j k : nat) (L L' : locals) :
  copy_parameter Section_ j k L = Some L' ->
  (sec_ L' = sec_ L /\ isc_ L' = isc_ L /\ nle_ L' = nle_ L /\ nli_ L' = nli_ L /\
   sim_ L' = sim_ L /\ pim_ L' = pim_ L) /\
  ref_ L' = ref_ L /\
  (length (val_ L') = length (val_ L) /\ length (lo_ L') = length (lo_ L) /\
   length (up_ L') = length (up_ L) /\ length (msk_ L') = length (msk_ L) /\
   length (ind_ L') = length (ind_ L)) /\
  entry L' j = entry L k /\
  (forall i, i <> j -> entry L' i = entry L i).
Proof.
  unfold copy_parameter. intros H.
  destruct (at_ (val_ L) k ≫= put_ (val_ L) j) as [val' |] eqn:Hval;
    [| unfold at_ in *; destruct (val_ L !! k); cbn in *; [rewrite Hval in H |]; discriminate].
  apply at_put_inv in Hval as (v1 & Hv1 & Hj1 & ->).
  unfold at_ in H. rewrite Hv1 in H. cbn [mbind option_bind] in H.
  rewrite (put_Some _ _ _ Hj1) in H. cbn [mbind option_bind] in H.
  destruct (lo_ L !! k) as [v2 |] eqn:Hv2; cbn [mbind option_bind] in H; [| discriminate].
  destruct (put_ (lo_ L) j v2) as [lo' |] eqn:Hlo; cbn [mbind option_bind] in H; [| discriminate].
  apply put_inv in Hlo as [Hj2 ->].
  destruct (up_ L !! k) as [v3 |] eqn:Hv3; cbn [mbind option_bind] in H; [| discriminate].
  destruct (put_ (up_ L) j v3) as [up' |] eqn:Hup; cbn [mbind option_bind] in H; [| discriminate].
  apply put_inv in Hup as [Hj3 ->].
  destruct (msk_ L !! k) as [v4 |] eqn:Hv4; cbn [mbind option_bind] in H; [| discriminate].
  destruct (put_ (msk_ L) j v4) as [msk' |] eqn:Hmsk; cbn [mbind option_bind] in H; [| discriminate].
  apply put_inv in Hmsk as [Hj4 ->].
  destruct (ind_ L !! k) as [v5 |] eqn:Hv5; cbn [mbind option_bind] in H; [| discriminate].
  destruct (put_ (ind_ L) j v5) as [ind' |] eqn:Hind; cbn [mbind option_bind] in H; [| discriminate].
  apply put_inv in Hind as [Hj5 ->].
  injection H as <-. cbn. rewrite !length_insert.
  split; [repeat split |]. split; [reflexivity |]. split; [repeat split |].
  split.
  - unfold entry. cbn. rewrite !list_lookup_insert_eq by assumption. congruence.
  - intros i Hi. unfold entry. cbn. rewrite !list_lookup_insert_ne by congruence.
    reflexivity.
Qed.

Lemma copy_reference_spec (j k : nat) (L L' : locals) :
  copy_reference Section_ j k L = Some L' ->
  (sec_ L' = sec_ L /\ isc_ L' = isc_ L /\ nle_ L' = nle_ L /\ nli_ L' = nli_ L /\
   sim_ L' = sim_ L /\ pim_ L' = pim_ L) /\
  (val_ L' = val_ L /\ lo_ L' = lo_ L /\ up_ L' = up_ L /\ msk_ L' = msk_ L /\
   ind_ L' = ind_ L) /\
  exists r, ref_ L !! k = Some r /\ j < length (ref_ L) /\ ref_ L' = <[j:=r]> (ref_ L).
Proof.
  unfold copy_reference. intros H.
  destruct (at_ (ref_ L) k ≫= put_ (ref_ L) j) as [ref' |] eqn:Href;
    [| unfold at_ in *; destruct (ref_ L !! k); cbn in *; [rewrite Href in H |]; discriminate].
  apply at_put_inv in Href as (r & Hr & Hj & ->).
  unfold at_ in H. rewrite Hr in H. cbn [mbind option_bind] in H.
  rewrite (put_Some _ _ _ Hj) in H. cbn [mbind option_bind] in H.
  injection H as <-. cbn. split; [repeat split |]. split; [repeat split |].
  exists r. auto.
Qed.

Lemma entry_bounds (L L' : locals) (i i' : nat) :
  entry L i = entry L' i' ->
  lo_ L !! i = lo_ L' !! i' /\ up_ L !! i = up_ L' !! i'.
Proof. unfold entry. intros H. injection H as _ Hl Hu _ _. auto. Qed.

Lemma empty_spec (r : string) : empty r = true <-> r = ""%string.
Proof. unfold empty. apply String.eqb_eq. Qed.

Lemma follow_reference_keeps (L0 L L' : locals) (j k : nat) :
  dereferencing L0 L ->
  ~ resolved L j ->
  follow_reference Section_ j k L = Done L' ->
  dereferencing L0 L' /\
  (forall i, i <> j -> ref_ L' !! i = ref_ L !! i).
Proof.
  intros (HF & HS & HR & HE & HB) Hj. unfold follow_reference.
  destruct (Nat.eqb_spec j k) as [_ | Hjk]; [discriminate |].
  unfold at_. destruct (ref_ L !! k) as [rk |] eqn:Hrk; cbn [defined mbind run_bind];
    [| discriminate].
  intros Hrun.
  assert (Hcopy : exists L1,
            (if empty rk then defined (copy_parameter Section_ j k L) else Done L) = Done L1 /\
            copy_reference Section_ j k L1 = Some L').
  { destruct (if empty rk then defined (copy_parameter Section_ j k L) else Done L)
      as [L1 | | |]; cbn [mbind run_bind] in Hrun; try discriminate.
    exists L1. split; [reflexivity |].
    destruct (copy_reference Section_ j k L1); cbn in Hrun; [congruence | discriminate]. }
  destruct Hcopy as (L1 & H1 & H2).
  apply copy_reference_spec in H2 as (F2 & T2 & r & Hr & Hjlen & Eref).
  destruct F2 as (? & ? & ? & ? & ? & ?). destruct T2 as (? & ? & ? & ? & ?).
  destruct HF as (? & ? & ? & ? & ? & ?). destruct HS as (? & ? & ? & ? & ? & ?).
  assert (Hent2 : forall i, entry L' i = entry L1 i).
  { intros i. unfold entry. congruence. }
  destruct (empty rk) eqn:Hempty.
  - (* the entries of [k] are copied to [j] *)
    apply empty_spec in Hempty. subst rk.
    destruct (copy_parameter Section_ j k L) as [L1' |] eqn:Hcp; cbn in H1; [| discriminate].
    injection H1 as ->.
    apply copy_parameter_spec in Hcp as (F1 & R1 & S1 & Ej & Eother).
    destruct F1 as (? & ? & ? & ? & ? & ?). destruct S1 as (? & ? & ? & ? & ?).
    rewrite R1 in Hr, Hjlen, Eref. rewrite Hrk in Hr. injection Hr as <-.
    assert (Hent : forall i, i <> j -> entry L' i = entry L i).
    { intros i Hi. rewrite Hent2. apply Eother. exact Hi. }
    assert (Hentj : entry L' j = entry L k) by (rewrite Hent2; exact Ej).
    split; [| intros i Hi; rewrite Eref, list_lookup_insert_ne by congruence; reflexivity].
    split; [repeat split; congruence |].
    split; [rewrite Eref, length_insert; repeat split; congruence |].
    split; [| split].
    + intros i Hi. destruct (HR i Hi) as [Hres Hentry].
      assert (i <> j) by (intros ->; contradiction).
      split; [| rewrite Hent by assumption; exact Hentry].
      unfold resolved. rewrite Eref, list_lookup_insert_ne by congruence. exact Hres.
    + intros i Hi. destruct (Nat.eq_dec i j) as [-> | Hne].
      * rewrite Hentj. apply HE. exact Hrk.
      * rewrite Hent by assumption. apply HE.
        unfold resolved in *. rewrite Eref, list_lookup_insert_ne in Hi by congruence.
        exact Hi.
    + intros i l u Hl Hu. destruct (Nat.eq_dec i j) as [-> | Hne].
      * apply entry_bounds in Hentj as [El Eu]. rewrite El in Hl. rewrite Eu in Hu.
        exact (HB k l u Hl Hu).
      * pose proof (Hent i Hne) as Hi. apply entry_bounds in Hi as [El Eu].
        rewrite El in Hl. rewrite Eu in Hu. exact (HB i l u Hl Hu).
  - (* only the reference is followed *)
    injection H1 as <-.
    assert (Hent : forall i, entry L' i = entry L i) by exact Hent2.
    split; [| intros i Hi; rewrite Eref, list_lookup_insert_ne by congruence; reflexivity].
    rewrite Hrk in Hr. injection Hr as <-.
    split; [repeat split; congruence |].
    split; [rewrite Eref, length_insert; repeat split; congruence |].
    split; [| split].
    + intros i Hi. destruct (HR i Hi) as [Hres Hentry].
      assert (i <> j) by (intros ->; contradiction).
      split; [| rewrite Hent; exact Hentry].
      unfold resolved. rewrite Eref, list_lookup_insert_ne by congruence. exact Hres.
    + intros i Hi. rewrite Hent. apply HE. unfold resolved in *.
      destruct (Nat.eq_dec i j) as [-> | Hne].
      * rewrite Eref, list_lookup_insert_eq in Hi by assumption.
        injection Hi as ->. discriminate.
      * rewrite Eref, list_lookup_insert_ne in Hi by congruence. exact Hi.
    + intros i l u Hl Hu. pose proof (Hent i) as Hi.
      apply entry_bounds in Hi as [El Eu].
      rewrite El in Hl. rewrite Eu in Hu. exact (HB i l u Hl Hu).
Qed.

(** The loop for the reference of the parameter [j] ends with the reference
    emptied; it changes the reference of no other parameter. *)
Lemma dereference_resolution_keeps (L0 : locals) (fuel j : nat) (L L' : locals) :
  dereferencing L0 L ->
  dereference_resolution Section_ fuel j L = Done L' ->
  dereferencing L0 L' /\ resolved L' j /\
  (forall i, i <> j -> ref_ L' !! i = ref_ L !! i).
Proof.
  revert L. induction fuel as [| fuel IH]; intros L HD; [discriminate |].
  cbn [dereference_resolution]. unfold at_.
  destruct (ref_ L !! j) as [rj |] eqn:Hrj; cbn [defined mbind run_bind]; [| discriminate].
  destruct (empty rj) eqn:Hempty.
  - apply empty_spec in Hempty. subst rj. intros H. injection H as <-.
    split; [exact HD |]. split; [exact Hrj | reflexivity].
  - destruct (Smap.find rj (sim_ L)) as [s |]; [| discriminate].
    destruct (isc_ L !! s) as [k |]; cbn [defined mbind run_bind]; [| discriminate].
    destruct (follow_reference Section_ j k L) as [L1 | | |] eqn:Hfollow;
      cbn [mbind run_bind]; try discriminate.
    intros Hrun.
    destruct (follow_reference_keeps L0 L L1 j k HD) as [HD1 Hother]; [| exact Hfollow |].
    { unfold resolved. rewrite Hrj. intros H. injection H as ->. discriminate. }
    destruct (IH L1 HD1 Hrun) as (HD' & Hres & Hother').
    split; [exact HD' |]. split; [exact Hres |].
    intros i Hi. rewrite Hother', Hother by exact Hi. reflexivity.
Qed.

Lemma dereference_line_keeps (L0 : locals) (fuel j k : nat) (L L' : locals) :
  dereferencing L0 L ->
  dereference_line Section_ fuel j k L = Done L' ->
  dereferencing L0 L' /\ resolved L' k /\
  (forall i, i <> k -> ref_ L' !! i = ref_ L !! i).
Proof.
  revert L. induction fuel as [| fuel IH]; intros L HD; [discriminate |].
  cbn [dereference_line]. unfold at_.
  destruct (ref_ L !! k) as [rk |] eqn:Hrk; cbn [defined mbind run_bind]; [| discriminate].
  destruct (empty rk) eqn:Hempty.
  - apply empty_spec in Hempty. subst rk. intros H. injection H as <-.
    split; [exact HD |]. split; [exact Hrk | reflexivity].
  - destruct (Smap.find rk (pim_ L)) as [base |]; [| discriminate].
    destruct (follow_reference Section_ k (base + j) L) as [L1 | | |] eqn:Hfollow;
      cbn [mbind run_bind]; try discriminate.
    intros Hrun.
    destruct (follow_reference_keeps L0 L L1 k (base + j) HD) as [HD1 Hother];
      [| exact Hfollow |].
    { unfold resolved. rewrite Hrk. intros H. injection H as ->. discriminate. }
    destruct (IH L1 HD1 Hrun) as (HD' & Hres & Hother').
    split; [exact HD' |]. split; [exact Hres |].
    intros i Hi. rewrite Hother', Hother by exact Hi. reflexivity.
Qed.

Lemma loop_over_keeps_from {E T : Type} (Inv : T -> Prop) (Post : E -> T -> Prop)
    (body : E -> T -> run T) (xs seen : list E) (st st' : T) :
  (forall x s s', body x s = Done s' -> Inv s ->
     Inv s' /\ Post x s' /\ forall y, Post y s -> Post y s') ->
  loop_over xs body st = Done st' ->
  Inv st ->
  (forall x, In x seen -> Post x st) ->
  Inv st' /\ forall x, In x (seen ++ xs) -> Post x st'.
Proof.
  intros Hstep. revert seen st. induction xs as [| x xs IH]; intros seen st Hrun H0 Hseen.
  - cbn in Hrun. injection Hrun as <-. rewrite app_nil_r. auto.
  - cbn [loop_over] in Hrun. destruct (body x st) as [s1 | | |] eqn:Hbody;
      cbn [mbind run_bind] in Hrun; try discriminate.
    destruct (Hstep x st s1 Hbody H0) as (H1 & P1 & Hstable).
    destruct (IH (seen ++ [x]) s1 Hrun H1) as [H' P'].
    { intros y Hy. apply in_app_or in Hy as [Hy | [<- | []]]; auto. }
    split; [exact H' |]. intros y Hy. apply P'.
    rewrite <- app_assoc. exact Hy.
Qed.

Lemma loop_over_keeps {E T : Type} (Inv : T -> Prop) (Post : E -> T -> Prop)
    (body : E -> T -> run T) (xs : list E) (st st' : T) :
  (forall x s s', body x s = Done s' -> Inv s ->
     Inv s' /\ Post x s' /\ forall y, Post y s -> Post y s') ->
  loop_over xs body st = Done st' ->
  Inv st ->
  Inv st' /\ forall x, In x xs -> Post x st'.
Proof.
  intros Hstep Hrun H0.
  apply (loop_over_keeps_from Inv Post body xs [] st st' Hstep Hrun H0).
  intros x [].
Qed.

Lemma loop_up_keeps {T : Type} (Inv : nat -> T -> Prop) (body : nat -> T -> run T)
    (count k0 : nat) (st st' : T) :
  loop_up count k0 body st = Done st' ->
  Inv k0 st ->
  (forall k s s', k0 <= k < k0 + count -> body k s = Done s' -> Inv k s -> Inv (S k) s') ->
  Inv (k0 + count) st'.
Proof.
  revert k0 st. induction count as [| count IH]; intros k0 st Hrun H0 Hstep.
  - cbn in Hrun. injection Hrun as <-. now rewrite Nat.add_0_r.
  - cbn [loop_up] in Hrun. destruct (body k0 st) as [s | | |] eqn:Hs;
      cbn [mbind run_bind] in Hrun; try discriminate.
    replace (k0 + S count) with (S k0 + count) by lia.
    apply (IH (S k0) s Hrun).
    + apply (Hstep k0 st s); [lia | exact Hs | exact H0].
    + intros k s1 s2 Hk. apply Hstep. lia.
Qed.

(** A reference that is empty stays empty. *)
Lemma resolved_stays (L L' : locals) (j : nat) :
  resolved L' j ->
  (forall i, i <> j -> ref_ L' !! i = ref_ L !! i) ->
  forall i, resolved L i -> resolved L' i.
Proof.
  intros Hj Hother i Hi. destruct (Nat.eq_dec i j) as [-> | Hne]; [exact Hj |].
  unfold resolved. rewrite Hother by exact Hne. exact Hi.
Qed.

Lemma dereference_resolutions_keeps (L0 : locals) (fuel : nat) (L L' : locals) :
  dereferencing L0 L ->
  dereference_resolutions Section_ fuel L = Done L' ->
  dereferencing L0 L' /\
  (forall i, resolved L i -> resolved L' i) /\
  (forall sid s j, In (sid, s) (sim_ L0) -> isc_ L0 !! s = Some j -> resolved L' j).
Proof.
  intros HD Hrun. unfold dereference_resolutions in Hrun.
  assert (Esim : sim_ L = sim_ L0) by (destruct HD as ((_ & _ & _ & _ & E & _) & _); exact E).
  match type of Hrun with
  | loop_over _ ?body _ = _ =>
      destruct (loop_over_keeps
                  (fun L1 => dereferencing L0 L1 /\ forall i, resolved L i -> resolved L1 i)
                  (fun e L1 => forall j, isc_ L0 !! snd e = Some j -> resolved L1 j)
                  body (sim_ L) L L') as [[HD' Hstay] Hpost]
  end.
  - intros e L1 L2 Hbody [HD1 Hstay1].
    assert (Eisc : isc_ L1 = isc_ L0)
      by (destruct HD1 as ((_ & E & _) & _); exact E).
    unfold at_ in Hbody. rewrite Eisc in Hbody.
    destruct (isc_ L0 !! snd e) as [j |] eqn:Hj; cbn [defined mbind run_bind] in Hbody;
      [| discriminate].
    destruct (dereference_resolution_keeps L0 fuel j L1 L2 HD1 Hbody)
      as (HD2 & Hres & Hother).
    pose proof (resolved_stays L1 L2 j Hres Hother) as Hst.
    split; [split; [exact HD2 | auto] |].
    split.
    + intros j' Hj'. injection Hj' as <-. exact Hres.
    + intros y Hy j' Hj'. apply Hst. apply Hy. exact Hj'.
  - exact Hrun.
  - split; [exact HD | auto].
  - split; [exact HD' |]. split; [exact Hstay |].
    intros sid s j Hin Hj. rewrite Esim in Hpost. apply (Hpost (sid, s) Hin j Hj).
Qed.

Lemma dereference_lines_keeps (L0 : locals) (fuel : nat) (L L' : locals) :
  dereferencing L0 L ->
  dereference_lines Section_ parameter_count fuel L = Done L' ->
  dereferencing L0 L' /\
  (forall i, resolved L i -> resolved L' i) /\
  (forall pid base j, In (pid, base) (pim_ L0) -> j < parameter_count ->
     resolved L' (base + j)).
Proof.
  intros HD Hrun. unfold dereference_lines in Hrun.
  assert (Epim : pim_ L = pim_ L0)
    by (destruct HD as ((_ & _ & _ & _ & _ & E) & _); exact E).
  match type of Hrun with
  | loop_over _ ?body _ = _ =>
      destruct (loop_over_keeps
                  (fun L1 => dereferencing L0 L1 /\ forall i, resolved L i -> resolved L1 i)
                  (fun e L1 => forall j, j < parameter_count -> resolved L1 (snd e + j))
                  body (pim_ L) L L') as [[HD' Hstay] Hpost]
  end.
  - intros e L1 L2 Hbody [HD1 Hstay1].
    cbv beta in Hbody.
    pose proof (fun body => loop_up_keeps
                  (fun k L3 => dereferencing L0 L3 /\
                               (forall i, resolved L1 i -> resolved L3 i) /\
                               forall j, j < k -> resolved L3 (snd e + j))
                  body parameter_count 0 L1 L2) as Hloop.
    specialize (Hloop _ Hbody).
    destruct Hloop as (HD2 & Hst & Hdone).
    + split; [exact HD1 |]. split; [auto |]. intros j Hj. lia.
    + intros k L3 L4 Hk Hline (HD3 & Hst3 & Hdone3).
      destruct (dereference_line_keeps L0 fuel k (snd e + k) L3 L4 HD3 Hline)
        as (HD4 & Hres & Hother).
      pose proof (resolved_stays L3 L4 (snd e + k) Hres Hother) as Hst4.
      split; [exact HD4 |]. split; [auto |].
      intros j Hj. destruct (Nat.eq_dec j k) as [-> | Hne]; [exact Hres |].
      apply Hst4. apply Hdone3. lia.
    + split; [split; [exact HD2 | auto] |].
      split; [exact Hdone |].
      intros y Hy j Hj. apply Hst. apply Hy. exact Hj.
  - exact Hrun.
  - split; [exact HD | auto].
  - split; [exact HD' |]. split; [exact Hstay |].
    intros pid base j Hin Hj. rewrite Epim in Hpost. apply (Hpost (pid, base) Hin j Hj).
Qed.

End Get_dereference.

(** ** The model: where the references lead *)

Section Get_chains.

Import Model Invariant.

Variable Section_ : Type.
Variable parameter_count : nat.

Local Abbreviation locals := (Model.locals Section_).

Lemma find_In (r : string) (mp : Smap.t) (v : nat) :
  Smap.find r mp = Some v -> In (r, v) mp.
Proof.
  induction mp as [| [k v'] mp IH]; cbn [Smap.find]; [discriminate |].
  destruct (String.eqb_spec r k) as [-> | Hne].
  - intros H. injection H as ->. left. reflexivity.
  - intros H. right. apply IH. exact H.
Qed.

Lemma leads_on_to (L0 : locals) (i p q : nat) :
  leads_on parameter_count L0 i p -> leads_to parameter_count L0 p q ->
  leads_to parameter_count L0 i q.
Proof.
  unfold leads_on, leads_to. intros H. revert q.
  induction H as [i | i j k Hij IH Hjk]; intros q Hq; [exact Hq |].
  apply IH. apply (resolves_step _ _ _ _ _ j k q Hjk Hq).
Qed.

Lemma leads_to_end (L0 : locals) (i q : nat) :
  leads_to parameter_count L0 i q -> resolved L0 q.
Proof.
  unfold leads_to, resolved. intros H.
  induction H as [i Hi | i j k Hij Hjk IH]; [exact Hi | exact IH].
Qed.

(** What one turn of the loops [while (!ref[j].empty())] writes. *)
Lemma follow_reference_spec (L L' : locals) (j k : nat) :
  follow_reference Section_ j k L = Done L' ->
  j <> k /\
  (forall i, i <> j -> ref_ L' !! i = ref_ L !! i /\ entry L' i = entry L i) /\
  exists rk,
    ref_ L !! k = Some rk /\ ref_ L' !! j = Some rk /\
    (rk = ""%string -> entry L' j = entry L k) /\
    (rk <> ""%string -> entry L' j = entry L j).
Proof.
  unfold follow_reference.
  destruct (Nat.eqb_spec j k) as [_ | Hjk]; [discriminate |].
  unfold at_. destruct (ref_ L !! k) as [rk |] eqn:Hrk; cbn [defined mbind run_bind];
    [| discriminate].
  intros Hrun. split; [exact Hjk |].
  assert (Hcopy : exists L1,
            (if empty rk then defined (copy_parameter Section_ j k L) else Done L) = Done L1 /\
            copy_reference Section_ j k L1 = Some L').
  { destruct (if empty rk then defined (copy_parameter Section_ j k L) else Done L)
      as [L1 | | |]; cbn [mbind run_bind] in Hrun; try discriminate.
    exists L1. split; [reflexivity |].
    destruct (copy_reference Section_ j k L1); cbn in Hrun; [congruence | discriminate]. }
  destruct Hcopy as (L1 & H1 & H2).
  apply copy_reference_spec in H2 as (_ & T2 & r & Hr & Hjlen & Eref).
  destruct T2 as (? & ? & ? & ? & ?).
  assert (Hent2 : forall i, entry L' i = entry L1 i).
  { intros i. unfold entry. congruence. }
  destruct (empty rk) eqn:Hempty.
  - apply empty_spec in Hempty. subst rk.
    destruct (copy_parameter Section_ j k L) as [L1' |] eqn:Hcp; cbn in H1; [| discriminate].
    injection H1 as ->.
    apply copy_parameter_spec in Hcp as (_ & R1 & _ & Ej & Eother).
    rewrite R1 in Hr, Hjlen, Eref. rewrite Hrk in Hr. injection Hr as <-.
    split.
    + intros i Hi. rewrite Eref, list_lookup_insert_ne by congruence.
      split; [reflexivity |]. rewrite Hent2. apply Eother. exact Hi.
    + exists ""%string. split; [reflexivity |].
      split; [rewrite Eref; apply list_lookup_insert_eq; exact Hjlen |].
      split; [intros _; rewrite Hent2; exact Ej | congruence].
  - injection H1 as <-. rewrite Hrk in Hr. injection Hr as <-.
    split.
    + intros i Hi. rewrite Eref, list_lookup_insert_ne by congruence.
      split; [reflexivity | apply Hent2].
    + exists rk. split; [reflexivity |].
      split; [rewrite Eref; apply list_lookup_insert_eq; exact Hjlen |].
      split; [| intros _; apply Hent2].
      intros ->. discriminate.
Qed.

Lemma followed_kept (L0 L L' : locals) (i : nat) :
  ref_ L' !! i = ref_ L !! i -> entry L' i = entry L i ->
  followed parameter_count L0 L i -> followed parameter_count L0 L' i.
Proof.
  unfold followed, resolved. intros Er Ee [[H1 H2] | [H1 H2]].
  - left. split; congruence.
  - right. rewrite Er, Ee. split; assumption.
Qed.

(** One turn of a loop [while (!ref[j].empty())]: the parameter [k] that
    the reference of [j] names is found from the reference by [target]. *)
Lemma follow_reference_following (kind : nat -> Prop) (L0 L L' : locals)
    (j k : nat) (rj : string) :
  (forall i, i <> j -> followed parameter_count L0 L i) ->
  following parameter_count kind L0 L j ->
  kind j -> kind k ->
  ref_ L !! j = Some rj -> rj <> ""%string ->
  (forall p, kind p -> ref_ L0 !! p = Some rj ->
     refers parameter_count (sim_ L0) (pim_ L0) (isc_ L0) (ref_ L0) p k) ->
  follow_reference Section_ j k L = Done L' ->
  (forall i, i <> j -> followed parameter_count L0 L' i) /\
  following parameter_count kind L0 L' j.
Proof.
  intros Hothers Hj Kj Kk Hrj Hne Hstep Hrun.
  apply follow_reference_spec in Hrun as (Hjk & Hframe & rk & Hrk & Hrj' & Hcopy & Hkeep).
  assert (Hp : exists p, leads_on parameter_count L0 j p /\ kind p /\
                         ref_ L0 !! p = Some rj).
  { destruct Hj as [[[Er _] | [Hres _]] | (p & r & Hjp & Kp & Hr & _ & Hp)].
    - exists j. split; [apply reaches_here |]. split; [exact Kj | congruence].
    - unfold resolved in Hres. congruence.
    - exists p. split; [exact Hjp |]. split; [exact Kp | congruence]. }
  destruct Hp as (p & Hjp & Kp & Hp).
  assert (Hjk' : leads_on parameter_count L0 j k).
  { apply (reaches_step _ _ _ _ _ j p k Hjp). apply Hstep; assumption. }
  split.
  - intros i Hi. destruct (Hframe i Hi) as [Er Ee].
    apply (followed_kept L0 L L' i Er Ee). apply Hothers. exact Hi.
  - pose proof (Hothers k (not_eq_sym Hjk)) as Hk.
    destruct (string_dec rk "") as [-> | Hrkne].
    + left. right. split; [exact Hrj' |].
      rewrite (Hcopy eq_refl).
      destruct Hk as [[Er Ee] | [_ (q & Hkq & Ee)]].
      * exists k. split; [| exact Ee].
        apply (leads_on_to L0 j k k Hjk'). apply resolves_here. congruence.
      * exists q. split; [| exact Ee]. apply (leads_on_to L0 j k q Hjk' Hkq).
    + right. exists k, rk. split; [exact Hjk' |]. split; [exact Kk |].
      split; [exact Hrj' |]. split; [exact Hrkne |].
      destruct Hk as [[Er _] | [Hres _]]; [congruence |].
      unfold resolved in Hres. congruence.
Qed.

Lemma dereference_resolution_followed (L0 : locals) (fuel j : nat) (L L' : locals) :
  dereferencing L0 L ->
  (forall i, i <> j -> followed parameter_count L0 L i) ->
  following parameter_count (of_section L0) L0 L j ->
  of_section L0 j ->
  dereference_resolution Section_ fuel j L = Done L' ->
  forall i, followed parameter_count L0 L' i.
Proof.
  revert L. induction fuel as [| fuel IH]; intros L HD Hothers Hj Kj; [discriminate |].
  cbn [dereference_resolution]. unfold at_.
  destruct (ref_ L !! j) as [rj |] eqn:Hrj; cbn [defined mbind run_bind]; [| discriminate].
  destruct (empty rj) eqn:Hempty.
  - apply empty_spec in Hempty. subst rj. intros H. injection H as <-.
    intros i. destruct (Nat.eq_dec i j) as [-> | Hne]; [| apply Hothers; exact Hne].
    destruct Hj as [Hj | (p & r & _ & _ & Hr & Hrne & _)]; [exact Hj | congruence].
  - assert (Hne : rj <> ""%string).
    { intros ->. discriminate. }
    pose proof HD as ((_ & Eisc & _ & _ & Esim & _) & _).
    destruct (Smap.find rj (sim_ L)) as [s' |] eqn:Hfind; [| discriminate].
    destruct (isc_ L !! s') as [k |] eqn:Hk; cbn [defined mbind run_bind]; [| discriminate].
    destruct (follow_reference Section_ j k L) as [L1 | | |] eqn:Hfollow;
      cbn [mbind run_bind]; try discriminate.
    intros Hrun.
    rewrite Esim in Hfind. rewrite Eisc in Hk.
    assert (Kk : of_section L0 k).
    { exists rj, s'. split; [apply find_In; exact Hfind | exact Hk]. }
    destruct (follow_reference_following (of_section L0) L0 L L1 j k rj
                Hothers Hj Kj Kk Hrj Hne) as [Hothers1 Hj1]; [| exact Hfollow |].
    { intros p (sid & s & Hin & Hs) Hp.
      apply (refers_section _ _ _ _ _ sid s p rj s' k); assumption. }
    destruct (follow_reference_keeps Section_ L0 L L1 j k HD) as [HD1 _];
      [| exact Hfollow |].
    { unfold resolved. rewrite Hrj. intros H. injection H as ->. contradiction. }
    apply (IH L1 HD1 Hothers1 Hj1 Kj Hrun).
Qed.

Lemma dereference_line_followed (L0 : locals) (fuel off k : nat) (L L' : locals) :
  dereferencing L0 L ->
  (forall i, i <> k -> followed parameter_count L0 L i) ->
  following parameter_count (of_line L0 off) L0 L k ->
  of_line L0 off k -> off < parameter_count ->
  dereference_line Section_ fuel off k L = Done L' ->
  forall i, followed parameter_count L0 L' i.
Proof.
  revert L. induction fuel as [| fuel IH]; intros L HD Hothers Hk Kk Hoff; [discriminate |].
  cbn [dereference_line]. unfold at_.
  destruct (ref_ L !! k) as [rk |] eqn:Hrk; cbn [defined mbind run_bind]; [| discriminate].
  destruct (empty rk) eqn:Hempty.
  - apply empty_spec in Hempty. subst rk. intros H. injection H as <-.
    intros i. destruct (Nat.eq_dec i k) as [-> | Hne]; [| apply Hothers; exact Hne].
    destruct Hk as [Hk | (p & r & _ & _ & Hr & Hrne & _)]; [exact Hk | congruence].
  - assert (Hne : rk <> ""%string).
    { intros ->. discriminate. }
    pose proof HD as ((_ & _ & _ & _ & _ & Epim) & _).
    destruct (Smap.find rk (pim_ L)) as [base' |] eqn:Hfind; [| discriminate].
    destruct (follow_reference Section_ k (base' + off) L) as [L1 | | |] eqn:Hfollow;
      cbn [mbind run_bind]; try discriminate.
    intros Hrun.
    rewrite Epim in Hfind.
    assert (Kl : of_line L0 off (base' + off)).
    { exists rk, base'. split; [apply find_In; exact Hfind | reflexivity]. }
    destruct (follow_reference_following (of_line L0 off) L0 L L1 k (base' + off) rk
                Hothers Hk Kk Kl Hrk Hne) as [Hothers1 Hk1]; [| exact Hfollow |].
    { intros p (pid & base & Hin & ->) Hp.
      apply (refers_line _ _ _ _ _ pid base off rk base'); assumption. }
    destruct (follow_reference_keeps Section_ L0 L L1 k (base' + off) HD) as [HD1 _];
      [| exact Hfollow |].
    { unfold resolved. rewrite Hrk. intros H. injection H as ->. contradiction. }
    apply (IH L1 HD1 Hothers1 Hk1 Kk Hoff Hrun).
Qed.

Lemma loop_over_keeps_in {E T : Type} (Inv : T -> Prop) (body : E -> T -> run T)
    (xs : list E) (st st' : T) :
  (forall x s s', In x xs -> body x s = Done s' -> Inv s -> Inv s') ->
  loop_over xs body st = Done st' ->
  Inv st ->
  Inv st'.
Proof.
  revert st. induction xs as [| x xs IH]; intros st Hstep Hrun H0.
  - cbn in Hrun. injection Hrun as <-. exact H0.
  - cbn [loop_over] in Hrun. destruct (body x st) as [s1 | | |] eqn:Hbody;
      cbn [mbind run_bind] in Hrun; try discriminate.
    apply (IH s1); [| exact Hrun |].
    + intros y s s' Hy. apply Hstep. right. exact Hy.
    + apply (Hstep x st s1); [left; reflexivity | exact Hbody | exact H0].
Qed.

Lemma dereference_resolutions_followed (L0 : locals) (fuel : nat) (L L' : locals) :
  dereferencing L0 L ->
  (forall i, followed parameter_count L0 L i) ->
  dereference_resolutions Section_ fuel L = Done L' ->
  forall i, followed parameter_count L0 L' i.
Proof.
  intros HD HF Hrun. unfold dereference_resolutions in Hrun.
  assert (Esim : sim_ L = sim_ L0) by (destruct HD as ((_ & _ & _ & _ & E & _) & _); exact E).
  match type of Hrun with
  | loop_over _ ?body _ = _ =>
      destruct (loop_over_keeps_in
                  (fun L1 => dereferencing L0 L1 /\
                             forall i, followed parameter_count L0 L1 i)
                  body (sim_ L) L L') as [_ HF']
  end.
  - intros e L1 L2 Hin Hbody [HD1 HF1].
    assert (Eisc : isc_ L1 = isc_ L0)
      by (destruct HD1 as ((_ & E & _) & _); exact E).
    unfold at_ in Hbody. rewrite Eisc in Hbody.
    destruct (isc_ L0 !! snd e) as [j |] eqn:Hj; cbn [defined mbind run_bind] in Hbody;
      [| discriminate].
    split.
    + apply (dereference_resolution_keeps Section_ L0 fuel j L1 L2 HD1 Hbody).
    + apply (dereference_resolution_followed L0 fuel j L1 L2 HD1); auto.
      * left. apply HF1.
      * exists (fst e), (snd e). rewrite <- Esim, <- surjective_pairing. auto.
  - exact Hrun.
  - split; assumption.
  - exact HF'.
Qed.

Lemma dereference_lines_followed (L0 : locals) (fuel : nat) (L L' : locals) :
  dereferencing L0 L ->
  (forall i, followed parameter_count L0 L i) ->
  dereference_lines Section_ parameter_count fuel L = Done L' ->
  forall i, followed parameter_count L0 L' i.
Proof.
  intros HD HF Hrun. unfold dereference_lines in Hrun.
  assert (Epim : pim_ L = pim_ L0)
    by (destruct HD as ((_ & _ & _ & _ & _ & E) & _); exact E).
  match type of Hrun with
  | loop_over _ ?body _ = _ =>
      destruct (loop_over_keeps_in
                  (fun L1 => dereferencing L0 L1 /\
                             forall i, followed parameter_count L0 L1 i)
                  body (pim_ L) L L') as [_ HF']
  end.
  - intros e L1 L2 Hin Hbody HI1. cbv beta in Hbody.
    pose proof (fun body => loop_up_keeps
                  (fun _ L3 => dereferencing L0 L3 /\
                               forall i, followed parameter_count L0 L3 i)
                  body parameter_count 0 L1 L2) as Hloop.
    specialize (Hloop _ Hbody). apply Hloop; [exact HI1 |].
    intros off L3 L4 Hoff Hline [HD3 HF3]. split.
    + apply (dereference_line_keeps Section_ L0 fuel off (snd e + off) L3 L4 HD3 Hline).
    + apply (dereference_line_followed L0 fuel off (snd e + off) L3 L4 HD3); auto.
      * left. apply HF3.
      * exists (fst e), (snd e). rewrite <- Epim, <- surjective_pairing. auto.
      * lia.
  - exact Hrun.
  - split; assumption.
  - exact HF'.
Qed.

Lemma store_maps (L : locals) (M' : Model Section_) :
  store L = Some M' -> sim M' = sim_ L /\ pim M' = pim_ L.
Proof.
  unfold store. intros Hstore.
  repeat match type of Hstore with
         | (mbind _ (resize_copy ?n ?z ?a)) = _ =>
             let a' := fresh "a" in
             let E := fresh "E" in
             destruct (resize_copy n z a) as [a' |] eqn:E;
               cbn [mbind option_bind] in Hstore; [| discriminate]
         end.
  injection Hstore as <-. cbn. split; reflexivity.
Qed.

End Get_chains.

(** ** The model: how the parameters are laid out *)

Section Get_layout.

Import Model Invariant.

Variables Section_ File : Type.
Variable open_file : string -> option File.
Variable Section_get : File -> R -> R -> option Section_.
Variable Section_mask : Section_ -> R -> R -> Section_.
Variable parameter_count : nat.

Local Abbreviation locals := (Model.locals Section_).
Local Abbreviation read := (Model.read Section_).
Local Abbreviation parse_lines := (Model.parse_lines Section_ parameter_count).
Local Abbreviation parse_section :=
  (Model.parse_section Section_ File open_file Section_get Section_mask parameter_count).

Lemma Smap_insert_In (key : string) (v : nat) (mp : Smap.t) (k : string) (v' : nat) :
  In (k, v') (Smap.insert key v mp) -> (k, v') = (key, v) \/ In (k, v') mp.
Proof.
  induction mp as [| [k0 v0] mp IH]; cbn.
  - intros [H | []]. left. congruence.
  - destruct (String.compare key k0); cbn.
    + intros [H | H]; [left; congruence | right; right; exact H].
    + intros [H | [H | H]]; [left; congruence | right; left; exact H | right; right; exact H].
    + intros [H | H]; [right; left; exact H |].
      destruct (IH H) as [E | Hin]; [left; exact E | right; right; exact Hin].
Qed.

Lemma read_maps (ta : list spec) (n : nat) (L L' : locals) :
  read ta n L = Some L' ->
  isc_ L' = isc_ L /\ pim_ L' = pim_ L /\ sim_ L' = sim_ L.
Proof.
  unfold Model.read. destruct (Nat.eqb (length ta) n); [| discriminate].
  intros H. injection H as <-. cbn. repeat split.
Qed.

Lemma laid_out_line (L : locals) (i : nat) (pid : string) (pim' : Smap.t)
    (L' : locals) :
  laid_out parameter_count L i ->
  isc_ L' = isc_ L -> pim_ L' = Smap.insert pid i (pim_ L) ->
  laid_out parameter_count L' (i + parameter_count).
Proof.
  intros (Ha & Hb & Hc & Hd) Eisc Epim.
  assert (Hin : forall p b, In (p, b) (pim_ L') -> b = i \/ In (p, b) (pim_ L)).
  { intros p b H. rewrite Epim in H. apply Smap_insert_In in H as [E | H]; [| auto].
    left. congruence. }
  split; [| split; [| split]].
  - intros s x Hs. rewrite Eisc in Hs. specialize (Ha s x Hs). lia.
  - intros p b H. destruct (Hin p b H) as [-> | Hold]; [lia |].
    specialize (Hb p b Hold). lia.
  - intros s x p b off Hs H Hoff. rewrite Eisc in Hs. pose proof (Ha s x Hs).
    destruct (Hin p b H) as [-> | Hold]; [lia |].
    apply (Hc s x p b off Hs Hold Hoff).
  - intros p b off p' b' off' H H' Hoff Hoff' E.
    destruct (Hin p b H) as [-> | Hold], (Hin p' b' H') as [-> | Hold'].
    + lia.
    + specialize (Hb p' b' Hold'). lia.
    + specialize (Hb p b Hold). lia.
    + apply (Hd p b off p' b' off' Hold Hold' Hoff Hoff' E).
Qed.

Lemma parse_lines_laid_out (ls : list (string * list spec)) (L L' : locals)
    (i i' k k' : nat) :
  parse_lines ls L i k = Done (L', i', k') ->
  laid_out parameter_count L i ->
  laid_out parameter_count L' i'.
Proof.
  revert L i k. induction ls as [| [pid ta] ls IH]; intros L i k Hrun HL.
  - cbn in Hrun. injection Hrun as <- <- <-. exact HL.
  - cbn [Model.parse_lines] in Hrun.
    destruct (Smap.find pid (pim_ L)) as [b |]; [discriminate |].
    match type of Hrun with
    | match read ta parameter_count ?L1 with _ => _ end = _ =>
        destruct (read ta parameter_count L1) as [L2 |] eqn:Hread; [| discriminate]
    end.
    apply read_maps in Hread as (Eisc & Epim & _). cbn in Eisc, Epim.
    apply (IH L2 (i + parameter_count) (k + 1) Hrun).
    apply (laid_out_line L i pid (pim_ L2) L2 HL Eisc Epim).
Qed.

Lemma parse_section_laid_out (c : chunk) (L L' : locals) (i i' : nat) :
  parse_section c (L, i) = Done (L', i') ->
  laid_out parameter_count L i ->
  laid_out parameter_count L' i'.
Proof.
  unfold Model.parse_section. destruct c as [t |]; [| discriminate].
  destruct (t_head t) as [h |]; [| discriminate].
  destruct (Smap.find (h_sid h) (sim_ L)) as [s0 |]; [discriminate |].
  destruct (open_file (h_fn h)) as [ifs |]; [| discriminate].
  destruct (Section_get ifs (h_a h) (h_b h)) as [s |]; [| discriminate].
  match goal with
  | |- match read _ 1 ?L1 with _ => _ end = _ -> _ =>
      destruct (read (t_resolution t) 1 L1) as [L2 |] eqn:Hread; [| discriminate]
  end.
  intros Hrun (Ha & Hb & Hc & Hd).
  apply read_maps in Hread as (Eisc & Epim & _). cbn in Eisc, Epim.
  destruct (parse_lines (t_lines t) L2 (S i) 0) as [[[L3 i3] k3] | | |] eqn:Hlines;
    try discriminate.
  cbn [mbind run_bind] in Hrun. injection Hrun as <- <-.
  assert (HL2 : laid_out parameter_count L2 (S i)).
  { assert (Hisc : forall s1 x, isc_ L2 !! s1 = Some x -> x = i \/ isc_ L !! s1 = Some x).
    { intros s1 x H. rewrite Eisc in H. apply lookup_app_Some in H as [H | [_ H]]; [auto |].
      left. destruct (s1 - length (isc_ L)) as [| d]; cbn in H; [congruence |].
      destruct d; discriminate. }
    split; [| split; [| split]].
    - intros s1 x H. destruct (Hisc s1 x H) as [-> | Hold]; [lia |].
      specialize (Ha s1 x Hold). lia.
    - intros p b H. rewrite Epim in H. specialize (Hb p b H). lia.
    - intros s1 x p b off H Hin Hoff. rewrite Epim in Hin.
      destruct (Hisc s1 x H) as [-> | Hold].
      + specialize (Hb p b Hin). lia.
      + apply (Hc s1 x p b off Hold Hin Hoff).
    - intros p b off p' b' off' H H'. rewrite Epim in H, H'.
      exact (Hd p b off p' b' off' H H'). }
  pose proof (parse_lines_laid_out (t_lines t) L2 L3 (S i) i3 0 k3 Hlines HL2)
    as (Ha3 & Hb3 & Hc3 & Hd3).
  split; [| split; [| split]]; cbn; assumption.
Qed.

Lemma parse_text_laid_out (text : list chunk) (L L' : locals) (i i' : nat) :
  loop_over text parse_section (L, i) = Done (L', i') ->
  laid_out parameter_count L i ->
  laid_out parameter_count L' i'.
Proof.
  revert L i. induction text as [| c text IH]; intros L i Hrun HL.
  - cbn in Hrun. injection Hrun as <- <-. exact HL.
  - cbn [loop_over] in Hrun.
    destruct (parse_section c (L, i)) as [[L1 i1] | | |] eqn:Hsec; try discriminate.
    cbn [mbind run_bind] in Hrun.
    apply (IH L1 i1 Hrun). apply (parse_section_laid_out c L L1 i i1 Hsec HL).
Qed.

Lemma no_locals_laid_out : laid_out parameter_count (no_locals Section_) 0.
Proof.
  split; [| split; [| split]].
  - intros s x H. cbn in H. destruct s; discriminate.
  - intros pid base [].
  - intros s x pid base off _ [].
  - intros pid base off pid' base' off' [].
Qed.

(** On parameters that are laid out, a reference leads to one parameter. *)
Lemma refers_functional (sim pim : Smap.t) (isc : list nat) (refs : list string)
    (j k k' : nat) :
  (forall s x pid base off,
     isc !! s = Some x -> In (pid, base) pim -> off < parameter_count -> x <> base + off) ->
  (forall pid base off pid' base' off',
     In (pid, base) pim -> In (pid', base') pim ->
     off < parameter_count -> off' < parameter_count ->
     base + off = base' + off' -> off = off') ->
  refers parameter_count sim pim isc refs j k ->
  refers parameter_count sim pim isc refs j k' ->
  k = k'.
Proof.
  intros Hc Hd H H'.
  destruct H as [sid s j r s' k Hin Hs Hr Hne Hfind Hk
                | pid base off r base' Hin Hoff Hr Hne Hfind].
  - inversion H' as [sid2 s2 j2 r2 s2' k2 Hin2 Hs2 Hr2 Hne2 Hfind2 Hk2 Ej Ek
                    | pid2 base2 off2 r2 base2' Hin2 Hoff2 Hr2 Hne2 Hfind2 Ej Ek].
    + congruence.
    + exfalso. subst j. apply (Hc s (base2 + off2) pid2 base2 off2 Hs Hin2 Hoff2).
      reflexivity.
  - inversion H' as [sid2 s2 j2 r2 s2' k2 Hin2 Hs2 Hr2 Hne2 Hfind2 Hk2 Ej Ek
                    | pid2 base2 off2 r2 base2' Hin2 Hoff2 Hr2 Hne2 Hfind2 Ej Ek].
    + exfalso. apply (Hc s2 (base + off) pid base off); [congruence | assumption ..| reflexivity].
    + assert (off2 = off) by (apply (Hd pid2 base2 off2 pid base off); assumption).
      subst off2. assert (base2 = base) by lia. subst base2.
      rewrite Hr in Hr2. injection Hr2 as <-. rewrite Hfind in Hfind2.
      injection Hfind2 as <-. reflexivity.
Qed.

Lemma resolves_to_functional (sim pim : Smap.t) (isc : list nat) (refs : list string)
    (i k k' : nat) :
  (forall s x pid base off,
     isc !! s = Some x -> In (pid, base) pim -> off < parameter_count -> x <> base + off) ->
  (forall pid base off pid' base' off',
     In (pid, base) pim -> In (pid', base') pim ->
     off < parameter_count -> off' < parameter_count ->
     base + off = base' + off' -> off = off') ->
  resolves_to parameter_count sim pim isc refs i k ->
  resolves_to parameter_count sim pim isc refs i k' ->
  k = k'.
Proof.
  intros Hc Hd H. revert k'.
  assert (Hstep : forall a b, refers parameter_count sim pim isc refs a b ->
            refs !! a <> Some ""%string).
  { intros a b Hab.
    destruct Hab as [sid s j r s' k0 Hin Hs Hr Hne Hfind Hk
                    | pid base off r base' Hin Hoff Hr Hne Hfind]; congruence. }
  induction H as [i Hi | i j k Hij Hjk IH]; intros k' H'.
  - destruct H' as [i _ | i j k' Hij _]; [reflexivity |].
    exfalso. apply (Hstep i j Hij). exact Hi.
  - destruct H' as [i Hi | i j' k' Hij' Hjk'].
    + exfalso. apply (Hstep i j Hij). exact Hi.
    + assert (j' = j) by (apply (refers_functional sim pim isc refs i j' j Hc Hd); assumption).
      subst j'. apply IH. exact Hjk'.
Qed.

Lemma laid_out_same (L L' : locals) (i : nat) :
  isc_ L' = isc_ L -> pim_ L' = pim_ L ->
  laid_out parameter_count L i -> laid_out parameter_count L' i.
Proof.
  unfold laid_out. intros -> ->. tauto.
Qed.

Lemma store_isc (L : locals) (M' : Model Section_) :
  store L = Some M' -> length (isc_ L) = length (sec_ L) -> isc M' = isc_ L.
Proof.
  unfold store. intros Hstore Hlen.
  repeat match type of Hstore with
         | (mbind _ (resize_copy ?n ?z ?a)) = _ =>
             let a' := fresh "a" in
             let E := fresh "E" in
             destruct (resize_copy n z a) as [a' |] eqn:E;
               cbn [mbind option_bind] in Hstore; [| discriminate]
         end.
  injection Hstore as <-. cbn. unfold resize_copy in E.
  destruct (Nat.leb _ _); [| discriminate]. injection E as <-.
  rewrite Hlen, Nat.sub_diag. apply app_nil_r.
Qed.

End Get_layout.

(** ** The model: what a successful [get] has stored *)

Section Get_success.

Import Model Invariant.

Variables Section_ File : Type.
Variable open_file : string -> option File.
Variable Section_get : File -> R -> R -> option Section_.
Variable Section_mask : Section_ -> R -> R -> Section_.
Variable parameter_count : nat.

Local Abbreviation locals := (Model.locals Section_).
Local Abbreviation get :=
  (Model.get Section_ File open_file Section_get Section_mask parameter_count).
Local Abbreviation get_locals :=
  (Model.get_locals Section_ File open_file Section_get Section_mask parameter_count).

Lemma indexed_bounds (s : spec) : (indexed_lo s <= indexed_up s)%R.
Proof.
  unfold indexed_lo, indexed_up. destruct (independent s); [| lra].
  apply Rle_trans with (s_lo s); [apply Rmin_l | apply Rmax_l].
Qed.

Lemma indexed_dereferencing (L : locals) (ps : list spec) :
  indexed L ps -> dereferencing L L.
Proof.
  intros (Ev & El & Eu & Em & Ei & Er).
  split; [repeat split |].
  split; [rewrite Ev, El, Eu, Em, Ei, Er, length_imap, !length_map; repeat split |].
  split; [auto |]. split; [eauto |].
  intros i l u Hl Hu. rewrite El, list_lookup_fmap in Hl. rewrite Eu, list_lookup_fmap in Hu.
  destruct (ps !! i) as [s |]; cbn in Hl, Hu; [| discriminate].
  injection Hl as <-. injection Hu as <-. apply indexed_bounds.
Qed.

(** The local variables of [get] when all loops have ended: with [L0] for
    the local variables after the indexing loop, every reference is
    emptied. *)
Lemma get_locals_done (fuel : nat) (text : list chunk) (L : locals) :
  get_locals fuel text = Done L ->
  exists L0,
    indexed L0 (parameters text) /\
    dereferencing L0 L /\
    (forall i, i < length (parameters text) -> resolved L i) /\
    (forall i, followed parameter_count L0 L i) /\
    laid_out parameter_count L0 (length (parameters text)) /\
    length (isc_ L0) = length (sec_ L0).
Proof.
  unfold Model.get_locals. intros Hrun.
  destruct (loop_over text _ (no_locals Section_, 0)) as [[Lp ip] | | |] eqn:Hparse;
    cbn [mbind run_bind] in Hrun; try discriminate.
  destruct (index_parameters Section_ Lp) as [L0 |] eqn:Hindex;
    cbn [defined mbind run_bind] in Hrun; [| discriminate].
  destruct (dereference_resolutions Section_ fuel L0) as [L1 | | |] eqn:Hres;
    cbn [mbind run_bind] in Hrun; try discriminate.
  pose proof (parse_text_parsed Section_ File open_file Section_get Section_mask
                parameter_count text _ _ _ _ [] Hparse (no_locals_parsed Section_ _))
    as (HT & Hind & Hip & Hlen & _ & Hcov).
  pose proof (parse_text_laid_out Section_ File open_file Section_get Section_mask
                parameter_count text _ _ _ _ Hparse
                (no_locals_laid_out Section_ parameter_count)) as HLp.
  cbn [app] in *.
  destruct (index_parameters_indexed Section_ Lp L0 (parameters text) Hindex HT Hind)
    as (HI & Esec & Eisc & _ & _ & Esim & Epim).
  pose proof (indexed_dereferencing L0 (parameters text) HI) as HD0.
  destruct (dereference_resolutions_keeps Section_ L0 fuel L0 L1 HD0 Hres)
    as (HD1 & _ & Hsim).
  destruct (dereference_lines_keeps Section_ parameter_count L0 fuel L1 L HD1 Hrun)
    as (HD2 & Hstay & Hpim).
  assert (HF0 : forall i, followed parameter_count L0 L0 i).
  { intros i. left. split; reflexivity. }
  pose proof (dereference_resolutions_followed Section_ parameter_count L0 fuel L0 L1
                HD0 HF0 Hres) as HF1.
  pose proof (dereference_lines_followed Section_ parameter_count L0 fuel L1 L
                HD1 HF1 Hrun) as HF2.
  exists L0. split; [exact HI |]. split; [exact HD2 |].
  split; [| split; [exact HF2 |]].
  2: { split; [| congruence]. rewrite <- Hip.
       apply (laid_out_same Section_ parameter_count Lp L0 ip Eisc Epim HLp). }
  intros i Hi. rewrite <- Hip in Hi.
  destruct (Hcov i Hi) as [(sid & s & Hin & Hs) | (pid & base & j & Hin & Hj & ->)].
  - apply Hstay. apply (Hsim sid s i); [rewrite Esim | rewrite Eisc]; assumption.
  - apply (Hpim pid base j); [rewrite Epim |]; assumption.
Qed.

Lemma resize_copy_all {A : Type} (n : nat) (zero : A) (a a' : list A) :
  resize_copy n zero a = Some a' -> length a = n -> a' = a.
Proof.
  unfold resize_copy. destruct (Nat.leb (length a) n); [| discriminate].
  intros H Hn. injection H as <-. rewrite Hn, Nat.sub_diag. cbn. apply app_nil_r.
Qed.

Lemma store_tables (L0 L : locals) (M' : Model Section_) :
  store L = Some M' ->
  dereferencing L0 L ->
  val M' = val_ L /\ lo M' = lo_ L /\ up M' = up_ L /\ msk M' = msk_ L /\
  ind M' = ind_ L.
Proof.
  intros Hstore (_ & (Lv & Ll & Lu & Lm & Li & _) & _).
  unfold store in Hstore.
  repeat match type of Hstore with
         | (mbind _ (resize_copy ?n ?z ?a)) = _ =>
             let a' := fresh "a" in
             let E := fresh "E" in
             destruct (resize_copy n z a) as [a' |] eqn:E;
               cbn [mbind option_bind] in Hstore; [| discriminate]
         end.
  injection Hstore as <-. cbn.
  apply resize_copy_all in E2, E3, E4, E5, E6; try congruence.
  repeat split; assumption.
Qed.

(** The loop that collects the initial values writes nothing but values of
    [f] for the bounds of a parameter. *)
Lemma collect_Forall (P : R -> Prop) (f : R -> R -> R) (M : Model Section_)
    (x x' : list R) :
  (forall i l u, lo M !! i = Some l -> up M !! i = Some u -> P (f l u)) ->
  Forall P x ->
  collect f M x = Some x' ->
  Forall P x'.
Proof.
  intros Hf Hx. unfold collect.
  destruct (for_ 0 (length (msk M)) _ (x, 0)) as [[x1 j1] |] eqn:Hloop;
    cbn [mbind option_bind]; [| discriminate].
  intros H. injection H as <-.
  match type of Hloop with
  | for_ _ _ ?body _ = _ =>
      apply (for_keeps (fun _ (st : list R * nat) => Forall P (fst st)) body
               0 (length (msk M)) (x, 0) (x1, j1) (Nat.le_0_l _) Hloop Hx)
  end.
  intros k [y j] [y' j'] _ Hbody Hy. cbn [fst] in *. unfold at_ in Hbody.
  destruct (msk M !! k) as [[|] |]; cbn [mbind option_bind] in Hbody;
    try discriminate; [| injection Hbody as <- _; exact Hy].
  destruct (ind M !! k) as [ii |]; cbn [mbind option_bind] in Hbody; [| discriminate].
  destruct (Nat.eqb ii j); [| injection Hbody as <- _; exact Hy].
  destruct (lo M !! k) as [l |] eqn:Hl; cbn [mbind option_bind] in Hbody; [| discriminate].
  destruct (up M !! k) as [u |] eqn:Hu; cbn [mbind option_bind] in Hbody; [| discriminate].
  destruct (put_ y j (f l u)) as [y2 |] eqn:Hput; cbn [mbind option_bind] in Hbody;
    [| discriminate].
  injection Hbody as <- _. apply put_inv in Hput as [_ ->].
  apply Forall_insert; [exact Hy |]. apply (Hf k l u Hl Hu).
Qed.

(** C10, as amended. After [get] has returned successfully, the bounds of
    every parameter are in order, [lo[i] <= up[i]]: a parameter that is free
    and unlinked has its two bounds in increasing order (they are swapped if
    they are given in reversed order), a parameter that is pinned and
    unlinked has [lo[i] = up[i] = 0], and a linked parameter has the value,
    the bounds, the mask and the index of the unlinked parameter that its
    references lead to, which is one parameter only: its reference names a
    section or a line, whose resolution parameter, or whose parameter at
    the same position, is the next parameter, and so on until a parameter
    has no reference. Hence every initial local step size is
    non-negative. *)
Theorem get_bounds (fuel : nat) (text : list chunk) (is_ is' : iostate)
    (M M' : Model Section_) :
  get fuel text is_ M = Done (is', M') ->
  failbit is' = false ->
  (forall i l u, lo M' !! i = Some l -> up M' !! i = Some u -> (l <= u)%R) /\
  (forall i s, parameters text !! i = Some s -> s_ref s = ""%string ->
     lo M' !! i = Some (if s_msk s then Rmin (s_lo s) (s_up s) else 0%R) /\
     up M' !! i = Some (if s_msk s then Rmax (s_lo s) (s_up s) else 0%R)) /\
  (forall i s, parameters text !! i = Some s -> s_ref s <> ""%string ->
     exists k r,
       parameters text !! k = Some r /\ s_ref r = ""%string /\
       resolves_to parameter_count (sim M') (pim M') (isc M')
         (map s_ref (parameters text)) i k /\
       (forall k', resolves_to parameter_count (sim M') (pim M') (isc M')
                     (map s_ref (parameters text)) i k' -> k' = k) /\
       val M' !! i = val M' !! k /\
       lo M' !! i = lo M' !! k /\ up M' !! i = up M' !! k /\
       msk M' !! i = msk M' !! k /\ ind M' !! i = ind M' !! k) /\
  (forall z, get_initial_local_step_sizes M' = Some z -> Forall (fun d => 0 <= d)%R z).
Proof.
  unfold Model.get. intros Hget Hfail.
  destruct (get_locals fuel text) as [L | e | |] eqn:Hlocals; try discriminate.
  2: { injection Hget as <- _. destruct e; discriminate. }
  destruct (store L) as [M1 |] eqn:Hstore; cbn [defined mbind run_bind] in Hget;
    [| discriminate].
  injection Hget as _ ->.
  destruct (get_locals_done fuel text L Hlocals) as (L0 & HI & HD & Hall & HF & HL & Hlen).
  destruct (store_tables L0 L M' Hstore HD) as (Ev & El & Eu & Em & Ei).
  pose proof HD as (_ & _ & HR & HE & HB).
  pose proof HI as (Iv & Il & Iu & Im & Ii & Ir).
  assert (Hroot : forall i s, parameters text !! i = Some s -> s_ref s = ""%string ->
            resolved L0 i).
  { intros i s Hs Hr. unfold resolved. rewrite Ir, list_lookup_fmap, Hs. cbn. congruence. }
  assert (Hbounds : forall i l u, lo M' !! i = Some l -> up M' !! i = Some u -> (l <= u)%R).
  { intros i l u. rewrite El, Eu. apply HB. }
  split; [exact Hbounds |]. split; [| split].
  - intros i s Hs Hr. destruct (HR i (Hroot i s Hs Hr)) as [_ Hentry].
    apply entry_bounds in Hentry as [Hl Hu].
    rewrite El, Eu, Hl, Hu, Il, Iu, !list_lookup_fmap, Hs. cbn.
    unfold indexed_lo, indexed_up, independent. rewrite Hr, andb_true_r.
    split; reflexivity.
  - intros i s Hs Hr.
    destruct (HF i) as [[Eref _] | [_ (k & Hik & Hentry)]].
    { exfalso. assert (Hi : resolved L i).
      { apply Hall. apply lookup_lt_Some in Hs. exact Hs. }
      unfold resolved in Hi. rewrite Eref, Ir, list_lookup_fmap, Hs in Hi. cbn in Hi.
      congruence. }
    pose proof (leads_to_end Section_ parameter_count L0 i k Hik) as Hk.
    destruct (HR k Hk) as [_ Hentryk].
    assert (Hsame : entry L i = entry L k) by congruence.
    unfold resolved in Hk. rewrite Ir, list_lookup_fmap in Hk.
    destruct (parameters text !! k) as [r |] eqn:Hrk; cbn in Hk; [| discriminate].
    exists k, r. split; [exact Hrk |]. split; [congruence |].
    destruct (store_maps Section_ L M' Hstore) as (Esim & Epim).
    pose proof HD as ((Esec0 & Eisc0 & _ & _ & Esim0 & Epim0) & _).
    assert (Eisc : isc M' = isc_ L0).
    { rewrite (store_isc Section_ L M' Hstore); congruence. }
    rewrite Esim, Epim, Esim0, Epim0, Eisc, <- Ir.
    split; [exact Hik |].
    split.
    { intros k' Hik'. destruct HL as (_ & _ & Hc & Hd).
      apply (resolves_to_functional parameter_count _ _ _ _ i k' k Hc Hd Hik' Hik). }
    rewrite Ev, El, Eu, Em, Ei. unfold entry in Hsame.
    injection Hsame as H1 H2 H3 H4 H5. repeat split; assumption.
  - intros z. unfold get_initial_local_step_sizes.
    destruct (get_parameter_count M') as [n |]; cbn [mbind option_bind]; [| discriminate].
    apply collect_Forall.
    + intros i l u Hl Hu. pose proof (Hbounds i l u Hl Hu). lra.
    + apply Forall_replicate. lra.
Qed.

End Get_success.

(** The model definition with a reversed pair of bounds and a linked
    redshift is read without error: the bounds of the resolution are put in
    order, and the redshift of the second line, the parameter 9, has the
    bounds of the redshift of the first line, the parameter 3, which its
    reference leads to. *)
Lemma get_bounds_witness :
  exists M',
    Example_text.get 2 Example_text.linked_text Example_text.at_end
      Example_text.no_model = Model.Done (Model.clear_fail Example_text.at_end, M') /\
    (forall i l u, Model.lo M' !! i = Some l -> Model.up M' !! i = Some u -> (l <= u)%R) /\
    Model.lo M' !! 0 = Some 40%R /\ Model.up M' !! 0 = Some 60%R /\
    Model.resolves_to Example_model.parameter_count (Model.sim M') (Model.pim M')
      (Model.isc M') (map Model.s_ref (Model.parameters Example_text.linked_text)) 9 3 /\
    Model.lo M' !! 9 = Model.lo M' !! 3 /\ Model.up M' !! 9 = Model.up M' !! 3.
Proof.
  eexists. split; [evaluate; reflexivity |].
  match goal with
  | |- (forall i l u, Model.lo ?M !! i = _ -> _) /\ _ =>
      destruct (get_bounds Example_model.Section_ Example_model.File
                  Example_model.open_file Example_model.Section_get
                  Example_model.Section_mask Example_model.parameter_count
                  2 Example_text.linked_text Example_text.at_end
                  (Model.clear_fail Example_text.at_end) Example_text.no_model M)
        as (H1 & _ & H3 & _); [evaluate; reflexivity | reflexivity |]
  end.
  split; [exact H1 |]. split; [reflexivity |]. split; [reflexivity |].
  destruct (H3 9 (Example_text.linked 0 0 0 "a1") eq_refl ltac:(discriminate))
    as (k & r & _ & _ & _ & Hone & _ & Hlo & Hup & _).
  match type of Hone with
  | forall k', Model.resolves_to ?pc ?sim ?pim ?isc ?refs 9 k' -> _ =>
      assert (H93 : Model.resolves_to pc sim pim isc refs 9 3)
  end.
  { apply (Model.resolves_step _ _ _ _ _ 9 3 3).
    - apply (Model.refers_line _ _ _ _ _ "a2" 7 2 "a1" 1).
      + right. left. reflexivity.
      + unfold Example_model.parameter_count. lia.
      + reflexivity.
      + discriminate.
      + reflexivity.
    - apply Model.resolves_here. reflexivity. }
  rewrite <- (Hone 3 H93) in Hlo, Hup. split; [exact H93 |]. split; assumption.
Defined.

(** ** The model: the initial values of a model with independent parameters *)

Section Get_initial.

Import Model Invariant.

Variables Section_ File : Type.
Variable open_file : string -> option File.
Variable Section_get : File -> R -> R -> option Section_.
Variable Section_mask : Section_ -> R -> R -> Section_.
Variable parameter_count : nat.

Local Abbreviation get :=
  (Model.get Section_ File open_file Section_get Section_mask parameter_count).

(** The tables that a successful [get] has stored: every parameter has the
    mask, the index and the bounds that the indexing loop has given to an
    unlinked parameter [k], which is the parameter itself if it is
    unlinked. *)
Lemma get_stored (fuel : nat) (text : list chunk) (is_ is' : iostate)
    (M M' : Model Section_) :
  get fuel text is_ M = Done (is', M') ->
  failbit is' = false ->
  (length (msk M') = length (parameters text) /\
   length (ind M') = length (parameters text)) /\
  forall i s, parameters text !! i = Some s ->
    exists k r,
      parameters text !! k = Some r /\ s_ref r = ""%string /\
      (s_ref s = ""%string -> k = i) /\
      msk M' !! i = Some (s_msk r) /\
      ind M' !! i = Some (indexed_ind (parameters text) k r) /\
      lo M' !! i = Some (indexed_lo r) /\
      up M' !! i = Some (indexed_up r).
Proof.
  unfold Model.get. intros Hget Hfail.
  destruct (Model.get_locals _ _ _ _ _ _ fuel text) as [L | e | |] eqn:Hlocals;
    try discriminate.
  2: { injection Hget as <- _. destruct e; discriminate. }
  destruct (store L) as [M1 |] eqn:Hstore; cbn [defined mbind run_bind] in Hget;
    [| discriminate].
  injection Hget as _ ->.
  destruct (get_locals_done _ _ _ _ _ _ fuel text L Hlocals) as (L0 & HI & HD & Hall & _).
  destruct (store_tables _ L0 L M' Hstore HD) as (Ev & El & Eu & Em & Ei).
  pose proof HD as (_ & (_ & _ & _ & Lm & Li & _) & HR & HE & _).
  pose proof HI as (Iv & Il & Iu & Im & Ii & Ir).
  split; [rewrite Em, Ei, Lm, Li, Ir, length_map; split; reflexivity |].
  intros i s Hs.
  assert (Hroot : forall k r, parameters text !! k = Some r -> s_ref r = ""%string ->
            entry L k = (Some (s_val r), Some (indexed_lo r), Some (indexed_up r),
                         Some (s_msk r), Some (indexed_ind (parameters text) k r))).
  { intros k r Hr Href. destruct (HR k) as [_ ->].
    - unfold resolved. rewrite Ir, list_lookup_fmap, Hr. cbn. congruence.
    - unfold entry. rewrite Iv, Il, Iu, Im, Ii, !list_lookup_fmap, list_lookup_imap, Hr.
      reflexivity. }
  destruct (String.eqb_spec (s_ref s) "") as [Href | Href].
  - exists i, s. pose proof (Hroot i s Hs Href) as Hentry.
    unfold entry in Hentry. injection Hentry as _ Hl Hu Hm Hi.
    rewrite El, Eu, Em, Ei. auto 10.
  - destruct (HE i) as (k & Hk & Hentry).
    { apply Hall. apply lookup_lt_Some in Hs. exact Hs. }
    unfold resolved in Hk. rewrite Ir, list_lookup_fmap in Hk.
    destruct (parameters text !! k) as [r |] eqn:Hrk; cbn in Hk; [| discriminate].
    injection Hk as Hk.
    destruct (HR k) as [_ Hentryk].
    { unfold resolved. rewrite Ir, list_lookup_fmap, Hrk. cbn. congruence. }
    rewrite <- Hentryk, (Hroot k r Hrk Hk) in Hentry.
    unfold entry in Hentry. injection Hentry as _ Hl Hu Hm Hi.
    exists k, r. rewrite El, Eu, Em, Ei.
    split; [exact Hrk |]. split; [exact Hk |]. split; [contradiction |]. auto.
Qed.

(** The rank of a parameter among the independent ones. *)
Lemma rank_step (ps : list spec) (i : nat) :
  rank ps i <= rank ps (S i) <= rank ps i + 1.
Proof.
  destruct (ps !! i) as [s |] eqn:Hs.
  - rewrite (rank_S ps i s Hs). destruct (independent s); lia.
  - apply lookup_ge_None in Hs. unfold rank. rewrite !take_ge by lia. lia.
Qed.

Lemma rank_same (ps : list spec) (i : nat) (s : spec) :
  ps !! i = Some s -> independent s = false -> rank ps (S i) = rank ps i.
Proof. intros Hs Hi. rewrite (rank_S ps i s Hs), Hi. lia. Qed.

Lemma rank_next (ps : list spec) (i : nat) (s : spec) :
  ps !! i = Some s -> independent s = true -> rank ps (S i) = rank ps i + 1.
Proof. intros Hs Hi. rewrite (rank_S ps i s Hs), Hi. lia. Qed.

Lemma rank_all (ps : list spec) :
  rank ps (length ps) = length (List.filter independent ps).
Proof. unfold rank. now rewrite firstn_all. Qed.

Lemma rank_lookup (ps : list spec) (k : nat) (r : spec) :
  ps !! k = Some r -> independent r = true ->
  List.filter independent ps !! rank ps k = Some r.
Proof.
  intros Hr Hi.
  transitivity (List.filter independent (take k ps ++ r :: drop (S k) ps) !! rank ps k).
  { now rewrite (take_drop_middle ps k r Hr). }
  rewrite List.filter_app. cbn [List.filter]. rewrite Hi.
  unfold rank. rewrite lookup_app_r by lia. now rewrite Nat.sub_diag.
Qed.

Lemma filter_lookup (ps : list spec) (t : nat) (r : spec) :
  List.filter independent ps !! t = Some r ->
  exists k, ps !! k = Some r /\ independent r = true /\ rank ps k = t.
Proof.
  revert t. induction ps as [| s ps IH]; intros t; [discriminate |].
  cbn [List.filter]. destruct (independent s) eqn:Hs.
  - destruct t as [| t]; cbn.
    + intros H. injection H as <-. exists 0. auto.
    + intros H. destruct (IH t H) as (k & Hk & Hi & Hrank).
      exists (S k). split; [exact Hk |]. split; [exact Hi |].
      unfold rank in *. cbn. rewrite Hs. cbn. lia.
  - intros H. destruct (IH t H) as (k & Hk & Hi & Hrank).
    exists (S k). split; [exact Hk |]. split; [exact Hi |].
    unfold rank in *. cbn. rewrite Hs. exact Hrank.
Qed.

Lemma max_spec (a : list nat) (m : nat) :
  max_ a = Some m -> (forall i x, a !! i = Some x -> x <= m) /\ exists i, a !! i = Some m.
Proof.
  destruct a as [| x a]; [discriminate |]. cbn. intros H. injection H as <-.
  revert x. induction a as [| y a IH]; intros x; cbn.
  - split; [| exists 0; reflexivity].
    intros [| i] z H; cbn in H; [injection H as <-; lia | discriminate].
  - destruct (IH (Nat.max x y)) as [Hle [i Hi]]. split.
    + intros [| [| j]] z H; cbn in H.
      * injection H as <-. pose proof (Hle 0 _ eq_refl). lia.
      * injection H as <-. pose proof (Hle 0 _ eq_refl). lia.
      * apply (Hle (S j) z). exact H.
    + destruct i as [| i]; cbn in Hi.
      * injection Hi as Hi. destruct (Nat.max_spec x y) as [[_ E] | [_ E]].
        -- exists 1. cbn. congruence.
        -- exists 0. cbn. congruence.
      * exists (S (S i)). exact Hi.
Qed.

(** The parameter count of a model with independent parameters is their
    number. *)
Lemma get_parameter_count_independent (fuel : nat) (text : list chunk)
    (is_ is' : iostate) (M M' : Model Section_) :
  get fuel text is_ M = Done (is', M') ->
  failbit is' = false ->
  independent_parameters text <> [] ->
  get_parameter_count M' = Some (length (independent_parameters text)).
Proof.
  intros Hget Hfail Hne.
  destruct (get_stored fuel text is_ is' M M' Hget Hfail) as (Hlen & Hstored).
  unfold independent_parameters in *. set (ps := parameters text) in *.
  set (K := length (List.filter independent ps)).
  assert (HK : 0 < K).
  { subst K. destruct (List.filter independent ps); [congruence | cbn; lia]. }
  destruct Hlen as [_ Hlen].
  assert (Hind : forall i x, ind M' !! i = Some x -> x <= K - 1).
  { intros i x Hx.
    assert (Hi : i < length ps) by (apply lookup_lt_Some in Hx; lia).
    destruct (lookup_lt_is_Some_2 ps i Hi) as [s Hs].
    destruct (Hstored i s Hs) as (k & r & Hr & Href & _ & _ & Hik & _).
    rewrite Hx in Hik. injection Hik as ->. unfold indexed_ind.
    destruct (independent r) eqn:Hir; [| lia].
    pose proof (rank_lookup ps k r Hr Hir) as Hl. apply lookup_lt_Some in Hl.
    fold K in Hl. lia. }
  assert (Hlast : exists i, ind M' !! i = Some (K - 1)).
  { destruct (lookup_lt_is_Some_2 (List.filter independent ps) (K - 1)) as [r Hr];
      [fold K; lia |].
    destruct (filter_lookup ps (K - 1) r Hr) as (k & Hk & Hir & Hrank).
    assert (Href : s_ref r = ""%string).
    { unfold independent in Hir. apply andb_prop in Hir as [_ Hir].
      apply String.eqb_eq in Hir. exact Hir. }
    destruct (Hstored k r Hk) as (k' & r' & Hr' & _ & Hsame & _ & Hik & _).
    specialize (Hsame Href). subst k'. rewrite Hk in Hr'. injection Hr' as <-.
    exists k. rewrite Hik. unfold indexed_ind. rewrite Hir, Hrank. reflexivity. }
  unfold get_parameter_count.
  destruct (max_ (ind M')) as [mx |] eqn:Hmax.
  - apply max_spec in Hmax as [Hle [i Hi]]. cbn [mbind option_bind]. f_equal.
    pose proof (Hind i mx Hi). destruct Hlast as [j Hj]. pose proof (Hle j _ Hj). lia.
  - destruct Hlast as [j Hj]. destruct (ind M'); [discriminate | discriminate].
Qed.

(** The loop that collects the initial values of a model with independent
    parameters writes the value of [f] for the bounds of each of them, in
    their order. *)
Lemma collect_independent (f : R -> R -> R) (fuel : nat) (text : list chunk)
    (is_ is' : iostate) (M M' : Model Section_) (x0 : list R) :
  get fuel text is_ M = Done (is', M') ->
  failbit is' = false ->
  length x0 = length (independent_parameters text) ->
  collect f M' x0 =
  Some (map (fun s => f (indexed_lo s) (indexed_up s)) (independent_parameters text)).
Proof.
  intros Hget Hfail Hx0.
  destruct (get_stored fuel text is_ is' M M' Hget Hfail) as ([Hlen _] & Hstored).
  unfold independent_parameters in *. set (ps := parameters text) in *.
  set (ip := List.filter independent ps) in *. set (K := length ip) in *.
  set (g := fun s => f (indexed_lo s) (indexed_up s)).
  unfold collect.
  match goal with
  | |- context [for_ 0 ?hi ?body ?st] =>
      destruct (for_total
                  (fun i (xj : list R * nat) =>
                     length (fst xj) = K /\
                     rank ps i <= snd xj <= K /\
                     forall t r, t < snd xj -> ip !! t = Some r -> fst xj !! t = Some (g r))
                  body 0 hi st) as ([x j] & Hrun & Lx & Hj & Hx)
  end.
  - lia.
  - cbn [fst snd]. split; [exact Hx0 |]. split; [unfold rank; rewrite take_0; cbn [List.filter length]; lia |].
    intros t r Ht. lia.
  - intros i [x j] Hi (Lx & Hj & Hx). cbn [fst snd] in *. rewrite Hlen in Hi.
    destruct (lookup_lt_is_Some_2 ps i) as [s Hs]; [lia |].
    destruct (Hstored i s Hs) as (k & r & Hr & Href & Hsame & Hm & Hik & Hl & Hu).
    assert (Hindep : independent r = s_msk r).
    { unfold independent. rewrite Href. cbn. apply andb_true_r. }
    assert (Hself : independent s = true -> k = i /\ r = s).
    { intros Hsi. unfold independent in Hsi. apply andb_prop in Hsi as [_ Hsi].
      apply String.eqb_eq in Hsi. specialize (Hsame Hsi). subst k.
      rewrite Hs in Hr. injection Hr as <-. auto. }
    unfold at_. rewrite Hm. cbn [mbind option_bind].
    destruct (s_msk r) eqn:Hmr.
    + rewrite Hik. cbn [mbind option_bind]. unfold indexed_ind. rewrite Hindep.
      pose proof (rank_lookup ps k r Hr Hindep) as Hrank.
      pose proof (lookup_lt_Some _ _ _ Hrank) as Hlt. fold ip K in Hlt, Hrank.
      destruct (Nat.eqb_spec (rank ps k) j) as [E | NE].
      * rewrite Hl, Hu. cbn [mbind option_bind].
        rewrite put_Some by lia. cbn [mbind option_bind].
        eexists. split; [reflexivity |]. cbn [fst snd].
        rewrite length_insert. split; [exact Lx |].
        pose proof (rank_step ps i). split; [lia |].
        intros t r' Ht Hr'. destruct (Nat.eq_dec t j) as [-> | Hne].
        -- rewrite list_lookup_insert_eq by lia. rewrite <- E, Hrank in Hr'.
           injection Hr' as <-. reflexivity.
        -- rewrite list_lookup_insert_ne by congruence. apply Hx; [lia | exact Hr'].
      * eexists. split; [reflexivity |]. cbn [fst snd].
        split; [exact Lx |]. split; [| exact Hx].
        destruct (independent s) eqn:Hsi.
        -- destruct (Hself eq_refl) as [-> ->].
           rewrite (rank_next ps i s Hs Hsi). lia.
        -- rewrite (rank_same ps i s Hs Hsi). lia.
    + eexists. split; [reflexivity |]. cbn [fst snd].
      split; [exact Lx |]. split; [| exact Hx].
      destruct (independent s) eqn:Hsi.
      * destruct (Hself eq_refl) as [-> ->]. congruence.
      * rewrite (rank_same ps i s Hs Hsi). lia.
  - rewrite Hrun. cbn [mbind option_bind fst snd] in *. f_equal.
    rewrite Hlen, rank_all in Hj. fold ip K in Hj.
    assert (j = K) by lia. subst j.
    apply list_eq. intros t. rewrite list_lookup_fmap.
    destruct (ip !! t) as [r |] eqn:Hr.
    + cbn. apply Hx; [| exact Hr]. apply lookup_lt_Some in Hr. exact Hr.
    + cbn. apply lookup_ge_None. apply lookup_ge_None in Hr. fold K in Hr. lia.
Qed.

(** For a model definition with at least one independent parameter that is
    read successfully, the initial parameter values are the midpoints and
    the initial local step sizes are the half-widths of the bounds of the
    independent parameters, in their order. *)
Theorem initial_vectors_of_independent_parameters (fuel : nat) (text : list chunk)
    (is_ is' : iostate) (M M' : Model Section_) :
  get fuel text is_ M = Done (is', M') ->
  failbit is' = false ->
  independent_parameters text <> [] ->
  get_initial_parameter_values M' =
    Some (map (fun s => 0.5 * (indexed_lo s + indexed_up s))%R
            (independent_parameters text)) /\
  get_initial_local_step_sizes M' =
    Some (map (fun s => 0.5 * (indexed_up s - indexed_lo s))%R
            (independent_parameters text)).
Proof.
  intros Hget Hfail Hne.
  pose proof (get_parameter_count_independent fuel text is_ is' M M' Hget Hfail Hne) as Hn.
  unfold get_initial_parameter_values, get_initial_local_step_sizes.
  rewrite Hn. cbn [mbind option_bind].
  split.
  - apply (collect_independent (fun lo up => 0.5 * (lo + up))%R fuel text is_ is' M M' _
             Hget Hfail), length_replicate.
  - apply (collect_independent (fun lo up => 0.5 * (up - lo))%R fuel text is_ is' M M' _
             Hget Hfail), length_replicate.
Qed.

End Get_initial.

(** The three independent parameters of the second example: the resolution
    and the redshift, the broadening velocity and the column density of the
    first line; the second line shares them. *)
Lemma initial_vectors_example :
  exists M',
    Example_text.get 2 Example_text.linked_text Example_text.at_end
      Example_text.no_model = Model.Done (Model.clear_fail Example_text.at_end, M') /\
    length (Model.independent_parameters Example_text.linked_text) = 6 /\
    exists x z,
      Model.get_initial_parameter_values M' = Some x /\
      Model.get_initial_local_step_sizes M' = Some z /\
      length x = 6 /\ length z = 6.
Proof.
  eexists. split; [evaluate; reflexivity |]. split; [reflexivity |].
  match goal with
  | |- exists x z, Model.get_initial_parameter_values ?M' = _ /\ _ =>
      destruct (initial_vectors_of_independent_parameters Example_model.Section_
                  Example_model.File Example_model.open_file Example_model.Section_get
                  Example_model.Section_mask Example_model.parameter_count
                  2 Example_text.linked_text Example_text.at_end
                  (Model.clear_fail Example_text.at_end) Example_text.no_model M')
        as [Hx Hz]
  end.
  - evaluate. reflexivity.
  - reflexivity.
  - discriminate.
  - do 2 eexists. split; [exact Hx |]. split; [exact Hz |].
    rewrite !length_map. split; reflexivity.
Defined.

(** ** The model: the optimization problem that it poses *)

Section Loop_relations.

Context {A B : Type}.

(** Two loops that run side by side keep every relation that their bodies
    keep. *)
Lemma for_up_related (Rel : nat -> A -> B -> Prop)
    (body1 : nat -> A -> option A) (body2 : nat -> B -> option B)
    (count k0 : nat) (s s' : A) (t t' : B) :
  for_up count k0 body1 s = Some s' ->
  for_up count k0 body2 t = Some t' ->
  Rel k0 s t ->
  (forall k a b a' b', k0 <= k < k0 + count ->
     body1 k a = Some a' -> body2 k b = Some b' -> Rel k a b -> Rel (S k) a' b') ->
  Rel (k0 + count) s' t'.
Proof.
  revert k0 s t. induction count as [| count IH]; intros k0 s t H1 H2 H0 Hstep.
  - cbn in H1, H2. injection H1 as <-. injection H2 as <-. now rewrite Nat.add_0_r.
  - cbn [for_up] in H1, H2.
    destruct (body1 k0 s) as [a |] eqn:Ha; [| discriminate].
    destruct (body2 k0 t) as [b |] eqn:Hb; [| discriminate].
    replace (k0 + S count) with (S k0 + count) by lia.
    apply (IH (S k0) a b H1 H2).
    + apply (Hstep k0 s t a b); [lia | exact Ha | exact Hb | exact H0].
    + intros k a1 b1 a2 b2 Hk. apply Hstep. lia.
Qed.

End Loop_relations.

(** Two bodies that agree wherever an invariant of the first holds give the
    same loop. *)
Lemma for_up_agree {T : Type} (Inv : nat -> T -> Prop)
    (body1 body2 : nat -> T -> option T) (count k0 : nat) (st : T) :
  Inv k0 st ->
  (forall k s, k0 <= k < k0 + count -> Inv k s ->
     body1 k s = body2 k s /\ forall s', body1 k s = Some s' -> Inv (S k) s') ->
  for_up count k0 body1 st = for_up count k0 body2 st.
Proof.
  revert k0 st. induction count as [| count IH]; intros k0 st H0 Hstep; [reflexivity |].
  cbn [for_up]. destruct (Hstep k0 st) as [E Hnext]; [lia | exact H0 |].
  rewrite <- E. destruct (body1 k0 st) as [s |]; [| reflexivity].
  apply IH; [apply Hnext; reflexivity |].
  intros k s1 Hk. apply Hstep. lia.
Qed.

Section Model_start.

Import Model Invariant.

Variables Section_ File : Type.
Variable open_file : string -> option File.
Variable Section_get : File -> R -> R -> option Section_.
Variable Section_mask : Section_ -> R -> R -> Section_.
Variable parameter_count : nat.

Local Abbreviation get :=
  (Model.get Section_ File open_file Section_get Section_mask parameter_count).

(** The loop of [collect] keeps the length of the vector it fills. *)
Lemma collect_length (f : R -> R -> R) (M : Model Section_) (x x' : list R) :
  collect f M x = Some x' -> length x' = length x.
Proof.
  unfold collect.
  destruct (for_ 0 (length (msk M)) _ (x, 0)) as [[x1 j1] |] eqn:Hloop;
    cbn [mbind option_bind]; [| discriminate].
  intros H. injection H as <-.
  match type of Hloop with
  | for_ _ _ ?body _ = _ =>
      apply (for_keeps (fun _ (st : list R * nat) => length (fst st) = length x) body
               0 (length (msk M)) (x, 0) (x1, j1) (Nat.le_0_l _) Hloop eq_refl)
  end.
  intros k [y j] [y' j'] _ Hbody Hy. cbn [fst] in *. unfold at_ in Hbody.
  destruct (msk M !! k) as [[|] |]; cbn [mbind option_bind] in Hbody;
    try discriminate; [| injection Hbody as <- _; exact Hy].
  destruct (ind M !! k) as [ii |]; cbn [mbind option_bind] in Hbody; [| discriminate].
  destruct (Nat.eqb ii j); [| injection Hbody as <- _; exact Hy].
  destruct (lo M !! k) as [l |]; cbn [mbind option_bind] in Hbody; [| discriminate].
  destruct (up M !! k) as [u |]; cbn [mbind option_bind] in Hbody; [| discriminate].
  destruct (put_ y j (f l u)) as [y2 |] eqn:Hput; cbn [mbind option_bind] in Hbody;
    [| discriminate].
  injection Hbody as <- _. apply put_inv in Hput as [_ ->].
  rewrite length_insert. exact Hy.
Qed.

(** Two runs of the loop of [collect] on one model write to the same
    components, so that a relation between the values written and between
    the initial values holds between the results. *)
Lemma collect_related (P : R -> R -> Prop) (f g : R -> R -> R) (M : Model Section_)
    (x y x' y' : list R) :
  (forall i l u, lo M !! i = Some l -> up M !! i = Some u -> P (f l u) (g l u)) ->
  (forall i v w, x !! i = Some v -> y !! i = Some w -> P v w) ->
  collect f M x = Some x' ->
  collect g M y = Some y' ->
  forall i v w, x' !! i = Some v -> y' !! i = Some w -> P v w.
Proof.
  intros Hfg Hxy. unfold collect.
  destruct (for_ 0 (length (msk M)) _ (x, 0)) as [[x1 j1] |] eqn:Hx;
    cbn [mbind option_bind]; [| discriminate].
  destruct (for_ 0 (length (msk M)) _ (y, 0)) as [[y1 j2] |] eqn:Hy;
    cbn [mbind option_bind]; [| discriminate].
  intros H1 H2. injection H1 as <-. injection H2 as <-.
  unfold for_ in Hx, Hy.
  pose (Rel := fun (_ : nat) (s t : list R * nat) =>
          snd s = snd t /\
          forall i v w, fst s !! i = Some v -> fst t !! i = Some w -> P v w).
  match type of Hx with
  | for_up _ _ ?body1 _ = _ =>
      match type of Hy with
      | for_up _ _ ?body2 _ = _ =>
          assert (HR : Rel (0 + (length (msk M) - 0)) (x1, j1) (y1, j2));
          [apply (for_up_related Rel body1 body2 _ 0 (x, 0) (x1, j1) (y, 0) (y1, j2)
                    Hx Hy) |]
      end
  end.
  - split; [reflexivity | exact Hxy].
  - intros k [a j] [b j'] [a' ja] [b' jb] _ Ha Hb [Ej Hab]. cbn [fst snd] in *. subst j'.
    unfold at_ in Ha, Hb.
    destruct (msk M !! k) as [[|] |]; cbn [mbind option_bind] in Ha, Hb;
      try discriminate.
    2: { injection Ha as <- <-. injection Hb as <- <-. split; [reflexivity | exact Hab]. }
    destruct (ind M !! k) as [ii |]; cbn [mbind option_bind] in Ha, Hb; [| discriminate].
    destruct (Nat.eqb ii j).
    2: { injection Ha as <- <-. injection Hb as <- <-. split; [reflexivity | exact Hab]. }
    destruct (lo M !! k) as [l |] eqn:Hl; cbn [mbind option_bind] in Ha, Hb;
      [| discriminate].
    destruct (up M !! k) as [u |] eqn:Hu; cbn [mbind option_bind] in Ha, Hb;
      [| discriminate].
    destruct (put_ a j (f l u)) as [a2 |] eqn:Hpa; cbn [mbind option_bind] in Ha;
      [| discriminate].
    destruct (put_ b j (g l u)) as [b2 |] eqn:Hpb; cbn [mbind option_bind] in Hb;
      [| discriminate].
    injection Ha as <- <-. injection Hb as <- <-.
    apply put_inv in Hpa as [Hja ->]. apply put_inv in Hpb as [Hjb ->].
    split; [reflexivity |]. cbn [fst].
    intros i v w Hv Hw. destruct (Nat.eq_dec i j) as [-> | Hne].
    + rewrite list_lookup_insert_eq in Hv, Hw by assumption.
      injection Hv as <-. injection Hw as <-. apply (Hfg k l u Hl Hu).
    + rewrite list_lookup_insert_ne in Hv, Hw by congruence. apply (Hab i v w Hv Hw).
  - destruct HR as [_ HR]. exact HR.
Qed.

(** The bounds that a successful [get] has stored are in order. *)
Lemma get_ordered (fuel : nat) (text : list chunk) (is_ is' : iostate)
    (M M' : Model Section_) :
  get fuel text is_ M = Done (is', M') ->
  failbit is' = false ->
  forall i l u, lo M' !! i = Some l -> up M' !! i = Some u -> (l <= u)%R.
Proof.
  unfold Model.get. intros Hget Hfail.
  destruct (Model.get_locals _ _ _ _ _ _ fuel text) as [L | e | |] eqn:Hlocals;
    try discriminate.
  2: { injection Hget as <- _. destruct e; discriminate. }
  destruct (store L) as [M1 |] eqn:Hstore; cbn [defined mbind run_bind] in Hget;
    [| discriminate].
  injection Hget as _ ->.
  destruct (get_locals_done _ _ _ _ _ _ fuel text L Hlocals) as (L0 & HI & HD & Hall & _).
  destruct (store_tables _ L0 L M' Hstore HD) as (Ev & El & Eu & Em & Ei).
  pose proof HD as (_ & _ & _ & _ & HB).
  intros i l u. rewrite El, Eu. apply HB.
Qed.

(** Without independent parameters no parameter is free. *)
Lemma filter_nil_lookup {A : Type} (p : A -> bool) (l : list A) (k : nat) (r : A) :
  List.filter p l = [] -> l !! k = Some r -> p r = false.
Proof.
  revert k. induction l as [| a l IH]; intros k Hf Hr; [discriminate |].
  cbn in Hf. destruct (p a) eqn:Hpa; [discriminate |].
  destruct k as [| k]; cbn in Hr; [injection Hr as <-; exact Hpa |].
  apply (IH k Hf Hr).
Qed.

Lemma get_pinned (fuel : nat) (text : list chunk) (is_ is' : iostate)
    (M M' : Model Section_) :
  get fuel text is_ M = Done (is', M') ->
  failbit is' = false ->
  independent_parameters text = [] ->
  forall i m, msk M' !! i = Some m -> m = false.
Proof.
  intros Hget Hfail Hnone i m Hm.
  destruct (get_stored _ _ _ _ _ _ fuel text is_ is' M M' Hget Hfail) as ([Hlen _] & Hstored).
  assert (Hi : i < length (parameters text)) by (apply lookup_lt_Some in Hm; lia).
  destruct (lookup_lt_is_Some_2 _ i Hi) as [s Hs].
  destruct (Hstored i s Hs) as (k & r & Hr & Href & _ & Hmk & _).
  rewrite Hm in Hmk. injection Hmk as ->.
  pose proof (filter_nil_lookup independent _ k r Hnone Hr) as Hir.
  unfold independent in Hir. rewrite Href in Hir. cbn in Hir.
  now rewrite andb_true_r in Hir.
Qed.

(** The loop of [collect] leaves the vector as it is if no parameter is
    free. *)
Lemma collect_pinned (f : R -> R -> R) (M : Model Section_) (x : list R) :
  (forall i m, msk M !! i = Some m -> m = false) ->
  collect f M x = Some x.
Proof.
  intros Hm. unfold collect.
  match goal with
  | |- context [for_ 0 ?hi ?body ?s0] =>
      destruct (for_total (fun _ (st : list R * nat) => st = s0) body 0 hi s0)
        as (st' & -> & ->); [lia | reflexivity | | reflexivity]
  end.
  intros k s Hk ->. exists (x, 0). split; [| reflexivity].
  unfold at_. destruct (lookup_lt_is_Some_2 (msk M) k) as [m Hmk]; [lia |].
  rewrite Hmk. rewrite (Hm k m Hmk). reflexivity.
Qed.

(** After a model definition with at least one parameter has been read
    successfully, the member functions that hand the problem to the
    optimizer are defined. *)
Lemma collect_defined (f : R -> R -> R) (fuel : nat) (text : list chunk)
    (is_ is' : iostate) (M M' : Model Section_) :
  get fuel text is_ M = Done (is', M') ->
  failbit is' = false ->
  parameters text <> [] ->
  exists n x, get_parameter_count M' = Some n /\ collect f M' (replicate n 0%R) = Some x.
Proof.
  intros Hget Hfail Hne.
  destruct (independent_parameters text) as [| s0 ss] eqn:Hip.
  - destruct (get_stored _ _ _ _ _ _ fuel text is_ is' M M' Hget Hfail) as ([_ Hlen] & _).
    unfold get_parameter_count. destruct (ind M') as [| i0 ii] eqn:Hind.
    { cbn in Hlen. destruct (parameters text); [congruence | discriminate]. }
    cbn [max_ mbind option_bind]. do 2 eexists. split; [reflexivity |].
    apply collect_pinned. apply (get_pinned fuel text is_ is' M M' Hget Hfail Hip).
  - assert (Hne' : independent_parameters text <> []) by (rewrite Hip; discriminate).
    exists (length (independent_parameters text)). eexists.
    split; [apply (get_parameter_count_independent _ _ _ _ _ _ fuel text is_ is' M M'
                     Hget Hfail Hne') |].
    apply (collect_independent _ _ _ _ _ _ f fuel text is_ is' M M' _ Hget Hfail).
    apply length_replicate.
Qed.

(** After [get] has read a model definition with at least one parameter
    successfully, the initial parameter values satisfy the constraint of
    the model: [get_initial_parameter_values] returns a vector with as many
    components as [get_parameter_count] says, [get_constraint] returns a
    constraint, and [is_violated] of that constraint is false for that
    vector. *)
Theorem initial_parameter_values_feasible (fuel : nat) (text : list chunk)
    (is_ is' : iostate) (M M' : Model Section_) :
  get fuel text is_ M = Done (is', M') ->
  failbit is' = false ->
  parameters text <> [] ->
  exists x C,
    get_initial_parameter_values M' = Some x /\
    get_constraint M' = Some C /\
    get_parameter_count M' = Some (length x) /\
    Constraint.is_violated C x (length x) = Some false.
Proof.
  intros Hget Hfail Hne.
  pose proof (get_ordered fuel text is_ is' M M' Hget Hfail) as Hbounds.
  destruct (collect_defined (fun lo up => 0.5 * (lo + up))%R fuel text is_ is' M M'
              Hget Hfail Hne) as (n & x & Hn & Hx).
  destruct (collect_defined (fun lo _ => lo) fuel text is_ is' M M'
              Hget Hfail Hne) as (n1 & a & Hn1 & Ha).
  destruct (collect_defined (fun _ up => up) fuel text is_ is' M M'
              Hget Hfail Hne) as (n2 & b & Hn2 & Hb).
  assert (n1 = n) by congruence. assert (n2 = n) by congruence. subst n1 n2.
  pose proof (collect_length _ _ _ _ Hx) as Lx.
  pose proof (collect_length _ _ _ _ Ha) as La.
  pose proof (collect_length _ _ _ _ Hb) as Lb.
  rewrite length_replicate in Lx, La, Lb.
  exists x, {| Constraint.a := a; Constraint.b := b |}.
  unfold get_initial_parameter_values, get_constraint.
  rewrite Hn. cbn [mbind option_bind]. rewrite Hx, Ha, Hb. cbn [mbind option_bind].
  split; [reflexivity |]. split.
  { unfold Constraint.new. rewrite La, Lb, Nat.leb_refl. cbn.
    rewrite <- La at 1. rewrite <- Lb at 1. rewrite !take_ge by lia. reflexivity. }
  split; [congruence |].
  assert (Hax : forall i v w, a !! i = Some v -> x !! i = Some w -> (v <= w)%R).
  { apply (collect_related Rle (fun lo _ => lo) (fun lo up => 0.5 * (lo + up))%R M'
             (replicate n 0%R) (replicate n 0%R) a x); [| | exact Ha | exact Hx].
    - intros i l u Hl Hu. pose proof (Hbounds i l u Hl Hu). lra.
    - intros i v w Hv Hw. apply lookup_replicate in Hv as [-> _].
      apply lookup_replicate in Hw as [-> _]. lra. }
  assert (Hxb : forall i v w, x !! i = Some v -> b !! i = Some w -> (v <= w)%R).
  { apply (collect_related Rle (fun lo up => 0.5 * (lo + up))%R (fun _ up => up) M'
             (replicate n 0%R) (replicate n 0%R) x b); [| | exact Hx | exact Hb].
    - intros i l u Hl Hu. pose proof (Hbounds i l u Hl Hu). lra.
    - intros i v w Hv Hw. apply lookup_replicate in Hv as [-> _].
      apply lookup_replicate in Hw as [-> _]. lra. }
  unfold Constraint.is_violated.
  destruct (is_violated_from_spec {| Constraint.a := a; Constraint.b := b |} x
              (length x) 0) as (v & Hv & Hiff); cbn [Constraint.a Constraint.b]; try lia.
  rewrite Hv. f_equal. destruct v; [| reflexivity].
  destruct (proj1 Hiff eq_refl) as (k & xk & ak & bk & _ & Hxk & Hak & Hbk & Hviol).
  cbn [Constraint.a Constraint.b] in Hak, Hbk.
  pose proof (Hax k ak xk Hak Hxk). pose proof (Hxb k xk bk Hxk Hbk).
  destruct Hviol; lra.
Qed.

End Model_start.

(** The model definition with a linked line has six independent parameters;
    their midpoints lie within their bounds. *)
Lemma initial_parameter_values_feasible_witness :
  exists M' x C,
    Example_text.get 2 Example_text.linked_text Example_text.at_end
      Example_text.no_model = Model.Done (Model.clear_fail Example_text.at_end, M') /\
    Model.get_initial_parameter_values M' = Some x /\
    Model.get_constraint M' = Some C /\
    Constraint.is_violated C x (length x) = Some false.
Proof.
  eexists.
  match goal with
  | |- exists x C, _ = Model.Done (_, ?M') /\ _ =>
      destruct (initial_parameter_values_feasible Example_model.Section_
                  Example_model.File Example_model.open_file Example_model.Section_get
                  Example_model.Section_mask Example_model.parameter_count
                  2 Example_text.linked_text Example_text.at_end
                  (Model.clear_fail Example_text.at_end) Example_text.no_model M')
        as (x & C & Hx & HC & _ & Hv)
  end.
  - evaluate. reflexivity.
  - reflexivity.
  - discriminate.
  - exists x, C. split; [evaluate; reflexivity |]. auto.
Defined.

Section Model_problem.

Import Model.

Variable Section_ : Type.
Variable Section_cost : Section_ -> (R -> R) -> R -> nat -> R.
Variable Section_apply : Section_ -> (R -> R) -> R -> nat -> Section_.
Variable Profile : Type.
Variable parameter_count : nat.
Variable Profile_new : list R -> option Profile.
Variable Profile_call : Profile -> R -> R.

Local Abbreviation cost :=
  (Model.cost Section_ Section_cost Profile parameter_count Profile_new Profile_call).
Local Abbreviation set :=
  (Model.set Section_ Section_apply Profile parameter_count Profile_new Profile_call).

(** The loop of [collect] reads the masks, the indexes and the bounds of the
    model and nothing else. *)
Lemma collect_tables (f : R -> R -> R) (M M' : Model Section_) (x : list R) :
  msk M' = msk M -> ind M' = ind M -> lo M' = lo M -> up M' = up M ->
  collect f M' x = collect f M x.
Proof. intros Em Ei El Eu. unfold collect. rewrite Em, Ei, El, Eu. reflexivity. Qed.

(** Writing a result back with [set] does not change the optimization
    problem that the model poses: the number of parameters, the initial
    parameter values, the initial local step sizes and the constraint are
    the same before and after. *)
Theorem set_keeps_problem (x z : list R) (M M' : Model Section_) :
  set x z M = Some M' ->
  get_parameter_count M' = get_parameter_count M /\
  get_initial_parameter_values M' = get_initial_parameter_values M /\
  get_initial_local_step_sizes M' = get_initial_local_step_sizes M /\
  get_constraint M' = get_constraint M.
Proof.
  intros Hset.
  apply set_writes in Hset as (_ & _ & _ & El & Eu & Em & Ei & _).
  assert (En : get_parameter_count M' = get_parameter_count M).
  { unfold get_parameter_count. rewrite Ei. reflexivity. }
  unfold get_initial_parameter_values, get_initial_local_step_sizes, get_constraint.
  rewrite En. split; [reflexivity |].
  destruct (get_parameter_count M) as [n |]; cbn [mbind option_bind]; [| auto].
  rewrite !(fun f x0 => collect_tables f M M' x0 Em Ei El Eu). auto.
Qed.

(** [cost] reads the parameter values [x] only below the parameter count of
    the model: two vectors that agree there give the same value. *)
Theorem cost_reads_parameters (x x' : list R) (n n' c : nat) (M : Model Section_) :
  get_parameter_count M = Some c ->
  (forall j, j < c -> x !! j = x' !! j) ->
  cost x n M = cost x' n' M.
Proof.
  intros Hc Hx. unfold get_parameter_count in Hc.
  destruct (max_ (ind M)) as [mx |] eqn:Hmax; cbn [mbind option_bind] in Hc;
    [| discriminate].
  injection Hc as <-. apply max_spec in Hmax as [Hle _].
  unfold Model.cost. unfold for_ at 2 4.
  match goal with
  | |- context [for_up ?cnt 0 ?body1 ?F0] =>
      match goal with
      | |- _ = mbind _ (for_up cnt 0 ?body2 F0) =>
          rewrite (for_up_agree (fun _ F => this F = M) body1 body2 cnt 0 F0)
      end
  end; [reflexivity | reflexivity |].
  intros k F _ HF. unfold at_. rewrite HF. split.
  - destruct (msk M !! k) as [[|] |]; cbn [mbind option_bind]; try reflexivity.
    destruct (ind M !! k) as [ii |] eqn:Hii; cbn [mbind option_bind]; [| reflexivity].
    rewrite (Hx ii); [reflexivity |]. pose proof (Hle k ii Hii). lia.
  - intros F'.
    destruct (msk M !! k) as [[|] |]; cbn [mbind option_bind]; try discriminate.
    + destruct (ind M !! k) as [ii |]; cbn [mbind option_bind]; [| discriminate].
      destruct (x !! ii) as [xi |]; cbn [mbind option_bind]; [| discriminate].
      destruct (put_ (y F) k xi) as [y' |]; cbn [mbind option_bind]; [| discriminate].
      intros H. injection H as <-. reflexivity.
    + intros H. injection H as <-. exact HF.
Qed.

End Model_problem.

(** Writing a result back to the model of one line. *)
Lemma set_keeps_problem_witness :
  exists M',
    Model.set Example_model.Section_ Example_model.Section_apply
      Example_model.Profile Example_model.parameter_count
      Example_model.Profile_new Example_model.Profile_call
      [1.1; 6; 13.5]%R [0.01; 0.5; 0.1]%R Example_model.one_line = Some M' /\
    Model.get_parameter_count M' = Some 3 /\
    Model.get_initial_parameter_values M' =
      Model.get_initial_parameter_values Example_model.one_line.
Proof.
  eexists. split; [lazy; reflexivity |].
  match goal with
  | |- Model.get_parameter_count ?M' = _ /\ _ =>
      destruct (set_keeps_problem Example_model.Section_ Example_model.Section_apply
                  Example_model.Profile Example_model.parameter_count
                  Example_model.Profile_new Example_model.Profile_call
                  [1.1; 6; 13.5]%R [0.01; 0.5; 0.1]%R Example_model.one_line M')
        as (Hn & Hx & _)
  end.
  - lazy. reflexivity.
  - split; [rewrite Hn; reflexivity | exact Hx].
Defined.

(** The model of one line has three parameters; a fourth component of the
    vector is not read. *)
Lemma cost_reads_parameters_witness :
  Model.cost Example_model.Section_ Example_model.Section_cost
    Example_model.Profile Example_model.parameter_count
    Example_model.Profile_new Example_model.Profile_call
    [1.1; 6; 13.5]%R 3 Example_model.one_line =
  Model.cost Example_model.Section_ Example_model.Section_cost
    Example_model.Profile Example_model.parameter_count
    Example_model.Profile_new Example_model.Profile_call
    [1.1; 6; 13.5; 7]%R 4 Example_model.one_line.
Proof.
  apply (cost_reads_parameters Example_model.Section_ Example_model.Section_cost
           Example_model.Profile Example_model.parameter_count
           Example_model.Profile_new Example_model.Profile_call
           [1.1; 6; 13.5]%R [1.1; 6; 13.5; 7]%R 3 4 3 Example_model.one_line).
  - reflexivity.
  - intros [| [| [| j]]] Hj; try reflexivity. lia.
Defined.

(** A section identifier that is used twice: [get] gives up, and the model
    is as it was. *)
Lemma get_failure_keeps_model_witness :
  exists is',
    Example_text.get 1 Example_text.duplicate_section_text Example_text.at_end
      Example_model.one_line = Model.Done (is', Example_model.one_line) /\
    Model.failbit is' = true.
Proof.
  exists (Model.setstate_bad_fail Example_text.at_end).
  assert (H : exists M',
             Example_text.get 1 Example_text.duplicate_section_text Example_text.at_end
               Example_model.one_line =
             Model.Done (Model.setstate_bad_fail Example_text.at_end, M')).
  { eexists. evaluate. reflexivity. }
  destruct H as [M' H].
  pose proof (get_failure_keeps_model Example_model.Section_ Example_model.File
                Example_model.open_file Example_model.Section_get
                Example_model.Section_mask Example_model.parameter_count
                1 Example_text.duplicate_section_text Example_text.at_end
                (Model.setstate_bad_fail Example_text.at_end)
                Example_model.one_line M' H eq_refl) as E.
  rewrite E in H. split; [exact H | reflexivity].
Defined.

(** ** Words of [w] bits *)

Section Word_properties.

Local Open Scope Z_scope.

Import Range.

Lemma bounded_ones (w x : Z) : 0 <= w -> bounded w x <-> Z.land x (Z.ones w) = x.
Proof.
  intros Hw. unfold bounded. rewrite Z.land_ones by exact Hw. split.
  - intros H. apply Z.mod_small. exact H.
  - intros <-. apply Z.mod_pos_bound. apply Z.pow_pos_nonneg; lia.
Qed.

Lemma bounded_lxor (w x y : Z) :
  0 <= w -> bounded w x -> bounded w y -> bounded w (Z.lxor x y).
Proof.
  intros Hw Hx Hy. apply bounded_ones in Hx, Hy; try exact Hw.
  apply bounded_ones; [exact Hw |].
  apply Z.bits_inj'. intros k Hk.
  rewrite Z.land_spec, !Z.lxor_spec, <- Hx, <- Hy, !Z.land_spec.
  destruct (Z.testbit x k), (Z.testbit y k), (Z.testbit (Z.ones w) k); reflexivity.
Qed.

Lemma bounded_lor (w x y : Z) :
  0 <= w -> bounded w x -> bounded w y -> bounded w (Z.lor x y).
Proof.
  intros Hw Hx Hy. apply bounded_ones in Hx, Hy; try exact Hw.
  apply bounded_ones; [exact Hw |].
  apply Z.bits_inj'. intros k Hk.
  rewrite Z.land_spec, !Z.lor_spec, <- Hx, <- Hy, !Z.land_spec.
  destruct (Z.testbit x k), (Z.testbit y k), (Z.testbit (Z.ones w) k); reflexivity.
Qed.

Lemma bounded_land_l (w x y : Z) : 0 <= w -> bounded w x -> bounded w (Z.land x y).
Proof.
  intros Hw Hx. apply bounded_ones in Hx; try exact Hw.
  apply bounded_ones; [exact Hw |].
  rewrite <- Hx at 2. rewrite <- !Z.land_assoc. f_equal. apply Z.land_comm.
Qed.

Lemma bounded_land_r (w x y : Z) : 0 <= w -> bounded w y -> bounded w (Z.land x y).
Proof. intros Hw Hy. rewrite Z.land_comm. apply bounded_land_l; assumption. Qed.

Lemma bounded_shr (w x k : Z) : 0 <= k -> bounded w x -> bounded w (Word.shr x k).
Proof.
  intros Hk [H0 Hx]. unfold Word.shr, bounded. rewrite Z.shiftr_div_pow2 by exact Hk.
  assert (0 < 2 ^ k) by (apply Z.pow_pos_nonneg; lia).
  split; [apply Z.div_pos; lia |].
  apply Z.le_lt_trans with x; [| exact Hx].
  apply Z.div_le_upper_bound; [lia |]. nia.
Qed.

Lemma bounded_wider (w w' x : Z) : 0 <= w <= w' -> bounded w x -> bounded w' x.
Proof.
  intros Hw [H0 Hx]. split; [exact H0 |].
  apply Z.lt_le_trans with (2 ^ w); [exact Hx |].
  apply Z.pow_le_mono_r; lia.
Qed.

(** The mask of the lower [k] bits, as the code computes it. *)
Lemma max_shr (k : Z) : 0 <= k <= 64 -> Word.shr Word.max (Word.digits - k) = 2 ^ k - 1.
Proof.
  intros Hk. unfold Word.shr, Word.max, Word.digits.
  rewrite Z.shiftr_div_pow2 by lia.
  change (2 ^ 64 - 1) with (Z.pred (2 ^ 64)). rewrite <- Z.ones_equiv.
  rewrite Z.ones_div_pow2 by lia. rewrite Z.ones_equiv.
  replace (64 - (64 - k)) with k by lia. lia.
Qed.

Lemma bounded_mask (k x : Z) :
  0 <= k <= 64 -> bounded k (Z.land x (Word.shr Word.max (Word.digits - k))).
Proof.
  intros Hk. apply bounded_land_r; [lia |]. rewrite max_shr by exact Hk.
  split; [| lia]. assert (0 < 2 ^ k) by (apply Z.pow_pos_nonneg; lia). lia.
Qed.

Lemma bounded_shl_one (w : Z) : 1 <= w <= 64 -> bounded w (Word.shl 1 (w - 1)).
Proof.
  intros Hw. unfold Word.shl, Word.wrap. rewrite Z.shiftl_1_l.
  assert (2 ^ (w - 1) < 2 ^ w) by (apply Z.pow_lt_mono_r; lia).
  assert (2 ^ w <= 2 ^ 64) by (apply Z.pow_le_mono_r; lia).
  assert (0 < 2 ^ (w - 1)) by (apply Z.pow_pos_nonneg; lia).
  rewrite Z.mod_small by lia. split; lia.
Qed.

End Word_properties.

(** ** The Mersenne twister of random.h: the range of the numbers *)

Section Random_range.

Import Random Range.

Local Open Scope Z_scope.

Variable P : parameters.
Hypothesis HP : fitting P.

Local Abbreviation bounded_w := (bounded (w P)).

Lemma lookup_bounded (x : list Z) (i : nat) (v : Z) :
  Forall bounded_w x -> at_ x i = Some v -> bounded_w v.
Proof. intros Hx Hv. apply (Forall_lookup_1 _ x i v Hx Hv). Qed.

Lemma put_bounded (x x' : list Z) (i : nat) (v : Z) :
  Forall bounded_w x -> bounded_w v -> put_ x i v = Some x' -> Forall bounded_w x'.
Proof.
  intros Hx Hv Hput. apply put_inv in Hput as [_ ->]. apply Forall_insert; assumption.
Qed.

Lemma twist_bounded (i j k : nat) (x x' : list Z) :
  Forall bounded_w x -> twist P i j k x = Some x' -> Forall bounded_w x'.
Proof.
  destruct HP as (_ & Hw & _ & _ & Ha & _). intros Hx. unfold twist.
  destruct (at_ x i) as [xi |] eqn:Hi; cbn [mbind option_bind]; [| discriminate].
  destruct (at_ x j) as [xj |] eqn:Hj; cbn [mbind option_bind]; [| discriminate].
  destruct (at_ x k) as [xk |] eqn:Hk; cbn [mbind option_bind]; [| discriminate].
  match goal with |- context [put_ x j ?v] =>
    destruct (put_ x j v) as [x1 |] eqn:H1; cbn [mbind option_bind]; [| discriminate];
    assert (B1 : Forall bounded_w x1)
  end.
  { refine (put_bounded x x1 j _ Hx _ H1).
    apply bounded_lxor; [lia | apply (lookup_bounded x i xi Hx Hi) |].
    apply bounded_shr; [lia |].
    apply bounded_lor; [lia | |]; apply bounded_land_l; try lia.
    - apply (lookup_bounded x j xj Hx Hj).
    - apply (lookup_bounded x k xk Hx Hk). }
  destruct (at_ x1 k) as [xk' |]; cbn [mbind option_bind]; [| discriminate].
  destruct (Z.land xk' 1 =? 1).
  - destruct (at_ x1 j) as [xj' |] eqn:Hj'; cbn [mbind option_bind]; [| discriminate].
    intros H2. refine (put_bounded x1 x' j _ B1 _ H2).
    apply bounded_lxor; [lia | apply (lookup_bounded x1 j xj' B1 Hj') | exact Ha].
  - intros H2. injection H2 as <-. exact B1.
Qed.

Lemma renew_bounded (x x' : list Z) :
  Forall bounded_w x -> renew P x = Some x' -> Forall bounded_w x'.
Proof.
  intros Hx. unfold renew.
  match goal with |- context [for_ 0 ?hi ?body x] =>
    destruct (for_ 0 hi body x) as [x1 |] eqn:H1; cbn [mbind option_bind];
      [| discriminate];
    assert (B1 : Forall bounded_w x1)
  end.
  { apply (for_keeps (fun _ x => Forall bounded_w x) _ _ _ _ _ (Nat.le_0_l _) H1 Hx).
    intros k s s' _ Hs Bs. apply (twist_bounded _ _ _ s s' Bs Hs). }
  match goal with |- context [for_ ?lo ?hi ?body x1] =>
    destruct (for_ lo hi body x1) as [x2 |] eqn:H2; cbn [mbind option_bind];
      [| discriminate];
    assert (B2 : Forall bounded_w x2)
  end.
  { unfold for_ in H2.
    apply (for_up_keeps (fun _ x => Forall bounded_w x) _ _ _ _ _ H2 B1).
    intros k s s' _ Hs Bs. apply (twist_bounded _ _ _ s s' Bs Hs). }
  apply twist_bounded. exact B2.
Qed.

Lemma temper_bounded (y : Z) : bounded_w y -> bounded_w (temper P y).
Proof.
  destruct HP as (_ & Hw & Hu & Hl & _ & Hb & Hc). intros Hy. unfold temper.
  apply bounded_lxor; [lia | | apply bounded_shr; [exact Hl |]];
    repeat first
      [ exact Hy
      | apply bounded_lxor; [lia | |]
      | apply bounded_land_r; [lia | assumption]
      | apply bounded_land_l; [lia |]
      | apply bounded_shr; [assumption |] ].
Qed.

Lemma rand_ranged (g g' : Mersenne_Twister) (y : Z) :
  ranged P g -> rand P g = Some (y, g') -> bounded_w y /\ Forall bounded_w (state g').
Proof.
  intros [_ Hx]. unfold rand.
  destruct (Nat.eqb (index g) (n P)).
  - destruct (renew P (state g)) as [x |] eqn:Hr; cbn [mbind option_bind];
      [| discriminate].
    pose proof (renew_bounded _ _ Hx Hr) as Bx. cbn [state index].
    destruct (at_ x 0) as [v |] eqn:Hv; cbn [mbind option_bind]; [| discriminate].
    intros H. injection H as <- <-. split; [| exact Bx].
    apply temper_bounded. apply (lookup_bounded x 0 v Bx Hv).
  - cbn [mbind option_bind].
    destruct (at_ (state g) (index g)) as [v |] eqn:Hv; cbn [mbind option_bind];
      [| discriminate].
    intros H. injection H as <- <-. split; [| exact Hx].
    apply temper_bounded. apply (lookup_bounded _ _ v Hx Hv).
Qed.

Lemma mantissa_bounded (y : Z) :
  bounded_w y ->
  0 <= (if w P <? real_digits then y else Word.shr y (w P - real_digits))
    <= max_mantissa P /\ 1 <= max_mantissa P.
Proof.
  destruct HP as (_ & Hw & _). intros [H0 Hy]. unfold max_mantissa, real_digits.
  destruct (Z.ltb_spec (w P) 53) as [Hlt | Hge].
  - rewrite max_shr by lia.
    assert (2 ^ 1 <= 2 ^ w P) by (apply Z.pow_le_mono_r; lia). lia.
  - rewrite max_shr by lia. unfold Word.shr.
    rewrite Z.shiftr_div_pow2 by lia.
    assert (Hp : 0 < 2 ^ (w P - 53)) by (apply Z.pow_pos_nonneg; lia).
    assert (Hs : 2 ^ w P = 2 ^ 53 * 2 ^ (w P - 53)).
    { rewrite <- Z.pow_add_r by lia. f_equal. lia. }
    assert (y / 2 ^ (w P - 53) < 2 ^ 53).
    { apply Z.div_lt_upper_bound; [exact Hp |]. lia. }
    assert (0 <= y / 2 ^ (w P - 53)) by (apply Z.div_pos; lia).
    lia.
Qed.

Lemma call_ranged (g g' : Mersenne_Twister) (x : R) :
  ranged P g -> call P g = Some (x, g') ->
  (0 <= x <= 1)%R /\ Forall bounded_w (state g').
Proof.
  intros Hg. unfold call.
  destruct (rand P g) as [[y g1] |] eqn:Hr; cbn [mbind option_bind]; [| discriminate].
  destruct (rand_ranged g g1 y Hg Hr) as [By Bg].
  intros H. injection H as <- <-. split; [| exact Bg].
  destruct (mantissa_bounded y By) as [[H0 Hm] H1].
  set (y' := if w P <? real_digits then y else Word.shr y (w P - real_digits)) in *.
  apply IZR_le in H0, Hm, H1.
  assert (Hpos : (0 < IZR (max_mantissa P))%R) by lra.
  assert (Hinv : (0 < / IZR (max_mantissa P))%R) by (apply Rinv_0_lt_compat; exact Hpos).
  unfold Rdiv. rewrite Rmult_1_l. split.
  - apply Rmult_le_pos; lra.
  - rewrite <- (Rinv_r (IZR (max_mantissa P))) by lra.
    apply Rmult_le_compat_r; lra.
Qed.

Lemma invoke_ranged (f : member) (g : Mersenne_Twister) :
  ranged P g ->
  exists y g', invoke P f g = Some (y, g') /\ in_range P y /\ ranged P g'.
Proof.
  intros Hg. pose proof Hg as [Vg _]. destruct HP as [Hwf _].
  destruct (invoke_total P Hwf f g Vg) as (y & g' & Hy & Vg').
  exists y, g'. split; [exact Hy |]. destruct f; cbn [invoke] in Hy.
  - destruct (rand P g) as [[z g1] |] eqn:Hr; cbn [mbind option_bind] in Hy;
      [| discriminate].
    injection Hy as <- <-. destruct (rand_ranged g g1 z Hg Hr) as [Bz Bg].
    split; [exact Bz | split; assumption].
  - destruct (call P g) as [[z g1] |] eqn:Hc; cbn [mbind option_bind] in Hy;
      [| discriminate].
    injection Hy as <- <-. destruct (call_ranged g g1 z Hg Hc) as [Bz Bg].
    split; [exact Bz | split; assumption].
Qed.

Lemma run_ranged (fs : list member) (g : Mersenne_Twister) :
  ranged P g ->
  exists ys g', run P fs g = Some (ys, g') /\ Forall (in_range P) ys /\ ranged P g'.
Proof.
  revert g. induction fs as [| f fs IH]; intros g Hg.
  - exists [], g. split; [reflexivity |]. split; [apply Forall_nil_2 | exact Hg].
  - destruct (invoke_ranged f g Hg) as (y & g1 & Hy & Ry & Hg1).
    destruct (IH g1 Hg1) as (ys & g2 & Hys & Rys & Hg2).
    exists (y :: ys), g2. cbn [run]. rewrite Hy. cbn [mbind option_bind].
    rewrite Hys. split; [reflexivity |]. split; [| exact Hg2].
    apply Forall_cons. split; assumption.
Qed.

Lemma reset_bounded (seed : Z) (g g' : Mersenne_Twister) :
  Forall bounded_w (state g) -> reset P seed g = Some g' -> Forall bounded_w (state g').
Proof.
  destruct HP as (_ & Hw & _). intros Hx. unfold reset, word_mask.
  destruct (put_ (state g) 0 _) as [x0 |] eqn:H0; cbn [mbind option_bind];
    [| discriminate].
  assert (B0 : Forall bounded_w x0).
  { refine (put_bounded _ x0 0 _ Hx _ H0). apply bounded_mask. lia. }
  match goal with |- context [for_ 1 ?hi ?body x0] =>
    destruct (for_ 1 hi body x0) as [x1 |] eqn:H1; cbn [mbind option_bind];
      [| discriminate]
  end.
  intros H. injection H as <-. cbn [state].
  unfold for_ in H1.
  apply (for_up_keeps (fun _ x => Forall bounded_w x) _ _ _ _ _ H1 B0).
  intros k s s' _ Hs Bs.
  destruct (at_ s (k - 1)) as [p |]; cbn [mbind option_bind] in Hs; [| discriminate].
  refine (put_bounded s s' k _ Bs _ Hs). apply bounded_mask. lia.
Qed.

Lemma advance_bounded (x x' : list Z) (i i' : nat) :
  Forall bounded_w x -> advance P x i = Some (x', i') -> Forall bounded_w x'.
Proof.
  intros Hx. unfold advance. destruct (Nat.leb (n P) (S i)).
  - destruct (at_ x (n P - 1)) as [z |] eqn:Hz; cbn [mbind option_bind];
      [| discriminate].
    destruct (put_ x 0 z) as [x1 |] eqn:H1; cbn [mbind option_bind]; [| discriminate].
    intros H. injection H as <- _.
    refine (put_bounded x x1 0 z Hx _ H1). apply (lookup_bounded x _ z Hx Hz).
  - intros H. injection H as <- _. exact Hx.
Qed.

Lemma reset_seeds_bounded (seed_count : nat) (seeds : list Z) (g g' : Mersenne_Twister) :
  Forall bounded_w (state g) ->
  reset_seeds P seed_count seeds g = Some g' ->
  Forall bounded_w (state g').
Proof.
  destruct HP as (_ & Hw & _). intros Hx. unfold reset_seeds, word_mask.
  destruct (reset P 19650218 g) as [g1 |] eqn:Hr; cbn [mbind option_bind];
    [| discriminate].
  pose proof (reset_bounded _ g g1 Hx Hr) as B1.
  match goal with |- context [for_up ?c 0 ?body (state g1, 1%nat, 0%nat)] =>
    destruct (for_up c 0 body (state g1, 1%nat, 0%nat)) as [[[x2 i2] j2] |] eqn:H2;
      cbn [mbind option_bind]; [| discriminate];
    assert (B2 : Forall bounded_w x2)
  end.
  { apply (for_up_keeps (fun _ (st : list Z * nat * nat) => Forall bounded_w st.1.1)
             _ _ _ _ _ H2 B1).
    intros k [[x i] j] [[x' i'] j'] _ Hs Bs. cbn [fst] in *.
    destruct (at_ x i) as [xi |]; cbn [mbind option_bind] in Hs; [| discriminate].
    destruct (at_ x (i - 1)) as [p |]; cbn [mbind option_bind] in Hs; [| discriminate].
    destruct (at_ seeds j) as [sj |]; cbn [mbind option_bind] in Hs; [| discriminate].
    destruct (put_ x i _) as [x3 |] eqn:H3; cbn [mbind option_bind] in Hs;
      [| discriminate].
    destruct (advance P x3 i) as [[x4 i4] |] eqn:H4; cbn [mbind option_bind] in Hs;
      [| discriminate].
    injection Hs as <- _ _.
    apply (advance_bounded x3 x4 i i4); [| exact H4].
    refine (put_bounded x x3 i _ Bs _ H3). apply bounded_mask. lia. }
  match goal with |- context [for_up ?c 0 ?body (x2, i2)] =>
    destruct (for_up c 0 body (x2, i2)) as [[x5 i5] |] eqn:H5;
      cbn [mbind option_bind]; [| discriminate];
    assert (B5 : Forall bounded_w x5)
  end.
  { apply (for_up_keeps (fun _ (st : list Z * nat) => Forall bounded_w st.1)
             _ _ _ _ _ H5 B2).
    intros k [x i] [x' i'] _ Hs Bs. cbn [fst] in *.
    destruct (at_ x i) as [xi |]; cbn [mbind option_bind] in Hs; [| discriminate].
    destruct (at_ x (i - 1)) as [p |]; cbn [mbind option_bind] in Hs; [| discriminate].
    destruct (put_ x i _) as [x3 |] eqn:H3; cbn [mbind option_bind] in Hs;
      [| discriminate].
    apply (advance_bounded x3 x' i i'); [| exact Hs].
    refine (put_bounded x x3 i _ Bs _ H3). apply bounded_mask. lia. }
  destruct (put_ x5 0 _) as [x6 |] eqn:H6; cbn [mbind option_bind]; [| discriminate].
  intros H. injection H as <-. cbn [state].
  refine (put_bounded x5 x6 0 _ B5 _ H6). apply bounded_shl_one. exact Hw.
Qed.

Lemma zero_bounded : Forall bounded_w (replicate (n P) 0).
Proof.
  destruct HP as (_ & Hw & _). apply Forall_replicate. split; [lia |].
  apply Z.pow_pos_nonneg; lia.
Qed.

End Random_range.

Lemma Mt19937_32_fitting : Range.fitting Random.Mt19937_32.
Proof. unfold Range.fitting, Random.well_formed, Range.bounded. cbn. lia. Qed.

(** The generators that random.h predefines are within the parameters that
    the class template is defined for. *)
Lemma predefined_proper :
  Forall Range.proper
    [Random.Mt11213a_32; Random.Mt11213b_32; Random.Mt19937_32; Random.Mt19937_64].
Proof.
  repeat (apply Forall_cons; split); try apply Forall_nil_2;
    (split;
     [unfold Range.fitting, Random.well_formed, Range.bounded; cbn; lia |
      unfold Range.shift_counts, Word.digits, Random.real_digits; cbn;
      repeat (apply Forall_cons; split); try apply Forall_nil_2; lia]).
Qed.

Lemma Mt19937_64_proper : Range.proper Random.Mt19937_64.
Proof.
  pose proof predefined_proper as H.
  apply Forall_cons in H as [_ H]. apply Forall_cons in H as [_ H].
  apply Forall_cons in H as [_ H]. apply Forall_cons in H as [H _]. exact H.
Qed.

(** Every number that a generator object of random.h returns is in range,
    for template parameters whose words fit and whose shifts are all by a
    count from 0 to 63: [rand()] returns a word of [w] bits, and
    [operator()()] returns a real number in the interval from 0 to 1, for
    every seed or array of seeds that the object is constructed from and
    for every sequence of calls; all of these calls are defined. *)
Theorem Mersenne_Twister_numbers_in_range (P : Random.parameters) (seed : Z)
    (seed_count : nat) (seeds : list Z) (fs : list Random.member) :
  Range.proper P ->
  (exists g ys g',
     Random.new P seed = Some g /\ Random.run P fs g = Some (ys, g') /\
     Forall (Range.in_range P) ys) /\
  (1 <= seed_count <= length seeds ->
   exists g ys g',
     Random.new_seeds P seed_count seeds = Some g /\ Random.run P fs g = Some (ys, g') /\
     Forall (Range.in_range P) ys).
Proof.
  intros [HF _]. pose proof HF as [Hwf _]. split.
  - destruct (new_total P Hwf seed) as (g & Hg & Vg).
    assert (Rg : Range.ranged P g).
    { split; [exact Vg |]. unfold Random.new in Hg.
      apply (reset_seeds_bounded P HF _ _
               {| Random.state := replicate (Random.n P) 0%Z; Random.index := 0%nat |} g
               (zero_bounded P HF) Hg). }
    destruct (run_ranged P HF fs g Rg) as (ys & g' & Hrun & Rys & _).
    exists g, ys, g'. auto.
  - intros Hs. destruct (new_seeds_total P Hwf seed_count seeds Hs) as (g & Hg & Vg).
    assert (Rg : Range.ranged P g).
    { split; [exact Vg |]. unfold Random.new_seeds in Hg.
      apply (reset_seeds_bounded P HF _ _
               {| Random.state := replicate (Random.n P) 0%Z; Random.index := 0%nat |} g
               (zero_bounded P HF) Hg). }
    destruct (run_ranged P HF fs g Rg) as (ys & g' & Hrun & Rys & _).
    exists g, ys, g'. auto.
Qed.

(** The MT-19937-64 with the default seed of the constructor. *)
Lemma Mersenne_Twister_numbers_in_range_witness :
  exists g ys g',
    Random.new Random.Mt19937_64 9600629759793949339 = Some g /\
    Random.run Random.Mt19937_64 [Random.Rand; Random.Call] g = Some (ys, g') /\
    Forall (Range.in_range Random.Mt19937_64) ys.
Proof.
  exact (proj1 (Mersenne_Twister_numbers_in_range Random.Mt19937_64
                  9600629759793949339 0 [] [Random.Rand; Random.Call] Mt19937_64_proper)).
Defined.

(** ** The two implementations of the Mersenne twister agree *)

Section Agreement_properties.

Import Agreement Range.

Local Open Scope Z_scope.

Variable P1 : Mtwister.parameters.
Variable P2 : Random.parameters.
Hypothesis HA : akin P1 P2.
Hypothesis HP : fitting P2.

Local Abbreviation same := (option_map of_mtwister).

Lemma for_up_same {T : Type} (body1 body2 : nat -> T -> option T) (count k0 : nat)
    (st : T) :
  (forall k s, body1 k s = body2 k s) ->
  for_up count k0 body1 st = for_up count k0 body2 st.
Proof.
  intros H. apply (for_up_agree (fun _ _ => True)); [exact I |].
  intros k s _ _. split; [apply H | auto].
Qed.

Lemma word_mask_akin : Mtwister.word_mask P1 = Random.word_mask P2.
Proof.
  destruct HA as (Ew & _). unfold Mtwister.word_mask, Random.word_mask.
  rewrite Ew. reflexivity.
Qed.

Lemma advance_akin (x : list Z) (i : nat) :
  Mtwister.advance P1 x i = Random.advance P2 x i.
Proof.
  destruct HA as (_ & En & _). unfold Mtwister.advance, Random.advance.
  rewrite En. reflexivity.
Qed.

Lemma reset_akin (seed : Z) (g : Mtwister.mersenne_twister) :
  same (Mtwister.reset P1 seed 1812433253 g) = Random.reset P2 seed (of_mtwister g).
Proof.
  pose proof word_mask_akin as Em.
  destruct HA as (Ew & En & _ & _ & _ & _ & _ & _ & _ & _ & _ & _ & E1 & _ & _ & Er & _).
  unfold Mtwister.reset, Random.reset. cbn [of_mtwister Random.state].
  rewrite Em, En, E1.
  destruct (put_ (Mtwister.words g) 0 _) as [x0 |]; cbn [mbind option_bind option_map];
    [| reflexivity].
  unfold for_.
  match goal with
  | |- context [for_up ?c ?k0 ?body1 x0] =>
      match goal with
      | |- _ = mbind _ (for_up c k0 ?body2 x0) =>
          rewrite (for_up_same body1 body2 c k0 x0)
      end
  end.
  - destruct (for_up _ _ _ x0); reflexivity.
  - intros k s. destruct (at_ s (k - 1)) as [p |]; cbn [mbind option_bind]; [| reflexivity].
    rewrite Er. unfold Word.mul. rewrite Z.mul_comm. reflexivity.
Qed.

Lemma reset_seeds_akin (seed_count : nat) (seeds : list Z) (g : Mtwister.mersenne_twister) :
  same (Mtwister.reset_seeds P1 seed_count seeds g) =
  Random.reset_seeds P2 seed_count seeds (of_mtwister g).
Proof.
  pose proof word_mask_akin as Em.
  pose proof HA as
    (Ew & En & _ & _ & _ & _ & _ & _ & _ & _ & _ & _ & _ & E2 & E3 & Er & _).
  unfold Mtwister.reset_seeds, Random.reset_seeds.
  rewrite <- reset_akin.
  destruct (Mtwister.reset P1 19650218 1812433253 g) as [g1 |];
    cbn [mbind option_bind option_map]; [| reflexivity].
  cbn [of_mtwister Random.state]. rewrite Em, En, Ew, E2, E3, Er.
  match goal with
  | |- context [for_up ?c ?k0 ?body1 (Mtwister.words g1, 1%nat, 0%nat)] =>
      match goal with
      | |- _ = mbind _ (for_up c k0 ?body2 _) =>
          rewrite (for_up_same body1 body2 c k0)
      end
  end.
  2: { intros _ [[x i] j].
       destruct (at_ x i) as [xi |]; cbn [mbind option_bind]; [| reflexivity].
       destruct (at_ x (i - 1)) as [p |]; cbn [mbind option_bind]; [| reflexivity].
       destruct (at_ seeds j) as [sj |]; cbn [mbind option_bind]; [| reflexivity].
       destruct (put_ x i _) as [x1 |]; cbn [mbind option_bind]; [| reflexivity].
       rewrite advance_akin. reflexivity. }
  destruct (for_up _ _ _ (Mtwister.words g1, 1%nat, 0%nat)) as [[[x2 i2] j2] |];
    cbn [mbind option_bind option_map]; [| reflexivity].
  match goal with
  | |- context [for_up ?c ?k0 ?body1 (x2, i2)] =>
      match goal with
      | |- _ = mbind _ (for_up c k0 ?body2 _) =>
          rewrite (for_up_same body1 body2 c k0)
      end
  end.
  2: { intros _ [x i].
       destruct (at_ x i) as [xi |]; cbn [mbind option_bind]; [| reflexivity].
       destruct (at_ x (i - 1)) as [p |]; cbn [mbind option_bind]; [| reflexivity].
       destruct (put_ x i _) as [x1 |]; cbn [mbind option_bind]; [| reflexivity].
       apply advance_akin. }
  destruct (for_up _ _ _ (x2, i2)) as [[x3 i3] |];
    cbn [mbind option_bind option_map]; [| reflexivity].
  destruct (put_ x3 0 _) as [x4 |]; reflexivity.
Qed.

Lemma twist_akin (i j k : nat) (x : list Z) :
  Mtwister.twist P1 i j k x = Random.twist P2 i j k x.
Proof.
  destruct HA as (Ew & _ & _ & Er & Ea & _).
  unfold Mtwister.twist, Random.twist. rewrite Ew, Er, Ea. reflexivity.
Qed.

(** The three loops of [rand] of mtwister.h that renew the state. *)
Lemma renew_akin {T : Type} (x : list Z) (f : list Z -> option T) :
  (x ← for_ 0 (Mtwister.n P1 - Mtwister.m P1)
         (fun k => Mtwister.twist P1 (k + Mtwister.m P1) k (k + 1)) x;
   x ← for_ (Mtwister.n P1 - Mtwister.m P1) (Mtwister.n P1 - 1)
         (fun k => Mtwister.twist P1 (k + Mtwister.m P1 - Mtwister.n P1) k (k + 1)) x;
   x ← Mtwister.twist P1 (Mtwister.m P1 - 1) (Mtwister.n P1 - 1) 0 x;
   f x) =
  (x ← Random.renew P2 x; f x).
Proof.
  destruct HA as (_ & En & Emm & _). unfold Random.renew, for_. rewrite En, Emm.
  rewrite (for_up_same _ (fun k => Random.twist P2 (k + Random.m P2) k (k + 1)))
    by (intros; apply twist_akin).
  destruct (for_up _ _ _ x) as [x1 |]; cbn [mbind option_bind]; [| reflexivity].
  rewrite (for_up_same _
             (fun k => Random.twist P2 (k + Random.m P2 - Random.n P2) k (k + 1)))
    by (intros; apply twist_akin).
  destruct (for_up _ _ _ x1) as [x2 |]; cbn [mbind option_bind]; [| reflexivity].
  rewrite twist_akin. reflexivity.
Qed.

(** The tempering of mtwister.h is the tempering of random.h on words of
    [w] bits. *)
Lemma temper_akin (y : Z) :
  bounded (Random.w P2) y ->
  (let y := if 0 <? Mtwister.u P1 then Z.lxor y (Word.shr y (Mtwister.u P1)) else y in
   let y := Z.lxor y (Z.land (Word.shl y (Mtwister.s P1)) (Mtwister.b P1)) in
   let y := Z.lxor y (Z.land (Word.shl y (Mtwister.t P1)) (Mtwister.c P1)) in
   Z.lxor y (Word.shr y (Mtwister.l P1))) = Random.temper P2 y.
Proof.
  destruct HA as (_ & _ & _ & _ & _ & Eu & Es & Eb & Et & Ec & El & Ed & _ & _ & _ & _
                  & Hu & _).
  destruct HP as (_ & Hw & _).
  intros Hy. unfold Random.temper. cbv zeta. rewrite Eu, Es, Eb, Et, Ec, El.
  destruct (Z.ltb_spec 0 (Random.u P2)) as [_ | Hn]; [| lia].
  assert (Hd : Z.land (Word.shr y (Random.u P2)) (Random.d P2) = Word.shr y (Random.u P2)).
  { rewrite Ed. change (2 ^ Random.w P2 - 1) with (Z.pred (2 ^ Random.w P2)).
    rewrite <- Z.ones_equiv. apply bounded_ones; [lia |].
    apply bounded_shr; [lia | exact Hy]. }
  rewrite Hd. reflexivity.
Qed.

Lemma rand_akin (g : Mtwister.mersenne_twister) :
  ranged P2 (of_mtwister g) ->
  option_map (fun yg => (fst yg, of_mtwister (snd yg))) (Mtwister.rand P1 g) =
  Random.rand P2 (of_mtwister g).
Proof.
  intros [_ Bg]. pose proof HA as (_ & En & _).
  unfold Mtwister.rand, Random.rand. cbn [of_mtwister Random.state Random.index] in *.
  rewrite <- En.
  destruct (Nat.eqb (Mtwister.i g) (Mtwister.n P1)).
  - rewrite (renew_akin (Mtwister.words g)
               (fun x => Some {| Mtwister.words := x; Mtwister.i := 0%nat |})).
    destruct (Random.renew P2 (Mtwister.words g)) as [x |] eqn:Hx;
      cbn [mbind option_bind option_map]; [| reflexivity].
    pose proof (renew_bounded P2 HP _ _ Bg Hx) as Bx.
    cbn [Mtwister.words Mtwister.i Random.state Random.index].
    destruct (at_ x 0) as [y |] eqn:Hy; cbn [mbind option_bind option_map];
      [| reflexivity].
    pose proof (temper_akin y (lookup_bounded P2 x 0 y Bx Hy)) as Ht.
    cbv zeta in Ht. cbv zeta. cbn [fst snd]. rewrite Ht. reflexivity.
  - cbn [mbind option_bind option_map of_mtwister Random.state Random.index].
    destruct (at_ (Mtwister.words g) (Mtwister.i g)) as [y |] eqn:Hy;
      cbn [mbind option_bind option_map]; [| reflexivity].
    pose proof (temper_akin y (lookup_bounded P2 _ _ y Bg Hy)) as Ht.
    cbv zeta in Ht. cbv zeta. cbn [fst snd]. rewrite Ht. reflexivity.
Qed.

Lemma call_akin (g : Mtwister.mersenne_twister) :
  ranged P2 (of_mtwister g) ->
  option_map (fun xg => (fst xg, of_mtwister (snd xg))) (Mtwister.call P1 g) =
  Random.call P2 (of_mtwister g).
Proof.
  intros Hg. pose proof HA as (Ew & _).
  assert (Hw : (Random.w P2 <? Random.real_digits) = true).
  { apply Z.ltb_lt. apply HA. }
  unfold Mtwister.call, Random.call. rewrite <- rand_akin by exact Hg.
  destruct (Mtwister.rand P1 g) as [[y g1] |]; cbn [mbind option_bind option_map fst snd];
    [| reflexivity].
  unfold Random.max_mantissa. rewrite Hw. unfold Mtwister.word_mask. rewrite Ew.
  reflexivity.
Qed.

Lemma numbers_akin (k : nat) (g : Mtwister.mersenne_twister) :
  ranged P2 (of_mtwister g) ->
  exists xs,
    Mtwister.numbers P1 k g = Some xs /\ Random.numbers P2 k (of_mtwister g) = Some xs.
Proof.
  revert g. induction k as [| k IH]; intros g Hg.
  - exists []. split; reflexivity.
  - destruct (invoke_ranged P2 HP Random.Call _ Hg) as (y & g2 & Hy & _ & Hg2).
    cbn [Random.invoke] in Hy.
    destruct (Random.call P2 (of_mtwister g)) as [[x g2'] |] eqn:Hc;
      cbn [mbind option_bind] in Hy; [| discriminate].
    injection Hy as _ <-.
    pose proof (call_akin g Hg) as Hak. rewrite Hc in Hak.
    destruct (Mtwister.call P1 g) as [[x1 g1] |] eqn:Hc1; cbn [option_map fst snd] in Hak;
      [| discriminate].
    injection Hak as -> <-.
    destruct (IH g1 Hg2) as (xs & H1 & H2).
    exists (x :: xs). cbn [Mtwister.numbers Random.numbers].
    rewrite Hc1, Hc. cbn [mbind option_bind]. rewrite H1, H2. split; reflexivity.
Qed.

(** For template parameters of mtwister.h and of random.h that describe the
    same generator, objects constructed from the same array of seeds
    return the same real numbers: the two implementations agree. *)
Theorem Mersenne_Twister_implementations_agree (seed_count : nat) (seeds : list Z)
    (k : nat) :
  (1 <= seed_count <= length seeds)%nat ->
  exists g1 g2 xs,
    Mtwister.new_seeds P1 seed_count seeds = Some g1 /\
    Random.new_seeds P2 seed_count seeds = Some g2 /\
    Mtwister.numbers P1 k g1 = Some xs /\
    Random.numbers P2 k g2 = Some xs.
Proof.
  intros Hs. pose proof HP as [Hwf _]. pose proof HA as (_ & En & _).
  destruct (new_seeds_total P2 Hwf seed_count seeds Hs) as (g2 & Hg2 & Vg2).
  pose proof (reset_seeds_akin seed_count seeds
                {| Mtwister.words := replicate (Mtwister.n P1) 0; Mtwister.i := 0%nat |})
    as Hak.
  unfold Random.new_seeds in Hg2. unfold of_mtwister in Hak at 2.
  cbn [Mtwister.words Mtwister.i] in Hak. rewrite En, Hg2 in Hak.
  unfold Mtwister.new_seeds. rewrite En.
  destruct (Mtwister.reset_seeds P1 _ _ _) as [g1 |]; cbn [option_map] in Hak;
    [| discriminate].
  injection Hak as Hak.
  assert (Rg : ranged P2 (of_mtwister g1)).
  { rewrite Hak. split; [exact Vg2 |].
    apply (reset_seeds_bounded P2 HP _ _
             {| Random.state := replicate (Random.n P2) 0; Random.index := 0%nat |}
             g2 (zero_bounded P2 HP) Hg2). }
  destruct (numbers_akin k g1 Rg) as (xs & H1 & H2).
  exists g1, g2, xs. unfold Random.new_seeds. rewrite Hg2, <- Hak. auto.
Qed.

End Agreement_properties.

Lemma mt19937_akin : Agreement.akin Mtwister.mt19937 Random.Mt19937_32.
Proof. unfold Agreement.akin, Random.real_digits. cbn. lia. Qed.

(** The MT19937 of the two headers, constructed from the key of the
    reference implementation. *)
Lemma Mersenne_Twister_implementations_agree_witness :
  exists g1 g2 xs,
    Mtwister.new_seeds Mtwister.mt19937 4 [0x123; 0x234; 0x345; 0x456]%Z = Some g1 /\
    Random.new_seeds Random.Mt19937_32 4 [0x123; 0x234; 0x345; 0x456]%Z = Some g2 /\
    Mtwister.numbers Mtwister.mt19937 10 g1 = Some xs /\
    Random.numbers Random.Mt19937_32 10 g2 = Some xs.
Proof.
  apply (Mersenne_Twister_implementations_agree Mtwister.mt19937 Random.Mt19937_32
           mt19937_akin Mt19937_32_fitting 4 [0x123; 0x234; 0x345; 0x456]%Z 10).
  cbn. lia.
Defined.

(** ** The MELG generator: the calls are defined, the numbers are in range *)

Section Melg_properties.

Import Range Melg.

Local Open Scope Z_scope.

Variable P : parameters.
Hypothesis HP : proper P.

Local Abbreviation word := (bounded 64).

Lemma wrap_word (x : Z) : word (Word.wrap x).
Proof. unfold Word.wrap. apply Z.mod_pos_bound. reflexivity. Qed.

Lemma lookup_word (x : list Z) (i : nat) :
  Forall word x -> (i < length x)%nat -> exists v, at_ x i = Some v /\ word v.
Proof.
  intros Hx Hi. destruct (at_Some x i Hi) as [v Hv]. exists v. split; [exact Hv |].
  apply (Forall_lookup_1 _ x i v Hx Hv).
Qed.

Lemma put_word (x : list Z) (i : nat) (v : Z) :
  Forall word x -> (i < length x)%nat -> word v ->
  exists x', put_ x i v = Some x' /\ length x' = length x /\ Forall word x'.
Proof.
  intros Hx Hi Hv. rewrite put_Some by exact Hi. eexists. split; [reflexivity |].
  split; [apply length_insert | apply Forall_insert; assumption].
Qed.

Lemma melg_rock_total (i k : nat) (x : list Z) :
  Forall word x -> (i < length x)%nat -> (k < length x)%nat ->
  exists v, rock i k x = Some v /\ word v.
Proof.
  intros Hx Hi Hk. unfold rock.
  destruct (lookup_word x i Hx Hi) as (xi & -> & Bi).
  destruct (lookup_word x k Hx Hk) as (xk & -> & Bk).
  cbn [mbind option_bind]. eexists. split; [reflexivity |].
  apply bounded_lor; [lia | |]; apply bounded_land_l; (lia || assumption).
Qed.

Lemma melg_roll_total (v : Z) (i : nat) (x : list Z) :
  Forall word x -> length x = (n P + 1)%nat -> (i < n P)%nat -> word v ->
  exists x', roll P v i x = Some x' /\ length x' = (n P + 1)%nat /\ Forall word x'.
Proof.
  intros Hx Hlen Hi Hv. unfold roll.
  destruct (lookup_word x i Hx) as (xi & -> & Bi); [lia |].
  destruct (lookup_word x (n P) Hx) as (xn & -> & Bn); [lia |].
  cbn [mbind option_bind].
  match goal with |- context [put_ x (n P) ?e] =>
    destruct (put_word x (n P) e Hx) as (x' & -> & L' & B'); [lia | |]
  end.
  - repeat apply bounded_lxor; try lia; try assumption.
    + apply bounded_shr; [lia | exact Hv].
    + destruct (negb (Z.land v 1 =? 0)); unfold bounded; lia.
    + apply wrap_word.
  - exists x'. split; [reflexivity |]. split; [lia | exact B'].
Qed.

Lemma melg_twist_total (v : Z) (i k : nat) (x : list Z) :
  Forall word x -> length x = (n P + 1)%nat -> (i < n P)%nat -> (k < n P)%nat -> word v ->
  exists y x',
    twist P v i k x = Some (y, x') /\ word y /\
    length x' = (n P + 1)%nat /\ Forall word x'.
Proof.
  intros Hx Hlen Hi Hk Hv. unfold twist.
  destruct (lookup_word x (n P) Hx) as (xn & -> & Bn); [lia |].
  cbn [mbind option_bind].
  match goal with |- context [put_ x i ?e] =>
    destruct (put_word x i e Hx) as (x' & -> & L' & B'); [lia | |]
  end.
  - repeat apply bounded_lxor; try lia; try assumption.
    apply bounded_shr; [lia | exact Bn].
  - cbn [mbind option_bind].
    destruct (lookup_word x' i B') as (xi & -> & Bi); [lia |].
    destruct (lookup_word x' k B') as (xk & -> & Bk); [lia |].
    cbn [mbind option_bind]. do 2 eexists. split; [reflexivity |].
    split; [| split; [lia | exact B']].
    repeat apply bounded_lxor; try lia; try assumption.
    + apply wrap_word.
    + apply bounded_land_l; [lia | exact Bk].
Qed.

Lemma minus_Some (i k : nat) : (k <= i)%nat -> minus_ i k = Some (i - k)%nat.
Proof. intros H. unfold minus_. destruct (Nat.leb_spec k i); [reflexivity | lia]. Qed.

(** Every call of [rand] on a valid object is defined, returns a word of 64
    bits and leaves a valid object. *)
Lemma melg_rand_total (g : Melg) :
  valid P g -> exists y g', rand P g = Some (y, g') /\ word y /\ valid P g'.
Proof.
  destruct HP as (_ & Hl & Hlm & Hmn).
  intros (Hlen & Hx & [[Hc Hi] | [[Hc Hi] | [[Hc Hi] | [Hc Hi]]]]);
    unfold rand; rewrite Hc.
  - destruct (melg_rock_total (index g) (index g + 1) (state g) Hx) as (v & -> & Bv);
      [lia | lia |].
    cbn [mbind option_bind].
    destruct (melg_roll_total v (index g + m P) (state g) Hx Hlen) as (x1 & -> & L1 & B1);
      [lia | exact Bv |].
    cbn [mbind option_bind].
    destruct (melg_twist_total v (index g) (index g + l P) x1 B1 L1) as (y & x2 & -> & By & L2 & B2);
      [lia | lia | exact Bv |].
    cbn [mbind option_bind]. do 2 eexists. split; [reflexivity |]. split; [exact By |].
    split; [exact L2 |]. split; [exact B2 |]. cbn [cycle index].
    destruct (Nat.eqb_spec (S (index g)) (n P - m P)); [right; left | left]; lia.
  - destruct (melg_rock_total (index g) (index g + 1) (state g) Hx) as (v & -> & Bv);
      [lia | lia |].
    cbn [mbind option_bind]. rewrite minus_Some by lia. cbn [mbind option_bind].
    destruct (melg_roll_total v (index g + m P - n P) (state g) Hx Hlen) as (x1 & -> & L1 & B1);
      [lia | exact Bv |].
    cbn [mbind option_bind].
    destruct (melg_twist_total v (index g) (index g + l P) x1 B1 L1) as (y & x2 & -> & By & L2 & B2);
      [lia | lia | exact Bv |].
    cbn [mbind option_bind]. do 2 eexists. split; [reflexivity |]. split; [exact By |].
    split; [exact L2 |]. split; [exact B2 |]. cbn [cycle index].
    destruct (Nat.eqb_spec (S (index g)) (n P - l P));
      [right; right; left | right; left]; lia.
  - destruct (melg_rock_total (index g) (index g + 1) (state g) Hx) as (v & -> & Bv);
      [lia | lia |].
    cbn [mbind option_bind]. rewrite (minus_Some (index g + m P) (n P)) by lia.
    cbn [mbind option_bind].
    destruct (melg_roll_total v (index g + m P - n P) (state g) Hx Hlen) as (x1 & -> & L1 & B1);
      [lia | exact Bv |].
    cbn [mbind option_bind]. rewrite minus_Some by lia. cbn [mbind option_bind].
    destruct (melg_twist_total v (index g) (index g - (n P - l P)) x1 B1 L1)
      as (y & x2 & -> & By & L2 & B2); [lia | lia | exact Bv |].
    cbn [mbind option_bind]. do 2 eexists. split; [reflexivity |]. split; [exact By |].
    split; [exact L2 |]. split; [exact B2 |]. cbn [cycle index].
    destruct (Nat.eqb_spec (S (index g)) (n P - 1));
      [right; right; right | right; right; left]; lia.
  - destruct (melg_rock_total (n P - 1) 0 (state g) Hx) as (v & -> & Bv); [lia | lia |].
    cbn [mbind option_bind].
    destruct (melg_roll_total v (m P - 1) (state g) Hx Hlen) as (x1 & -> & L1 & B1);
      [lia | exact Bv |].
    cbn [mbind option_bind]. rewrite minus_Some by lia. cbn [mbind option_bind].
    destruct (melg_twist_total v (n P - 1) (index g - (n P - l P)) x1 B1 L1)
      as (y & x2 & -> & By & L2 & B2); [lia | lia | exact Bv |].
    cbn [mbind option_bind]. do 2 eexists. split; [reflexivity |]. split; [exact By |].
    split; [exact L2 |]. split; [exact B2 |]. cbn [cycle index]. left. lia.
Qed.

Lemma melg_call_total (g : Melg) :
  valid P g ->
  exists x g', call P g = Some (x, g') /\ (0 <= x <= 1)%R /\ valid P g'.
Proof.
  destruct HP as (Hw & _). intros Hg.
  destruct (melg_rand_total g Hg) as (y & g' & Hr & [H0 Hy] & Hg').
  unfold call. rewrite Hr. cbn [mbind option_bind].
  do 2 eexists. split; [reflexivity |]. split; [| exact Hg'].
  unfold max_mantissa, Random.real_digits. rewrite Hw.
  change (64 <? 53) with false. cbv iota.
  rewrite max_shr by lia. unfold Word.shr. rewrite Z.shiftr_div_pow2 by lia.
  assert (Hq : 0 <= y / 2 ^ (64 - 53) <= 2 ^ 53 - 1).
  { split; [apply Z.div_pos; lia |].
    assert (y / 2 ^ (64 - 53) < 2 ^ 53); [| lia].
    apply Z.div_lt_upper_bound; [reflexivity |]. exact Hy. }
  destruct Hq as [Hq0 Hq1]. apply IZR_le in Hq0, Hq1.
  assert (Hpos : (0 < IZR (2 ^ 53 - 1))%R) by (apply IZR_lt; reflexivity).
  assert (Hinv : (0 < / IZR (2 ^ 53 - 1))%R) by (apply Rinv_0_lt_compat; exact Hpos).
  unfold Rdiv. rewrite Rmult_1_l. split.
  - apply Rmult_le_pos; lra.
  - rewrite <- (Rinv_r (IZR (2 ^ 53 - 1))) by lra.
    apply Rmult_le_compat_r; lra.
Qed.

Lemma melg_invoke_total (f : Random.member) (g : Melg) :
  valid P g -> exists y g', invoke P f g = Some (y, g') /\ in_range y /\ valid P g'.
Proof.
  intros Hg. destruct f; cbn [invoke].
  - destruct (melg_rand_total g Hg) as (y & g' & -> & By & Hg'). cbn. eauto.
  - destruct (melg_call_total g Hg) as (y & g' & -> & By & Hg'). cbn. eauto.
Qed.

Lemma melg_run_total (fs : list Random.member) (g : Melg) :
  valid P g ->
  exists ys g', run P fs g = Some (ys, g') /\ Forall in_range ys /\ valid P g'.
Proof.
  revert g. induction fs as [| f fs IH]; intros g Hg.
  - exists [], g. split; [reflexivity |]. split; [apply Forall_nil_2 | exact Hg].
  - destruct (melg_invoke_total f g Hg) as (y & g1 & Hy & Ry & Hg1).
    destruct (IH g1 Hg1) as (ys & g2 & Hys & Rys & Hg2).
    exists (y :: ys), g2. cbn [run]. rewrite Hy. cbn [mbind option_bind].
    rewrite Hys. split; [reflexivity |]. split; [| exact Hg2].
    apply Forall_cons. split; assumption.
Qed.

Lemma melg_reset_total (seed : Z) (g : Melg) :
  word seed -> length (state g) = (n P + 1)%nat -> Forall word (state g) ->
  exists g', reset P seed g = Some g' /\
    length (state g') = (n P + 1)%nat /\ Forall word (state g').
Proof.
  intros Hs Hlen Hx. unfold reset.
  destruct (put_word (state g) 0 seed Hx) as (x0 & -> & L0 & B0); [lia | exact Hs |].
  cbn [mbind option_bind].
  match goal with |- context [for_ 1 ?hi ?body x0] =>
    destruct (for_total (fun _ x => length x = (n P + 1)%nat /\ Forall word x)
                body 1 hi x0) as (x1 & -> & L1 & B1); [lia | split; [lia | exact B0] | |]
  end.
  { intros k s Hk [Ls Bs]. destruct (lookup_word s (k - 1) Bs) as (p & -> & _); [lia |].
    cbn [mbind option_bind].
    match goal with |- context [put_ s k ?e] =>
      destruct (put_word s k e Bs) as (s' & -> & L' & B'); [lia | apply wrap_word |]
    end.
    exists s'. split; [reflexivity |]. split; [lia | exact B']. }
  cbn [mbind option_bind]. eexists. split; [reflexivity |]. split; assumption.
Qed.

Lemma melg_wrap_index_total (x : list Z) (i : nat) :
  length x = (n P + 1)%nat -> Forall word x -> (1 <= i <= n P)%nat ->
  exists x' i', wrap_index P x i = Some (x', i') /\
    length x' = (n P + 1)%nat /\ Forall word x' /\ (1 <= i' < n P)%nat.
Proof.
  destruct HP as (_ & Hl & Hlm & Hmn). intros Hlen Hx Hi. unfold wrap_index.
  destruct (Nat.leb_spec (n P) i) as [Hle | Hlt].
  - destruct (lookup_word x (n P - 1) Hx) as (z & -> & Bz); [lia |].
    cbn [mbind option_bind].
    destruct (put_word x 0 z Hx) as (x' & -> & L' & B'); [lia | exact Bz |].
    cbn [mbind option_bind]. do 2 eexists. split; [reflexivity |].
    split; [lia |]. split; [exact B' | lia].
  - do 2 eexists. split; [reflexivity |]. split; [exact Hlen |]. split; [exact Hx | lia].
Qed.

Lemma melg_reset_seeds_total (seed_count : nat) (seeds : list Z) (g : Melg) :
  (1 <= seed_count <= length seeds)%nat ->
  length (state g) = (n P + 1)%nat -> Forall word (state g) ->
  exists g', reset_seeds P seed_count seeds g = Some g' /\ valid P g'.
Proof.
  pose proof HP as (Hw & Hl & Hlm & Hmn). intros Hseeds Hlen Hx. unfold reset_seeds.
  destruct (melg_reset_total 19650218 g) as (g1 & -> & L1 & B1);
    [unfold bounded; lia | exact Hlen | exact Hx |].
  cbn [mbind option_bind].
  match goal with |- context [for_up ?c 0 ?body (state g1, 1%nat, 0%nat)] =>
    destruct (for_up_total
                (fun _ (st : list Z * nat * nat) =>
                   length st.1.1 = (n P + 1)%nat /\ Forall word st.1.1 /\
                   (1 <= st.1.2 < n P)%nat /\ (st.2 < seed_count)%nat)
                body c 0 (state g1, 1%nat, 0%nat))
      as ([[x2 i2] j2] & -> & L2 & B2 & Hi2 & _); [cbn; auto with lia | |]
  end.
  { intros _ [[x i] j] _ (Lx & Bx & Hi & Hj). cbn [fst snd] in Lx, Bx, Hi, Hj.
    destruct (lookup_word x i Bx) as (xi & -> & _); [lia |].
    destruct (lookup_word x (i - 1) Bx) as (p & -> & _); [lia |].
    destruct (at_Some seeds j) as [sj ->]; [lia |].
    cbn [mbind option_bind].
    match goal with |- context [put_ x i ?e] =>
      destruct (put_word x i e Bx) as (x3 & -> & L3 & B3); [lia | apply wrap_word |]
    end.
    cbn [mbind option_bind].
    destruct (melg_wrap_index_total x3 (S i)) as (x4 & i4 & -> & L4 & B4 & Hi4);
      [lia | exact B3 | lia |].
    cbn [mbind option_bind]. eexists. split; [reflexivity |]. cbn [fst snd].
    split; [exact L4 |]. split; [exact B4 |]. split; [exact Hi4 |].
    destruct (Nat.leb_spec seed_count (S j)); lia. }
  cbn [mbind option_bind]. cbn [fst snd] in L2, B2, Hi2.
  match goal with |- context [for_up ?c 0 ?body (x2, i2)] =>
    destruct (for_up_total
                (fun _ (st : list Z * nat) =>
                   length st.1 = (n P + 1)%nat /\ Forall word st.1 /\
                   (1 <= st.2 < n P)%nat)
                body c 0 (x2, i2))
      as ([x5 i5] & -> & L5 & B5 & _); [cbn; auto |  |]
  end.
  { intros _ [x i] _ (Lx & Bx & Hi). cbn [fst snd] in Lx, Bx, Hi.
    destruct (lookup_word x i Bx) as (xi & -> & _); [lia |].
    destruct (lookup_word x (i - 1) Bx) as (p & -> & _); [lia |].
    cbn [mbind option_bind].
    match goal with |- context [put_ x i ?e] =>
      destruct (put_word x i e Bx) as (x3 & -> & L3 & B3); [lia | apply wrap_word |]
    end.
    cbn [mbind option_bind].
    destruct (melg_wrap_index_total x3 (S i)) as (x4 & i4 & -> & L4 & B4 & Hi4);
      [lia | exact B3 | lia |].
    eexists. split; [reflexivity |]. cbn [fst snd]. auto. }
  cbn [mbind option_bind]. cbn [fst snd] in L5, B5.
  destruct (lookup_word x5 (n P) B5) as (xn & -> & _); [lia |].
  destruct (lookup_word x5 (n P - 1) B5) as (p & -> & _); [lia |].
  cbn [mbind option_bind].
  match goal with |- context [put_ x5 (n P) ?e] =>
    destruct (put_word x5 (n P) e B5) as (x6 & -> & L6 & B6); [lia | apply wrap_word |]
  end.
  cbn [mbind option_bind].
  destruct (lookup_word x6 0 B6) as (x0 & -> & B0); [lia |].
  cbn [mbind option_bind].
  match goal with |- context [put_ x6 0 ?e] =>
    destruct (put_word x6 0 e B6) as (x7 & -> & L7 & B7); [lia | |]
  end.
  { apply bounded_lor; [lia | exact B0 | apply wrap_word]. }
  cbn [mbind option_bind]. eexists. split; [reflexivity |].
  split; [cbn [state]; lia |]. split; [exact B7 |]. left. cbn [cycle index]. lia.
Qed.

Lemma zero_words : Forall word (replicate (n P + 1) 0).
Proof. apply Forall_replicate. unfold bounded. lia. Qed.

(** For template parameters with words of 64 bits and [2 <= l < m < n], as
    the MELG19937-64 has them, every call on a generator object is defined:
    no array is left, whatever the seed or the array of seeds and however
    many numbers are drawn. [rand()] returns a word of 64 bits and
    [operator()()] returns a real number in the interval from 0 to 1. *)
Theorem Melg_numbers_in_range (seed : Z) (seed_count : nat) (seeds : list Z)
    (fs : list Random.member) :
  (exists g ys g',
     new P seed = Some g /\ run P fs g = Some (ys, g') /\ Forall in_range ys) /\
  ((1 <= seed_count <= length seeds)%nat ->
   exists g ys g',
     new_seeds P seed_count seeds = Some g /\ run P fs g = Some (ys, g') /\
     Forall in_range ys).
Proof.
  split.
  - destruct (melg_reset_seeds_total 2
                [Z.land seed 0x00000000FFFFFFFF; Z.land seed 0xFFFFFFFF00000000]
                {| state := replicate (n P + 1) 0; index := 0%nat; cycle := 0%nat |})
      as (g & Hg & Vg); [cbn; lia | apply length_replicate | apply zero_words |].
    destruct (melg_run_total fs g Vg) as (ys & g' & Hrun & Rys & _).
    exists g, ys, g'. auto.
  - intros Hs.
    destruct (melg_reset_seeds_total seed_count seeds
                {| state := replicate (n P + 1) 0; index := 0%nat; cycle := 0%nat |})
      as (g & Hg & Vg); [exact Hs | apply length_replicate | apply zero_words |].
    destruct (melg_run_total fs g Vg) as (ys & g' & Hrun & Rys & _).
    exists g, ys, g'. auto.
Qed.

End Melg_properties.

Lemma Melg19937_64_proper : Melg.proper Melg.Melg19937_64.
Proof. unfold Melg.proper. cbn. lia. Qed.

(** The MELG19937-64, constructed from a seed. *)
Lemma Melg_numbers_in_range_witness :
  exists g ys g',
    Melg.new Melg.Melg19937_64 27182 = Some g /\
    Melg.run Melg.Melg19937_64 [Random.Rand; Random.Call] g = Some (ys, g') /\
    Forall Melg.in_range ys.
Proof.
  exact (proj1 (Melg_numbers_in_range Melg.Melg19937_64 Melg19937_64_proper
                  27182 0 [] [Random.Rand; Random.Call])).
Defined.

(** ** The PCG generator *)

(** The model reproduces the numbers of the reference implementation. *)
Lemma Pcg_32_reference :
  Pcg.draw Pcg.Pcg_32 6 (Pcg.new Pcg.Pcg_32 42 54) = Pcg.reference_42_54.
Proof. vm_compute. reflexivity. Qed.

Section Pcg_properties.

Import Range Pcg.

Local Open Scope Z_scope.

Variable mult : Z.

Lemma word32_bounded (x : Z) : bounded 32 (word32 x).
Proof. unfold word32. apply Z.mod_pos_bound. reflexivity. Qed.

(** The amount of the left shift in [rand] is the complement of the amount
    of the right shift. *)
Lemma left_shift (r : Z) :
  0 <= r < 32 ->
  Z.land (word32 (- r)) 31 = (if r =? 0 then 0 else 32 - r).
Proof.
  intros Hr. change 31 with (Z.ones 5). rewrite Z.land_ones by lia. unfold word32.
  rewrite (Z.mod_mod_divide (- r) (2 ^ 32) (2 ^ 5)).
  - destruct (Z.eqb_spec r 0) as [-> | Hne]; [reflexivity |].
    replace (- r) with ((32 - r) + (-1) * 2 ^ 5) by (change (2 ^ 5) with 32; lia).
    rewrite Z.mod_add by (change (2 ^ 5) with 32; lia).
    apply Z.mod_small. change (2 ^ 5) with 32. lia.
  - exists (2 ^ 27). reflexivity.
Qed.

Lemma testbit_above (s k : Z) : bounded 32 s -> 32 <= k -> Z.testbit s k = false.
Proof.
  intros [H0 Hs] Hk. destruct (Z.eq_dec s 0) as [-> | Hne]; [apply Z.bits_0 |].
  apply Z.bits_above_log2; [exact H0 |].
  apply Z.lt_le_trans with 32; [| exact Hk].
  apply Z.log2_lt_pow2; lia.
Qed.

(** The word that [rand] returns is the word [s] of 32 bits, rotated to the
    right by [r] bits. *)
Lemma rotation (s r k : Z) :
  bounded 32 s -> 0 <= r < 32 -> 0 <= k < 32 ->
  Z.testbit (Z.lor (Word.shr s r) (word32 (Z.shiftl s (Z.land (word32 (- r)) 31)))) k =
  Z.testbit s ((k + r) mod 32).
Proof.
  intros Hs Hr Hk. rewrite left_shift by exact Hr.
  rewrite Z.lor_spec. unfold Word.shr, word32.
  rewrite Z.shiftr_spec by lia.
  rewrite Z.mod_pow2_bits_low by lia.
  rewrite Z.shiftl_spec by lia.
  destruct (Z.eqb_spec r 0) as [-> | Hne].
  - rewrite Z.add_0_r, Z.sub_0_r, Z.mod_small by lia. apply orb_diag.
  - destruct (Z.lt_ge_cases (k + r) 32) as [Hlt | Hge].
    + rewrite (Z.testbit_neg_r s (k - (32 - r))) by lia.
      rewrite orb_false_r, Z.mod_small by lia. reflexivity.
    + rewrite (testbit_above s (k + r) Hs Hge), orb_false_l.
      f_equal. replace (k + r) with ((k - (32 - r)) + 1 * 32) by lia.
      rewrite Z.mod_add by lia. symmetry. apply Z.mod_small. lia.
Qed.

(** One call of [rand]: the state advances by a step of the linear
    congruential generator with the multiplier [mult] and the increment [inc],
    modulo [2^64]; the number returned is a word of 32 bits, made from the
    state before the step: its bits are the bits of the word [s] (the upper
    bits of the state, xor-shifted), rotated to the right by the amount
    that the five most significant bits of the state give. A rotation by 0
    bits returns [s]. The real number that [operator()()] returns lies in
    the interval from 0 to 1. *)
Theorem Pcg_rand_rotates (g : Pcg) :
  bounded 64 (state g) ->
  let saved := state g in
  let s := word32 (Word.shr (Z.lxor (Word.shr saved 18) saved) 27) in
  let r := Word.shr saved 59 in
  let y := fst (rand mult g) in
  let g' := snd (rand mult g) in
  0 <= r < 32 /\
  bounded 32 y /\
  (forall k, 0 <= k < 32 -> Z.testbit y k = Z.testbit s ((k + r) mod 32)) /\
  (r = 0 -> y = s) /\
  inc g' = inc g /\
  state g' = (saved * mult + inc g) mod 2 ^ 64 /\
  (0 <= fst (call mult g) <= 1)%R /\ snd (call mult g) = g'.
Proof.
  intros Hg saved s r y g'.
  assert (Hr : 0 <= r < 32).
  { subst r. unfold Word.shr. rewrite Z.shiftr_div_pow2 by lia. destruct Hg as [H0 H1].
    split; [apply Z.div_pos; lia |]. apply Z.div_lt_upper_bound; [reflexivity | exact H1]. }
  assert (Hw : word32 (Word.shr saved 59) = r).
  { unfold word32. apply Z.mod_small. fold r. lia. }
  assert (Hs : bounded 32 s) by apply word32_bounded.
  assert (Ey : y = Z.lor (Word.shr s r) (word32 (Z.shiftl s (Z.land (word32 (- r)) 31)))).
  { subst y. unfold rand. cbn [fst]. fold saved. fold s. rewrite Hw. reflexivity. }
  assert (By : bounded 32 y).
  { rewrite Ey. apply bounded_lor; [lia | | apply word32_bounded].
    apply bounded_shr; [lia | exact Hs]. }
  split; [exact Hr |]. split; [exact By |].
  split; [| split; [| split; [| split; [| split]]]].
  - intros k Hk. rewrite Ey. apply rotation; assumption.
  - intros E0. rewrite Ey, E0. unfold Word.shr.
    rewrite Z.shiftr_0_r. change (Z.land (word32 (- 0)) 31) with 0.
    rewrite Z.shiftl_0_r. unfold word32 at 1.
    rewrite (Z.mod_small s) by exact Hs. apply Z.lor_diag.
  - reflexivity.
  - subst g'. unfold rand. cbn [snd state]. fold saved.
    unfold Word.add, Word.mul, Word.wrap. apply Z.add_mod_idemp_l. discriminate.
  - unfold call. subst y. destruct (rand mult g) as [y0 g0]. cbn [fst snd] in *.
    destruct By as [B0 B1].
    assert (Hle : y0 <= 0xFFFFFFFF) by (change (2 ^ 32) with 4294967296 in B1; lia).
    apply IZR_le in B0, Hle. unfold Rdiv.
    assert (Hpos : (0 < IZR 0xFFFFFFFF)%R) by (apply IZR_lt; reflexivity).
    assert (Hinv : (0 < / IZR 0xFFFFFFFF)%R) by (apply Rinv_0_lt_compat; exact Hpos).
    split.
    + apply Rmult_le_pos; lra.
    + rewrite <- (Rinv_r (IZR 0xFFFFFFFF)) by lra. apply Rmult_le_compat_r; lra.
  - unfold call. subst g'. destruct (rand mult g) as [y0 g0]. reflexivity.
Qed.

(** The state of an object is a word of 64 bits, from the constructor on. *)
Lemma rand_state (g : Pcg) : bounded 64 (state (snd (rand mult g))).
Proof. unfold rand. cbn [snd state]. unfold Word.add. apply Z.mod_pos_bound. reflexivity. Qed.

Lemma new_state (seed selector : Z) : bounded 64 (state (new mult seed selector)).
Proof.
  unfold new.
  destruct (rand mult _) as [y1 g1]. destruct (rand mult _) as [y2 g2] eqn:E2.
  change g2 with (snd (y2, g2)). rewrite <- E2. apply rand_state.
Qed.

End Pcg_properties.

(** The first call on the object of the reference example. *)
Lemma Pcg_rand_rotates_witness :
  Range.bounded 32 (fst (Pcg.rand Pcg.Pcg_32 (Pcg.new Pcg.Pcg_32 42 54))).
Proof.
  exact (proj1 (proj2 (Pcg_rand_rotates Pcg.Pcg_32 (Pcg.new Pcg.Pcg_32 42 54)
                         (new_state Pcg.Pcg_32 42 54)))).
Defined.

(** ** The Doppler profiles: shape *)

Section Doppler_properties.

Import Profiles.

Local Open Scope R_scope.

Variables sqrt_of_pi speed_of_light elementary_charge electric_constant electron_mass : R.

Local Abbreviation G_Doppler_new :=
  (Profiles.G_Doppler_new speed_of_light elementary_charge electric_constant electron_mass).
Local Abbreviation A_Doppler_new :=
  (Profiles.A_Doppler_new speed_of_light elementary_charge electric_constant electron_mass).
Local Abbreviation G_Doppler_call := (Profiles.G_Doppler_call sqrt_of_pi).
Local Abbreviation A_Doppler_call := (Profiles.A_Doppler_call sqrt_of_pi).
Local Abbreviation f_g := (Profiles.f_g sqrt_of_pi).

Lemma sqr_square (x : R) : sqr x = x * x.
Proof. unfold sqr. destruct (Req_dec_T x 0) as [-> | _]; ring. Qed.

Lemma f_g_even (x gamma : R) : f_g (- x) gamma = f_g x gamma.
Proof.
  unfold Profiles.f_g. rewrite !sqr_square. do 2 f_equal. unfold Rdiv. ring.
Qed.

Lemma truncate_even (f : R -> R -> R) (x b c : R) :
  (forall y, f (- y) b = f y b) -> truncate f (- x) b c = truncate f x b c.
Proof. intros Hf. unfold truncate. rewrite Rabs_Ropp, Hf. reflexivity. Qed.

(** The truncated Gaussian of width [b > 0] is largest at 0. *)
Lemma truncated_gaussian_peak (x b : R) :
  0 < sqrt_of_pi -> 0 < b ->
  0 <= truncate f_g x b 4 <= truncate f_g 0 b 4 /\
  truncate f_g 0 b 4 = 1 / (sqrt_of_pi * b).
Proof.
  intros Hpi Hb.
  assert (Hs : 0 < 1 / (sqrt_of_pi * b)).
  { apply Rdiv_lt_0_compat; [lra |]. apply Rmult_lt_0_compat; assumption. }
  assert (H0 : truncate f_g 0 b 4 = 1 / (sqrt_of_pi * b)).
  { rewrite truncate_inside by (rewrite Rabs_R0; lra).
    unfold Profiles.f_g. rewrite sqr_square. unfold Rdiv at 2.
    rewrite Rmult_0_l, Rmult_0_l, Ropp_0, exp_0. ring. }
  split; [| exact H0]. rewrite H0. unfold truncate.
  destruct (Rlt_dec (Rabs x) (4 * b)) as [_ | _]; [| lra].
  unfold Profiles.f_g. rewrite sqr_square.
  set (t := x / b * (x / b)).
  assert (Ht : 0 <= t) by (subst t; nra).
  assert (He : 0 < exp (- t) <= 1).
  { split; [apply exp_pos |]. rewrite <- exp_0.
    destruct Ht as [Ht | <-]; [left; apply exp_increasing; lra | rewrite Ropp_0; lra]. }
  nra.
Qed.

(** A Doppler profile is symmetric about its central wavelength; if its
    Doppler width is positive, its modulus is largest there, where the
    profile has the value [a / (sqrt(pi) b)]. The same holds for the
    many-multiplet profile. *)
Theorem Doppler_profile_shape (G : G_Doppler) (A : A_Doppler) :
  (forall t, G_Doppler_call G (g_c G + t) = G_Doppler_call G (g_c G - t)) /\
  (forall t, A_Doppler_call A (a_c A + t) = A_Doppler_call A (a_c A - t)) /\
  (0 < sqrt_of_pi -> 0 < g_b G ->
   G_Doppler_call G (g_c G) = g_a G / (sqrt_of_pi * g_b G) /\
   forall x, Rabs (G_Doppler_call G x) <= Rabs (G_Doppler_call G (g_c G))) /\
  (0 < sqrt_of_pi -> 0 < a_b A ->
   A_Doppler_call A (a_c A) = a_a A / (sqrt_of_pi * a_b A) /\
   forall x, Rabs (A_Doppler_call A x) <= Rabs (A_Doppler_call A (a_c A))).
Proof.
  split; [| split; [| split]].
  - intros t. unfold Profiles.G_Doppler_call. f_equal.
    replace (g_c G + t - g_c G) with (- (g_c G - t - g_c G)) by ring.
    apply truncate_even. intros y. apply f_g_even.
  - intros t. unfold Profiles.A_Doppler_call. f_equal.
    replace (a_c A + t - a_c A) with (- (a_c A - t - a_c A)) by ring.
    apply truncate_even. intros y. apply f_g_even.
  - intros Hpi Hb. unfold Profiles.G_Doppler_call.
    replace (g_c G - g_c G) with 0 by ring.
    destruct (truncated_gaussian_peak 0 (g_b G) Hpi Hb) as [_ H0].
    split; [rewrite H0; unfold Rdiv; ring |].
    intros x. rewrite !Rabs_mult. apply Rmult_le_compat_l; [apply Rabs_pos |].
    destruct (truncated_gaussian_peak (x - g_c G) (g_b G) Hpi Hb) as [[Hx0 Hx1] _].
    rewrite !Rabs_pos_eq; lra.
  - intros Hpi Hb. unfold Profiles.A_Doppler_call.
    replace (a_c A - a_c A) with 0 by ring.
    destruct (truncated_gaussian_peak 0 (a_b A) Hpi Hb) as [_ H0].
    split; [rewrite H0; unfold Rdiv; ring |].
    intros x. rewrite !Rabs_mult. apply Rmult_le_compat_l; [apply Rabs_pos |].
    destruct (truncated_gaussian_peak (x - a_c A) (a_b A) Hpi Hb) as [[Hx0 Hx1] _].
    rewrite !Rabs_pos_eq; lra.
Qed.

(** Without a variation of the fine-structure constant ([q[7] = 0]), or
    with a relativistic correction coefficient [q[6] = 0], the
    many-multiplet profile is the Doppler profile with the same rest
    wavelength, oscillator strength, redshift, radial velocity, broadening
    velocity and column density. *)
Theorem A_Doppler_without_variation (q0 q1 q2 q3 q4 q5 q6 q7 : R) (rest rest' : list R) :
  q0 <> 0 ->
  q6 = 0 \/ q7 = 0 ->
  exists G A,
    G_Doppler_new (q0 :: q1 :: q2 :: q3 :: q4 :: q5 :: rest) = Some G /\
    A_Doppler_new (q0 :: q1 :: q2 :: q3 :: q4 :: q5 :: q6 :: q7 :: rest') = Some A /\
    a_u A = q0 /\ a_c A = g_c G /\ a_b A = g_b G /\ a_a A = g_a G /\
    forall x, A_Doppler_call A x = G_Doppler_call G x.
Proof.
  intros Hq0 Hq.
  assert (Hu : 1e8 / (1e8 / q0 + q6 * (q7 * micro) * (q7 * micro + 2)) = q0).
  { replace (q6 * (q7 * micro) * (q7 * micro + 2)) with 0
      by (destruct Hq as [-> | ->]; ring).
    field. exact Hq0. }
  do 2 eexists. split; [reflexivity |]. split; [reflexivity |].
  unfold Profiles.A_Doppler_call, Profiles.G_Doppler_call.
  cbv zeta. cbn [a_u a_c a_b a_a g_c g_b g_a]. rewrite Hu.
  repeat split.
Qed.

End Doppler_properties.

(** The Lyman alpha line; the profile of the many-multiplet analysis
    without variation of the fine-structure constant is the Doppler
    profile. *)
Lemma A_Doppler_without_variation_witness :
  exists G A,
    Profiles.G_Doppler_new Example.speed_of_light Example.elementary_charge
      Example.electric_constant Example.electron_mass Example.lyman_alpha = Some G /\
    Profiles.A_Doppler_new Example.speed_of_light Example.elementary_charge
      Example.electric_constant Example.electron_mass
      (Example.lyman_alpha ++ [100; 0])%R = Some A /\
    forall x, Profiles.A_Doppler_call Example.sqrt_of_pi A x =
              Profiles.G_Doppler_call Example.sqrt_of_pi G x.
Proof.
  destruct (A_Doppler_without_variation Example.sqrt_of_pi Example.speed_of_light
              Example.elementary_charge Example.electric_constant Example.electron_mass
              1215.67 0.4164 1 0 5 13 100 0 [] [])%R
    as (G & A & HG & HA & _ & _ & _ & _ & Hcall).
  - lra.
  - right. reflexivity.
  - exists G, A. split; [exact HG |]. split; [exact HA | exact Hcall].
Defined.

(** A profile with central wavelength 1, Doppler width 1 and amplitude 2. *)
Lemma Doppler_profile_shape_witness :
  (Rabs (Profiles.G_Doppler_call Example.sqrt_of_pi (Profiles.mkG 1 1 2) 1.5) <=
   Rabs (Profiles.G_Doppler_call Example.sqrt_of_pi (Profiles.mkG 1 1 2) 1))%R.
Proof.
  assert (Hpi : (0 < Example.sqrt_of_pi)%R).
  { unfold Example.sqrt_of_pi. apply sqrt_lt_R0. apply PI_RGT_0. }
  exact (proj2 (proj1 (proj2 (proj2
           (Doppler_profile_shape Example.sqrt_of_pi (Profiles.mkG 1 1 2)
              (Profiles.mkA 1 1 1 2))))
           Hpi Rlt_0_1) 1.5%R).
Defined.

(** ** The Voigt profiles *)

Section Voigt_properties.

Import Profiles Voigt.

Local Open Scope R_scope.

Variables pi sqrt_of_pi speed_of_light elementary_charge electric_constant electron_mass : R.

Local Abbreviation f_g := (Profiles.f_g sqrt_of_pi).
Local Abbreviation f_l := (Voigt.f_l pi).
Local Abbreviation Pseudo_Voigt_call := (Voigt.Pseudo_Voigt_call pi sqrt_of_pi).
Local Abbreviation Extended_Pseudo_Voigt_call := (Voigt.Extended_Pseudo_Voigt_call pi sqrt_of_pi).

Lemma c_g_pos : 0 < c_g.
Proof.
  unfold c_g. apply Rmult_lt_0_compat; [lra |]. apply sqrt_lt_R0.
  rewrite <- ln_1. apply ln_increasing; lra.
Qed.

Lemma pow_ge_1 (x y : R) : 1 <= x -> 0 <= y -> 1 <= pow_ x y.
Proof.
  intros Hx Hy. unfold pow_, Rpower. rewrite <- exp_0.
  assert (Hln : 0 <= ln x).
  { rewrite <- ln_1. destruct Hx as [Hx | <-]; [left; apply ln_increasing; lra | lra]. }
  assert (H : 0 <= y * ln x) by (apply Rmult_le_pos; assumption).
  destruct H as [H | <-]; [left; apply exp_increasing; exact H | lra].
Qed.

(** The Lorentzian of a positive width is positive. *)
Lemma f_l_pos (x gamma : R) : 0 < pi -> 0 < gamma -> 0 < f_l x gamma.
Proof.
  intros Hpi Hg. unfold Voigt.f_l. apply Rdiv_lt_0_compat; [lra |].
  rewrite sqr_square. apply Rmult_lt_0_compat; [apply Rmult_lt_0_compat; assumption |].
  nra.
Qed.

(** The Gaussian of a positive width is positive. *)
Lemma f_g_pos (x gamma : R) : 0 < sqrt_of_pi -> 0 < gamma -> 0 < f_g x gamma.
Proof.
  intros Hpi Hg. unfold Profiles.f_g. apply Rmult_lt_0_compat; [| apply exp_pos].
  apply Rdiv_lt_0_compat; [lra |]. apply Rmult_lt_0_compat; assumption.
Qed.

Lemma sqr_even (x gamma : R) : sqr (- x / gamma) = sqr (x / gamma).
Proof. rewrite !sqr_square. unfold Rdiv. ring. Qed.

Lemma f_l_even (x gamma : R) : f_l (- x) gamma = f_l x gamma.
Proof. unfold Voigt.f_l. rewrite sqr_even. reflexivity. Qed.

(** The pseudo-Voigt approximation for a Gaussian of width [b >= 0] and a
    Lorentzian of width [d > 0] is a convex combination of a Gaussian and a
    Lorentzian of positive widths: the mixing parameter [eta] lies between
    0 and 1, and the approximation is positive and symmetric. *)
Theorem Pseudo_Voigt_convex (b d : R) :
  0 < pi -> 0 < sqrt_of_pi -> 0 <= b -> 0 < d ->
  let p := Pseudo_Voigt_new b d in
  0 < pv_r p <= 1 /\
  0 < pv_eta p <= 1 /\
  0 < pv_gamma_g p /\ 0 < pv_gamma_l p /\
  (forall x, 0 < Pseudo_Voigt_call p x) /\
  (forall x, Pseudo_Voigt_call p (- x) = Pseudo_Voigt_call p x).
Proof.
  intros Hpi Hspi Hb Hd p. pose proof c_g_pos as Hcg.
  assert (Hcl : c_l = 2) by reflexivity.
  set (u := (c_g * b) / (c_l * d)).
  assert (Hu : 0 <= u).
  { subst u. rewrite Hcl. apply Rmult_le_pos; [apply Rmult_le_pos; lra |].
    left. apply Rinv_0_lt_compat. lra. }
  set (s := 1 + u * (0.07842 + u * (4.47163 + u * (2.42843 + u * (u + 2.69269))))).
  assert (Hs : 1 <= s).
  { subst s.
    assert (0 <= u * (u + 2.69269)) by nra.
    assert (0 <= u * (2.42843 + u * (u + 2.69269))) by nra.
    assert (0 <= u * (4.47163 + u * (2.42843 + u * (u + 2.69269)))) by nra.
    assert (0 <= u * (0.07842 + u * (4.47163 + u * (2.42843 + u * (u + 2.69269))))) by nra.
    lra. }
  pose proof (pow_ge_1 s 0.2 Hs ltac:(lra)) as Hpow.
  assert (Er : pv_r p = 1 / pow_ s 0.2) by reflexivity.
  assert (Hr : 0 < pv_r p <= 1).
  { rewrite Er. split.
    - apply Rdiv_lt_0_compat; lra.
    - apply Rmult_le_reg_r with (pow_ s 0.2); [lra |]. field_simplify; lra. }
  set (r := pv_r p) in *.
  assert (Eeta : pv_eta p = r * (1.36603 - r * (0.47719 - r * 0.11116))) by reflexivity.
  assert (Heta : 0 < pv_eta p <= 1).
  { rewrite Eeta. destruct Hr as [Hr0 Hr1]. split.
    - apply Rmult_lt_0_compat; [exact Hr0 |]. nra.
    - assert (E : 1 - r * (1.36603 - r * (0.47719 - r * 0.11116)) =
                  (1 - r) * (1 - 0.36603 * r + 0.11116 * (r * r))) by lra.
      assert (0 <= (1 - r) * (1 - 0.36603 * r + 0.11116 * (r * r)));
        [apply Rmult_le_pos; nra | lra]. }
  assert (Hgg : 0 < pv_gamma_g p).
  { change (pv_gamma_g p) with ((2 * d) / (c_g * r)).
    apply Rdiv_lt_0_compat; [lra |]. apply Rmult_lt_0_compat; lra. }
  assert (Hgl : 0 < pv_gamma_l p).
  { change (pv_gamma_l p) with ((2 * d) / (2 * r)).
    apply Rdiv_lt_0_compat; [lra |]. apply Rmult_lt_0_compat; lra. }
  split; [exact Hr |]. split; [exact Heta |]. split; [exact Hgg |]. split; [exact Hgl |].
  split.
  - intros x. unfold Voigt.Pseudo_Voigt_call.
    pose proof (f_g_pos x _ Hspi Hgg). pose proof (f_l_pos x _ Hpi Hgl).
    destruct Heta as [He0 He1].
    apply Rplus_le_lt_0_compat; [apply Rmult_le_pos; lra | apply Rmult_lt_0_compat; lra].
  - intros x. unfold Voigt.Pseudo_Voigt_call. rewrite f_g_even, f_l_even. reflexivity.
Qed.

Lemma poly_0 (h0 h1 h2 h3 h4 h5 h6 : R) : poly 0 h0 h1 h2 h3 h4 h5 h6 = h0.
Proof. unfold poly. ring. Qed.

Lemma poly_1 (h0 h1 h2 h3 h4 h5 h6 : R) :
  poly 1 h0 h1 h2 h3 h4 h5 h6 = h0 + h1 + h2 + h3 + h4 + h5 + h6.
Proof. unfold poly. ring. Qed.

Lemma cosh_even (x : R) : cosh (- x) = cosh x.
Proof. unfold cosh. rewrite Ropp_involutive. f_equal. apply Rplus_comm. Qed.

Lemma f_i_even (x gamma : R) : Voigt.f_i (- x) gamma = Voigt.f_i x gamma.
Proof. unfold Voigt.f_i. rewrite sqr_even. reflexivity. Qed.

Lemma f_p_even (x gamma : R) : Voigt.f_p (- x) gamma = Voigt.f_p x gamma.
Proof.
  unfold Voigt.f_p. replace (- x / gamma) with (- (x / gamma)) by (unfold Rdiv; ring).
  rewrite cosh_even. reflexivity.
Qed.

(** The two approximations are exact in the limits of the Voigt function:
    without a Gaussian ([b = 0]) both are the Lorentzian of width [d], and
    without a Lorentzian ([d = 0]) the extended approximation is the
    Gaussian of width [b]. The extended approximation is symmetric. *)
Theorem Voigt_approximations_limits (b d x : R) :
  (d <> 0 -> Pseudo_Voigt_call (Pseudo_Voigt_new 0 d) x = f_l x d) /\
  (d <> 0 -> Extended_Pseudo_Voigt_call (Extended_Pseudo_Voigt_new 0 d) x = f_l x d) /\
  (b <> 0 -> Extended_Pseudo_Voigt_call (Extended_Pseudo_Voigt_new b 0) x = f_g x b) /\
  Extended_Pseudo_Voigt_call (Extended_Pseudo_Voigt_new b d) (- x) =
  Extended_Pseudo_Voigt_call (Extended_Pseudo_Voigt_new b d) x.
Proof.
  pose proof c_g_pos as Hcg.
  split; [| split; [| split]].
  - intros Hd. unfold Voigt.Pseudo_Voigt_call, Pseudo_Voigt_new. cbv zeta.
    cbn [pv_eta pv_gamma_g pv_gamma_l].
    assert (Hu : c_g * 0 / (c_l * d) = 0) by (unfold Rdiv; ring).
    rewrite Hu.
    assert (Hr : 1 / pow_ (1 + 0 * (0.07842 + 0 * (4.47163 + 0 * (2.42843 + 0 * (0 + 2.69269))))) 0.2 = 1).
    { replace (1 + 0 * (0.07842 + 0 * (4.47163 + 0 * (2.42843 + 0 * (0 + 2.69269))))) with 1
        by ring.
      unfold pow_, Rpower. rewrite ln_1, Rmult_0_r, exp_0. lra. }
    rewrite Hr.
    replace (1 * (1.36603 - 1 * (0.47719 - 1 * 0.11116))) with 1 by lra.
    replace (c_l * d / (c_l * 1)) with d by (unfold c_l; field).
    ring.
  - intros Hd. unfold Voigt.Extended_Pseudo_Voigt_call, Extended_Pseudo_Voigt_new. cbv zeta.
    cbn [ev_eta_l ev_eta_i ev_eta_p ev_gamma_g ev_gamma_l ev_gamma_i ev_gamma_p].
    replace (c_g * 0 + c_l * d) with (c_l * d) by ring.
    replace (c_l * d / (c_l * d)) with 1 by (unfold c_l; field; exact Hd).
    assert (El : poly_eta_l 1 = 1) by (unfold poly_eta_l; ring).
    assert (Ei : poly_eta_i 1 = 0) by (unfold poly_eta_i; ring).
    assert (Ep : poly_eta_p 1 = 0) by (unfold poly_eta_p; ring).
    assert (Ew : poly_w_l 1 = 1) by (unfold poly_w_l; ring).
    rewrite El, Ei, Ep, Ew.
    replace (c_l * d * 1 / c_l) with d by (unfold c_l; field).
    ring.
  - intros Hb. unfold Voigt.Extended_Pseudo_Voigt_call, Extended_Pseudo_Voigt_new. cbv zeta.
    cbn [ev_eta_l ev_eta_i ev_eta_p ev_gamma_g ev_gamma_l ev_gamma_i ev_gamma_p].
    replace (c_g * b + c_l * 0) with (c_g * b) by ring.
    replace (c_l * 0 / (c_g * b)) with 0 by (unfold Rdiv; ring).
    assert (El : poly_eta_l 0 = 0) by (unfold poly_eta_l; ring).
    assert (Ei : poly_eta_i 0 = 0) by (unfold poly_eta_i; ring).
    assert (Ep : poly_eta_p 0 = 0) by (unfold poly_eta_p; ring).
    assert (Ew : poly_w_g 0 = 1) by (unfold poly_w_g; ring).
    rewrite El, Ei, Ep, Ew.
    replace (c_g * b * 1 / c_g) with b by (field; lra).
    ring.
  - unfold Voigt.Extended_Pseudo_Voigt_call.
    rewrite f_g_even, f_l_even, f_i_even, f_p_even. reflexivity.
Qed.

Local Abbreviation G_Doppler_new :=
  (Profiles.G_Doppler_new speed_of_light elementary_charge electric_constant electron_mass).
Local Abbreviation Intergalactic_Voigt_new :=
  (Voigt.Intergalactic_Voigt_new pi speed_of_light elementary_charge electric_constant
     electron_mass Extended_Pseudo_Voigt Extended_Pseudo_Voigt_new).
Local Abbreviation Intergalactic_Voigt_call :=
  (Voigt.Intergalactic_Voigt_call Extended_Pseudo_Voigt Extended_Pseudo_Voigt_call).

(** Without damping ([q[6] = 0]) the Voigt profile with the extended
    pseudo-Voigt approximation is the Doppler profile with the same
    parameters, at every wavelength less than four Doppler widths away from
    the central wavelength, where the Doppler profile is not truncated. *)
Theorem Intergalactic_Voigt_without_damping (q0 q1 q2 q3 q4 q5 : R) (rest rest' : list R) :
  exists G V,
    G_Doppler_new (q0 :: q1 :: q2 :: q3 :: q4 :: q5 :: rest) = Some G /\
    Intergalactic_Voigt_new (q0 :: q1 :: q2 :: q3 :: q4 :: q5 :: 0 :: rest') = Some V /\
    iv_c _ V = g_c G /\ iv_a _ V = g_a G /\
    (g_b G <> 0 ->
     forall x, Rabs (x - g_c G) < 4 * g_b G ->
       Intergalactic_Voigt_call V x = Profiles.G_Doppler_call sqrt_of_pi G x).
Proof.
  do 2 eexists. split; [reflexivity |]. split; [reflexivity |].
  cbv zeta. cbn [iv_c iv_a g_c g_a g_b].
  split; [reflexivity |]. split; [reflexivity |].
  intros Hb x Hx. unfold Voigt.Intergalactic_Voigt_call, Profiles.G_Doppler_call.
  cbn [iv_c iv_a iv_approximation g_c g_a g_b].
  rewrite truncate_inside by exact Hx.
  unfold Voigt.c0, Voigt.c1, Voigt.c2, Profiles.C0, Profiles.C1, pow_ in *.
  f_equal.
  match goal with
  | |- Voigt.Extended_Pseudo_Voigt_call _ _ (Extended_Pseudo_Voigt_new ?b ?d) ?y = _ =>
      replace d with 0 by ring;
      apply (proj1 (proj2 (proj2 (Voigt_approximations_limits b 0 y))))
  end.
  exact Hb.
Qed.

End Voigt_properties.

(** The approximation of the Voigt function with the widths 1 and 1. *)
Lemma Pseudo_Voigt_convex_witness :
  (0 < Voigt.pv_eta (Voigt.Pseudo_Voigt_new 1 1) <= 1)%R.
Proof.
  assert (Hpi : (0 < Example.sqrt_of_pi)%R).
  { unfold Example.sqrt_of_pi. apply sqrt_lt_R0. apply PI_RGT_0. }
  exact (proj1 (proj2 (Pseudo_Voigt_convex PI Example.sqrt_of_pi 1 1
                         PI_RGT_0 Hpi Rle_0_1 Rlt_0_1))).
Defined.

(** ** Superpositions of profiles *)

Section Superposition_properties.

Local Open Scope R_scope.

Variable Profile : Type.
Variable parameter_count : nat.
Variable Profile_new : list R -> option Profile.
Variable Profile_call : Profile -> R -> R.

Local Abbreviation Superposition_new :=
  (Model.Superposition_new Profile parameter_count Profile_new).
Local Abbreviation Superposition_call := (Profiles.Superposition_call Profile_call).

Lemma sum_from (ps : list Profile) (x d : R) :
  fold_left (fun d p => d + Profile_call p x) ps d =
  d + fold_left (fun d p => d + Profile_call p x) ps 0.
Proof.
  revert d. induction ps as [| p ps IH]; intros d; cbn [fold_left]; [ring |].
  rewrite (IH (d + Profile_call p x)), (IH (0 + Profile_call p x)). ring.
Qed.

(** A superposition of [n1 + n2] profiles on a parameter vector consists of
    the superposition of the first [n1] profiles and of the superposition
    of [n2] profiles on the rest of the vector, and its value is the sum of
    the values of the two; the value of a superposition is the sum of the
    values of its profiles, and zero if there is none. *)
Theorem Superposition_additive (n1 n2 : nat) (q : list R) (x : R) :
  Superposition_new (n1 + n2) q =
    (ps1 ← Superposition_new n1 q;
     ps2 ← Superposition_new n2 (drop (n1 * parameter_count) q);
     Some (ps1 ++ ps2)) /\
  (forall ps1 ps2,
     Superposition_call (ps1 ++ ps2) x =
     Superposition_call ps1 x + Superposition_call ps2 x) /\
  (forall p ps,
     Superposition_call (p :: ps) x = Profile_call p x + Superposition_call ps x) /\
  Superposition_call [] x = 0.
Proof.
  split; [| split; [| split]].
  - revert q. induction n1 as [| n1 IH]; intros q.
    + cbn [Model.Superposition_new Nat.add Nat.mul mbind option_bind]. rewrite drop_0.
      destruct (Superposition_new n2 q); reflexivity.
    + cbn [Model.Superposition_new Nat.add].
      destruct (Profile_new q) as [p |]; cbn [mbind option_bind]; [| reflexivity].
      rewrite IH.
      destruct (Superposition_new n1 (drop parameter_count q)) as [ps1 |];
        cbn [mbind option_bind]; [| reflexivity].
      rewrite drop_drop. replace (parameter_count + n1 * parameter_count)%nat
        with (S n1 * parameter_count)%nat by lia.
      destruct (Superposition_new n2 _); reflexivity.
  - intros ps1 ps2. unfold Profiles.Superposition_call.
    rewrite fold_left_app. apply sum_from.
  - intros p ps. unfold Profiles.Superposition_call. cbn [fold_left].
    rewrite sum_from. ring.
  - reflexivity.
Qed.

End Superposition_properties.

(** ** The eigenproblem solvers: transposition, the other drivers *)

Section Transpose_properties.

Import Decompose.

Lemma cell (n i : nat) :
  i < n * n -> exists r c, r < n /\ c < n /\ i = r * n + c.
Proof.
  intros Hi. assert (Hn : n <> 0) by (intros ->; lia).
  exists (i / n), (i mod n). split; [| split].
  - apply Nat.Div0.div_lt_upper_bound. lia.
  - apply Nat.mod_upper_bound. exact Hn.
  - rewrite (Nat.div_mod_eq i n) at 1. lia.
Qed.

(** The conversion between column-major and row-major layout is an
    involution: transposing an array of [n * n] entries twice gives the
    array back, and the transposition leaves a symmetric matrix as it is. *)
Theorem transpose_involutive (n : nat) (A : list R) :
  length A = n * n ->
  exists A',
    transpose n A = Some A' /\
    transpose n A' = Some A /\
    ((forall r c, r < n -> c < n -> A !! (r * n + c) = A !! (c * n + r)) -> A' = A).
Proof.
  intros Hlen.
  destruct (transpose_spec n A Hlen) as (A' & HA' & Hlen' & Hspec).
  destruct (transpose_spec n A' Hlen') as (A'' & HA'' & Hlen'' & Hspec').
  exists A'. split; [exact HA' |]. split.
  - rewrite HA''. f_equal. apply list_eq. intros i.
    destruct (Nat.lt_ge_cases i (n * n)) as [Hi | Hi].
    + destruct (cell n i Hi) as (r & c & Hr & Hc & ->).
      rewrite (Hspec' r c Hr Hc). apply (Hspec c r Hc Hr).
    + rewrite !lookup_ge_None_2 by lia. reflexivity.
  - intros Hsym. apply list_eq. intros i.
    destruct (Nat.lt_ge_cases i (n * n)) as [Hi | Hi].
    + destruct (cell n i Hi) as (r & c & Hr & Hc & ->).
      rewrite (Hspec r c Hr Hc). symmetry. apply (Hsym r c Hr Hc).
    + rewrite !lookup_ge_None_2 by lia. reflexivity.
Qed.

End Transpose_properties.

(** A matrix of order 2. *)
Lemma transpose_involutive_witness :
  Decompose.transpose 2 [1; 2; 3; 4]%R = Some [1; 3; 2; 4]%R /\
  Decompose.transpose 2 [1; 3; 2; 4]%R = Some [1; 2; 3; 4]%R.
Proof.
  destruct (transpose_involutive 2 [1; 2; 3; 4]%R eq_refl) as (A' & H1 & H2 & _).
  assert (E : Decompose.transpose 2 [1; 2; 3; 4]%R = Some [1; 3; 2; 4]%R)
    by (lazy; reflexivity).
  rewrite E in H1. injection H1 as <-. split; [exact E | exact H2].
Defined.

Section Drivers_properties.

Import Decompose Drivers.

Variable syevd : forall (n : Z) (A : list R) (lda lwork liwork : Z), syevd_out.
Variable syevx : forall (n : Z) (A : list R) (lda ldz lwork : Z), syevx_out.

(** The drivers for DSYEVD and DSYEVX end as the routine reports: they
    throw the runtime error for [info > 0] and the invalid-argument error
    for [info < 0], and they return for [info = 0], with the eigenvalues
    and with the eigenvectors converted to row-major layout. *)
Theorem D_X_Decompose_call_spec (D : D_Decompose) (X : X_Decompose) (A : list R) :
  (d_n D * d_n D <= length A ->
   let out := syevd (Z.of_nat (d_n D)) (take (d_n D * d_n D) A) (Z.of_nat (d_n D))
                (d_lwork D) (d_liwork D) in
   length (d_matrix out) = d_n D * d_n D ->
   (D_Decompose_call syevd D A = Throws (runtime_error D_message_int_err)
      <-> (0 < d_info out)%Z) /\
   (D_Decompose_call syevd D A = Throws (invalid_argument D_message_ill_arg)
      <-> (d_info out < 0)%Z) /\
   ((exists r, D_Decompose_call syevd D A = Returns r) <-> d_info out = 0%Z) /\
   (d_info out = 0%Z ->
    exists Z',
      D_Decompose_call syevd D A = Returns (Z', d_eigenvalues out) /\
      length Z' = d_n D * d_n D /\
      forall r c, r < d_n D -> c < d_n D ->
        Z' !! (r * d_n D + c) = d_matrix out !! (c * d_n D + r))) /\
  (x_n X * x_n X <= length A ->
   let out := syevx (Z.of_nat (x_n X)) (take (x_n X * x_n X) A) (Z.of_nat (x_n X))
                (Z.of_nat (x_n X)) (x_lwork X) in
   length (x_eigenvectors out) = x_n X * x_n X ->
   (X_Decompose_call syevx X A = Throws (runtime_error X_message_int_err)
      <-> (0 < x_info out)%Z) /\
   (X_Decompose_call syevx X A = Throws (invalid_argument X_message_ill_arg)
      <-> (x_info out < 0)%Z) /\
   ((exists r, X_Decompose_call syevx X A = Returns r) <-> x_info out = 0%Z) /\
   (x_info out = 0%Z ->
    exists Z',
      X_Decompose_call syevx X A = Returns (Z', x_eigenvalues out) /\
      length Z' = x_n X * x_n X /\
      forall r c, r < x_n X -> c < x_n X ->
        Z' !! (r * x_n X + c) = x_eigenvectors out !! (c * x_n X + r))).
Proof.
  split.
  - intros HA out HZ.
    destruct (transpose_spec (d_n D) (d_matrix out) HZ) as (Z' & HT & HlenZ & Hrc).
    unfold D_Decompose_call.
    destruct (Nat.leb_spec (d_n D * d_n D) (length A)) as [_ | Hlt]; [| lia].
    fold out. rewrite HT.
    destruct (Z.eqb_spec (d_info out) 0) as [E0 | N0].
    + repeat split; try discriminate; try lia; eauto.
    + destruct (Z.ltb_spec 0 (d_info out)) as [Hpos | Hneg].
      * repeat split; try discriminate; try lia; try reflexivity.
        intros [r Hr]. discriminate.
      * repeat split; try discriminate; try lia; try reflexivity.
        intros [r Hr]. discriminate.
  - intros HA out HZ.
    destruct (transpose_spec (x_n X) (x_eigenvectors out) HZ) as (Z' & HT & HlenZ & Hrc).
    unfold X_Decompose_call.
    destruct (Nat.leb_spec (x_n X * x_n X) (length A)) as [_ | Hlt]; [| lia].
    fold out. rewrite HT.
    destruct (Z.eqb_spec (x_info out) 0) as [E0 | N0].
    + repeat split; try discriminate; try lia; eauto.
    + destruct (Z.ltb_spec 0 (x_info out)) as [Hpos | Hneg].
      * repeat split; try discriminate; try lia; try reflexivity.
        intros [r Hr]. discriminate.
      * repeat split; try discriminate; try lia; try reflexivity.
        intros [r Hr]. discriminate.
Qed.

End Drivers_properties.

(** A matrix of order 1: the eigenvalue is its entry, the eigenvector is 1. *)
Lemma D_X_Decompose_call_spec_witness :
  Drivers.D_Decompose_call Drivers.syevd_small
    {| Drivers.d_n := 1; Drivers.d_lwork := 1; Drivers.d_liwork := 1 |} [5%R] =
    Decompose.Returns ([1%R], [5%R]) /\
  Drivers.X_Decompose_call Drivers.syevx_small
    {| Drivers.x_n := 1; Drivers.x_lwork := 1 |} [5%R] =
    Decompose.Returns ([1%R], [5%R]).
Proof.
  destruct (D_X_Decompose_call_spec Drivers.syevd_small Drivers.syevx_small
    {| Drivers.d_n := 1; Drivers.d_lwork := 1; Drivers.d_liwork := 1 |}
    {| Drivers.x_n := 1; Drivers.x_lwork := 1 |} [5%R]) as [HD HX].
  split.
  - destruct HD as (_ & _ & _ & H); [cbn; lia | reflexivity |].
    destruct (H eq_refl) as (Z' & HZ & Hlen & Hrc).
    rewrite HZ. specialize (Hrc 0 0 (le_n 1) (le_n 1)).
    destruct Z' as [| z [| z' Z']]; try discriminate.
    injection Hrc as ->. reflexivity.
  - destruct HX as (_ & _ & _ & H); [cbn; lia | reflexivity |].
    destruct (H eq_refl) as (Z' & HZ & Hlen & Hrc).
    rewrite HZ. specialize (Hrc 0 0 (le_n 1) (le_n 1)).
    destruct Z' as [| z [| z' Z']]; try discriminate.
    injection Hrc as ->. reflexivity.
Defined.

(** ** Reading vectors from a stream *)

Section Readline_properties.

Import Readline.

Variable stream : Type.
Variable ok : stream -> bool.

Section One.

Variable A : Type.
Variable get_A : stream -> A * stream.

(** An extraction from a stream that has failed leaves it failed. *)
Hypothesis sticky : forall is_, ok is_ = false -> ok (snd (get_A is_)) = false.

Lemma extractions_sticky (n : nat) (is_ : stream) :
  ok is_ = false -> ok (snd (extractions stream A get_A n is_)) = false.
Proof.
  revert is_. induction n as [| n IH]; intros is_ H; [exact H |].
  cbn [extractions]. pose proof (sticky is_ H) as H1.
  destruct (get_A is_) as [aa is1]. cbn [snd] in H1.
  specialize (IH is1 H1).
  destruct (extractions stream A get_A n is1) as [l is2]. exact IH.
Qed.

Lemma extractions_length (n : nat) (is_ : stream) :
  length (fst (extractions stream A get_A n is_)) = n.
Proof.
  revert is_. induction n as [| n IH]; intros is_; [reflexivity |].
  cbn [extractions]. destruct (get_A is_) as [aa is1].
  specialize (IH is1).
  destruct (extractions stream A get_A n is1) as [l is2].
  cbn [fst length] in *. rewrite IH. reflexivity.
Qed.

Lemma times_step (n : nat) (is_ : stream) (ta : list A) :
  fst (times n (step stream ok A get_A) (is_, ta)) =
    snd (extractions stream A get_A n is_) /\
  (ok (snd (extractions stream A get_A n is_)) = true ->
   snd (times n (step stream ok A get_A) (is_, ta)) =
     ta ++ fst (extractions stream A get_A n is_)).
Proof.
  revert is_ ta. induction n as [| n IH]; intros is_ ta.
  - cbn. split; [reflexivity |]. intros _. rewrite app_nil_r. reflexivity.
  - cbn [times extractions step].
    destruct (get_A is_) as [aa is1].
    destruct (ok is1) eqn:E1.
    + destruct (IH is1 (ta ++ [aa])) as [H1 H2].
      destruct (extractions stream A get_A n is1) as [l is2].
      cbn [fst snd] in *. split; [exact H1 |].
      intros H. rewrite (H2 H), <- app_assoc. reflexivity.
    + destruct (IH is1 ta) as [H1 _].
      pose proof (extractions_sticky n is1 E1) as H3.
      destruct (extractions stream A get_A n is1) as [l is2].
      cbn [fst snd] in *. split; [exact H1 |].
      intros H. congruence.
Qed.

(** [read] is all or nothing. The stream is left as [n] extractions in a
    row leave it. If it has failed then, be it before the call or at one of
    the extractions, the vector is as it was; otherwise the vector holds,
    after its elements if [append] is set and alone if not, the [n]
    values that were extracted. *)
Theorem read_all_or_nothing (is_ : stream) (a : list A) (n : nat) (append : bool) :
  let after := read stream ok A get_A is_ a n append in
  let values := fst (extractions stream A get_A n is_) in
  fst after = snd (extractions stream A get_A n is_) /\
  (ok is_ = false -> ok (fst after) = false) /\
  (ok (fst after) = false -> snd after = a) /\
  (ok (fst after) = true ->
   snd after = (if append then a ++ values else values) /\ length values = n).
Proof.
  intros after values. subst after values. unfold read.
  destruct (times_step n is_ []) as [H1 H2].
  pose proof (extractions_sticky n is_) as H3.
  pose proof (extractions_length n is_) as H4.
  destruct (times n (step stream ok A get_A) (is_, [])) as [is1 ta].
  cbn [fst snd] in H1, H2. subst is1.
  destruct (ok (snd (extractions stream A get_A n is_))) eqn:E.
  - specialize (H2 eq_refl). cbn [app] in H2. subst ta.
    destruct append; cbn [fst snd]; rewrite E;
      (split; [reflexivity |]); (split; [intros H; specialize (H3 H); discriminate |]);
      (split; [discriminate |]); intros _; split; [reflexivity | exact H4 | reflexivity | exact H4].
  - cbn [fst snd]. rewrite E.
    split; [reflexivity |]. split; [intros _; reflexivity |].
    split; [reflexivity | discriminate].
Qed.

End One.

Section Two.

Variables A B : Type.
Variable get_A : stream -> A * stream.
Variable get_B : stream -> B * stream.

Hypothesis sticky_A : forall is_, ok is_ = false -> ok (snd (get_A is_)) = false.
Hypothesis sticky_B : forall is_, ok is_ = false -> ok (snd (get_B is_)) = false.

Lemma get_A_B_sticky (is_ : stream) :
  ok is_ = false -> ok (snd (get_A_B stream A B get_A get_B is_)) = false.
Proof.
  intros H. unfold get_A_B. pose proof (sticky_A is_ H) as H1.
  destruct (get_A is_) as [aa is1]. cbn [snd] in H1.
  pose proof (sticky_B is1 H1) as H2.
  destruct (get_B is1) as [bb is2]. exact H2.
Qed.

Lemma times_step_2 (n : nat) (is_ : stream) (ta : list A) (tb : list B) :
  let st := times n (step stream ok (A * B) (get_A_B stream A B get_A get_B))
              (is_, zip ta tb) in
  length ta = length tb ->
  exists ta' tb',
    times n (step_2 stream ok A B get_A get_B) (is_, ta, tb) = (fst st, ta', tb') /\
    length ta' = length tb' /\ zip ta' tb' = snd st.
Proof.
  revert is_ ta tb. induction n as [| n IH]; intros is_ ta tb st Hlen.
  - exists ta, tb. subst st. cbn. auto.
  - subst st. cbn [times step step_2].
    destruct (get_A_B stream A B get_A get_B is_) as [[aa bb] is1].
    destruct (ok is1).
    + destruct (IH is1 (ta ++ [aa]) (tb ++ [bb])) as (ta' & tb' & H1 & H2 & H3).
      { rewrite !length_app, Hlen. reflexivity. }
      exists ta', tb'. rewrite H1. split; [| split; [exact H2 |]].
      * rewrite zip_with_app by exact Hlen. reflexivity.
      * rewrite H3, zip_with_app by exact Hlen. reflexivity.
    + apply (IH is1 ta tb Hlen).
Qed.

(** [read] for two vectors is all or nothing for both of them. The stream
    is left as [n] extractions [is >> aa >> bb] in a row leave it. If it
    has failed then, both vectors are as they were; otherwise each of them
    holds, after its elements if [append] is set and alone if not, [n]
    values, which are pair by pair the values that were extracted. *)
Theorem read_2_all_or_nothing (is_ : stream) (a : list A) (b : list B) (n : nat)
    (append : bool) :
  let after := read_2 stream ok A B get_A get_B is_ a b n append in
  let pairs := extractions stream (A * B) (get_A_B stream A B get_A get_B) n is_ in
  fst (fst after) = snd pairs /\
  (ok (fst (fst after)) = false -> snd (fst after) = a /\ snd after = b) /\
  (ok (fst (fst after)) = true ->
   exists ta tb,
     length ta = n /\ length tb = n /\ zip ta tb = fst pairs /\
     snd (fst after) = (if append then a ++ ta else ta) /\
     snd after = (if append then b ++ tb else tb)).
Proof.
  intros after pairs. subst after pairs. unfold read_2.
  destruct (times_step_2 n is_ [] [] eq_refl) as (ta & tb & H1 & H2 & H3).
  destruct (times_step (A * B) (get_A_B stream A B get_A get_B) get_A_B_sticky
              n is_ []) as [H4 H5].
  pose proof (extractions_length (A * B) (get_A_B stream A B get_A get_B) n is_) as H6.
  cbn [zip_with] in H1, H3. rewrite H1. rewrite H4 in *.
  destruct (ok (snd (extractions stream (A * B) (get_A_B stream A B get_A get_B) n is_)))
    eqn:E.
  - specialize (H5 eq_refl). cbn [app] in H5. rewrite H5 in H3.
    assert (Hta : length ta = n).
    { rewrite <- H6, <- H3, length_zip_with. lia. }
    assert (Htb : length tb = n) by lia.
    destruct append; cbn [fst snd]; rewrite E;
      (split; [reflexivity |]); (split; [discriminate |]);
      intros _; exists ta, tb; auto.
  - cbn [fst snd]. rewrite E. split; [reflexivity |].
    split; [auto | discriminate].
Qed.

End Two.

End Readline_properties.

(** Three numbers are read from a stream that holds four. *)
Lemma read_all_or_nothing_witness :
  Readline.read Readline.numbers Readline.numbers_ok nat Readline.get_number
    {| Readline.left_ := [Some 1; Some 2; Some 3; Some 4]; Readline.failed := false |}
    [7] 3 true =
  ({| Readline.left_ := [Some 4]; Readline.failed := false |}, [7; 1; 2; 3]).
Proof.
  assert (Hs : forall s, Readline.numbers_ok s = false ->
            Readline.numbers_ok (snd (Readline.get_number s)) = false).
  { intros [l f] H. unfold Readline.numbers_ok in H. cbn in H.
    destruct f; [| discriminate]. reflexivity. }
  destruct (read_all_or_nothing Readline.numbers Readline.numbers_ok nat
              Readline.get_number Hs
              {| Readline.left_ := [Some 1; Some 2; Some 3; Some 4];
                 Readline.failed := false |} [7] 3 true) as (H1 & _ & _ & H2).
  destruct (H2 ltac:(rewrite H1; reflexivity)) as [H3 _].
  rewrite (surjective_pairing (Readline.read _ _ _ _ _ _ _ _)), H1, H3.
  reflexivity.
Defined.

(** Pairs are read from a stream that holds a number, text that is not a
    number and a number: the stream fails and the vectors are as they
    were. *)
Lemma read_2_all_or_nothing_witness :
  snd (fst (Readline.read_2 Readline.numbers Readline.numbers_ok nat nat
    Readline.get_number Readline.get_number
    {| Readline.left_ := [Some 1; None; Some 3]; Readline.failed := false |}
    [7] [8] 1 false)) = [7] /\
  snd (Readline.read_2 Readline.numbers Readline.numbers_ok nat nat
    Readline.get_number Readline.get_number
    {| Readline.left_ := [Some 1; None; Some 3]; Readline.failed := false |}
    [7] [8] 1 false) = [8].
Proof.
  assert (Hs : forall s, Readline.numbers_ok s = false ->
            Readline.numbers_ok (snd (Readline.get_number s)) = false).
  { intros [l f] H. unfold Readline.numbers_ok in H. cbn in H.
    destruct f; [| discriminate]. reflexivity. }
  destruct (read_2_all_or_nothing Readline.numbers Readline.numbers_ok nat nat
              Readline.get_number Readline.get_number Hs Hs
              {| Readline.left_ := [Some 1; None; Some 3];
                 Readline.failed := false |} [7] [8] 1 false) as (H1 & H2 & _).
  apply H2. rewrite H1. reflexivity.
Defined.

(** ** Wavelengths in air and in vacuum *)

Section Wavelength_properties.

Import Decompose Equations Vactoair Airtovac.

Local Open Scope R_scope.

(** The utility [vactoair] computes the equation of Edlen (1966) as
    [Equations::edlen66] has it. For a wavelength in vacuum of 2000
    Angstrom or more the wavelength in air that [main] computes is the
    wavelength in vacuum divided by a refractive index between 1.00027
    and 1.00033. *)
Theorem vactoair_refraction (x : R) :
  vactoair x = edlen66 x /\
  (2000 <= x ->
   exists a, 1.00027 < a < 1.00033 /\ convert x = x / a /\
             x / 1.00033 < convert x < x / 1.00027).
Proof.
  split.
  - unfold vactoair, edlen66. cbv zeta. f_equal. lra.
  - intros Hx. unfold convert, vactoair. cbv zeta.
    set (k := 10.0 / x).
    assert (Hx0 : 0 < x) by lra.
    assert (Hk : 0 < k <= 0.005).
    { unfold k. split.
      - apply Rdiv_lt_0_compat; lra.
      - apply (Rmult_le_reg_r x); [exact Hx0 |].
        unfold Rdiv. rewrite Rmult_assoc, Rinv_l by lra. lra. }
    assert (Hkk : 0 < k * k <= 0.000025) by nra.
    set (p := 0.0000389 - k * k) in *.
    set (q := 0.000130 - k * k) in *.
    assert (Hp : 0.0000139 <= p <= 0.0000389) by (unfold p; lra).
    assert (Hq : 0.000105 <= q <= 0.000130) by (unfold q; lra).
    set (u := 1.5997e-10 / p).
    set (v := 2.406030e-08 / q).
    assert (Hu : u * p = 1.5997e-10).
    { unfold u, Rdiv. rewrite Rmult_assoc, Rinv_l by lra. lra. }
    assert (Hv : v * q = 2.406030e-08).
    { unfold v, Rdiv. rewrite Rmult_assoc, Rinv_l by lra. lra. }
    assert (Hu0 : 0 < u) by (unfold u; apply Rdiv_lt_0_compat; lra).
    assert (Hv0 : 0 < v) by (unfold v; apply Rdiv_lt_0_compat; lra).
    assert (Hu1 : 1.5997e-10 <= u * 0.0000389) by nra.
    assert (Hu2 : u * 0.0000139 <= 1.5997e-10) by nra.
    assert (Hv1 : 2.406030e-08 <= v * 0.000130) by nra.
    assert (Hv2 : v * 0.000105 <= 2.406030e-08) by nra.
    set (a := 1.0000834213 + u + v).
    assert (Ha : 1.00027 < a < 1.00033) by (unfold a; lra).
    assert (Eq : 10.0 / (a * k) = x / a).
    { unfold k. field. lra. }
    exists a. split; [exact Ha |]. split; [exact Eq |].
    rewrite Eq. unfold Rdiv.
    split; apply Rmult_lt_compat_l; try exact Hx0; apply Rinv_lt_contravar; nra.
Qed.

Lemma solve_from_returns (count : nat) (f : R -> R * R) (c x accuracy_goal r : R) :
  solve_from count f c x accuracy_goal = Returns r ->
  exists x0,
    r = x0 - (fst (f x0) - c) / snd (f x0) /\
    Rabs ((fst (f x0) - c) / snd (f x0)) < accuracy_goal * r.
Proof.
  revert x. induction count as [| count IH]; intros x H; [discriminate |].
  cbn [solve_from] in H. destruct (f x) as [y z] eqn:E.
  destruct (Rlt_dec _ _) as [Hlt | Hge].
  - injection H as <-. exists x. rewrite E. cbn [fst snd]. split; [reflexivity | exact Hlt].
  - apply (IH _ H).
Qed.

(** The test for convergence of [solve] is relative to the solution: what
    is returned is a Newton step from some point, a step that is smaller
    than the accuracy goal times the solution. So with a positive
    accuracy goal no solution is returned that is not positive. *)
Theorem solve_returns_positive (f : R -> R * R) (c x accuracy_goal r : R) :
  solve f c x accuracy_goal = Returns r ->
  (exists x0,
     r = x0 - (fst (f x0) - c) / snd (f x0) /\
     Rabs (x0 - r) < accuracy_goal * r) /\
  0 < accuracy_goal * r /\
  (0 < accuracy_goal -> 0 < r).
Proof.
  intros H. destruct (solve_from_returns _ _ _ _ _ _ H) as (x0 & Hr & Hd).
  assert (Hpos : 0 < accuracy_goal * r).
  { eapply Rle_lt_trans; [apply Rabs_pos | exact Hd]. }
  split; [| split; [exact Hpos |]].
  - exists x0. split; [exact Hr |].
    replace (x0 - r) with ((fst (f x0) - c) / snd (f x0)) by lra. exact Hd.
  - intros Ha. nra.
Qed.

Lemma solve_from_fixed (count : nat) (f : R -> R * R) (c x accuracy_goal : R) :
  (fst (f x) - c) / snd (f x) = 0 ->
  solve_from count f c x accuracy_goal =
    if Rlt_dec 0 (accuracy_goal * x) then
      match count with
      | O => Throws (runtime_error message_accuracy)
      | S _ => Returns x
      end
    else Throws (runtime_error message_accuracy).
Proof.
  intros H. induction count as [| count IH].
  - cbn. destruct (Rlt_dec _ _); reflexivity.
  - cbn [solve_from]. destruct (f x) as [y z]. cbn [fst snd] in H.
    rewrite H, Rabs_R0, Rminus_0_r.
    destruct (Rlt_dec 0 (accuracy_goal * x)) as [Hlt | Hge]; [reflexivity | exact IH].
Qed.

(** For a linear equation [a * x + b = c] with [a <> 0] Newton's method
    is at the solution after one step, whatever the initial guess is:
    [solve] returns the solution [(c - b) / a] if the accuracy goal times
    the solution is positive, and otherwise it throws, after its hundred
    iterations, though it has found the solution. *)
Theorem solve_linear (a b c x accuracy_goal : R) :
  a <> 0 ->
  let f := fun x : R => (a * x + b, a) in
  let s := (c - b) / a in
  (0 < accuracy_goal * s -> solve f c x accuracy_goal = Returns s) /\
  (accuracy_goal * s <= 0 ->
   solve f c x accuracy_goal = Throws (runtime_error message_accuracy)).
Proof.
  intros Ha f s.
  assert (Hs : x - (a * x + b - c) / a = s) by (unfold s; field; exact Ha).
  assert (Hfix : (fst (f s) - c) / snd (f s) = 0).
  { unfold f, s. cbn [fst snd]. field. exact Ha. }
  unfold solve. change 100%nat with (S (S 98)). generalize 98%nat as k. intros k.
  change (solve_from (S (S k)) f c x accuracy_goal) with
    (if Rlt_dec (Rabs ((a * x + b - c) / a)) (accuracy_goal * (x - (a * x + b - c) / a))
     then Returns (x - (a * x + b - c) / a)
     else solve_from (S k) f c (x - (a * x + b - c) / a) accuracy_goal).
  rewrite Hs.
  rewrite (solve_from_fixed (S k) f c s accuracy_goal Hfix).
  split; intros H.
  - destruct (Rlt_dec (Rabs _) _); [reflexivity |].
    destruct (Rlt_dec 0 _); [reflexivity | contradiction].
  - destruct (Rlt_dec (Rabs _) _) as [Hlt | _].
    + pose proof (Rabs_pos ((a * x + b - c) / a)). lra.
    + destruct (Rlt_dec 0 _); [lra | reflexivity].
Qed.

End Wavelength_properties.

(** The wavelength 5000 Angstrom in vacuum. *)
Lemma vactoair_refraction_witness :
  (5000 / 1.00033 < Vactoair.convert 5000 < 5000 / 1.00027)%R.
Proof.
  destruct (vactoair_refraction 5000%R) as [_ H].
  destruct H as (a & _ & _ & H); [lra | exact H].
Defined.

(** The equation [2 * x + 1 = 7], from the initial guess 1 and with the
    default of the accuracy goal. *)
Lemma solve_linear_witness :
  Airtovac.solve (fun x : R => (2 * x + 1, 2)%R) 7%R 1%R Airtovac.accuracy_goal_default =
    Decompose.Returns ((7 - 1) / 2)%R.
Proof.
  destruct (solve_linear 2%R 1%R 7%R 1%R Airtovac.accuracy_goal_default) as [H _];
    [lra |].
  apply H. unfold Airtovac.accuracy_goal_default. lra.
Defined.

(** The equation [2 * x + 1 = 7], from its solution 3 as initial guess. *)
Lemma solve_returns_positive_witness :
  Airtovac.solve (fun x : R => (2 * x + 1, 2)%R) 7%R 3%R
    Airtovac.accuracy_goal_default = Decompose.Returns ((7 - 1) / 2)%R /\
  (0 < (7 - 1) / 2)%R.
Proof.
  assert (H : Airtovac.solve (fun x : R => (2 * x + 1, 2)%R) 7%R 3%R
                Airtovac.accuracy_goal_default = Decompose.Returns ((7 - 1) / 2)%R).
  { unfold Airtovac.solve. change 100%nat with (S 99). generalize 99%nat as k. intros k.
    cbn [Airtovac.solve_from].
    destruct (Rlt_dec _ _) as [_ | Hn].
    - f_equal. lra.
    - exfalso. apply Hn. unfold Airtovac.accuracy_goal_default.
      replace ((2 * 3 + 1 - 7) / 2)%R with 0%R by lra.
      rewrite Rabs_R0. lra. }
  split; [exact H |].
  destruct (solve_returns_positive _ _ _ _ _ H) as (_ & _ & Hp).
  apply Hp. unfold Airtovac.accuracy_goal_default. lra.
Defined.

(** ** The PCG generator: sequences *)

Section Pcg_sequences.

Import Range Pcg.

Local Open Scope Z_scope.

Variable mult : Z.

Lemma odd_invertible_upto (k : nat) (d : Z) :
  Z.odd mult = true -> (2 ^ Z.of_nat k | d * mult) -> (2 ^ Z.of_nat k | d).
Proof.
  intros Hodd. revert d. induction k as [| k IH]; intros d Hdiv.
  - apply Z.divide_1_l.
  - rewrite Nat2Z.inj_succ, Z.pow_succ_r in * by lia.
    destruct Hdiv as [q Hq].
    assert (He : Z.even d = true).
    { assert (H : Z.even (d * mult) = true).
      { rewrite Hq, (Z.mul_comm 2), Z.mul_assoc, Z.even_mul. cbn. apply orb_true_r. }
      rewrite Z.even_mul, <- (Z.negb_odd mult), Hodd, orb_false_r in H. exact H. }
    apply Z.even_spec in He. destruct He as [d' ->].
    apply Z.mul_divide_mono_l, IH. exists q. lia.
Qed.

Lemma odd_invertible (d : Z) :
  Z.odd mult = true -> (2 ^ 64 | d * mult) -> (2 ^ 64 | d).
Proof.
  exact (odd_invertible_upto 64 d).
Qed.

Lemma step_injective (c s1 s2 : Z) :
  Z.odd mult = true -> bounded 64 s1 -> bounded 64 s2 ->
  Word.add (Word.mul s1 mult) c = Word.add (Word.mul s2 mult) c -> s1 = s2.
Proof.
  unfold bounded, Word.add, Word.mul, Word.wrap, Word.digits.
  intros Hodd H1 H2 E.
  rewrite !Zplus_mod_idemp_l in E.
  assert (Hd : (2 ^ 64 | (s1 - s2) * mult)).
  { apply Z.mod_divide; [lia |].
    replace ((s1 - s2) * mult) with ((s1 * mult + c) - (s2 * mult + c)) by ring.
    rewrite Zminus_mod, E, Z.sub_diag. reflexivity. }
  destruct (odd_invertible _ Hodd Hd) as [q Hq]. nia.
Qed.

Lemma rand_keeps (g : Pcg) :
  inc (snd (rand mult g)) = inc g /\ bounded 64 (state (snd (rand mult g))).
Proof.
  unfold rand. cbn [snd inc state]. split; [reflexivity |].
  unfold bounded, Word.add, Word.wrap, Word.digits. apply Z.mod_pos_bound. lia.
Qed.

Lemma skip_keeps (k : nat) (g : Pcg) :
  bounded 64 (state g) ->
  inc (skip mult k g) = inc g /\ bounded 64 (state (skip mult k g)).
Proof.
  revert g. induction k as [| k IH]; intros g Hg; [split; [reflexivity | exact Hg] |].
  cbn [skip]. destruct (rand_keeps g) as [H1 H2].
  destruct (rand mult g) as [y g1]. cbn [snd] in H1, H2.
  destruct (IH g1 H2) as [H3 H4]. split; [congruence | exact H4].
Qed.

(** The sequences of the generator. The constructor makes the increment
    odd: it is twice the sequence selector plus one, modulo [2^64], so the
    most significant bit of the selector is not used, and two selectors
    that differ in that bit only give the same generator. The state is a
    word of 64 bits. With an odd multiplier the step of the state is a
    permutation of these words: two generators with the same increment
    that are in the same state after [k] calls of [rand] have been in the
    same state before, so different sequences of states never merge. *)
Theorem Pcg_sequences_never_merge (seed selector : Z) :
  Z.odd mult = true ->
  let g := new mult seed selector in
  inc g = (2 * selector + 1) mod 2 ^ 64 /\
  Z.odd (inc g) = true /\
  bounded 64 (state g) /\
  new mult seed (selector + 2 ^ 63) = g /\
  (forall (k : nat) (g1 g2 : Pcg),
     bounded 64 (state g1) -> bounded 64 (state g2) -> inc g1 = inc g2 ->
     state (skip mult k g1) = state (skip mult k g2) -> g1 = g2).
Proof.
  intros Hodd g.
  assert (Hinc : forall sel, Z.lor (Word.shl sel 1) 1 = (2 * sel + 1) mod 2 ^ 64).
  { intros sel. unfold Word.shl, Word.wrap, Word.digits.
    rewrite Z.shiftl_mul_pow2 by lia. change (2 ^ 1) with 2.
    assert (E : (sel * 2) mod 2 ^ 64 = 2 * (sel mod 2 ^ 63)).
    { change (2 ^ 64) with (2 * 2 ^ 63). rewrite (Z.mul_comm sel 2).
      rewrite Zmult_mod_distr_l. reflexivity. }
    rewrite E.
    assert (E1 : Z.lor (2 * (sel mod 2 ^ 63)) 1 = 2 * (sel mod 2 ^ 63) + 1).
    { apply Z.bits_inj'. intros n Hn.
      rewrite Z.lor_spec.
      destruct (Z.eq_dec n 0) as [-> | Hn0].
      - rewrite Z.testbit_odd_0. cbn. apply orb_true_r.
      - replace n with (Z.succ (n - 1)) by lia.
        rewrite Z.testbit_even_succ, Z.testbit_odd_succ by lia.
        replace (Z.testbit 1 (Z.succ (n - 1))) with false; [apply orb_false_r |].
        symmetry. apply Z.bits_above_log2; cbn; lia. }
    rewrite E1.
    pose proof (Z.mod_pos_bound sel (2 ^ 63) ltac:(lia)) as Hb.
    symmetry. rewrite (Z.div_mod sel (2 ^ 63)) at 1 by lia.
    replace (2 * (2 ^ 63 * (sel / 2 ^ 63) + sel mod 2 ^ 63) + 1)
      with (2 * (sel mod 2 ^ 63) + 1 + (sel / 2 ^ 63) * 2 ^ 64) by (change (2 ^ 64) with (2 * 2 ^ 63); ring).
    rewrite Z.mod_add by lia. apply Z.mod_small.
    change (2 ^ 64) with (2 * 2 ^ 63). lia. }
  assert (Hg : forall sel, inc (new mult seed sel) = Z.lor (Word.shl sel 1) 1 /\
                           bounded 64 (state (new mult seed sel))).
  { intros sel. unfold new, rand. cbn [inc state]. split; [reflexivity |].
    unfold bounded, Word.add, Word.wrap, Word.digits. apply Z.mod_pos_bound. lia. }
  assert (Hnew : forall sel1 sel2,
            Z.lor (Word.shl sel1 1) 1 = Z.lor (Word.shl sel2 1) 1 ->
            new mult seed sel1 = new mult seed sel2).
  { intros sel1 sel2 E. unfold new, rand. cbn [inc state]. rewrite E. reflexivity. }
  destruct (Hg selector) as [Hi Hs]. fold g in Hi, Hs.
  split; [rewrite Hi; apply Hinc |].
  split.
  { rewrite Hi, Hinc.
    rewrite <- Z.bit0_odd. change (2 ^ 64) with (2 ^ 64) .
    rewrite Z.mod_pow2_bits_low by lia. rewrite Z.bit0_odd.
    rewrite Z.add_comm, Z.odd_add_mul_2. reflexivity. }
  split; [exact Hs |].
  split.
  { apply Hnew. rewrite !Hinc.
    replace (2 * (selector + 2 ^ 63) + 1) with (2 * selector + 1 + 1 * 2 ^ 64)
      by (change (2 ^ 64) with (2 * 2 ^ 63); ring).
    apply Z.mod_add. lia. }
  intros k. induction k as [| k IH]; intros g1 g2 H1 H2 Ei E.
  - cbn [skip] in E. destruct g1, g2. cbn in *. congruence.
  - cbn [skip] in E.
    destruct (rand_keeps g1) as [Hi1 Hb1]. destruct (rand_keeps g2) as [Hi2 Hb2].
    assert (Es : state (snd (rand mult g1)) = state (snd (rand mult g2))).
    { destruct (rand mult g1) as [y1 g1'], (rand mult g2) as [y2 g2'].
      cbn [snd] in *. 
      assert (Eg : g1' = g2') by (apply IH; congruence).
      rewrite Eg. reflexivity. }
    unfold rand in Es. cbn [snd state] in Es. rewrite Ei in Es.
    pose proof (step_injective _ _ _ Hodd H1 H2 Es) as E12.
    destruct g1, g2. cbn in *. congruence.
Qed.

End Pcg_sequences.

(** The generator of the demonstration program: seed 42, selector 54. *)
Lemma Pcg_sequences_never_merge_witness :
  Pcg.inc (Pcg.new Pcg.Pcg_32 42 54) = 109%Z /\
  Pcg.new Pcg.Pcg_32 42 (54 + 2 ^ 63) = Pcg.new Pcg.Pcg_32 42 54.
Proof.
  destruct (Pcg_sequences_never_merge Pcg.Pcg_32 42 54 eq_refl) as (H1 & _ & _ & H2 & _).
  split; [rewrite H1; reflexivity | exact H2].
Defined.

(** ** The objective functions of the optimizer test *)

Section Optimizer_test_properties.

Import Optimizer_test.

Local Open Scope R_scope.

Variable sq : R -> R.

Hypothesis sq_square : forall x, sq x = x * x.

Lemma for_up_sum (t : nat -> R) (body : nat -> R -> option R)
    (count k0 : nat) (y0 : R) :
  (forall k s, (k0 <= k < k0 + count)%nat -> body k s = Some (s + t k)) ->
  (forall k, (k0 <= k < k0 + count)%nat -> 0 <= t k) ->
  exists y,
    for_up count k0 body y0 = Some y /\ y0 <= y /\
    (y = y0 <-> forall k, (k0 <= k < k0 + count)%nat -> t k = 0).
Proof.
  revert k0 y0. induction count as [| count IH]; intros k0 y0 Hbody Ht.
  - exists y0. cbn. split; [reflexivity |]. split; [lra |].
    split; [intros _ k Hk; lia | reflexivity].
  - cbn [for_up]. rewrite Hbody by lia.
    destruct (IH (S k0) (y0 + t k0)) as (y & Hy & Hle & Hiff).
    { intros k s Hk. apply Hbody. lia. }
    { intros k Hk. apply Ht. lia. }
    pose proof (Ht k0 ltac:(lia)) as H0.
    exists y. split; [exact Hy |]. split; [lra |]. split.
    + intros E k Hk.
      assert (E0 : t k0 = 0) by lra.
      destruct (Nat.eq_dec k k0) as [-> | Hne]; [exact E0 |].
      apply Hiff; [lra | lia].
    + intros Hall.
      assert (E0 : t k0 = 0) by (apply Hall; lia).
      assert (E1 : y = y0 + t k0) by (apply Hiff; intros k Hk; apply Hall; lia).
      lra.
Qed.

Lemma square_zero (a : R) : a * a = 0 -> a = 0.
Proof.
  intros H. destruct (Rmult_integral _ _ H); assumption.
Qed.

Lemma weighted_squares_zero (u v : R) :
  100.0 * (u * u) + v * v = 0 -> u = 0 /\ v = 0.
Proof.
  intros H. pose proof (Rle_0_sqr u) as Hu. pose proof (Rle_0_sqr v) as Hv.
  unfold Rsqr in Hu, Hv. split; apply square_zero; lra.
Qed.

Lemma sum_of_squares (x : list R) (lo : nat) :
  exists y,
    for_ lo (length x) (fun i y => xi ← at_ x i; Some (y + sq xi)) 0 = Some y /\
    0 <= y /\
    (y = 0 <-> forall i xi, (lo <= i)%nat -> x !! i = Some xi -> xi = 0).
Proof.
  unfold for_.
  destruct (for_up_sum (fun k => sq (default 0 (x !! k)))
              (fun i y => xi ← at_ x i; Some (y + sq xi))
              (length x - lo)%nat lo 0) as (y & Hy & Hle & Hiff).
  - intros k s Hk. unfold at_.
    destruct (lookup_lt_is_Some_2 x k ltac:(lia)) as [xi Hxi].
    rewrite Hxi. reflexivity.
  - intros k _. rewrite sq_square. nra.
  - exists y. split; [exact Hy |]. split; [exact Hle |].
    rewrite Hiff. split.
    + intros H i xi Hi Hxi.
      pose proof (lookup_lt_Some _ _ _ Hxi) as Hlt.
      specialize (H i ltac:(lia)). rewrite Hxi, sq_square in H. cbn in H.
      apply square_zero, H.
    + intros H k Hk.
      destruct (lookup_lt_is_Some_2 x k ltac:(lia)) as [xi Hxi].
      rewrite Hxi. cbn. rewrite (H k xi ltac:(lia) Hxi), sq_square. lra.
Qed.

Lemma for_up_defined {T : Type} (body : nat -> T -> option T)
    (count k0 : nat) (st st' : T) (k : nat) :
  for_up count k0 body st = Some st' -> (k0 <= k < k0 + count)%nat ->
  exists s s', body k s = Some s'.
Proof.
  revert k0 st. induction count as [| count IH]; intros k0 st H Hk; [lia |].
  cbn [for_up] in H. destruct (body k0 st) as [s |] eqn:E; [| discriminate].
  destruct (Nat.eq_dec k k0) as [-> | Hne]; [eauto |].
  apply (IH (S k0) s H). lia.
Qed.

(** The functions that the test minimizes have the minima that the test
    expects, and no others. The sphere and the cigar of a vector are not
    negative, and zero for the zero vector only. The Rosenbrock function
    of a vector of two or more components is not negative, and zero only
    if all components are one; for one component it is zero whatever the
    component is. For the dimension zero the bound [n - 1] of its loop
    wraps around, and the function leaves the array. *)
Theorem test_functions_minima (x : list R) :
  (exists y, sphere sq x (length x) = Some y /\ 0 <= y /\
     (y = 0 <-> forall i xi, x !! i = Some xi -> xi = 0)) /\
  ((1 <= length x)%nat ->
   exists y, cigar sq x (length x) = Some y /\ 0 <= y /\
     (y = 0 <-> forall i xi, x !! i = Some xi -> xi = 0)) /\
  ((1 <= length x)%nat -> (Z.of_nat (length x) < 2 ^ 64)%Z ->
   exists y, rosenbrock sq x (length x) = Some y /\ 0 <= y /\
     (y = 0 <-> ((2 <= length x)%nat -> forall i xi, x !! i = Some xi -> xi = 1))) /\
  ((Z.of_nat (length x) < 2 ^ 64 - 1)%Z -> rosenbrock sq x 0 = None).
Proof.
  split; [| split; [| split]].
  - unfold sphere.
    destruct (sum_of_squares x 0) as (y & Hy & Hle & Hiff).
    exists y. split; [exact Hy |]. split; [exact Hle |].
    rewrite Hiff. split.
    + intros H i xi. apply H. lia.
    + intros H i xi _. apply H.
  - intros Hn. unfold cigar.
    destruct (sum_of_squares x 1) as (y & Hy & Hle & Hiff).
    rewrite Hy. cbn [mbind option_bind]. unfold at_.
    destruct (lookup_lt_is_Some_2 x 0%nat ltac:(lia)) as [x0 Hx0].
    rewrite Hx0. cbn [mbind option_bind].
    exists (1.0E+06 * y + sq x0). split; [reflexivity |].
    rewrite sq_square. split; [nra |]. split.
    + intros E i xi Hxi.
      assert (Ey : y = 0) by nra.
      assert (E0 : x0 = 0) by (apply square_zero; nra).
      destruct i as [| i]; [congruence |].
      apply (proj1 Hiff Ey (S i) xi); [lia | exact Hxi].
    + intros H.
      assert (Ey : y = 0) by (apply Hiff; intros i xi _; apply H).
      rewrite Ey, (H 0%nat x0 Hx0). lra.
  - intros Hn Hmax. unfold rosenbrock, for_.
    assert (Ec : Z.to_nat (Word.sub (Z.of_nat (length x)) 1) = (length x - 1)%nat).
    { unfold Word.sub, Word.wrap. rewrite Z.mod_small by lia. lia. }
    rewrite Ec, Nat.sub_0_r.
    destruct (for_up_sum
                (fun k => 100.0 * sq (default 0 (x !! (k + 1)%nat) - sq (default 0 (x !! k)))
                          + sq (1.0 - default 0 (x !! k)))
                (fun i y => x1 ← at_ x (i + 1)%nat; xi ← at_ x i;
                   Some (y + (100.0 * sq (x1 - sq xi) + sq (1.0 - xi))))
                (length x - 1)%nat 0%nat 0) as (y & Hy & Hle & Hiff).
    + intros k s Hk. unfold at_.
      destruct (lookup_lt_is_Some_2 x (k + 1)%nat ltac:(lia)) as [x1 Hx1].
      destruct (lookup_lt_is_Some_2 x k ltac:(lia)) as [xi Hxi].
      rewrite Hx1, Hxi. reflexivity.
    + intros k _. rewrite !sq_square.
      assert (Hpos : forall u v : R, 0 <= 100.0 * (u * u) + v * v) by (intros; nra).
      apply Hpos.
    + exists y. split; [exact Hy |]. split; [exact Hle |].
      rewrite Hiff. split.
      * intros H H2 i xi Hxi.
        pose proof (lookup_lt_Some _ _ _ Hxi) as Hlt.
        destruct (Nat.eq_dec i (length x - 1)%nat) as [Elast | Hne].
        -- specialize (H (i - 1)%nat ltac:(lia)).
           replace (i - 1 + 1)%nat with i in H by lia.
           rewrite Hxi in H.
           destruct (lookup_lt_is_Some_2 x (i - 1)%nat ltac:(lia)) as [xp Hxp].
           rewrite Hxp in H. cbn in H. rewrite !sq_square in H.
           apply weighted_squares_zero in H. destruct H as [Eq Ep].
           assert (E1 : xp = 1) by lra. rewrite E1 in Eq. lra.
        -- specialize (H i ltac:(lia)). rewrite Hxi in H.
           destruct (lookup_lt_is_Some_2 x (i + 1)%nat ltac:(lia)) as [xn Hxn].
           rewrite Hxn in H. cbn in H. rewrite !sq_square in H.
           apply weighted_squares_zero in H. destruct H as [_ Ep]. lra.
      * intros H k Hk.
        destruct (lookup_lt_is_Some_2 x (k + 1)%nat ltac:(lia)) as [x1 Hx1].
        destruct (lookup_lt_is_Some_2 x k ltac:(lia)) as [xi Hxi].
        rewrite Hx1, Hxi. cbn.
        rewrite (H ltac:(lia) _ _ Hx1), (H ltac:(lia) _ _ Hxi), !sq_square. lra.
  - intros Hmax. unfold rosenbrock, for_.
    assert (Ec : Z.to_nat (Word.sub (Z.of_nat 0) 1) = Z.to_nat (2 ^ 64 - 1)) by reflexivity.
    rewrite Ec, Nat.sub_0_r.
    destruct (for_up _ _ _ _) as [y |] eqn:E; [| reflexivity].
    destruct (for_up_defined _ _ _ _ _ (length x) E) as (s & s' & Hs); [lia |].
    unfold at_ in Hs. rewrite (lookup_ge_None_2 x (length x + 1)%nat) in Hs by lia.
    discriminate.
Qed.

End Optimizer_test_properties.

(** The starting point of the Rosenbrock test in two dimensions, and its
    minimum. *)
Lemma test_functions_minima_witness :
  Optimizer_test.rosenbrock Profiles.sqr [0; 0]%R 2 = Some 1%R /\
  Optimizer_test.rosenbrock Profiles.sqr [1; 1]%R 2 = Some 0%R.
Proof.
  assert (Hsq : forall x : R, Profiles.sqr x = (x * x)%R).
  { intros x. unfold Profiles.sqr. destruct (Req_dec_T x 0) as [-> | _]; lra. }
  destruct (test_functions_minima Profiles.sqr Hsq [1; 1]%R) as (_ & _ & H & _).
  destruct H as (y & Hy & _ & Hiff); [cbn; lia | cbn; lia |].
  split.
  - unfold Optimizer_test.rosenbrock, for_, at_.
    change (Z.to_nat (Word.sub (Z.of_nat 2) 1) - 0)%nat with 1%nat.
    cbn -[Profiles.sqr]. rewrite !Hsq. f_equal. lra.
  - cbn [length] in Hy. rewrite Hy. f_equal. apply Hiff.
    intros _ i xi Hxi. destruct i as [| [| i]]; cbn in Hxi;
      [congruence | congruence | destruct i; discriminate].
Defined.
